(** * pypeline: blueprint graphs and memoizing evaluation contexts

    A shallow embedding of [pypeline/common.py], [pypeline/context.py] and
    [pypeline/graph.py], followed by the properties of the blueprint
    construction and runtime evaluation engines.

    Python objects that are mutated in place and shared by reference (node
    states, reachable both from the group tree and from the peer lists of
    other nodes) live in a heap indexed by object identity; every method is a
    function from machines to machines.  Dictionaries whose iteration order
    the code never relies on are [gmap]s; item trees are association lists so
    that the recursions over nested groups stay structural. *)

From stdpp Require Import gmap strings list fin_maps.
From Stdlib Require Import ZArith.

Set Default Proof Using "Type".
Set Warnings "-register-all".

(** ** Python values *)

(** Objects used as dictionary keys or stored in wrapper fields: strings and
    node-state objects (identified by their heap address). *)
Inductive pyobj :=
  | OStr (s : string)
  | ONode (n : nat).

Global Instance pyobj_eq_dec : EqDecision pyobj.
Proof. solve_decision. Defined.

Global Instance pyobj_countable : Countable pyobj.
Proof.
  refine (inj_countable'
    (fun o => match o with OStr s => inl s | ONode n => inr n end)
    (fun x => match x with inl s => OStr s | inr n => ONode n end) _).
  by intros [].
Defined.

(** Values computed by node callables.  [VParams] is the [_params]
    namedtuple of context.py, [VDict] a plain dictionary (what [group]
    returns). *)
Inductive value :=
  | VNone
  | VInt (z : Z)
  | VStr (s : string)
  | VTuple (vs : list value)
  | VParams (args : list value) (kwargs : gmap pyobj value)
  | VDict (d : gmap pyobj value).

Abbreviation dict := (gmap pyobj value).

Inductive exn :=
  | AttributeError
  | KeyError
  | TypeError
  | ValueError
  | RuntimeError          (* maximum recursion depth exceeded *)
  | UserError (tag : string).

Inductive result (A : Type) :=
  | Ok (a : A)
  | Raise (e : exn).
Arguments Ok {A} a.
Arguments Raise {A} e.

Definition is_ok {A} (r : result A) : bool :=
  match r with Ok _ => true | Raise _ => false end.

(** The [group] and [params] constructors. *)
Definition group (kwargs : dict) : value := VDict kwargs.
Definition params (args : list value) (kwargs : dict) : value := VParams args kwargs.

(** ** User callables

    The engine only inspects a callable's kind, its name and its argument
    specification; its behaviour is an arbitrary function of the bound
    arguments and of the state the callable closes over ([world]). *)
Definition world := gmap string value.

Inductive callable_kind :=
  | Function          (* def or lambda *)
  | Method            (* bound method *)
  | CallableObject.   (* instance of a class with __call__ *)

Record callable := Callable {
  kind : callable_kind;
  func_name : string;                 (* func_name / im_func.func_name *)
  spec_args : list string;            (* inspect.getargspec(...).args *)
  spec_varargs : option string;
  spec_keywords : option string;
  body : list value -> gmap string value -> world -> result value * world
}.

(** Expanding a dictionary into keyword arguments needs every key to be a
    string. *)
Definition str_key (o : pyobj) : option string :=
  match o with OStr s => Some s | ONode _ => None end.

Definition str_keys (d : dict) : option (gmap string value) :=
  if forallb (fun kv => bool_decide (is_Some (str_key kv.1))) (map_to_list d)
  then Some (list_to_map (omap (fun kv => s ← str_key kv.1; Some (s, kv.2)) (map_to_list d)))
  else None.

(** ** pypeline/common.py *)

Module EdgeDef.
(** [EdgeDef = namedtuple("EdgeDef", "node param")], as stored in the edge
    maps of a blueprint: [node] is the path of the peer. *)
Record t := mk { node : list string; param : option string }.

Global Instance eq_dec : EqDecision t.
Proof. solve_decision. Defined.
End EdgeDef.

Module NodeDef.
Record t := mk {
  owner : nat;                (* identity of the root graph *)
  func : callable;
  name : string;
  prefix : list string;
  path : list string;
  args : list value;
  kwargs : dict
}.

Definition __init__ (owner : nat) (func : callable) (prefix : list string)
    (name : string) (args : option (list value)) (kwargs : option dict) : t :=
  {| owner := owner; func := func; name := name; prefix := prefix;
     path := prefix ++ [name];
     args := default [] args;
     kwargs := default ∅ kwargs |}.

Definition rebase (self : t) (owner : nat) (prefix : list string) : t :=
  __init__ owner (func self) prefix (name self) (Some (args self)) (Some (kwargs self)).

Definition update (self other : t) : t :=
  {| owner := owner self; func := func other; name := name self;
     prefix := prefix self; path := path self;
     args := args other; kwargs := kwargs other |}.
End NodeDef.

(** ** Blueprint data (pypeline/graph.py)

    A graph's [_items] dictionary maps a name to a node definition or to a
    nested [SubGraph].  A sub-graph holds its own prefix and items; its
    [_downstream], [_upstream] and [_root] fields are references to those of
    the root graph, so they are not repeated in the tree. *)
Inductive bitem :=
  | BNode (d : NodeDef.t)
  | BSub (prefix : list string) (items : list (string * bitem)).

Abbreviation edge_map := (gmap (list string) (list EdgeDef.t)).

(** Name-indexed dictionaries kept as association lists: [d[k]] and
    [d[k] = v]. *)
Fixpoint alist_get {A} (k : string) (l : list (string * A)) : option A :=
  match l with
  | [] => None
  | (k', v) :: rest => if decide (k = k') then Some v else alist_get k rest
  end.

Fixpoint alist_set {A} (k : string) (v : A) (l : list (string * A))
    : list (string * A) :=
  match l with
  | [] => [(k, v)]
  | (k', v') :: rest =>
      if decide (k = k') then (k, v) :: rest else (k', v') :: alist_set k v rest
  end.

(** ** pypeline/context.py *)

Module NodeArgSpec.
Record t := mk {
  args : list string;
  varargs : option string;
  keywords : option string
}.

(** [item in self._args_set]; the set holds parameter names only. *)
Definition __contains__ (self : t) (item : pyobj) : bool :=
  match item with
  | OStr s => bool_decide (s ∈ args self)
  | ONode _ => false
  end.
End NodeArgSpec.

Module ParamTargetNodeStateWrapper.
Record t := mk { _param_name : pyobj; _state : pyobj }.

Definition __init__ (param_name state : pyobj) : t :=
  {| _param_name := param_name; _state := state |}.

(** [return _params((), {self._param_name: self._state._eval_cached()})].
    [read] is the cached read of node states; any other object has no
    [_eval_cached] attribute. *)
Definition _eval_cached {M : Type} (read : nat -> M -> result value * M)
    (self : t) (m : M) : result value * M :=
  match _state self with
  | ONode n =>
      match read n m with
      | (Ok v, m') => (Ok (VParams [] {[ _param_name self := v ]}), m')
      | (Raise e, m') => (Raise e, m')
      end
  | OStr _ => (Raise AttributeError, m)
  end.
End ParamTargetNodeStateWrapper.

(** An entry of [NodeState.upstream]: a node state or a wrapper around one. *)
Inductive peer :=
  | Direct (n : nat)
  | Wrapped (w : ParamTargetNodeStateWrapper.t).

Module NodeState.
Record t := mk {
  name : string;
  func : callable;
  upstream : list peer;
  downstream : list nat;
  _cache : value;
  _dirty : bool;
  _args_spec : NodeArgSpec.t;
  _args : list value;
  _kwargs : dict
}.

Definition __init__ (name : string) (func : callable) (args : list value)
    (kwargs : dict) : t :=
  {| name := name; func := func; upstream := []; downstream := [];
     _cache := VNone; _dirty := true;
     _args_spec :=
       NodeArgSpec.mk
         (match kind func with
          | Function => spec_args func
          | Method | CallableObject => drop 1 (spec_args func)
          end)
         (spec_varargs func) (spec_keywords func);
     _args := args; _kwargs := kwargs |}.

(** Field assignments on one node-state object. *)
Definition with_flags (dirty : bool) (cache : value) (s : t) : t :=
  {| name := name s; func := func s; upstream := upstream s;
     downstream := downstream s; _cache := cache; _dirty := dirty;
     _args_spec := _args_spec s; _args := _args s; _kwargs := _kwargs s |}.

Definition with_dirty (dirty : bool) (s : t) : t := with_flags dirty (_cache s) s.

Definition with_kwargs (kw : dict) (s : t) : t :=
  {| name := name s; func := func s; upstream := upstream s;
     downstream := downstream s; _cache := _cache s; _dirty := _dirty s;
     _args_spec := _args_spec s; _args := _args s; _kwargs := kw |}.

Definition _set_args (args : list value) (s : t) : t :=
  {| name := name s; func := func s; upstream := upstream s;
     downstream := downstream s; _cache := _cache s; _dirty := _dirty s;
     _args_spec := _args_spec s; _args := args; _kwargs := _kwargs s |}.

Definition _add_upstream (node : peer) (s : t) : t :=
  {| name := name s; func := func s; upstream := upstream s ++ [node];
     downstream := downstream s; _cache := _cache s; _dirty := _dirty s;
     _args_spec := _args_spec s; _args := _args s; _kwargs := _kwargs s |}.

Definition _add_downstream (node : nat) (s : t) : t :=
  {| name := name s; func := func s; upstream := upstream s;
     downstream := downstream s ++ [node]; _cache := _cache s; _dirty := _dirty s;
     _args_spec := _args_spec s; _args := _args s; _kwargs := _kwargs s |}.

(** The part of [kwargs] that [_set_kwargs] stores: everything when the
    signature has a keyword catch-all, otherwise the declared names only. *)
Definition accepted (spec : NodeArgSpec.t) (kwargs : dict) : dict :=
  match NodeArgSpec.keywords spec with
  | None => filter (fun kv => NodeArgSpec.__contains__ spec kv.1 = true) kwargs
  | Some _ => kwargs
  end.

Definition _set_kwargs (kwargs : dict) (replace : bool) (s : t) : t :=
  let current := if replace then ∅ else _kwargs s in
  with_kwargs (accepted (_args_spec s) kwargs ∪ current) s.
End NodeState.

(** The objects of one runtime instance: the node states by identity, the
    state closed over by the user callables, and a log of the nodes whose
    callable has been invoked (specification-only, never read by the code). *)
Record machine := Machine {
  heap : gmap nat NodeState.t;
  world_of : world;
  calls : list nat
}.

Definition with_heap (h : gmap nat NodeState.t) (m : machine) : machine :=
  {| heap := h; world_of := world_of m; calls := calls m |}.

Definition is_dirty (m : machine) (n : nat) : bool :=
  match heap m !! n with
  | Some s => NodeState._dirty s
  | None => false
  end.

(** *** Methods of [NodeStateBase] and [NodeState]

    Each method takes the heap address [self] of the node state it is called
    on.  An address outside the heap has no counterpart in Python (object
    references cannot dangle); reads through one raise, writes are no-ops. *)
Module Node.

(** Calling [self.func] with the assembled arguments, for the node at
    address [self]. *)
Definition invoke (self : nat) (f : callable) (args : list value) (kwargs : dict)
    (m : machine) : result value * machine :=
  match str_keys kwargs with
  | None => (Raise TypeError, m)
  | Some kw =>
      let '(r, w) := body f args kw (world_of m) in
      (r, {| heap := heap m; world_of := w; calls := calls m ++ [self] |})
  end.

Definition peer_eval_cached (read : nat -> machine -> result value * machine)
    (p : peer) (m : machine) : result value * machine :=
  match p with
  | Direct n => read n m
  | Wrapped w => ParamTargetNodeStateWrapper._eval_cached read w m
  end.

(** The loop of [NodeState._eval] over [self.upstream]. *)
Fixpoint collect (read : nat -> machine -> result value * machine)
    (ups : list peer) (combined_args : list value) (combined_kwargs : dict)
    (m : machine) : result (list value * dict) * machine :=
  match ups with
  | [] => (Ok (combined_args, combined_kwargs), m)
  | upstream_node :: rest =>
      match peer_eval_cached read upstream_node m with
      | (Raise e, m') => (Raise e, m')
      | (Ok (VParams a k), m') =>
          collect read rest (combined_args ++ a) (k ∪ combined_kwargs) m'
      | (Ok incoming, m') =>
          collect read rest (combined_args ++ [incoming]) combined_kwargs m'
      end
  end.

(** Body of [NodeState._eval], the cached reads of the upstream peers being
    done by [read]. *)
Definition _eval_from (read : nat -> machine -> result value * machine)
    (self : nat) (args : list value) (kwargs : dict) (m : machine)
    : result value * machine :=
  match heap m !! self with
  | None => (Raise AttributeError, m)
  | Some s =>
      match collect read (NodeState.upstream s) [] kwargs m with
      | (Raise e, m') => (Raise e, m')
      | (Ok (combined_args, combined_kwargs), m') =>
          invoke self (NodeState.func s) (combined_args ++ args) combined_kwargs m'
      end
  end.

(** [self._cache = ...; self._dirty = False] *)
Definition store_result (self : nat) (v : value) (m : machine) : machine :=
  with_heap (alter (NodeState.with_flags false v) self (heap m)) m.

(** [NodeState._eval_cached].  [fuel] bounds the nesting depth of cached
    reads; running out of it is the interpreter's "maximum recursion depth
    exceeded" error. *)
Fixpoint _eval_cached (fuel : nat) (self : nat) (m : machine)
    : result value * machine :=
  match fuel with
  | 0 => (Raise RuntimeError, m)
  | S fuel =>
      match heap m !! self with
      | None => (Raise AttributeError, m)
      | Some s =>
          if NodeState._dirty s then
            match _eval_from (_eval_cached fuel) self (NodeState._args s)
                    (NodeState._kwargs s) m with
            | (Ok v, m') => (Ok v, store_result self v m')
            | (Raise e, m') => (Raise e, m')
            end
          else (Ok (NodeState._cache s), m)
      end
  end.

Definition _eval (fuel : nat) (self : nat) (args : list value) (kwargs : dict)
    (m : machine) : result value * machine :=
  _eval_from (_eval_cached fuel) self args kwargs m.

(** [self._dirty = True; self._cache = None] *)
Definition mark_dirty (self : nat) (m : machine) : machine :=
  with_heap (alter (NodeState.with_flags true VNone) self (heap m)) m.

(** [NodeStateBase._invalidate], returning also the nodes whose guard
    [if not self._dirty] was passed, in visiting order (specification-only).
    The recursion is bounded by [fuel]; [_invalidate] below supplies enough
    of it for the recursion to run to completion. *)
Fixpoint _invalidate_within (fuel : nat) (self : nat) (m : machine)
    : machine * list nat :=
  match fuel with
  | 0 => (m, [])
  | S fuel =>
      match heap m !! self with
      | None => (m, [])
      | Some s =>
          if NodeState._dirty s then (m, [])
          else
            foldl (fun acc node =>
                     let '(m', visited) := _invalidate_within fuel node acc.1 in
                     (m', acc.2 ++ visited))
                  (mark_dirty self m, [self]) (NodeState.downstream s)
      end
  end.

Definition _invalidate (self : nat) (m : machine) : machine :=
  (_invalidate_within (S (size (heap m))) self m).1.

Definition visited (self : nat) (m : machine) : list nat :=
  (_invalidate_within (S (size (heap m))) self m).2.

(** [self._set_args(args); self._set_kwargs(kwargs)] *)
Definition store_params (self : nat) (args : list value) (kwargs : dict)
    (m : machine) : machine :=
  with_heap (alter (fun s => NodeState._set_kwargs kwargs true
                               (NodeState._set_args args s)) self (heap m)) m.

(** [self._set_kwargs(kwargs, replace=False)] *)
Definition merge_kwargs (self : nat) (kwargs : dict) (m : machine) : machine :=
  with_heap (alter (NodeState._set_kwargs kwargs false) self (heap m)) m.

(** [self._set_args(args); self._set_kwargs(kwargs); self._invalidate()] *)
Definition _set_params (self : nat) (args : list value) (kwargs : dict)
    (m : machine) : machine :=
  _invalidate self (store_params self args kwargs m).

Definition set (self : nat) (args : list value) (kwargs : dict) (m : machine)
    : machine :=
  _set_params self args kwargs m.

(** [self._set_kwargs(kwargs, replace=False); self._invalidate()] *)
Definition update (self : nat) (kwargs : dict) (m : machine) : machine :=
  _invalidate self (merge_kwargs self kwargs m).

Definition __call__ (fuel : nat) (self : nat) (args : list value) (kwargs : dict)
    (m : machine) : result value * machine :=
  _eval fuel self args kwargs m.

Definition val (fuel : nat) (self : nat) (m : machine) : result value * machine :=
  _eval_cached fuel self m.

End Node.

(** ** Specification-level notions for the evaluation engine *)

(** The target of an upstream entry: the node whose cached value it reads. *)
Definition peer_target (p : peer) : option nat :=
  match p with
  | Direct n => Some n
  | Wrapped w =>
      match ParamTargetNodeStateWrapper._state w with
      | ONode n => Some n
      | OStr _ => None
      end
  end.

(** [frame S m m']: going from [m] to [m'] leaves the objects in [S] alone
    and invokes none of their callables. *)
Definition frame (S : gset nat) (m m' : machine) : Prop :=
  (forall s, s ∈ S -> heap m' !! s = heap m !! s) /\
  exists l, calls m' = calls m ++ l /\ forall s, s ∈ S -> s ∉ l.

(** Cached reads never touch a node whose evaluation is in progress.  [S]
    is a set of dirty nodes each of which has an upstream entry leading into
    [S] or to the node [x] being read: the nodes on the call stack.  The read
    of [x] leaves them alone, and fails when [x] is itself one of them. *)
Definition busy (S : gset nat) (m : machine) : Prop :=
  forall s, s ∈ S -> is_dirty m s = true.

Definition linked (S T : gset nat) (m : machine) : Prop :=
  forall s, s ∈ S -> exists st p t,
    heap m !! s = Some st /\ p ∈ NodeState.upstream st /\
    peer_target p = Some t /\ t ∈ T.

Definition busy_spec (read : nat -> machine -> result value * machine) : Prop :=
  forall (S : gset nat) x m r m',
    busy S m -> linked S (S ∪ {[x]}) m -> read x m = (r, m') ->
    frame S m m' /\ (x ∈ S -> is_ok r = false).

(** A cached read changes the cache and the dirty flag of node states and
    nothing else: arguments and peer lists stay as they are. *)
Definition shape (m : machine) : gmap nat NodeState.t :=
  NodeState.with_flags true VNone <$> heap m.

(** ** Runtime groups and contexts (pypeline/context.py) *)

Inductive ritem :=
  | RNode (n : nat)                               (* a NodeState, by address *)
  | RGroup (items : list (string * ritem)).       (* a NodeGroup *)

Module NodeGroup.

(** [_set_global_params], seen from one item of [self._items]. *)
Fixpoint set_global_item (item : ritem) (global_params : dict) (m : machine)
    {struct item} : machine :=
  match item with
  | RNode n => Node._invalidate n (Node.merge_kwargs n global_params m)
  | RGroup items =>
      foldl (fun m kv => set_global_item kv.2 global_params m) m items
  end.

Definition _set_global_params (items : list (string * ritem)) (global_params : dict)
    (m : machine) : machine :=
  foldl (fun m kv => set_global_item kv.2 global_params m) m items.

(** [self[item_key]] *)
Definition __getitem__ (items : list (string * ritem)) (item : pyobj) : option ritem :=
  s ← str_key item; alist_get s items.

(** One round of the loop of [_set_params_spec]: [target] is
    [self[item_key]], looked up only in the branches that use it. *)
Fixpoint set_spec_entry (target : option ritem) (item_params : value)
    (global_params : dict) (m : machine) {struct item_params}
    : result unit * machine :=
  match item_params with
  | VParams args kwargs =>
      match target with
      | None => (Raise KeyError, m)
      | Some (RNode n) => (Ok tt, Node._set_params n args (kwargs ∪ global_params) m)
      | Some (RGroup _) => (Raise TypeError, m)
      end
  | VDict spec_params =>
      match target with
      | None => (Raise KeyError, m)
      | Some (RNode _) => (Raise AttributeError, m)
      | Some (RGroup items) =>
          map_fold
            (fun item_key item_params rest m =>
               match set_spec_entry (__getitem__ items item_key) item_params
                       global_params m with
               | (Ok _, m') => rest m'
               | (Raise e, m') => (Raise e, m')
               end)
            (fun m => (Ok tt, m)) spec_params m
      end
  | _ => (Raise ValueError, m)
  end.

Definition _set_params_spec (items : list (string * ritem)) (spec_params : dict)
    (global_params : dict) (m : machine) : result unit * machine :=
  map_fold
    (fun item_key item_params rest m =>
       match set_spec_entry (__getitem__ items item_key) item_params
               global_params m with
       | (Ok _, m') => rest m'
       | (Raise e, m') => (Raise e, m')
       end)
    (fun m => (Ok tt, m)) spec_params m.

(** The split of [kwargs] done by [_set_params]. *)
Definition names_item (items : list (string * ritem)) (key : pyobj) : bool :=
  bool_decide (is_Some (__getitem__ items key)).

Definition spec_params_of (items : list (string * ritem)) (kwargs : dict) : dict :=
  filter (fun kv => names_item items kv.1 = true) kwargs.

Definition global_params_of (items : list (string * ritem)) (kwargs : dict) : dict :=
  filter (fun kv => names_item items kv.1 = false) kwargs.

Definition _set_params (items : list (string * ritem)) (kwargs : dict) (m : machine)
    : result unit * machine :=
  let global_params := global_params_of items kwargs in
  let spec_params := spec_params_of items kwargs in
  let m1 := if bool_decide (0 < size global_params)
            then _set_global_params items global_params m else m in
  if bool_decide (0 < size spec_params)
  then _set_params_spec items spec_params global_params m1
  else (Ok tt, m1).

Definition set (items : list (string * ritem)) (kwargs : dict) (m : machine)
    : result unit * machine :=
  _set_params items kwargs m.

Definition _set_item (key : string) (value : ritem) (items : list (string * ritem))
    : list (string * ritem) :=
  alist_set key value items.

End NodeGroup.

(** ** pypeline/graph.py *)

(** Objects handed to a blueprint as node specifications. *)
Inductive pyitem :=
  | ItNodeDef (d : NodeDef.t)
  | ItEdgeDef (node : pyitem) (param : option string)   (* node.some_param *)
  | ItPartial (func : pyitem) (args : list value) (keywords : option dict)
  | ItNamedFunc (func : pyitem) (name : option string)  (* node(func, name) *)
  | ItCallable (c : callable)
  | ItTuple (items : list pyitem).                       (* a plain tuple *)

(** The names that are attributes of a node definition: its fields, its
    methods and what every object has.  Python does not consult
    [__getattr__] for them. *)
Definition node_attributes : list string :=
  ["owner"; "func"; "name"; "prefix"; "path"; "args"; "kwargs";
   "rebase"; "update"; "__init__"; "__getattr__";
   "__class__"; "__delattr__"; "__dict__"; "__doc__"; "__format__";
   "__getattribute__"; "__hash__"; "__module__"; "__new__"; "__reduce__";
   "__reduce_ex__"; "__repr__"; "__setattr__"; "__sizeof__"; "__str__";
   "__subclasshook__"; "__weakref__"].

(** [some_node.key].  For a name that is not an attribute,
    [NodeDef.__getattr__] makes an edge descriptor targeting that
    parameter; for an attribute the expression gives the attribute, which
    is no edge descriptor ([None]). *)
Definition node_getattr (d : NodeDef.t) (key : string) : option pyitem :=
  if decide (key ∈ node_attributes) then None
  else Some (ItEdgeDef (ItNodeDef d) (Some key)).

(** [node(func, name=None)] *)
Definition node (func : pyitem) (name : option string) : pyitem :=
  ItNamedFunc func name.

Module BaseGraph.

(** A root [Graph] or a [SubGraph], together with the edge maps it shares
    with its root. *)
Record t := mk {
  _items : list (string * bitem);
  _prefix : list string;
  _downstream : edge_map;
  _upstream : edge_map;
  _root : nat;                 (* identity of the root graph *)
  is_subgraph : bool           (* isinstance(self, SubGraph) *)
}.

Definition __init__ (prefix : list string) (downstream upstream : edge_map)
    (root : nat) (is_subgraph : bool) : t :=
  {| _items := []; _prefix := prefix; _downstream := downstream;
     _upstream := upstream; _root := root; is_subgraph := is_subgraph |}.

Definition with_items (items : list (string * bitem)) (self : t) : t :=
  {| _items := items; _prefix := _prefix self; _downstream := _downstream self;
     _upstream := _upstream self; _root := _root self;
     is_subgraph := is_subgraph self |}.

Definition with_edges (downstream upstream : edge_map) (self : t) : t :=
  {| _items := _items self; _prefix := _prefix self; _downstream := downstream;
     _upstream := upstream; _root := _root self; is_subgraph := is_subgraph self |}.

(** The [SubGraph] object stored in the tree as [BSub prefix items], with the
    edge maps of the graph [self] it is reached from. *)
Definition view (self : t) (prefix : list string) (items : list (string * bitem)) : t :=
  {| _items := items; _prefix := prefix; _downstream := _downstream self;
     _upstream := _upstream self; _root := _root self; is_subgraph := true |}.

(** Writing back what a method did through the sub-graph stored under
    [key]: its items, and the shared edge maps. *)
Definition absorb (self : t) (key : string) (sub : t) : t :=
  {| _items := alist_set key (BSub (_prefix sub) (_items sub)) (_items self);
     _prefix := _prefix self; _downstream := _downstream sub;
     _upstream := _upstream sub; _root := _root self;
     is_subgraph := is_subgraph self |}.

Definition _store_node_def (self : t) (node_def : NodeDef.t)
    : result (t * list string) :=
  let node_name := NodeDef.name node_def in
  let node_path := NodeDef.path node_def in
  match alist_get node_name (_items self) with
  | Some (BSub _ _) => Raise ValueError
  | Some (BNode existing_node) =>
      Ok (with_items (alist_set node_name
                        (BNode (NodeDef.update existing_node node_def))
                        (_items self)) self,
          node_path)
  | None =>
      Ok ({| _items := alist_set node_name (BNode node_def) (_items self);
             _prefix := _prefix self;
             _downstream := <[node_path := []]> (_downstream self);
             _upstream := <[node_path := []]> (_upstream self);
             _root := _root self; is_subgraph := is_subgraph self |},
          node_path)
  end.

(** The name deduced from a callable. *)
Definition deduce_name (c : callable) : result string :=
  match kind c with
  | Method => Ok (func_name c)
  | Function =>
      if decide (func_name c = "<lambda>") then Raise ValueError
      else Ok (func_name c)
  | CallableObject => Raise ValueError
  end.

(** [_store_node].  The message of the last error is built with the
    [%] operator applied to the item: an item that is a tuple stands for the
    arguments of the format, and unless it has exactly one element building
    the message raises [TypeError]; an [EdgeDef] is a tuple of two. *)
Fixpoint _store_node (self : t) (item : pyitem) (name : option string)
    (args : option (list value)) (kwargs : option dict) {struct item}
    : result (t * list string) :=
  match item with
  | ItNodeDef d =>
      if decide (NodeDef.owner d = _root self) then Ok (self, NodeDef.path d)
      else _store_node_def self (NodeDef.rebase d (_root self) (_prefix self))
  | ItPartial func pargs keywords =>
      match args, kwargs with
      | None, None => _store_node self func name (Some pargs) keywords
      | _, _ => Raise ValueError
      end
  | ItNamedFunc func fname => _store_node self func fname None None
  | ItCallable c =>
      match (match name with Some n => Ok n | None => deduce_name c end) with
      | Raise e => Raise e
      | Ok n =>
          _store_node_def self
            (NodeDef.__init__ (_root self) c (_prefix self) n args kwargs)
      end
  | ItEdgeDef _ _ => Raise TypeError
  | ItTuple items =>
      if decide (length items = 1) then Raise ValueError else Raise TypeError
  end.

(** First loop of [_pipe]: the vertices. *)
Fixpoint vertices_of (self : t) (nodes : list pyitem)
    : result (t * list EdgeDef.t) :=
  match nodes with
  | [] => Ok (self, [])
  | item :: rest =>
      let stored :=
        match item with
        | ItEdgeDef inner param =>
            match _store_node self inner None None None with
            | Raise e => Raise e
            | Ok (g, p) => Ok (g, EdgeDef.mk p param)
            end
        | _ =>
            match _store_node self item None None None with
            | Raise e => Raise e
            | Ok (g, p) => Ok (g, EdgeDef.mk p None)
            end
        end in
      match stored with
      | Raise e => Raise e
      | Ok (g, v) =>
          match vertices_of g rest with
          | Raise e => Raise e
          | Ok (g', vs) => Ok (g', v :: vs)
          end
      end
  end.

(** [d[key].append(x)] on an edge map. *)
Definition append_edge (key : list string) (x : EdgeDef.t) (d : edge_map)
    : result edge_map :=
  match d !! key with
  | None => Raise KeyError
  | Some l => Ok (<[key := l ++ [x]]> d)
  end.

(** Second loop of [_pipe]: one edge and its mirror per consecutive pair. *)
Fixpoint connect (self : t) (source : EdgeDef.t) (rest : list EdgeDef.t)
    : result t :=
  match rest with
  | [] => Ok self
  | target :: rest' =>
      match append_edge (EdgeDef.node source) target (_downstream self) with
      | Raise e => Raise e
      | Ok down =>
          match append_edge (EdgeDef.node target)
                  (EdgeDef.mk (EdgeDef.node source) (EdgeDef.param target))
                  (_upstream self) with
          | Raise e => Raise e
          | Ok up => connect (with_edges down up self) target rest'
          end
      end
  end.

Definition _pipe (self : t) (nodes : list pyitem) : result t :=
  match vertices_of self nodes with
  | Raise e => Raise e
  | Ok (g, []) => Ok g
  | Ok (g, v :: vs) => connect g v vs
  end.

Definition pipe (self : t) (nodes : list pyitem) : result t :=
  if decide (length nodes < 2) then Raise ValueError
  else _pipe self nodes.

Definition join (self : t) (from_nodes : list pyitem) (target : pyitem) : result t :=
  foldl (fun acc from_node =>
           match acc with
           | Raise e => Raise e
           | Ok g => _pipe g [from_node; target]
           end) (Ok self) from_nodes.

Definition fan (self : t) (from_node : pyitem) (targets : list pyitem) : result t :=
  foldl (fun acc target =>
           match acc with
           | Raise e => Raise e
           | Ok g => _pipe g [from_node; target]
           end) (Ok self) targets.

(** One round of the loop of [_copy_structure]: the item [value] stored under
    [key] in the source graph is copied into [target_graph]. *)
Fixpoint copy_item (value : bitem) (key : string) (target_graph : t)
    (prefix : list string) {struct value} : result t :=
  match value with
  | BNode d =>
      match _store_node target_graph (ItNodeDef d) None None None with
      | Raise e => Raise e
      | Ok (g, _) => Ok g
      end
  | BSub _ source_items =>
      let new_prefix := prefix ++ [key] in
      let copy_into (new_graph : t) :=
        foldl (fun acc kv =>
                 match acc with
                 | Raise e => Raise e
                 | Ok g => copy_item kv.2 kv.1 g new_prefix
                 end) (Ok new_graph) source_items in
      match alist_get key (_items target_graph) with
      | Some (BNode _) =>
          (* the "graph" copied into is a node definition: any use of it fails *)
          match source_items with
          | [] => Ok target_graph
          | _ :: _ => Raise TypeError
          end
      | Some (BSub p items) =>
          match copy_into (view target_graph p items) with
          | Raise e => Raise e
          | Ok sub => Ok (absorb target_graph key sub)
          end
      | None =>
          match copy_into (view target_graph new_prefix []) with
          | Raise e => Raise e
          | Ok sub => Ok (absorb target_graph key sub)
          end
      end
  end.

Definition _copy_structure (source_items : list (string * bitem))
    (target_graph : t) (prefix : list string) : result t :=
  foldl (fun acc kv =>
           match acc with
           | Raise e => Raise e
           | Ok g => copy_item kv.2 kv.1 g prefix
           end) (Ok target_graph) source_items.

Definition rebase_edge (root_prefix : list string) (target : EdgeDef.t) : EdgeDef.t :=
  EdgeDef.mk (root_prefix ++ EdgeDef.node target) (EdgeDef.param target).

Definition _copy_edges (root_prefix : list string) (source_edges target_edges : edge_map)
    : result edge_map :=
  foldl (fun acc st =>
           match acc with
           | Raise e => Raise e
           | Ok target_edges =>
               match target_edges !! (root_prefix ++ st.1) with
               | None => Raise KeyError
               | Some target_edge =>
                   let rebased_targets :=
                     filter (fun edge => edge ∉ target_edge)
                       (rebase_edge root_prefix <$> st.2) in
                   Ok (<[root_prefix ++ st.1 := target_edge ++ rebased_targets]>
                         target_edges)
               end
           end) (Ok target_edges) (map_to_list source_edges).

(** The tail of [_store_graph], once [root] is determined: the structure of
    [graph] is copied into [root], then its edges into the shared edge maps,
    rebased by the prefix of [root]. *)
Definition copy_into (graph root : t) : result t :=
  match _copy_structure (_items graph) root (_prefix root) with
  | Raise e => Raise e
  | Ok root' =>
      match _copy_edges (_prefix root) (_downstream graph) (_downstream root') with
      | Raise e => Raise e
      | Ok down =>
          match _copy_edges (_prefix root) (_upstream graph) (_upstream root') with
          | Raise e => Raise e
          | Ok up => Ok (with_edges down up root')
          end
      end
  end.

(** [_store_graph(graph, name)].  [graph] is a root graph.  When it is the
    root of the sub-graph [self], [_copy_structure] walks items it is itself
    creating and the call ends in an exception, in general the interpreter's
    recursion limit. *)
Definition _store_graph (self : t) (graph : t) (name : option string) : result t :=
  if decide (_root graph = _root self) then
    if is_subgraph self then Raise RuntimeError else Raise ValueError
  else
    match name with
    | None => copy_into graph self
    | Some name =>
        match alist_get name (_items self) with
        | Some (BNode _) => Raise ValueError
        | Some (BSub p items) =>
            match copy_into graph (view self p items) with
            | Raise e => Raise e
            | Ok sub => Ok (absorb self name sub)
            end
        | None =>
            match copy_into graph (view self (_prefix self ++ [name]) []) with
            | Raise e => Raise e
            | Ok sub => Ok (absorb self name sub)
            end
        end
    end.

(** What [_store] dispatches on: a graph object or a node specification. *)
Inductive storable :=
  | SGraph (g : t)
  | SNode (item : pyitem).

Definition _store (self : t) (item : storable) (name : option string) : result t :=
  match item with
  | SGraph g =>
      if is_subgraph g then Raise ValueError
      else _store_graph self g name
  | SNode it =>
      match _store_node self it name None None with
      | Raise e => Raise e
      | Ok (g, _) => Ok g
      end
  end.

Definition union (self : t) (graphs : list storable)
    (named_graphs : list (string * storable)) : result t :=
  let after_graphs :=
    foldl (fun acc item =>
             match acc with
             | Raise e => Raise e
             | Ok g => _store g item None
             end) (Ok self) graphs in
  foldl (fun acc kv =>
           match acc with
           | Raise e => Raise e
           | Ok g => _store g kv.2 (Some kv.1)
           end) after_graphs named_graphs.

(** [self[key] = value] and attribute assignment of a new name. *)
Definition __setitem__ (self : t) (key : string) (value : storable) : result t :=
  _store self value (Some key).

Definition __getitem__ (self : t) (key : string) : result bitem :=
  match alist_get key (_items self) with
  | Some it => Ok it
  | None => Raise KeyError
  end.

End BaseGraph.

Module Context.

Record t := mk {
  _items : list (string * ritem);
  _nodes : gmap (list string) nat
}.

(** State threaded through [_walk_graph]: the node states allocated so far
    (a new object gets the next free address) and [self._nodes]. *)
Record walk := Walk {
  w_heap : gmap nat NodeState.t;
  w_nodes : gmap (list string) nat
}.

(** One round of the loop of [_walk_graph]; the result is the item stored
    in the target group under [key]. *)
Fixpoint walk_item (value : bitem) (key : string) (st : walk) {struct value}
    : walk * ritem :=
  match value with
  | BNode d =>
      let state := NodeState.__init__ key (NodeDef.func d) (NodeDef.args d)
                     (NodeDef.kwargs d) in
      let n := size (w_heap st) in
      ({| w_heap := <[n := state]> (w_heap st);
          w_nodes := <[NodeDef.path d := n]> (w_nodes st) |}, RNode n)
  | BSub _ items =>
      let '(st', new_group) :=
        foldl (fun acc kv =>
                 let '(st1, it) := walk_item kv.2 kv.1 acc.1 in
                 (st1, NodeGroup._set_item kv.1 it acc.2))
              (st, []) items in
      (st', RGroup new_group)
  end.

Definition _walk_graph (items : list (string * bitem))
    (target_group : list (string * ritem)) (st : walk)
    : walk * list (string * ritem) :=
  foldl (fun acc kv =>
           let '(st1, it) := walk_item kv.2 kv.1 acc.1 in
           (st1, NodeGroup._set_item kv.1 it acc.2))
        (st, target_group) items.

Definition _parse_edges (nodes : gmap (list string) nat) (edges : edge_map)
    (add_func : nat -> EdgeDef.t -> gmap nat NodeState.t ->
                result (gmap nat NodeState.t))
    (h : gmap nat NodeState.t) : result (gmap nat NodeState.t) :=
  foldl (fun acc st =>
           foldl (fun acc target =>
                    match acc with
                    | Raise e => Raise e
                    | Ok h =>
                        match nodes !! st.1 with
                        | None => Raise KeyError
                        | Some source => add_func source target h
                        end
                    end)
                 acc st.2)
        (Ok h) (map_to_list edges).

(** [lambda source, target: source._add_downstream(self._nodes[target.node])] *)
Definition downstream_wire (nodes : gmap (list string) nat) (source : nat)
    (target : EdgeDef.t) (h : gmap nat NodeState.t)
    : result (gmap nat NodeState.t) :=
  match nodes !! EdgeDef.node target with
  | None => Raise KeyError
  | Some target_node => Ok (alter (NodeState._add_downstream target_node) source h)
  end.

Definition _upstream_wire (nodes : gmap (list string) nat) (source : nat)
    (target : EdgeDef.t) (h : gmap nat NodeState.t)
    : result (gmap nat NodeState.t) :=
  match nodes !! EdgeDef.node target with
  | None => Raise KeyError
  | Some target_node =>
      Ok (alter (NodeState._add_upstream
                   (match EdgeDef.param target with
                    | None => Direct target_node
                    | Some param =>
                        Wrapped (ParamTargetNodeStateWrapper.__init__
                                   (ONode target_node) (OStr param))
                    end))
                source h)
  end.

(** [Context.__init__(graph_blueprint, kwargs)]; [w] is the state of the
    user callables at that time.  The new instance gets a heap of its own. *)
Definition __init__ (graph_blueprint : BaseGraph.t) (kwargs : dict) (w : world)
    : result (t * machine) :=
  let '(st, items) :=
    _walk_graph (BaseGraph._items graph_blueprint) [] (Walk ∅ ∅) in
  match _parse_edges (w_nodes st) (BaseGraph._downstream graph_blueprint)
          (downstream_wire (w_nodes st)) (w_heap st) with
  | Raise e => Raise e
  | Ok h1 =>
      match _parse_edges (w_nodes st) (BaseGraph._upstream graph_blueprint)
              (_upstream_wire (w_nodes st)) h1 with
      | Raise e => Raise e
      | Ok h2 =>
          match NodeGroup._set_params items kwargs
                  {| heap := h2; world_of := w; calls := [] |} with
          | (Raise e, _) => Raise e
          | (Ok _, m) => Ok ({| _items := items; _nodes := w_nodes st |}, m)
          end
      end
  end.

End Context.

Module Graph.

(** [Graph.__init__]; [self] is the identity of the new graph object. *)
Definition __init__ (self : nat) (items : list BaseGraph.storable)
    (named_items : list (string * BaseGraph.storable)) : result BaseGraph.t :=
  let after_items :=
    foldl (fun acc item =>
             match acc with
             | Raise e => Raise e
             | Ok g => BaseGraph._store g item None
             end) (Ok (BaseGraph.__init__ [] ∅ ∅ self false)) items in
  foldl (fun acc kv =>
           match acc with
           | Raise e => Raise e
           | Ok g => BaseGraph._store g kv.2 (Some kv.1)
           end) after_items named_items.

Definition __call__ (self : BaseGraph.t) (kwargs : dict) (w : world)
    : result (Context.t * machine) :=
  Context.__init__ self kwargs w.

End Graph.

(** The module-level [pipe]; [fresh] is the identity of the graph object it
    creates.  With one argument it hands the argument tuple itself to the
    [Graph] constructor. *)
Definition pipe (fresh : nat) (args : list pyitem) : result BaseGraph.t :=
  if decide (length args = 1) then
    Graph.__init__ fresh [BaseGraph.SNode (ItTuple args)] []
  else
    match Graph.__init__ fresh [] [] with
    | Raise e => Raise e
    | Ok graph => BaseGraph._pipe graph args
    end.

(** ** Fixtures: the functions of tests/test_context.py *)

Module Fixtures.

(** Binding of call arguments to declared parameters, for callables without
    catch-alls. *)
Definition bind (names : list string) (defaults : gmap string value)
    (args : list value) (kw : gmap string value) : option (gmap string value) :=
  let positional : gmap string value := list_to_map (zip names args) in
  let declared : gset string := list_to_set names in
  if bool_decide (length args ≤ length names
                  /\ (dom kw : gset string) ∩ dom positional = ∅
                  /\ (dom kw : gset string) ⊆ declared) then
    let bound := positional ∪ kw ∪ defaults in
    if bool_decide (declared ⊆ dom bound) then Some bound else None
  else None.

Definition int_of (v : option value) : option Z :=
  match v with Some (VInt z) => Some z | _ => None end.

(** A tuple or namedtuple as the sequence of its elements. *)
Definition as_tuple (v : value) : option (list value) :=
  match v with
  | VTuple vs => Some vs
  | VParams args kwargs => Some [VTuple args; VDict kwargs]
  | _ => None
  end.

Definition repeat_string (s : string) (n : Z) : string :=
  String.concat "" (replicate (Z.to_nat n) s).

Definition repeat_tuple (vs : list value) (n : Z) : list value :=
  mjoin (replicate (Z.to_nat n) vs).

(** [x * y]: the product of integers, or a string or tuple repeated; [None]
    stands for the [TypeError] of unsupported operands. *)
Definition py_mul (x y : value) : option value :=
  match x, y with
  | VInt m, VInt n => Some (VInt (m * n))
  | VStr s, VInt n | VInt n, VStr s => Some (VStr (repeat_string s n))
  | VInt n, _ => (fun vs => VTuple (repeat_tuple vs n)) <$> as_tuple y
  | _, VInt n => (fun vs => VTuple (repeat_tuple vs n)) <$> as_tuple x
  | _, _ => None
  end.

(** [x + y]: the sum of integers, or strings or tuples concatenated. *)
Definition py_add (x y : value) : option value :=
  match x, y with
  | VInt m, VInt n => Some (VInt (m + n))
  | VStr s, VStr t => Some (VStr (s ++ t))
  | _, _ =>
      match as_tuple x, as_tuple y with
      | Some vs, Some ws => Some (VTuple (vs ++ ws))
      | _, _ => None
      end
  end.

(** Truth value of an object, as [or] tests it. *)
Definition truthy (v : value) : bool :=
  match v with
  | VNone => false
  | VInt z => negb (Z.eqb z 0)
  | VStr s => negb (String.eqb s "")
  | VTuple vs => negb (bool_decide (vs = []))
  | VParams _ _ => true
  | VDict d => negb (bool_decide (d = ∅))
  end.

Definition pure_function (name : string) (names : list string)
    (defaults : gmap string value) (f : gmap string value -> option value)
    : callable :=
  {| kind := Function; func_name := name; spec_args := names;
     spec_varargs := None; spec_keywords := None;
     body := fun args kw w =>
       match bind names defaults args kw with
       | None => (Raise TypeError, w)
       | Some bound =>
           match f bound with
           | Some v => (Ok v, w)
           | None => (Raise TypeError, w)
           end
       end |}.

(** [def a(x, y=5): return x * y] *)
Definition a : callable :=
  pure_function "a" ["x"; "y"] {["y" := VInt 5]}
    (fun p => x ← p !! "x"; y ← p !! "y"; py_mul x y).

(** [def b(value, fudge): return value + fudge] *)
Definition b : callable :=
  pure_function "b" ["value"; "fudge"] ∅
    (fun p => v ← p !! "value"; f ← p !! "fudge"; py_add v f).

(** [def c(val_a, val_b, fudge): return params(val_a + val_b + fudge, 1, 2, ping="pong")] *)
Definition c : callable :=
  pure_function "c" ["val_a"; "val_b"; "fudge"] ∅
    (fun p => x ← p !! "val_a"; y ← p !! "val_b"; f ← p !! "fudge";
              xy ← py_add x y; v ← py_add xy f;
              Some (params [v; VInt 1; VInt 2] {[OStr "ping" := VStr "pong"]})).

(** [def d(x1, x2, x3, ping=None, ping_override=None):
       return x1 + x2 + x3, ping_override or ping] *)
Definition d : callable :=
  pure_function "d" ["x1"; "x2"; "x3"; "ping"; "ping_override"]
    {["ping" := VNone; "ping_override" := VNone]}
    (fun p => x ← p !! "x1"; y ← p !! "x2"; z ← p !! "x3";
              o ← p !! "ping_override"; g ← p !! "ping";
              xy ← py_add x y; v ← py_add xy z;
              Some (VTuple [v; if truthy o then o else g])).

(** The accumulator of [test_eval_node_memoized]: a lambda around a
    generator that counts up from 0. *)
Definition accumulator : callable :=
  {| kind := Function; func_name := "<lambda>"; spec_args := [];
     spec_varargs := None; spec_keywords := None;
     body := fun args kw w =>
       match args, bool_decide (kw = ∅) with
       | [], true =>
           let n := default 0%Z (int_of (w !! "counter")) in
           (Ok (VInt n), <["counter" := VInt (n + 1)]> w)
       | _, _ => (Raise TypeError, w)
       end |}.

(** A callable that always raises. *)
Definition failing : callable :=
  {| kind := Function; func_name := "failing"; spec_args := [];
     spec_varargs := None; spec_keywords := None;
     body := fun args kw w => (Raise (UserError "boom"), w) |}.

Definition kw (l : list (string * value)) : dict :=
  list_to_map (prod_map OStr id <$> l).

End Fixtures.

(** How often the callable of [self] has been invoked so far. *)
Definition invocations (self : nat) (m : machine) : nat :=
  length (filter (fun n => n = self) (calls m)).

(** ** Example instances *)

Module Examples.
Import Fixtures.

Definition machine_of (r : result (Context.t * machine)) : machine :=
  match r with
  | Ok (_, m) => m
  | Raise _ => Machine ∅ ∅ []
  end.

Definition state_of (m : machine) (n : nat) : NodeState.t :=
  default (NodeState.__init__ "" failing [] ∅) (heap m !! n).

Definition items_of (r : result (Context.t * machine)) : list (string * ritem) :=
  match r with
  | Ok (c, _) => Context._items c
  | Raise _ => []
  end.

Definition graph_of (r : result BaseGraph.t) : BaseGraph.t :=
  match r with
  | Ok g => g
  | Raise _ => BaseGraph.__init__ [] ∅ ∅ 0 false
  end.

(** [pipe(partial(a, 5), partial(b, fudge=10))()] of
    [test_node_set_params_invalidate]: node 0 is [a], node 1 is [b]. *)
Definition ab_graph : BaseGraph.t :=
  graph_of (pipe 1 [ItPartial (ItCallable a) [VInt 5] None;
                    ItPartial (ItCallable b) [] (Some (kw [("fudge", VInt 10)]))]).

Definition ab_machine : machine := machine_of (Graph.__call__ ab_graph ∅ ∅).


(** [Graph(node(lambda: g_inst.next(), name="accumulator"))()] *)
Definition accumulator_machine : machine :=
  machine_of (Graph.__call__
                (graph_of (Graph.__init__ 1
                   [BaseGraph.SNode (node (ItCallable accumulator) (Some "accumulator"))] []))
                ∅ ∅).

(** [pipe(partial(c, 1, 2, 3), d)()]: node 0 is [c], node 1 is [d]. *)
Definition cd_graph : BaseGraph.t :=
  graph_of (pipe 1 [ItPartial (ItCallable c) [VInt 1; VInt 2; VInt 3] None;
                    ItCallable d]).

Definition cd_machine : machine := machine_of (Graph.__call__ cd_graph ∅ ∅).

(** [g.name] for a node of [g]. *)
Definition def_at (g : BaseGraph.t) (name : string) : NodeDef.t :=
  match alist_get name (BaseGraph._items g) with
  | Some (BNode d) => d
  | _ => NodeDef.__init__ 0 failing [] name None None
  end.

(** [g = Graph(a, b); g.pipe(g.a, g.b.fudge); g(a=params(5), b=params(1))]:
    the result of [a] is to arrive at [b] as the keyword [fudge]. *)
Definition fudge_graph : BaseGraph.t :=
  let g := graph_of (Graph.__init__ 1 [BaseGraph.SNode (ItCallable a);
                                       BaseGraph.SNode (ItCallable b)] []) in
  graph_of (BaseGraph.pipe g [ItNodeDef (def_at g "a");
                              ItEdgeDef (ItNodeDef (def_at g "b")) (Some "fudge")]).

Definition fudge_machine : machine :=
  machine_of (Graph.__call__ fudge_graph
                (kw [("a", params [VInt 5] ∅); ("b", params [VInt 1] ∅)]) ∅).

(** [Graph(c)], a destination for merges. *)
Definition c_graph : BaseGraph.t :=
  graph_of (Graph.__init__ 5 [BaseGraph.SNode (ItCallable c)] []).

End Examples.

(** ** Specification-level notions for invalidation *)

(** A node that holds a valid cached value. *)
Definition is_clean (m : machine) (n : nat) : bool :=
  match heap m !! n with
  | Some s => negb (NodeState._dirty s)
  | None => false
  end.

Definition cleans (m : machine) : gset nat :=
  dom (filter (fun ns => NodeState._dirty ns.2 = false) (heap m)).

(** [marks m vs m']: [m'] is [m] with the nodes of [vs] marked dirty and
    their caches discarded. *)
Definition marks (m : machine) (vs : list nat) (m' : machine) : Prop :=
  world_of m' = world_of m /\ calls m' = calls m /\
  forall n, heap m' !! n =
            if decide (n ∈ vs) then NodeState.with_flags true VNone <$> heap m !! n
            else heap m !! n.

(** [edge m x y]: [y] is a downstream peer of [x]. *)
Definition edge (m : machine) (x y : nat) : Prop :=
  exists s, heap m !! x = Some s /\ y ∈ NodeState.downstream s.

Definition edgeb (m : machine) (x y : nat) : bool :=
  match heap m !! x with
  | Some s => bool_decide (y ∈ NodeState.downstream s)
  | None => false
  end.

(** The property behind the already-dirty short-circuit: the downstream
    peers of a dirty node are dirty. *)
Definition downstream_dirty (m : machine) : Prop :=
  forall n s d, heap m !! n = Some s -> NodeState._dirty s = true ->
                d ∈ NodeState.downstream s -> is_dirty m d = true.

(** The same property seen from the reader: every upstream peer of a clean
    node has a cached value to offer. *)
Definition peer_clean (m : machine) (p : peer) : bool :=
  match peer_target p with
  | Some t => is_clean m t
  | None => false
  end.

Definition upstream_clean (m : machine) : Prop :=
  forall n s p, heap m !! n = Some s -> NodeState._dirty s = false ->
                p ∈ NodeState.upstream s -> peer_clean m p = true.

(** [peer_mirrors u p]: the upstream entry [p] was installed for the source
    node [u], either directly or inside a wrapper (in either field). *)
Definition peer_mirrors (u : nat) (p : peer) : bool :=
  match p with
  | Direct n => bool_decide (n = u)
  | Wrapped w =>
      bool_decide (ParamTargetNodeStateWrapper._state w = ONode u)
      || (bool_decide (ParamTargetNodeStateWrapper._param_name w = ONode u)
          && bool_decide (str_key (ParamTargetNodeStateWrapper._state w) <> None))
  end.

(** The wiring done by [Context.__init__], as a property of the heap: peers
    are allocated, every downstream link has its mirror in the upstream list
    of the target, and every upstream entry comes from a downstream link. *)
Definition wired_node (m : machine) (n : nat) (s : NodeState.t) : bool :=
  forallb (fun d =>
             match heap m !! d with
             | Some ds => existsb (peer_mirrors n) (NodeState.upstream ds)
             | None => false
             end) (NodeState.downstream s)
  && forallb (fun p =>
                existsb (fun u =>
                           match heap m !! u with
                           | Some us => peer_mirrors u p
                                        && bool_decide (n ∈ NodeState.downstream us)
                           | None => false
                           end) (elements (dom (heap m))))
             (NodeState.upstream s).

Definition wired (m : machine) : Prop :=
  (forall n s d, heap m !! n = Some s -> d ∈ NodeState.downstream s ->
     exists ds p, heap m !! d = Some ds /\ p ∈ NodeState.upstream ds /\
                  peer_mirrors n p = true) /\
  (forall n s p, heap m !! n = Some s -> p ∈ NodeState.upstream s ->
     exists u us, heap m !! u = Some us /\ peer_mirrors u p = true /\
                  n ∈ NodeState.downstream us).

(** Every upstream entry can be read: no wrapper around something other than
    a node state. *)
Definition readable (m : machine) : Prop :=
  forall n s p, heap m !! n = Some s -> p ∈ NodeState.upstream s ->
                is_Some (peer_target p).

(** The part of a node state that wiring and invalidation depend on. *)
Definition skeleton (s : NodeState.t) : list peer * list nat * bool :=
  (NodeState.upstream s, NodeState.downstream s, NodeState._dirty s).

Definition skel (m : machine) : gmap nat (list peer * list nat * bool) :=
  skeleton <$> heap m.

Definition links (m : machine) : gmap nat (list peer * list nat) :=
  (fun s => (NodeState.upstream s, NodeState.downstream s)) <$> heap m.

(** Boolean versions, for checking concrete machines. *)
Definition wiredb (m : machine) : bool :=
  forallb (fun ns => wired_node m ns.1 ns.2) (map_to_list (heap m)).

Definition upstream_cleanb (m : machine) : bool :=
  forallb (fun ns => NodeState._dirty ns.2
                     || forallb (peer_clean m) (NodeState.upstream ns.2))
          (map_to_list (heap m)).

Definition downstream_dirtyb (m : machine) : bool :=
  forallb (fun ns => negb (NodeState._dirty ns.2)
                     || forallb (is_dirty m) (NodeState.downstream ns.2))
          (map_to_list (heap m)).

(** What a run of [Node._invalidate_within] from [x] with visit list [vs]
    achieves: the visited nodes were clean, are visited once and end up
    dirty; with enough fuel, [x] and the downstream peers of every visited
    node are not clean afterwards. *)
Definition invalidated (fuel : nat) (x : nat) (m m' : machine) (vs : list nat)
    : Prop :=
  marks m vs m' /\ (forall n, n ∈ vs -> is_clean m n = true) /\ NoDup vs /\
  (size (cleans m) < fuel ->
     is_clean m' x = false /\
     forall n s d, n ∈ vs -> heap m !! n = Some s ->
                   d ∈ NodeState.downstream s -> is_clean m' d = false).

(** What the reads of upstream peers guarantee to the reader. *)
Definition read_spec (read : nat -> machine -> result value * machine) : Prop :=
  forall x m r m',
    upstream_clean m -> read x m = (r, m') ->
    upstream_clean m' /\
    (forall n, is_clean m n = true -> is_clean m' n = true) /\
    (is_ok r = true -> is_clean m' x = true).

(** ** Specification-level notions for parameter routing *)

(** The node states below an item of a runtime group. *)
Fixpoint leaves (item : ritem) : list nat :=
  match item with
  | RNode n => [n]
  | RGroup items => mjoin ((fun kv => leaves kv.2) <$> items)
  end.

Definition leaves_of (items : list (string * ritem)) : list nat :=
  mjoin ((fun kv => leaves kv.2) <$> items).

Definition leaves_opt (target : option ritem) : list nat :=
  match target with
  | Some item => leaves item
  | None => []
  end.

(** Nesting depth of dictionaries, the measure of the recursion of
    [_set_params_spec]. *)
Fixpoint value_size (v : value) : nat :=
  match v with
  | VDict d => S (map_fold (fun _ v acc => value_size v + acc) 0 d)
  | _ => 0
  end.

(** What is stored in a node: its arguments and its signature. *)
Definition stored (m : machine) (n : nat)
    : option (list value * dict * NodeArgSpec.t) :=
  (fun s => (NodeState._args s, NodeState._kwargs s, NodeState._args_spec s))
    <$> heap m !! n.

(** The state invariant of a wired runtime instance. *)
Definition consistent (m : machine) : Prop :=
  wired m /\ upstream_clean m.

(** ** Specification-level notions for argument assembly *)

(** The values read from the upstream peers, in order, up to the first
    failure. *)
Fixpoint read_all (read : nat -> machine -> result value * machine)
    (ups : list peer) (m : machine) : result (list value) * machine :=
  match ups with
  | [] => (Ok [], m)
  | p :: rest =>
      match Node.peer_eval_cached read p m with
      | (Raise e, m') => (Raise e, m')
      | (Ok v, m') =>
          match read_all read rest m' with
          | (Raise e, m'') => (Raise e, m'')
          | (Ok vs, m'') => (Ok (v :: vs), m'')
          end
      end
  end.

(** What one upstream result contributes: a parameter bundle is spread, any
    other value is one positional argument. *)
Definition spread_args (incoming : value) : list value :=
  match incoming with
  | VParams a _ => a
  | v => [v]
  end.

Definition spread_kwargs (incoming : value) : dict :=
  match incoming with
  | VParams _ k => k
  | _ => ∅
  end.

Definition upstream_args (vs : list value) : list value :=
  mjoin (spread_args <$> vs).

(** Keyword items of the upstream bundles; a later bundle overrides an
    earlier one. *)
Definition upstream_kwargs (vs : list value) : dict :=
  foldl (fun acc v => spread_kwargs v ∪ acc) ∅ vs.

(** The direct call as the specification words it: the caller-supplied
    keywords are merged on top of the upstream keyword items. *)
Definition claimed_eval (fuel : nat) (self : nat) (args : list value)
    (kwargs : dict) (m : machine) : result value * machine :=
  match heap m !! self with
  | None => (Raise AttributeError, m)
  | Some s =>
      match read_all (Node._eval_cached fuel) (NodeState.upstream s) m with
      | (Raise e, m') => (Raise e, m')
      | (Ok vs, m') =>
          Node.invoke self (NodeState.func s) (upstream_args vs ++ args)
            (kwargs ∪ upstream_kwargs vs) m'
      end
  end.

(** Stored parameters after the global entries [g] have been merged in. *)
Definition with_globals (g : dict) (x : list value * dict * NodeArgSpec.t)
    : list value * dict * NodeArgSpec.t :=
  (x.1.1, NodeState.accepted x.2 g ∪ x.1.2, x.2).

(** [broadcast g L m m1]: going from [m] to [m1], the nodes of [L] got the
    global entries [g] merged into their keyword arguments and nothing else
    stored in a node changed. *)
Definition broadcast (g : dict) (L : list nat) (m m1 : machine) : Prop :=
  forall n, stored m1 n =
            if decide (n ∈ L) then with_globals g <$> stored m n else stored m n.

(** A signature takes the keyword [key]. *)
Definition takes (spec : NodeArgSpec.t) (key : pyobj) : Prop :=
  NodeArgSpec.keywords spec <> None \/ NodeArgSpec.__contains__ spec key = true.

(** ** Specification-level notions for merging blueprints *)

(** Representation invariant of an item tree: names are unique at every
    level (the tree stands for nested dictionaries) and a node definition is
    stored under its own name (as [_store_node_def] does). *)
Fixpoint wf_item (key : string) (item : bitem) : bool :=
  match item with
  | BNode d => bool_decide (NodeDef.name d = key)
  | BSub _ items =>
      bool_decide (NoDup items.*1) && forallb (fun kv => wf_item kv.1 kv.2) items
  end.

Definition wf_items (items : list (string * bitem)) : bool :=
  bool_decide (NoDup items.*1) && forallb (fun kv => wf_item kv.1 kv.2) items.

(** [covers root item key target]: the source item stored under [key] has
    been copied into the items [target] of a graph rooted at [root]. *)
Fixpoint covers (root : nat) (item : bitem) (key : string)
    (target : list (string * bitem)) : Prop :=
  match item with
  | BNode d =>
      NodeDef.owner d = root \/
      exists d', alist_get (NodeDef.name d) target = Some (BNode d') /\
                 NodeDef.func d' = NodeDef.func d /\
                 NodeDef.args d' = NodeDef.args d /\
                 NodeDef.kwargs d' = NodeDef.kwargs d
  | BSub _ source_items =>
      match alist_get key target with
      | Some (BSub _ items) =>
          foldr (fun kv acc => covers root kv.2 kv.1 items /\ acc) True source_items
      | Some (BNode _) => source_items = []
      | None => False
      end
  end.

Definition covers_all (root : nat) (source_items target : list (string * bitem))
    : Prop :=
  foldr (fun kv acc => covers root kv.2 kv.1 target /\ acc) True source_items.

(** The fields of a graph object that merging never changes. *)
Definition same_static (g g' : BaseGraph.t) : Prop :=
  BaseGraph._root g' = BaseGraph._root g /\
  BaseGraph._prefix g' = BaseGraph._prefix g /\
  BaseGraph.is_subgraph g' = BaseGraph.is_subgraph g.

(** What copying the item stored under [key] into [target] achieves. *)
Definition copied (item : bitem) (key : string) (target target' : BaseGraph.t) : Prop :=
  covers (BaseGraph._root target) item key (BaseGraph._items target') /\
  (forall k', k' <> key ->
     alist_get k' (BaseGraph._items target') = alist_get k' (BaseGraph._items target)) /\
  same_static target target'.

(** ** Further specification-level notions *)

(** [reads_from m a b]: a cached read of [a] reads the cached value of [b]. *)
Definition reads_from (m : machine) (a b : nat) : Prop :=
  exists s p, heap m !! a = Some s /\ p ∈ NodeState.upstream s /\
              peer_target p = Some b.

(** Boolean checks of [busy] and [linked] on a concrete machine. *)
Definition upstream_targets (m : machine) (n : nat) : list nat :=
  match heap m !! n with
  | Some s => omap peer_target (NodeState.upstream s)
  | None => []
  end.

Definition busyb (S : gset nat) (m : machine) : bool :=
  forallb (is_dirty m) (elements S).

Definition linkedb (S T : gset nat) (m : machine) : bool :=
  forallb (fun s => existsb (fun t => bool_decide (t ∈ T)) (upstream_targets m s))
          (elements S).

Module MoreExamples.
Import Fixtures Examples.

(** [Graph(failing)()]: a single node whose callable raises. *)
Definition failing_machine : machine :=
  machine_of (Graph.__call__
                (graph_of (Graph.__init__ 1 [BaseGraph.SNode (ItCallable failing)] []))
                ∅ ∅).

(** [pipe(a, b, a)()]: storing [a] a second time updates the node in place,
    so the edges are a -> b and b -> a. *)
Definition cyclic_graph : BaseGraph.t :=
  graph_of (pipe 1 [ItCallable a; ItCallable b; ItCallable a]).

Definition cyclic_machine : machine := machine_of (Graph.__call__ cyclic_graph ∅ ∅).

(** [Graph(a, b)], before any edge is added. *)
Definition plain_graph : BaseGraph.t :=
  graph_of (Graph.__init__ 1 [BaseGraph.SNode (ItCallable a);
                              BaseGraph.SNode (ItCallable b)] []).

End MoreExamples.

(** The downstream peers of a node, as an observation of the machine. *)
Definition downstream_of (m : machine) (n : nat) : list nat :=
  match heap m !! n with
  | Some s => NodeState.downstream s
  | None => []
  end.

(** ** Further specification-level notions for parameter routing *)

(** The item reached from [item] by following the names of [path]. *)
Fixpoint resolve (item : ritem) (path : list string) : option ritem :=
  match path with
  | [] => Some item
  | c :: rest =>
      match item with
      | RGroup items => it ← alist_get c items; resolve it rest
      | RNode _ => None
      end
  end.

(** The value found in a parameter specification under the names of
    [path], through nested dictionaries. *)
Fixpoint spec_at (v : value) (path : list string) : option value :=
  match path with
  | [] => Some v
  | c :: rest =>
      match v with
      | VDict d => v' ← d !! OStr c; spec_at v' rest
      | _ => None
      end
  end.

(** [well_addressed target v]: the specification [v] fits the item it is
    addressed to: a bundle is addressed to a node; a dictionary is addressed
    to a group, every key of it names a child of the group and its value
    fits that child. *)
Fixpoint well_addressed (target : option ritem) (item_params : value)
    {struct item_params} : bool :=
  match item_params with
  | VParams _ _ =>
      match target with
      | Some (RNode _) => true
      | _ => false
      end
  | VDict spec_params =>
      match target with
      | Some (RGroup items) =>
          map_fold (fun item_key item_params acc =>
                      well_addressed (NodeGroup.__getitem__ items item_key) item_params
                      && acc)
                   true spec_params
      | _ => false
      end
  | _ => false
  end.

Module GroupExamples.
Import Fixtures Examples.

(** [Graph(a, sub=Graph(b))()]: node 0 is [a], node 1 is [sub.b]. *)
Definition nested_graph : BaseGraph.t :=
  graph_of (Graph.__init__ 1 [BaseGraph.SNode (ItCallable a)]
              [("sub", BaseGraph.SGraph
                         (graph_of (Graph.__init__ 2 [BaseGraph.SNode (ItCallable b)] [])))]).

Definition nested_machine : machine := machine_of (Graph.__call__ nested_graph ∅ ∅).

Definition nested_items : list (string * ritem) :=
  items_of (Graph.__call__ nested_graph ∅ ∅).

(** [fudge=30, sub=group(b=params(1, fudge=2))] *)
Definition nested_kwargs : dict :=
  kw [("fudge", VInt 30);
      ("sub", group (kw [("b", params [VInt 1] (kw [("fudge", VInt 2)]))]))].

(** [sub=group(nope=params(1))]: no child of [sub] is called [nope]. *)
Definition stray_kwargs : dict :=
  kw [("sub", group (kw [("nope", params [VInt 1] ∅)]))].

End GroupExamples.

(** ** pypeline/__init__.py *)

(** One round of the loop of [_wrapper]: [result[k] = func(v, *args,
    **kwargs)], an exception ending the loop. *)
Definition in_out_step (func : callable) (args : list value)
    (kwargs : gmap string value) (acc : result dict * world) (kv : pyobj * value)
    : result dict * world :=
  match acc with
  | (Raise e, w) => (Raise e, w)
  | (Ok result, w) =>
      match body func (kv.2 :: args) kwargs w with
      | (Ok v, w') => (Ok (<[kv.1 := v]> result), w')
      | (Raise e, w') => (Raise e, w')
      end
  end.

Definition in_out_loop (func : callable) (args : list value) (kwargs : gmap string value)
    (items : list (pyobj * value)) (w : world) : result dict * world :=
  foldl (in_out_step func args kwargs) (Ok ∅, w) items.

Definition _wrapper (func : callable) (data : value) (args : list value)
    (kwargs : gmap string value) (w : world) : result value * world :=
  match data with
  | VDict d =>
      match in_out_loop func args kwargs (map_to_list d) w with
      | (Ok result, w') => (Ok (VDict result), w')
      | (Raise e, w') => (Raise e, w')
      end
  | _ => body func (data :: args) kwargs w
  end.

(** [in_out_dict(func)]: a function with the signature
    [(data, *args, **kwargs)] and, through [wraps], the name of [func]. *)
Definition in_out_dict (func : callable) : callable :=
  {| kind := Function; func_name := func_name func; spec_args := ["data"];
     spec_varargs := Some "args"; spec_keywords := Some "kwargs";
     body := fun args kw w =>
       match args with
       | data :: rest =>
           if decide (is_Some (kw !! "data")) then (Raise TypeError, w)
           else _wrapper func data rest kw w
       | [] =>
           match kw !! "data" with
           | Some data => _wrapper func data [] (delete "data" kw) w
           | None => (Raise TypeError, w)
           end
       end |}.

Module WrapperExamples.
Import Fixtures.

(** [def _transformer(val): return val ** 2] of [test_in_out_dict]. *)
Definition _transformer : callable :=
  pure_function "_transformer" ["val"] ∅
    (fun p => x ← int_of (p !! "val"); Some (VInt (x * x))).

Definition square (v : value) : value :=
  match v with VInt x => VInt (x * x) | _ => VNone end.

End WrapperExamples.

(** ** Specification-level notions for blueprints and their instances *)

(** The paths of the node definitions of an item tree. *)
Fixpoint node_paths_item (item : bitem) : list (list string) :=
  match item with
  | BNode d => [NodeDef.path d]
  | BSub _ items => mjoin ((fun kv => node_paths_item kv.2) <$> items)
  end.

Definition node_paths (items : list (string * bitem)) : list (list string) :=
  mjoin ((fun kv => node_paths_item kv.2) <$> items).

(** The edges of an edge map, one pair of a key and a list entry each, in
    the order in which [_parse_edges] visits them. *)
Definition flat_edges (edges : edge_map) : list (list string * EdgeDef.t) :=
  st ← map_to_list edges; (fun target => (st.1, target)) <$> st.2.

(** [edge_in edges s e]: the list stored under [s] has the entry [e]. *)
Definition edge_in (edges : edge_map) (s : list string) (e : EdgeDef.t) : Prop :=
  exists l, edges !! s = Some l /\ e ∈ l.

(** The two edge maps describe the same edges: an entry for [t] under [s]
    in the downstream map has its mirror, an entry for [s] with the same
    parameter under [t], in the upstream map, and conversely. *)
Definition mirrored (downstream upstream : edge_map) : Prop :=
  forall s t p, edge_in downstream s (EdgeDef.mk t p) <->
                edge_in upstream t (EdgeDef.mk s p).

(** Every key of the edge map and every path in its lists is among
    [paths]. *)
Definition grounded (paths : list (list string)) (edges : edge_map) : Prop :=
  forall s l, edges !! s = Some l ->
    s ∈ paths /\ forall e, e ∈ l -> EdgeDef.node e ∈ paths.

(** A blueprint whose edge maps mirror each other and mention only paths
    of its node definitions. *)
Definition closed (g : BaseGraph.t) : Prop :=
  mirrored (BaseGraph._downstream g) (BaseGraph._upstream g) /\
  grounded (node_paths (BaseGraph._items g)) (BaseGraph._downstream g) /\
  grounded (node_paths (BaseGraph._items g)) (BaseGraph._upstream g).

(** Boolean checks of the same, for concrete blueprints. *)
Definition edges_of (edges : edge_map) (s : list string) : list EdgeDef.t :=
  default [] (edges !! s).

Definition mirroredb (downstream upstream : edge_map) : bool :=
  forallb (fun se => bool_decide
             (EdgeDef.mk se.1 (EdgeDef.param se.2)
              ∈ edges_of upstream (EdgeDef.node se.2)))
          (flat_edges downstream)
  && forallb (fun te => bool_decide
                (EdgeDef.mk te.1 (EdgeDef.param te.2)
                 ∈ edges_of downstream (EdgeDef.node te.2)))
             (flat_edges upstream).

Definition groundedb (paths : list (list string)) (edges : edge_map) : bool :=
  forallb (fun sl => bool_decide (sl.1 ∈ paths)
                     && forallb (fun e => bool_decide (EdgeDef.node e ∈ paths)) sl.2)
          (map_to_list edges).

Definition closedb (g : BaseGraph.t) : bool :=
  mirroredb (BaseGraph._downstream g) (BaseGraph._upstream g)
  && groundedb (node_paths (BaseGraph._items g)) (BaseGraph._downstream g)
  && groundedb (node_paths (BaseGraph._items g)) (BaseGraph._upstream g).

(** A node state as [NodeState.__init__] leaves it: no peers, dirty. *)
Definition unwired (s : NodeState.t) : Prop :=
  NodeState.upstream s = [] /\ NodeState.downstream s = [] /\
  NodeState._dirty s = true.

(** Addresses are handed out in sequence. *)
Definition dense (h : gmap nat NodeState.t) : Prop :=
  forall n, is_Some (h !! n) <-> n < size h.

(** What [_walk_graph] maintains. *)
Definition walked (st : Context.walk) : Prop :=
  dense (Context.w_heap st) /\
  (forall n s, Context.w_heap st !! n = Some s -> unwired s) /\
  (forall p n, Context.w_nodes st !! p = Some n -> is_Some (Context.w_heap st !! n)).

(** Every node of the instance is dirty. *)
Definition all_dirty (m : machine) : Prop :=
  forall n s, heap m !! n = Some s -> NodeState._dirty s = true.

(** The upstream entry installed for the source [n] of an edge with
    parameter [param]. *)
Definition upstream_entry (n : nat) (param : option string) : peer :=
  match param with
  | None => Direct n
  | Some param =>
      Wrapped (ParamTargetNodeStateWrapper.__init__ (ONode n) (OStr param))
  end.

(** The loop of [_parse_edges] over the edges one by one. *)
Definition parse_step (nodes : gmap (list string) nat)
    (add_func : nat -> EdgeDef.t -> gmap nat NodeState.t ->
                result (gmap nat NodeState.t))
    (acc : result (gmap nat NodeState.t)) (e : list string * EdgeDef.t)
    : result (gmap nat NodeState.t) :=
  match acc with
  | Raise e => Raise e
  | Ok h =>
      match nodes !! e.1 with
      | None => Raise KeyError
      | Some source => add_func source e.2 h
      end
  end.

(** The peers that wiring adds to the node [n]: downstream, the nodes of
    the targets of the edges leaving [n]; upstream, an entry for the source
    of every edge arriving at [n]. *)
Definition added_downstream (nodes : gmap (list string) nat) (n : nat)
    (es : list (list string * EdgeDef.t)) : list nat :=
  omap (fun e => if decide (nodes !! e.1 = Some n)
                 then nodes !! EdgeDef.node e.2 else None) es.

Definition added_upstream (nodes : gmap (list string) nat) (n : nat)
    (es : list (list string * EdgeDef.t)) : list peer :=
  omap (fun e => if decide (nodes !! e.1 = Some n)
                 then (fun t => upstream_entry t (EdgeDef.param e.2))
                        <$> nodes !! EdgeDef.node e.2
                 else None) es.

(** What walking one item does: it keeps [walked], and indexes exactly the
    paths of the node definitions of the item. *)
Definition walks (value : bitem) : Prop :=
  forall key st st' it,
    Context.walk_item value key st = (st', it) -> walked st ->
    walked st' /\
    forall p, is_Some (Context.w_nodes st' !! p) <->
              is_Some (Context.w_nodes st !! p) \/ p ∈ node_paths_item value.

(** ** Specification-level notions for building blueprints *)

(** [placed_item prefix key item]: the item is stored where its path says:
    a node definition under its own name with the path [prefix ++ [key]], a
    sub-graph with that prefix and with items that are placed in turn;
    names are unique at every level. *)
Fixpoint placed_item (prefix : list string) (key : string) (item : bitem) : bool :=
  match item with
  | BNode d =>
      bool_decide (NodeDef.name d = key)
      && bool_decide (NodeDef.path d = prefix ++ [key])
  | BSub p items =>
      bool_decide (p = prefix ++ [key])
      && bool_decide (NoDup items.*1)
      && forallb (fun kv => placed_item p kv.1 kv.2) items
  end.

Definition placed (prefix : list string) (items : list (string * bitem)) : bool :=
  bool_decide (NoDup items.*1) && forallb (fun kv => placed_item prefix kv.1 kv.2) items.

(** Every node definition of the tree belongs to the graph [root]. *)
Fixpoint owned_item (root : nat) (item : bitem) : bool :=
  match item with
  | BNode d => bool_decide (NodeDef.owner d = root)
  | BSub _ items => forallb (fun kv => owned_item root kv.2) items
  end.

Definition owned (root : nat) (items : list (string * bitem)) : bool :=
  forallb (fun kv => owned_item root kv.2) items.

(** The invariant of a blueprint, seen from a graph or sub-graph [g] of it:
    the items of [g] are stored where their paths say and belong to the root
    of [g], and the edge maps, which [g] shares with its root, mirror each
    other and mention only paths of node definitions of the blueprint: those
    below [g] and those elsewhere, listed in [outside], none of which lies
    below the prefix of [g]. *)
Definition sound_in (outside : list (list string)) (g : BaseGraph.t) : Prop :=
  placed (BaseGraph._prefix g) (BaseGraph._items g) = true /\
  owned (BaseGraph._root g) (BaseGraph._items g) = true /\
  mirrored (BaseGraph._downstream g) (BaseGraph._upstream g) /\
  grounded (outside ++ node_paths (BaseGraph._items g)) (BaseGraph._downstream g) /\
  grounded (outside ++ node_paths (BaseGraph._items g)) (BaseGraph._upstream g) /\
  (forall q, q ∈ outside -> ~ (BaseGraph._prefix g `prefix_of` q)).

(** The invariant of a whole blueprint. *)
Definition sound (g : BaseGraph.t) : Prop := sound_in [] g.

Definition soundb (g : BaseGraph.t) : bool :=
  placed (BaseGraph._prefix g) (BaseGraph._items g)
  && owned (BaseGraph._root g) (BaseGraph._items g)
  && closedb g.

(** The pairs of neighbours of a list. *)
Definition neighbours {A} (l : list A) : list (A * A) := zip l (tail l).

(** Nothing but the edge maps differs between two graphs. *)
Definition same_items (g g' : BaseGraph.t) : Prop :=
  BaseGraph._items g' = BaseGraph._items g /\ same_static g g'.

(** [grown g g']: every edge list of [g] is still there in [g'], possibly
    with entries appended. *)
Definition grown_map (e e' : edge_map) : Prop :=
  forall key l, e !! key = Some l -> exists l', e' !! key = Some (l ++ l').

Definition grown (g g' : BaseGraph.t) : Prop :=
  grown_map (BaseGraph._downstream g) (BaseGraph._downstream g') /\
  grown_map (BaseGraph._upstream g) (BaseGraph._upstream g').

(** [same_edges g g']: the two graphs have the same edges. *)
Definition same_edges (g g' : BaseGraph.t) : Prop :=
  (forall s e, edge_in (BaseGraph._downstream g') s e <->
               edge_in (BaseGraph._downstream g) s e) /\
  (forall s e, edge_in (BaseGraph._upstream g') s e <->
               edge_in (BaseGraph._upstream g) s e).

(** The edges that piping the vertices [vs] adds: downstream, from every
    vertex to its successor; upstream, the mirror of each, carrying the
    parameter that the successor was addressed with. *)
Definition piped_downstream (vs : list EdgeDef.t) (s : list string) (e : EdgeDef.t) : Prop :=
  exists u, (u, e) ∈ neighbours vs /\ EdgeDef.node u = s.

Definition piped_upstream (vs : list EdgeDef.t) (t : list string) (e : EdgeDef.t) : Prop :=
  exists u x, (u, x) ∈ neighbours vs /\ EdgeDef.node x = t /\
              e = EdgeDef.mk (EdgeDef.node u) (EdgeDef.param x).

(** What [_pipe] makes of one of its arguments: [node.param] addresses the
    parameter [param] of [node], anything else addresses no parameter. *)
Definition addressed_node (item : pyitem) : pyitem :=
  match item with ItEdgeDef inner _ => inner | _ => item end.

Definition addressed_param (item : pyitem) : option string :=
  match item with ItEdgeDef _ param => param | _ => None end.

(** [vertex_for root prefix item v]: [v] is a vertex that [_pipe], working
    on a graph with that root and prefix, makes of [item]: it carries the
    parameter that the item addresses; for a node definition of the graph
    itself it carries its path, and for a callable with a name the path of
    that name in the graph. *)
Definition vertex_for (root : nat) (prefix : list string) (item : pyitem)
    (v : EdgeDef.t) : Prop :=
  EdgeDef.param v = addressed_param item /\
  (forall d, addressed_node item = ItNodeDef d -> NodeDef.owner d = root ->
             EdgeDef.node v = NodeDef.path d) /\
  (forall c n, addressed_node item = ItCallable c -> BaseGraph.deduce_name c = Ok n ->
               EdgeDef.node v = prefix ++ [n]).

(** [merged_into outside target target']: what copying into [target]
    keeps: the blueprint is sound, the graph object is the same, its edges
    and the paths of its node definitions are still there. *)
Definition merged_into (outside : list (list string)) (target target' : BaseGraph.t)
    : Prop :=
  sound_in outside target' /\ same_static target target' /\
  same_edges target target' /\ grown target target' /\
  (forall q, q ∈ node_paths (BaseGraph._items target) ->
             q ∈ node_paths (BaseGraph._items target')).

(** What copying the item [item] of a source graph does: the node
    definitions found in the source at [Ps ++ q] are afterwards found in the
    target at its prefix followed by [q]. *)
Definition copies (item : bitem) : Prop :=
  forall key target prefix target' outside Ps rs,
    placed_item Ps key item = true -> owned_item rs item = true ->
    rs <> BaseGraph._root target -> prefix = BaseGraph._prefix target ->
    sound_in outside target ->
    BaseGraph.copy_item item key target prefix = Ok target' ->
    merged_into outside target target' /\
    forall q, Ps ++ q ∈ node_paths_item item ->
              BaseGraph._prefix target ++ q ∈ node_paths (BaseGraph._items target').

(** [merged self graph P g']: [g'] is [self] with the blueprint [graph]
    merged in below the prefix [P]: it is sound, what [self] had is still
    there, every node definition of [graph] is found with [P] in front of
    its path, and the edges are those of [self] and those of [graph] with [P]
    in front of both ends. *)
Definition rebased_in (P : list string) (source : edge_map) (k : list string)
    (e : EdgeDef.t) : Prop :=
  exists s t, k = P ++ s /\ edge_in source s t /\ e = BaseGraph.rebase_edge P t.

Definition merged (self graph : BaseGraph.t) (P : list string) (g' : BaseGraph.t)
    : Prop :=
  sound g' /\ same_static self g' /\ grown self g' /\
  (forall q, q ∈ node_paths (BaseGraph._items self) ->
             q ∈ node_paths (BaseGraph._items g')) /\
  (forall q, q ∈ node_paths (BaseGraph._items graph) ->
             P ++ q ∈ node_paths (BaseGraph._items g')) /\
  (forall k e, edge_in (BaseGraph._downstream g') k e <->
     edge_in (BaseGraph._downstream self) k e \/
     rebased_in P (BaseGraph._downstream graph) k e) /\
  (forall k e, edge_in (BaseGraph._upstream g') k e <->
     edge_in (BaseGraph._upstream self) k e \/
     rebased_in P (BaseGraph._upstream graph) k e).

(** What may be handed to [Graph] or to [union]: a node specification, or
    the root of a sound blueprint. *)
Definition storable_ok (item : BaseGraph.storable) : Prop :=
  match item with
  | BaseGraph.SNode _ => True
  | BaseGraph.SGraph h => sound h /\ BaseGraph._prefix h = []
  end.

(** [evaluated_once m ok m']: going from [m] to [m'], the callables
    invoked belong to nodes that were dirty in [m], each was invoked once,
    and, when the step succeeded ([ok]), all of them are clean in [m']. *)
Definition evaluated_once (m : machine) (ok : bool) (m' : machine) : Prop :=
  exists l, calls m' = calls m ++ l /\ NoDup l /\
            (forall n, n ∈ l -> is_dirty m n = true) /\
            (ok = true -> forall n, n ∈ l -> is_clean m' n = true).

(** ** Specification-level notions for the structure of instances *)

(** What a node state is given when it is made. *)
Definition settings (s : NodeState.t)
    : string * callable * NodeArgSpec.t * list value * dict :=
  (NodeState.name s, NodeState.func s, NodeState._args_spec s,
   NodeState._args s, NodeState._kwargs s).

(** The part of it that parameter changes leave alone. *)
Definition identity_of (s : NodeState.t) : string * callable * NodeArgSpec.t :=
  (NodeState.name s, NodeState.func s, NodeState._args_spec s).

Definition identities (m : machine) : gmap nat (string * callable * NodeArgSpec.t) :=
  identity_of <$> heap m.

(** [made_from key d s]: the node state [s] holds what [NodeState] makes of
    the node definition [d] stored under [key]: its callable and signature,
    and its default arguments.  [made_for] says so of the callable and the
    signature only. *)
Definition made_from (key : string) (d : NodeDef.t) (s : NodeState.t) : Prop :=
  settings s = settings (NodeState.__init__ key (NodeDef.func d) (NodeDef.args d)
                           (NodeDef.kwargs d)).

Definition made_for (key : string) (d : NodeDef.t) (s : NodeState.t) : Prop :=
  identity_of s = identity_of (NodeState.__init__ key (NodeDef.func d) (NodeDef.args d)
                                 (NodeDef.kwargs d)).

(** [mirrors P h key b r]: the runtime item [r] has the shape of the
    blueprint item [b]: a node state for a node definition, related by [P];
    a group for a sub-graph, with the same names in the same order, each
    mirroring its counterpart. *)
Fixpoint mirrors (P : string -> NodeDef.t -> NodeState.t -> Prop)
    (h : gmap nat NodeState.t) (key : string) (b : bitem) (r : ritem) {struct b} : Prop :=
  match b with
  | BNode d =>
      match r with
      | RNode n => exists s, h !! n = Some s /\ P key d s
      | RGroup _ => False
      end
  | BSub _ bits =>
      match r with
      | RNode _ => False
      | RGroup rits =>
          rits.*1 = bits.*1 /\
          foldr (fun kv acc =>
                   match alist_get kv.1 rits with
                   | Some r' => mirrors P h kv.1 kv.2 r'
                   | None => False
                   end /\ acc) True bits
      end
  end.

Definition mirrors_all (P : string -> NodeDef.t -> NodeState.t -> Prop)
    (h : gmap nat NodeState.t) (bits : list (string * bitem))
    (rits : list (string * ritem)) : Prop :=
  rits.*1 = bits.*1 /\
  foldr (fun kv acc =>
           match alist_get kv.1 rits with
           | Some r' => mirrors P h kv.1 kv.2 r'
           | None => False
           end /\ acc) True bits.

(** What walking one item of a blueprint with unique names does: the new
    node states get the next addresses, in order, and the item made mirrors
    the blueprint item. *)
Definition walk_makes (value : bitem) : Prop :=
  forall key st st' it,
    Context.walk_item value key st = (st', it) ->
    dense (Context.w_heap st) -> wf_item key value = true ->
    dense (Context.w_heap st') /\
    (forall n s, Context.w_heap st !! n = Some s -> Context.w_heap st' !! n = Some s) /\
    size (Context.w_heap st) <= size (Context.w_heap st') /\
    leaves it = seq (size (Context.w_heap st))
                    (size (Context.w_heap st') - size (Context.w_heap st)) /\
    mirrors made_from (Context.w_heap st') key value it.

(** ** Specification-level notions for the edges of a merge *)

(** [kept_or_emptied e e']: every list of the edge map [e'] is the one
    that [e] has under the same key, or is empty. *)
Definition kept_or_emptied (e e' : edge_map) : Prop :=
  forall key, e' !! key = e !! key \/ e' !! key = Some [].

Definition emptied (g g' : BaseGraph.t) : Prop :=
  kept_or_emptied (BaseGraph._downstream g) (BaseGraph._downstream g') /\
  kept_or_emptied (BaseGraph._upstream g) (BaseGraph._upstream g').

(** [edges_merged P source before after]: the edge map [after] is
    [before] with the edges of [source] merged in below the prefix [P].
    Under every key of [source], with [P] in front, it has the list that was
    there before (no list counting as an empty one) followed by the edges of
    the source list, with [P] in front of their targets, that were not in
    that list; every other list is as it was. *)
Definition edges_merged (P : list string) (source before after : edge_map) : Prop :=
  (forall s targets, source !! s = Some targets ->
     let old := default [] (before !! (P ++ s)) in
     after !! (P ++ s) =
       Some (old ++ filter (fun edge => edge ∉ old)
                           (BaseGraph.rebase_edge P <$> targets))) /\
  (forall key l, before !! key = Some l ->
     (forall s, is_Some (source !! s) -> key <> P ++ s) -> after !! key = Some l).

(** [merged_edges P self graph g']: the edge maps of [g'] are those of
    [self] with the edges of [graph] merged in below [P]; in particular
    every edge of [graph] is in [g'], with [P] in front of both ends and
    with its own target parameter. *)
Definition merged_edges (P : list string) (self graph g' : BaseGraph.t) : Prop :=
  edges_merged P (BaseGraph._downstream graph) (BaseGraph._downstream self)
               (BaseGraph._downstream g') /\
  edges_merged P (BaseGraph._upstream graph) (BaseGraph._upstream self)
               (BaseGraph._upstream g') /\
  (forall s targets t,
     BaseGraph._downstream graph !! s = Some targets -> t ∈ targets ->
     edge_in (BaseGraph._downstream g') (P ++ s)
             (EdgeDef.mk (P ++ EdgeDef.node t) (EdgeDef.param t))) /\
  (forall s targets t,
     BaseGraph._upstream graph !! s = Some targets -> t ∈ targets ->
     edge_in (BaseGraph._upstream g') (P ++ s)
             (EdgeDef.mk (P ++ EdgeDef.node t) (EdgeDef.param t))).

(** ** Specification-level notions for the edge lists after piping *)

(** The entries that piping the vertices [vs] appends to the list under
    the key [k], in order: downstream, the successor of every vertex with
    the path [k]; upstream, for every vertex with the path [k] its
    predecessor, with the parameter the vertex itself was addressed with. *)
Definition appended_downstream (vs : list EdgeDef.t) (k : list string)
    : list EdgeDef.t :=
  omap (fun ux => if decide (EdgeDef.node ux.1 = k) then Some ux.2 else None)
       (neighbours vs).

Definition appended_upstream (vs : list EdgeDef.t) (k : list string)
    : list EdgeDef.t :=
  omap (fun ux => if decide (EdgeDef.node ux.2 = k)
                  then Some (EdgeDef.mk (EdgeDef.node ux.1) (EdgeDef.param ux.2))
                  else None)
       (neighbours vs).

(** [lists_appended appended before after]: every list of [before] is in
    [after] with the entries [appended] after it, and a list of [after]
    under a new key holds those entries only. *)
Definition lists_appended (appended : list string -> list EdgeDef.t)
    (before after : edge_map) : Prop :=
  (forall k l, before !! k = Some l -> after !! k = Some (l ++ appended k)) /\
  (forall k l', before !! k = None -> after !! k = Some l' -> l' = appended k).

(** * Properties of the evaluation engine *)

Section NodeFacts.
Import Node.

Lemma invoke_heap self f a k m r m' :
  invoke self f a k m = (r, m') -> heap m' = heap m.
Proof.
  unfold invoke. destruct (str_keys k); [|by intros [= <- <-]].
  destruct (body f a g (world_of m)). by intros [= <- <-].
Qed.

Lemma invoke_calls self f a k m r m' :
  invoke self f a k m = (r, m') ->
  (is_ok r = true -> calls m' = calls m ++ [self]) /\
  (calls m' = calls m \/ calls m' = calls m ++ [self]).
Proof.
  unfold invoke. destruct (str_keys k).
  - destruct (body f a g (world_of m)). intros [= <- <-]. simpl. auto.
  - intros [= <- <-]. simpl. split; [done | by left].
Qed.

Lemma frame_refl S m : frame S m m.
Proof. split; [done|]. exists []. rewrite app_nil_r. split; [done|]. intros. apply not_elem_of_nil. Qed.

Lemma frame_trans S m1 m2 m3 : frame S m1 m2 -> frame S m2 m3 -> frame S m1 m3.
Proof.
  intros [H1 (l1 & E1 & N1)] [H2 (l2 & E2 & N2)]. split.
  - intros s Hs. by rewrite H2, H1.
  - exists (l1 ++ l2). rewrite E2, E1, app_assoc. split; [done|].
    intros s Hs. rewrite elem_of_app. intros [?|?]; [by eapply N1 | by eapply N2].
Qed.

Lemma frame_mono S S' m m' : S ⊆ S' -> frame S' m m' -> frame S m m'.
Proof.
  intros Hsub [H1 (l & E & N)]. split; [intros; apply H1; set_solver|].
  exists l. split; [done|]. intros; apply N; set_solver.
Qed.

Lemma peer_read_cases (read : nat -> machine -> result value * machine) p m r m' :
  peer_eval_cached read p m = (r, m') ->
  (peer_target p = None /\ r = Raise AttributeError /\ m' = m) \/
  (exists u r0, peer_target p = Some u /\ read u m = (r0, m') /\
                 (is_ok r = is_ok r0)).
Proof.
  destruct p as [u|w]; simpl.
  - intros H. right. exists u, r. by rewrite H.
  - unfold ParamTargetNodeStateWrapper._eval_cached.
    destruct (ParamTargetNodeStateWrapper._state w) as [s|u].
    + intros [= <- <-]. by left.
    + destruct (read u m) as [[v|e] m1] eqn:E; intros [= <- <-];
        right; eexists u, _; by rewrite ?E.
Qed.

Lemma collect_step read p rest a k m r m' :
  collect read (p :: rest) a k m = (r, m') ->
  (exists e, peer_eval_cached read p m = (Raise e, m') /\ r = Raise e) \/
  (exists v m1 a' k', peer_eval_cached read p m = (Ok v, m1) /\
                       collect read rest a' k' m1 = (r, m')).
Proof.
  simpl. destruct (peer_eval_cached read p m) as [[v|e] m1].
  - intros H. right. destruct v; eauto 10.
  - intros [= <- <-]. left. eauto.
Qed.

Lemma frame_invoke S x f a k m r m' :
  x ∉ S -> invoke x f a k m = (r, m') -> frame S m m'.
Proof.
  intros Hx Hinv. split.
  - intros s _. by rewrite (invoke_heap _ _ _ _ _ _ _ Hinv).
  - destruct (invoke_calls _ _ _ _ _ _ _ Hinv) as [_ [E|E]].
    + exists []. rewrite app_nil_r. split; [done|]. intros. apply not_elem_of_nil.
    + exists [x]. split; [done|]. intros s Hs ->%list_elem_of_singleton. done.
Qed.

Lemma frame_store S x v m : x ∉ S -> frame S m (Node.store_result x v m).
Proof.
  intros Hx. split.
  - intros s Hs. simpl. apply lookup_alter_ne. congruence.
  - exists []. simpl. rewrite app_nil_r. split; [done|]. intros. apply not_elem_of_nil.
Qed.

Lemma busy_frame S m m' : frame S m m' -> busy S m -> busy S m'.
Proof. intros [Hh _] Hb s Hs. unfold is_dirty. rewrite Hh by done. by apply Hb. Qed.

Lemma linked_frame S T m m' : frame S m m' -> linked S T m -> linked S T m'.
Proof.
  intros [Hh _] Hl s Hs. destruct (Hl s Hs) as (st & p & t & ? & ? & ? & ?).
  exists st, p, t. by rewrite Hh.
Qed.

Lemma linked_mono S T T' m : T ⊆ T' -> linked S T m -> linked S T' m.
Proof.
  intros Hsub Hl s Hs. destruct (Hl s Hs) as (st & p & t & ? & ? & ? & ?).
  exists st, p, t. split_and!; try done. by apply Hsub.
Qed.

Lemma collect_busy read (S : gset nat) x st :
  busy_spec read ->
  forall ups a k m0 r0 m1,
    (forall p, p ∈ ups -> p ∈ NodeState.upstream st) ->
    heap m0 !! x = Some st ->
    busy (S ∪ {[x]}) m0 ->
    linked S (S ∪ {[x]}) m0 ->
    collect read ups a k m0 = (r0, m1) ->
    frame (S ∪ {[x]}) m0 m1 /\
    ((exists p t, p ∈ ups /\ peer_target p = Some t /\ t ∈ S ∪ {[x]}) ->
     is_ok r0 = false).
Proof.
  intros Hread. set (S' := S ∪ {[x]}).
  assert (Hpeer : forall p u m0 r1 m2,
    p ∈ NodeState.upstream st -> peer_target p = Some u ->
    heap m0 !! x = Some st -> busy S' m0 -> linked S S' m0 ->
    read u m0 = (r1, m2) -> frame S' m0 m2 /\ (u ∈ S' -> is_ok r1 = false)).
  { intros p u m0 r1 m2 Hp Ht Hx0 Hb0 Hl0 Hr.
    apply (Hread S' u m0); [done| |done].
    intros s [Hs| ->%elem_of_singleton]%elem_of_union.
    - destruct (Hl0 s Hs) as (st' & q & t & ? & ? & ? & ?).
      exists st', q, t. split_and!; try done. by apply elem_of_union_l.
    - exists st, p, u. split_and!; try done. apply elem_of_union_r.
      by apply elem_of_singleton. }
  induction ups as [|p ups IHups]; intros a k m0 r0 m1 Hsub Hx0 Hb0 Hl0.
  { simpl. intros [= <- <-]. split; [apply frame_refl|].
    intros (p & t & Hp & _). by apply elem_of_nil in Hp. }
  intros Hc. apply collect_step in Hc as [(e & Hp & ->)|(v & m2 & a' & k' & Hp & Hrest)].
  - split; [|done].
    apply peer_read_cases in Hp as [(_ & _ & ->)|(u & r1 & Ht & Hr & _)];
      [apply frame_refl|].
    eapply (Hpeer p u m0); try done. apply Hsub. by left.
  - apply peer_read_cases in Hp as [(_ & [=] & _)|(u & r1 & Ht & Hr & Hok)].
    destruct (Hpeer p u m0 r1 m2) as [Hf1 Hfail]; try done.
    { apply Hsub. by left. }
    destruct (IHups a' k' m2 r0 m1) as [Hf2 Hfail2]; try done.
    { intros q Hq. apply Hsub. by right. }
    { destruct Hf1 as [-> _]; [done|]. apply elem_of_union_r. by apply elem_of_singleton. }
    { by eapply busy_frame. }
    { eapply linked_frame; [|done]. eapply frame_mono; [|done]. apply union_subseteq_l. }
    split; [by eapply frame_trans|].
    intros (q & t & [->|Hq]%elem_of_cons & Ht' & Hin).
    + rewrite Ht in Ht'. injection Ht' as ->.
      specialize (Hfail Hin). simpl in Hok. congruence.
    + apply Hfail2. eauto.
Qed.

(** What a run of [_eval] on a dirty node [x] does to the nodes in progress:
    the upstream reads (up to [m1]) leave [S] and [x] alone, then the callable
    of [x] is invoked at most once; nothing is invoked when [x] is in [S]. *)
Lemma eval_from_busy read (S : gset nat) x st args kwargs m r m' :
  busy_spec read ->
  heap m !! x = Some st -> NodeState._dirty st = true ->
  busy S m -> linked S (S ∪ {[x]}) m ->
  _eval_from read x args kwargs m = (r, m') ->
  exists m1,
    frame (S ∪ {[x]}) m m1 /\ heap m' = heap m1 /\
    (calls m' = calls m1 \/ calls m' = calls m1 ++ [x]) /\
    (is_ok r = true -> calls m' = calls m1 ++ [x]) /\
    (x ∈ S -> is_ok r = false /\ m' = m1).
Proof.
  intros Hread Hx Hd Hb Hl. unfold _eval_from. rewrite Hx.
  assert (busy (S ∪ {[x]}) m) as Hb'.
  { intros s [Hs| ->%elem_of_singleton]%elem_of_union; [by apply Hb|].
    unfold is_dirty. by rewrite Hx. }
  destruct (collect read (NodeState.upstream st) [] kwargs m)
    as [[[ca ck]|e] m1] eqn:Hcol;
    destruct (collect_busy read S x st Hread _ _ _ _ _ _ (fun p H => H) Hx Hb' Hl Hcol)
      as [Hfr Hfail].
  - assert (x ∉ S) as Hnin.
    { intros Hin. destruct (Hl x Hin) as (st' & p & t & Hst & Hp & Ht & Hor).
      rewrite Hx in Hst. injection Hst as <-.
      enough (is_ok (Ok (ca, ck)) = false) by done.
      apply Hfail. by exists p, t. }
    intros Hinv. exists m1. split_and!; try done.
    + by eapply invoke_heap.
    + by eapply invoke_calls.
    + by eapply invoke_calls.
  - intros [= <- <-]. exists m1. split_and!; auto. done.
Qed.

Lemma eval_cached_busy fuel : busy_spec (_eval_cached fuel).
Proof.
  induction fuel as [|fuel IH]; intros S x m r m' Hbusy Hlink; simpl.
  { intros [= <- <-]. split; [apply frame_refl | done]. }
  destruct (heap m !! x) as [st|] eqn:Hx; [|intros [= <- <-]; split; [apply frame_refl | done]].
  destruct (NodeState._dirty st) eqn:Hd; cycle 1.
  { intros [= <- <-]. split; [apply frame_refl|].
    intros Hin. specialize (Hbusy _ Hin). unfold is_dirty in Hbusy.
    rewrite Hx in Hbusy. congruence. }
  destruct (_eval_from _ x _ _ m) as [r0 m0] eqn:Hev.
  destruct (eval_from_busy _ S x st _ _ m r0 m0 IH Hx Hd Hbusy Hlink Hev)
    as (m1 & Hfr & Hh & Hc & Hcok & Hin).
  assert (frame S m m1) as Hfr1 by (eapply frame_mono; [|done]; apply union_subseteq_l).
  destruct (decide (x ∈ S)) as [HxS|HxS].
  - destruct (Hin HxS) as [Hfail ->]. destruct r0; [done|].
    intros [= <- <-]. done.
  - assert (frame S m1 m0) as Hfr2.
    { split; [intros; by rewrite Hh|]. destruct Hc as [->| ->].
      - exists []. rewrite app_nil_r. split; [done|]. intros. apply not_elem_of_nil.
      - exists [x]. split; [done|]. intros s Hs ->%list_elem_of_singleton. done. }
    destruct r0; intros [= <- <-]; (split; [|done]).
    + eapply frame_trans; [done|]. eapply frame_trans; [done|]. by apply frame_store.
    + by eapply frame_trans.
Qed.

(** Invariants of the reads carry over to the loop and to [_eval]. *)
Lemma collect_preserves (I : machine -> Prop) read :
  (forall n m r m', I m -> read n m = (r, m') -> I m') ->
  forall ups a k m r m', I m -> collect read ups a k m = (r, m') -> I m'.
Proof.
  intros Hread. induction ups as [|p ups IH]; intros a k m r m' HI.
  { simpl. by intros [= <- <-]. }
  intros Hc. apply collect_step in Hc as [(e & Hp & ->)|(v & m2 & a' & k' & Hp & Hrest)].
  - apply peer_read_cases in Hp as [(_ & _ & ->)|(u & r1 & _ & Hr & _)]; eauto.
  - apply peer_read_cases in Hp as [(_ & [=] & _)|(u & r1 & _ & Hr & _)]. eauto.
Qed.

Lemma eval_from_preserves (I : machine -> Prop) read :
  (forall n m r m', I m -> read n m = (r, m') -> I m') ->
  (forall m w c, I m -> I {| heap := heap m; world_of := w; calls := c |}) ->
  forall x args kwargs m r m', I m -> _eval_from read x args kwargs m = (r, m') -> I m'.
Proof.
  intros Hread Hinv x args kwargs m r m' HI. unfold _eval_from.
  destruct (heap m !! x) as [st|]; [|by intros [= <- <-]].
  destruct (collect read (NodeState.upstream st) [] kwargs m) as [[[ca ck]|e] m1] eqn:Hc;
    pose proof (collect_preserves I read Hread _ _ _ _ _ _ HI Hc) as HI1;
    [|by intros [= <- <-]].
  unfold invoke. destruct (str_keys ck); [|by intros [= <- <-]].
  destruct (body _ _ _ _). intros [= <- <-]. by apply Hinv.
Qed.

(** A cached read only ever writes to nodes that were dirty. *)
Lemma eval_cached_clean fuel : forall x m r m' n s,
  _eval_cached fuel x m = (r, m') ->
  heap m !! n = Some s -> NodeState._dirty s = false -> heap m' !! n = Some s.
Proof.
  induction fuel as [|fuel IH]; intros x m r m' n s; simpl.
  { by intros [= <- <-]. }
  destruct (heap m !! x) as [st|] eqn:Hx; [|by intros [= <- <-]].
  destruct (NodeState._dirty st) eqn:Hd; [|by intros [= <- <-]].
  destruct (_eval_from _ x _ _ m) as [r0 m0] eqn:Hev. intros Hres Hn Hc.
  assert (heap m0 !! n = Some s) as Hn0.
  { eapply (eval_from_preserves (fun m => heap m !! n = Some s)); [| |exact Hn|exact Hev].
    - intros; eapply IH; eauto.
    - done. }
  destruct r0; injection Hres as <- <-; [|done].
  simpl. rewrite lookup_alter_ne; [done|]. intros ->. congruence.
Qed.

Lemma shape_alter_flags d c x m :
  shape (with_heap (alter (NodeState.with_flags d c) x (heap m)) m) = shape m.
Proof.
  unfold shape. simpl. apply map_eq. intros i. rewrite !lookup_fmap.
  destruct (decide (x = i)) as [->|]; [|by rewrite lookup_alter_ne].
  rewrite lookup_alter_eq. by destruct (heap m !! i).
Qed.

Lemma eval_cached_shape fuel : forall x m r m',
  _eval_cached fuel x m = (r, m') -> shape m' = shape m.
Proof.
  induction fuel as [|fuel IH]; intros x m r m'; simpl.
  { by intros [= <- <-]. }
  destruct (heap m !! x) as [st|] eqn:Hx; [|by intros [= <- <-]].
  destruct (NodeState._dirty st) eqn:Hd; [|by intros [= <- <-]].
  destruct (_eval_from _ x _ _ m) as [r0 m0] eqn:Hev. intros Hres.
  assert (shape m0 = shape m) as Hn0.
  { eapply (eval_from_preserves (fun m' => shape m' = shape m)); [| |done|exact Hev].
    - intros; eapply eq_trans; [eapply IH|]; eauto.
    - done. }
  destruct r0; injection Hres as <- <-; [|done].
  unfold store_result. by rewrite shape_alter_flags.
Qed.

Lemma shape_lookup m m' n s' :
  shape m' = shape m -> heap m' !! n = Some s' ->
  exists s, heap m !! n = Some s /\
    NodeState.with_flags true VNone s = NodeState.with_flags true VNone s'.
Proof.
  intros Hs Hn. assert (shape m' !! n = shape m !! n) as E by by rewrite Hs.
  unfold shape in E. rewrite !lookup_fmap, Hn in E. simpl in E.
  destruct (heap m !! n) as [s|]; [|done]. exists s. split; [done|]. symmetry. by apply (inj Some).
Qed.

End NodeFacts.

Section CachedReads.
Import Node.

Lemma filter_absent (self : nat) (l : list nat) :
  self ∉ l -> filter (fun n => n = self) l = [].
Proof.
  induction l as [|x l IH]; [done|]. intros Hn.
  rewrite filter_cons_False.
  - apply IH. intros ?. apply Hn. by right.
  - intros ->. apply Hn. by left.
Qed.

Lemma invocations_extend self m m' l :
  calls m' = calls m ++ l ++ [self] -> self ∉ l ->
  invocations self m' = S (invocations self m).
Proof.
  intros E Hn. unfold invocations. rewrite E, !filter_app, !length_app.
  rewrite (filter_absent self l Hn). rewrite filter_cons_True by done.
  simpl. lia.
Qed.

(** C1.  A cached read of a clean node returns the stored cache and leaves
    the machine as it is.  A cached read of a dirty node runs [_eval] on the
    node's stored arguments and, when that returns a value, stores it and
    clears the dirty flag.  Hence, for a node that is dirty before the first
    of two consecutive cached reads and whose evaluation returns, the
    second read returns the same value without touching the machine and the
    node's callable has been invoked exactly once over the two reads. *)
Theorem cached_read_memoizes (fuel fuel' : nat) (self : nat) (m : machine)
    (s : NodeState.t) :
  heap m !! self = Some s ->
  (NodeState._dirty s = false ->
     val (S fuel) self m = (Ok (NodeState._cache s), m)) /\
  (NodeState._dirty s = true ->
     val (S fuel) self m =
       match _eval fuel self (NodeState._args s) (NodeState._kwargs s) m with
       | (Ok v, m') => (Ok v, store_result self v m')
       | (Raise e, m') => (Raise e, m')
       end) /\
  (NodeState._dirty s = true ->
   forall v m1, val (S fuel) self m = (Ok v, m1) ->
     is_dirty m1 self = false /\
     val (S fuel') self m1 = (Ok v, m1) /\
     invocations self (val (S fuel') self m1).2 = S (invocations self m)).
Proof.
  intros Hs. unfold val. simpl. rewrite Hs. split_and!.
  - by intros ->.
  - by intros ->.
  - intros Hd v m1. rewrite Hd. unfold _eval.
    destruct (_eval_from _ self _ _ m) as [r0 m0] eqn:Hev.
    destruct (fun Hb Hl => eval_from_busy _ ∅ self s _ _ m r0 m0
                (eval_cached_busy fuel) Hs Hd Hb Hl Hev)
      as (m2 & [Hh (l & Hl & Hnl)] & Hh0 & _ & Hc & _); try done.
    destruct r0 as [v0|]; [|done]. intros [= <- <-].
    assert (heap (store_result self v0 m0) !! self
            = Some (NodeState.with_flags false v0 s)) as Hlook.
    { simpl. rewrite lookup_alter_eq, Hh0, Hh, Hs; [done|]. set_solver. }
    unfold is_dirty. rewrite Hlook. simpl. split_and!; try done.
    apply (invocations_extend self m _ l).
    + simpl. rewrite Hc by done. by rewrite Hl, <- app_assoc.
    + apply Hnl. set_solver.
Qed.

End CachedReads.

Section CachedReadExamples.
Import Node Examples.

(** test_eval_node_memoized: two direct calls advance the generator, the
    first cached read returns 2 and so does every later one. *)
Example accumulator_reads :
  let m0 := accumulator_machine in
  let '(r1, m1) := __call__ 5 0 [] ∅ m0 in
  let '(r2, m2) := __call__ 5 0 [] ∅ m1 in
  let '(r3, m3) := val 5 0 m2 in
  let '(r4, m4) := val 5 0 m3 in
  (r1, r2, r3, r4) = (Ok (VInt 0), Ok (VInt 1), Ok (VInt 2), Ok (VInt 2))
  /\ invocations 0 m4 = 3.
Proof. vm_compute. split; reflexivity. Qed.

(** test_node_set_params_invalidate *)
Example ab_reads :
  let m0 := ab_machine in
  let '(r1, m1) := val 5 1 m0 in
  let '(r2, m2) := val 5 1 (set 0 [VInt 5] (Fixtures.kw [("y", VInt 10)]) m1) in
  (r1, r2) = (Ok (VInt 35), Ok (VInt 60)).
Proof. vm_compute. reflexivity. Qed.

Lemma cached_read_memoizes_witness :
  is_dirty ab_machine 1 = true /\
  let m1 := (val 5 1 ab_machine).2 in
  (val 5 1 ab_machine).1 = Ok (VInt 35) /\
  is_dirty m1 1 = false /\
  val 4 1 m1 = (Ok (VInt 35), m1) /\
  invocations 1 (val 4 1 m1).2 = S (invocations 1 ab_machine).
Proof.
  assert (is_dirty ab_machine 1 = true) as Hd by (vm_compute; reflexivity).
  assert ((val 5 1 ab_machine).1 = Ok (VInt 35)) as Hv by (vm_compute; reflexivity).
  split; [exact Hd|]. split; [exact Hv|].
  unfold is_dirty in Hd.
  destruct (heap ab_machine !! 1) as [s|] eqn:Hs; [|discriminate Hd].
  destruct (cached_read_memoizes 4 3 1 ab_machine s Hs) as (_ & _ & H).
  apply (H Hd). destruct (val 5 1 ab_machine) as [r m1]. simpl in Hv.
  by rewrite Hv.
Defined.

End CachedReadExamples.

Section DirectCalls.
Import Node Examples.

(** C8.  A direct call on a node, whatever the arguments, leaves that node's
    own state object as it was: in particular its cache and dirty flag.  A
    node that was clean therefore still answers a cached read with the value
    cached before the call. *)
Theorem direct_call_keeps_own_state (fuel : nat) (self : nat) (args : list value)
    (kwargs : dict) (m : machine) :
  let m' := (__call__ fuel self args kwargs m).2 in
  heap m' !! self = heap m !! self /\
  (forall s fuel', heap m !! self = Some s -> NodeState._dirty s = false ->
     val (S fuel') self m' = (Ok (NodeState._cache s), m')).
Proof.
  simpl. unfold __call__, _eval.
  destruct (_eval_from (_eval_cached fuel) self args kwargs m) as [r m'] eqn:Hev.
  simpl.
  assert (heap m' !! self = heap m !! self) as Hsame.
  { destruct (heap m !! self) as [s|] eqn:Hs.
    - destruct (NodeState._dirty s) eqn:Hd.
      + destruct (fun Hb Hl => eval_from_busy _ ∅ self s _ _ m r m'
                    (eval_cached_busy fuel) Hs Hd Hb Hl Hev)
          as (m1 & [Hh _] & Hh0 & _); try done.
        rewrite Hh0, Hh; [done|]. set_solver.
      + eapply (eval_from_preserves (fun m => heap m !! self = Some s));
          [| |exact Hs|exact Hev]; [|done].
        intros n m0 r0 m1 H0 Hr. by eapply eval_cached_clean.
    - unfold _eval_from in Hev. rewrite Hs in Hev. by injection Hev as <- <-. }
  split; [done|].
  intros s fuel' Hs Hd. unfold val. simpl. rewrite Hsame, Hs, Hd. done.
Qed.

(** test_eval_node_override_params: direct calls with other arguments do not
    disturb the cached value. *)
Example direct_calls_after_read :
  let '(r0, m0) := val 5 0 ab_machine in
  let '(r1, m1) := __call__ 5 0 [VInt 5] ∅ (set 0 [VInt 5] (Fixtures.kw [("y", VInt 10)]) m0) in
  let '(r2, m2) := val 5 0 m1 in
  let '(r3, m3) := __call__ 5 0 [VInt 5; VInt 6] ∅ m2 in
  let '(r4, m4) := __call__ 5 0 [VInt 5] (Fixtures.kw [("y", VInt 7)]) m3 in
  let '(r5, m5) := val 5 0 m4 in
  (r1, r2, r3, r4, r5)
  = (Ok (VInt 25), Ok (VInt 50), Ok (VInt 30), Ok (VInt 35), Ok (VInt 50)).
Proof. vm_compute. reflexivity. Qed.

Lemma direct_call_keeps_own_state_witness :
  let m := (val 5 1 ab_machine).2 in
  let m' := (__call__ 5 1 [] (Fixtures.kw [("fudge", VInt 1)]) m).2 in
  is_dirty m 1 = false /\
  heap m' !! 1 = heap m !! 1 /\
  (val 3 1 m').1 = (val 3 1 m).1.
Proof.
  intros m m'.
  assert (is_dirty m 1 = false) as Hd by (vm_compute; reflexivity).
  assert (is_Some (heap m !! 1)) as [s Hs].
  { apply (bool_decide_unpack _). vm_compute. exact I. }
  destruct (direct_call_keeps_own_state 5 1 [] (Fixtures.kw [("fudge", VInt 1)]) m)
    as [H1 H2].
  split; [exact Hd|]. split; [exact H1|].
  unfold is_dirty in Hd. rewrite Hs in Hd.
  fold m' in H2. rewrite (H2 s 2 Hs Hd).
  clearbody m'. clearbody m.
  unfold val. simpl. by rewrite Hs, Hd.
Defined.

End DirectCalls.

Section Invalidation.
Import Node.

Lemma marks_nil m : marks m [] m.
Proof. by split_and!. Qed.

Lemma with_flags_twice d c d' c' s :
  NodeState.with_flags d c (NodeState.with_flags d' c' s) = NodeState.with_flags d c s.
Proof. done. Qed.

Lemma marks_app m1 m2 m3 vs1 vs2 :
  marks m1 vs1 m2 -> marks m2 vs2 m3 -> marks m1 (vs1 ++ vs2) m3.
Proof.
  intros (W1 & C1 & H1) (W2 & C2 & H2). split_and!; [congruence..|].
  intros n. rewrite H2, H1.
  destruct (decide (n ∈ vs2)), (decide (n ∈ vs1)), (decide (n ∈ vs1 ++ vs2)) as [Hin|Hin];
    try done; try (exfalso; apply Hin; set_solver); try set_solver.
  by destruct (heap m1 !! n).
Qed.

Lemma marks_mark_dirty x m : marks m [x] (mark_dirty x m).
Proof.
  split_and!; try done. intros n. simpl.
  destruct (decide (n ∈ [x])) as [->%list_elem_of_singleton|Hn].
  - by rewrite lookup_alter_eq.
  - rewrite lookup_alter_ne; [done|]. intros ->. apply Hn. by left.
Qed.

Lemma marks_is_clean m vs m' n :
  marks m vs m' -> is_clean m' n = if decide (n ∈ vs) then false else is_clean m n.
Proof.
  intros (_ & _ & H). unfold is_clean. rewrite H.
  destruct (decide (n ∈ vs)); [|done]. by destruct (heap m !! n).
Qed.

Lemma marks_is_dirty m vs m' n :
  marks m vs m' -> is_dirty m n = true -> is_dirty m' n = true.
Proof.
  intros (_ & _ & H). unfold is_dirty. rewrite H.
  destruct (decide (n ∈ vs)); [|done]. by destruct (heap m !! n).
Qed.

Lemma marks_downstream m vs m' n s' :
  marks m vs m' -> heap m' !! n = Some s' ->
  exists s, heap m !! n = Some s /\
            NodeState.downstream s' = NodeState.downstream s /\
            NodeState.upstream s' = NodeState.upstream s.
Proof.
  intros (_ & _ & H). rewrite H. destruct (heap m !! n) as [s|] eqn:E.
  - destruct (decide (n ∈ vs)); intros [= <-]; by exists s.
  - by destruct (decide (n ∈ vs)).
Qed.

Lemma elem_of_cleans m n : n ∈ cleans m <-> is_clean m n = true.
Proof.
  unfold cleans, is_clean. rewrite elem_of_dom. split.
  - intros [s [Hs Hd]%map_lookup_filter_Some]. rewrite Hs. simpl in Hd. by rewrite Hd.
  - destruct (heap m !! n) as [s|] eqn:Hs; [|done]. intros Hd. exists s.
    apply map_lookup_filter_Some. split; [done|]. simpl. by destruct (NodeState._dirty s).
Qed.

Lemma cleans_size_heap m : size (cleans m) ≤ size (heap m).
Proof.
  unfold cleans. rewrite size_dom. apply map_subseteq_size, map_filter_subseteq.
Qed.

Lemma marks_cleans m vs m' : marks m vs m' -> cleans m' ⊆ cleans m.
Proof.
  intros Hm n. rewrite !elem_of_cleans, (marks_is_clean _ _ _ _ Hm).
  by destruct (decide (n ∈ vs)).
Qed.

Lemma mark_dirty_cleans x m :
  is_clean m x = true -> size (cleans (mark_dirty x m)) < size (cleans m).
Proof.
  intros Hx. apply subset_size. split.
  - apply (marks_cleans _ [x]), marks_mark_dirty.
  - intros Hsub. assert (x ∈ cleans (mark_dirty x m)) as Hin.
    { apply Hsub. by apply elem_of_cleans. }
    apply elem_of_cleans in Hin.
    rewrite (marks_is_clean _ _ _ _ (marks_mark_dirty x m)) in Hin.
    rewrite decide_True in Hin by (by left). done.
Qed.

Lemma invalidate_loop fuel :
  (forall x m m' vs, _invalidate_within fuel x m = (m', vs) -> invalidated fuel x m m' vs) ->
  forall ds m0 vs0 m' vs',
    foldl (fun acc node =>
             let '(m', visited) := _invalidate_within fuel node acc.1 in
             (m', acc.2 ++ visited)) (m0, vs0) ds = (m', vs') ->
    exists vs1, vs' = vs0 ++ vs1 /\ marks m0 vs1 m' /\
      (forall n, n ∈ vs1 -> is_clean m0 n = true) /\ NoDup vs1 /\
      (size (cleans m0) < fuel ->
         (forall d, d ∈ ds -> is_clean m' d = false) /\
         forall n s d, n ∈ vs1 -> heap m0 !! n = Some s ->
                       d ∈ NodeState.downstream s -> is_clean m' d = false).
Proof.
  intros IH. induction ds as [|d ds IHds]; intros m0 vs0 m' vs'; simpl.
  { intros [= <- <-]. exists []. rewrite app_nil_r.
    split; [done|]. split; [apply marks_nil|].
    split; [intros n Hn; by apply elem_of_nil in Hn|].
    split; [constructor|].
    intros _. split; [intros n Hn; by apply elem_of_nil in Hn|].
    intros n ? ? Hn. by apply elem_of_nil in Hn. }
  destruct (_invalidate_within fuel d m0) as [m1 v1] eqn:Hd. simpl.
  intros Hrest. destruct (IH _ _ _ _ Hd) as (Hm1 & Hc1 & Hnd1 & Hcl1).
  destruct (IHds _ _ _ _ Hrest) as (v2 & E & Hm2 & Hc2 & Hnd2 & Hcl2). subst vs'.
  assert (forall n, n ∈ v2 -> (n ∉ v1) /\ is_clean m0 n = true) as Hsep.
  { intros n Hn. specialize (Hc2 n Hn).
    rewrite (marks_is_clean _ _ _ _ Hm1) in Hc2. by destruct (decide (n ∈ v1)). }
  exists (v1 ++ v2). split_and!.
  - by rewrite app_assoc.
  - by eapply marks_app.
  - intros n [?|?]%elem_of_app; [by apply Hc1 | by apply Hsep].
  - apply NoDup_app. split_and!; try done. intros n H1 H2. by apply (Hsep n H2).
  - intros Hfuel.
    assert (size (cleans m1) < fuel) as Hfuel1.
    { eapply Nat.le_lt_trans; [|done]. apply subseteq_size. by eapply marks_cleans. }
    destruct (Hcl1 Hfuel) as [Hd1 Hv1]. destruct (Hcl2 Hfuel1) as [Hd2 Hv2].
    assert (forall y, is_clean m1 y = false -> is_clean m' y = false) as Hmono.
    { intros y Hy. rewrite (marks_is_clean _ _ _ _ Hm2). by destruct (decide (y ∈ v2)). }
    split.
    + intros y [->|Hy]%elem_of_cons; [by apply Hmono | by apply Hd2].
    + intros n s y [Hn|Hn]%elem_of_app Hs Hy.
      * apply Hmono. by eapply Hv1.
      * destruct (Hsep n Hn) as [Hn1 _]. eapply (Hv2 n s); try done.
        destruct Hm1 as (_ & _ & ->). by rewrite decide_False.
Qed.

Lemma invalidate_within_spec fuel : forall x m m' vs,
  _invalidate_within fuel x m = (m', vs) -> invalidated fuel x m m' vs.
Proof.
  induction fuel as [|fuel IH]; intros x m m' vs; simpl.
  { intros [= <- <-]. split_and!; [apply marks_nil| |constructor|lia].
    intros n Hn. by apply elem_of_nil in Hn. }
  destruct (heap m !! x) as [s|] eqn:Hx; cycle 1.
  { intros [= <- <-]. split_and!; [apply marks_nil| |constructor|].
    - intros n Hn. by apply elem_of_nil in Hn.
    - intros _. split; [unfold is_clean; by rewrite Hx|].
      intros n ? ? Hn. by apply elem_of_nil in Hn. }
  destruct (NodeState._dirty s) eqn:Hd.
  { intros [= <- <-]. split_and!; [apply marks_nil| |constructor|].
    - intros n Hn. by apply elem_of_nil in Hn.
    - intros _. split; [unfold is_clean; by rewrite Hx, Hd|].
      intros n ? ? Hn. by apply elem_of_nil in Hn. }
  intros Hloop.
  assert (IH' : forall x m m' vs, _invalidate_within fuel x m = (m', vs) ->
                                  invalidated fuel x m m' vs) by exact IH.
  destruct (invalidate_loop fuel IH' _ _ _ _ _ Hloop)
    as (vs1 & E & Hm & Hc & Hnd & Hcl). subst vs.
  pose proof (marks_mark_dirty x m) as Hmx.
  assert (is_clean m x = true) as Hcx by (unfold is_clean; by rewrite Hx, Hd).
  assert (forall n, n ∈ vs1 -> n <> x /\ is_clean m n = true) as Hsep.
  { intros n Hn. specialize (Hc n Hn). rewrite (marks_is_clean _ _ _ _ Hmx) in Hc.
    destruct (decide (n ∈ [x])) as [|Hnx]; [done|]. split; [|done].
    intros ->. apply Hnx. by left. }
  split_and!.
  - by eapply marks_app.
  - intros n [->%list_elem_of_singleton|Hn]%elem_of_app; [done | by apply Hsep].
  - apply NoDup_app. split_and!; [apply NoDup_singleton| |done].
    intros n ->%list_elem_of_singleton Hn. by destruct (Hsep x Hn).
  - intros Hfuel.
    assert (size (cleans (mark_dirty x m)) < fuel) as Hfuel1.
    { pose proof (mark_dirty_cleans x m Hcx). lia. }
    destruct (Hcl Hfuel1) as [Hds Hvs].
    assert (is_clean m' x = false) as Hx'.
    { rewrite (marks_is_clean _ _ _ _ (marks_app _ _ _ _ _ Hmx Hm)).
      rewrite decide_True; [done|]. set_solver. }
    split; [done|].
    intros n s0 d [->%list_elem_of_singleton|Hn]%elem_of_app Hs0 Hd0.
    + rewrite Hx in Hs0. injection Hs0 as <-. by apply Hds.
    + eapply (Hvs n s0); try done. destruct Hmx as (_ & _ & ->).
      rewrite decide_False; [done|]. intros ->%list_elem_of_singleton.
      by destruct (Hsep x Hn).
Qed.

(** [_invalidate] has fuel to spare: the recursion goes at most as deep as
    there are clean nodes. *)
Lemma invalidate_spec x m :
  invalidated (S (size (heap m))) x m (_invalidate x m) (visited x m).
Proof.
  unfold _invalidate, visited.
  destruct (_invalidate_within (S (size (heap m))) x m) as [m' vs] eqn:E.
  by apply invalidate_within_spec.
Qed.

Lemma invalidate_fuel_enough m : size (cleans m) < S (size (heap m)).
Proof. pose proof (cleans_size_heap m). lia. Qed.

End Invalidation.

Section Wiring.
Import Node.

Lemma skel_lookup m m' n s :
  skel m' = skel m -> heap m !! n = Some s ->
  exists s', heap m' !! n = Some s' /\ skeleton s' = skeleton s.
Proof.
  intros E Hs. assert (skel m' !! n = skel m !! n) as En by by rewrite E.
  unfold skel in En. rewrite !lookup_fmap, Hs in En. simpl in En.
  destruct (heap m' !! n) as [s'|]; [|done]. exists s'. split; [done|].
  by apply (inj Some).
Qed.

Lemma links_lookup m m' n s :
  links m' = links m -> heap m !! n = Some s ->
  exists s', heap m' !! n = Some s' /\
             NodeState.upstream s' = NodeState.upstream s /\
             NodeState.downstream s' = NodeState.downstream s.
Proof.
  intros E Hs. assert (links m' !! n = links m !! n) as En by by rewrite E.
  unfold links in En. rewrite !lookup_fmap, Hs in En. simpl in En.
  destruct (heap m' !! n) as [s'|]; [|done]. exists s'. split; [done|].
  apply (inj Some) in En. by injection En.
Qed.

Lemma skel_links m m' : skel m' = skel m -> links m' = links m.
Proof.
  intros E. apply map_eq. intros n.
  assert (skel m' !! n = skel m !! n) as En by by rewrite E.
  unfold skel, links in *. rewrite !lookup_fmap in *.
  destruct (heap m' !! n), (heap m !! n); simpl in *; try done.
  apply (inj Some) in En. unfold skeleton in En. by injection En as -> -> _.
Qed.

Lemma skel_is_dirty m m' n : skel m' = skel m -> is_dirty m' n = is_dirty m n.
Proof.
  intros E. unfold is_dirty. destruct (heap m !! n) as [s|] eqn:Hs.
  - destruct (skel_lookup _ _ _ _ E Hs) as (s' & -> & Hk). by injection Hk.
  - destruct (heap m' !! n) as [s'|] eqn:Hs'; [|done].
    destruct (skel_lookup _ _ _ _ (eq_sym E) Hs') as (? & ? & _). congruence.
Qed.

Lemma wired_links m m' : links m' = links m -> wired m -> wired m'.
Proof.
  intros E [W1 W2]. split.
  - intros n s' d Hs' Hd.
    destruct (links_lookup _ _ _ _ (eq_sym E) Hs') as (s & Hs & _ & Hdn).
    rewrite <- Hdn in Hd. destruct (W1 n s d Hs Hd) as (ds & p & Hds & Hp & Hm).
    destruct (links_lookup _ _ _ _ E Hds) as (ds' & Hds' & Hup & _).
    exists ds', p. by rewrite Hup.
  - intros n s' p Hs' Hp.
    destruct (links_lookup _ _ _ _ (eq_sym E) Hs') as (s & Hs & Hup & _).
    rewrite <- Hup in Hp. destruct (W2 n s p Hs Hp) as (u & us & Hus & Hm & Hn).
    destruct (links_lookup _ _ _ _ E Hus) as (us' & Hus' & _ & Hdn).
    exists u, us'. by rewrite Hdn.
Qed.

Lemma downstream_dirty_skel m m' :
  skel m' = skel m -> downstream_dirty m -> downstream_dirty m'.
Proof.
  intros E H n s' d Hs' Hd Hin.
  destruct (skel_lookup _ _ _ _ (eq_sym E) Hs') as (s & Hs & Hk).
  injection Hk as _ Hdn Hdi. rewrite (skel_is_dirty _ _ _ E).
  apply (H n s d); congruence.
Qed.

Lemma skel_store_params self args kwargs m : skel (store_params self args kwargs m) = skel m.
Proof.
  apply map_eq. intros n. unfold skel. simpl. rewrite !lookup_fmap.
  destruct (decide (self = n)) as [->|]; [|by rewrite lookup_alter_ne].
  rewrite lookup_alter_eq. by destruct (heap m !! n).
Qed.

Lemma skel_merge_kwargs self kwargs m : skel (merge_kwargs self kwargs m) = skel m.
Proof.
  apply map_eq. intros n. unfold skel. simpl. rewrite !lookup_fmap.
  destruct (decide (self = n)) as [->|]; [|by rewrite lookup_alter_ne].
  rewrite lookup_alter_eq. by destruct (heap m !! n).
Qed.

Lemma marks_links m vs m' : marks m vs m' -> links m' = links m.
Proof.
  intros (_ & _ & H). apply map_eq. intros n. unfold links.
  rewrite !lookup_fmap, H. destruct (decide (n ∈ vs)); [|done].
  by destruct (heap m !! n).
Qed.

Lemma shape_links m m' : shape m' = shape m -> links m' = links m.
Proof.
  intros E. apply map_eq. intros n.
  assert (shape m' !! n = shape m !! n) as En by by rewrite E.
  unfold shape, links in *. rewrite !lookup_fmap in *.
  destruct (heap m' !! n) as [s'|], (heap m !! n) as [s|]; simpl in *; try done.
  apply (inj Some) in En. f_equal.
  change (NodeState.upstream s') with (NodeState.upstream (NodeState.with_flags true VNone s')).
  change (NodeState.downstream s') with (NodeState.downstream (NodeState.with_flags true VNone s')).
  by rewrite En.
Qed.

Lemma peer_mirrors_target p t u :
  peer_target p = Some t -> peer_mirrors u p = true -> u = t.
Proof.
  destruct p as [n|w]; simpl.
  - intros [= ->] H. by apply bool_decide_eq_true in H.
  - destruct (ParamTargetNodeStateWrapper._state w) as [str|n] eqn:E; [done|].
    intros [= ->]. rewrite orb_true_iff, andb_true_iff, !bool_decide_eq_true.
    intros [[= ->]|[_ H]]; [done|]. by simpl in H.
Qed.

Lemma is_clean_dirty m n : is_Some (heap m !! n) -> is_clean m n = negb (is_dirty m n).
Proof. intros [s Hs]. unfold is_clean, is_dirty. by rewrite Hs. Qed.

(** Under the wiring of [Context.__init__], the reader's view implies the
    invalidator's, and conversely when every upstream entry is readable. *)
Lemma upstream_clean_downstream_dirty m :
  wired m -> upstream_clean m -> downstream_dirty m.
Proof.
  intros [W1 _] Hup n s d Hs Hd Hin.
  destruct (W1 n s d Hs Hin) as (ds & p & Hds & Hp & Hm).
  unfold is_dirty. rewrite Hds. destruct (NodeState._dirty ds) eqn:Hdd; [done|].
  pose proof (Hup d ds p Hds Hdd Hp) as Hpc. unfold peer_clean in Hpc.
  destruct (peer_target p) as [t|] eqn:Ht; [|done].
  rewrite <- (peer_mirrors_target p t n Ht Hm) in Hpc.
  unfold is_clean in Hpc. rewrite Hs, Hd in Hpc. done.
Qed.

Lemma downstream_dirty_upstream_clean m :
  wired m -> readable m -> downstream_dirty m -> upstream_clean m.
Proof.
  intros [_ W2] Hr Hdn n s p Hs Hd Hp.
  destruct (Hr n s p Hs Hp) as [t Ht]. unfold peer_clean. rewrite Ht.
  destruct (W2 n s p Hs Hp) as (u & us & Hus & Hm & Hn).
  rewrite (peer_mirrors_target p t u Ht Hm) in Hus.
  unfold is_clean. rewrite Hus. destruct (NodeState._dirty us) eqn:Hdu; [|done].
  pose proof (Hdn t us n Hus Hdu Hn) as Hnd. unfold is_dirty in Hnd.
  rewrite Hs, Hd in Hnd. done.
Qed.

Lemma forallb_elem {A} (f : A -> bool) (l : list A) :
  forallb f l = true <-> forall x, x ∈ l -> f x = true.
Proof.
  rewrite forallb_forall. split; intros H x Hx; apply H; by apply list_elem_of_In.
Qed.

Lemma existsb_elem {A} (f : A -> bool) (l : list A) :
  existsb f l = true <-> exists x, x ∈ l /\ f x = true.
Proof.
  rewrite existsb_exists. split; intros (x & Hx & Hf); exists x; split; try done;
    by apply list_elem_of_In.
Qed.

Lemma wiredb_sound m : wiredb m = true -> wired m.
Proof.
  unfold wiredb. rewrite forallb_elem. intros H.
  assert (forall n s, heap m !! n = Some s -> wired_node m n s = true) as Hw.
  { intros n s Hs. apply (H (n, s)). by apply elem_of_map_to_list. }
  split.
  - intros n s d Hs Hd. specialize (Hw n s Hs). unfold wired_node in Hw.
    apply andb_true_iff in Hw as [Hw _]. rewrite forallb_elem in Hw.
    specialize (Hw d Hd). destruct (heap m !! d) as [ds|] eqn:Hds; [|done].
    apply existsb_elem in Hw as (p & Hp & Hm). by exists ds, p.
  - intros n s p Hs Hp. specialize (Hw n s Hs). unfold wired_node in Hw.
    apply andb_true_iff in Hw as [_ Hw]. rewrite forallb_elem in Hw.
    specialize (Hw p Hp). apply existsb_elem in Hw as (u & _ & Hu).
    destruct (heap m !! u) as [us|] eqn:Hus; [|done].
    apply andb_true_iff in Hu as [Hm Hn].
    exists u, us. split_and!; try done. by apply bool_decide_eq_true in Hn.
Qed.

Lemma downstream_dirtyb_sound m : downstream_dirtyb m = true -> downstream_dirty m.
Proof.
  unfold downstream_dirtyb. rewrite forallb_elem.
  intros H n s d Hs Hd Hin.
  specialize (H (n, s) ltac:(by apply elem_of_map_to_list)). simpl in H.
  rewrite Hd in H. simpl in H. rewrite forallb_elem in H. by apply H.
Qed.

Lemma upstream_cleanb_sound m : upstream_cleanb m = true -> upstream_clean m.
Proof.
  unfold upstream_cleanb. rewrite forallb_elem.
  intros H n s p Hs Hd Hin.
  specialize (H (n, s) ltac:(by apply elem_of_map_to_list)). simpl in H.
  rewrite Hd in H. simpl in H. rewrite forallb_elem in H. by apply H.
Qed.

End Wiring.

Section InvalidationProperties.
Import Node Examples.

Lemma invalidate_links x m : links (_invalidate x m) = links m.
Proof. destruct (invalidate_spec x m) as (Hm & _). by eapply marks_links. Qed.

Lemma invalidate_not_clean x m : is_clean (_invalidate x m) x = false.
Proof.
  destruct (invalidate_spec x m) as (_ & _ & _ & H).
  by destruct (H (invalidate_fuel_enough m)).
Qed.

Lemma invalidate_self_dirty x m :
  is_Some (heap m !! x) -> is_dirty (_invalidate x m) x = true.
Proof.
  intros [s Hs]. pose proof (invalidate_not_clean x m) as Hc.
  destruct (links_lookup _ _ _ _ (invalidate_links x m) Hs) as (s' & Hs' & _).
  rewrite is_clean_dirty in Hc by eauto. by destruct (is_dirty _ x).
Qed.

Lemma invalidate_downstream_dirty x m :
  wired m -> downstream_dirty m -> downstream_dirty (_invalidate x m).
Proof.
  intros [W1 _] Hdn n s' d Hs' Hd Hin.
  destruct (invalidate_spec x m) as (Hm & Hc & _ & Hcl).
  destruct (Hcl (invalidate_fuel_enough m)) as [_ Hclosed].
  destruct (marks_downstream _ _ _ _ _ Hm Hs') as (s & Hs & Hdown & _).
  rewrite Hdown in Hin.
  destruct (decide (n ∈ visited x m)) as [Hv|Hv].
  - pose proof (Hclosed n s d Hv Hs Hin) as Hnc.
    destruct (W1 n s d Hs Hin) as (ds & _ & Hds & _).
    destruct (links_lookup _ _ _ _ (invalidate_links x m) Hds) as (ds' & Hds' & _).
    rewrite is_clean_dirty in Hnc by eauto. by destruct (is_dirty _ d).
  - eapply marks_is_dirty; [done|]. apply (Hdn n s d); try done.
    destruct Hm as (_ & _ & Hh). rewrite Hh, decide_False in Hs' by done. congruence.
Qed.

Lemma edge_links m m' x y : links m' = links m -> edge m x y -> edge m' x y.
Proof.
  intros E (s & Hs & Hy). destruct (links_lookup _ _ _ _ E Hs) as (s' & Hs' & _ & Hd).
  exists s'. by rewrite Hd.
Qed.

Lemma reach_dirty m x n :
  downstream_dirty m -> is_dirty m x = true -> rtc (edge m) x n -> is_dirty m n = true.
Proof.
  intros Hdn Hx Hr. induction Hr as [|x y z (s & Hs & Hy) _ IH]; [done|].
  apply IH. apply (Hdn x s y); try done. unfold is_dirty in Hx. by rewrite Hs in Hx.
Qed.

(** Everything [_invalidate] promises, from a state where the downstream
    peers of dirty nodes are dirty. *)
Lemma invalidate_promise self m :
  wired m -> downstream_dirty m -> is_Some (heap m !! self) ->
  let m' := _invalidate self m in
  let vs := visited self m in
  (is_dirty m self = true -> m' = m /\ vs = []) /\
  (is_dirty m self = false -> self ∈ vs) /\
  marks m vs m' /\ NoDup vs /\ (forall n, n ∈ vs -> is_clean m n = true) /\
  (forall n, rtc (edge m) self n -> is_dirty m' n = true).
Proof.
  intros Hw Hdn [s Hs]. simpl.
  destruct (invalidate_spec self m) as (Hm & Hc & Hnd & _).
  split_and!; try done.
  - unfold is_dirty, _invalidate, visited. simpl. rewrite Hs. by intros ->.
  - intros Hd. destruct (decide (self ∈ visited self m)) as [|Hn]; [done|].
    pose proof (invalidate_not_clean self m) as Hnc.
    rewrite (marks_is_clean _ _ _ _ Hm), decide_False in Hnc by done.
    unfold is_clean in Hnc. unfold is_dirty in Hd. rewrite Hs in *.
    by destruct (NodeState._dirty s).
  - intros n Hr. apply (reach_dirty _ self).
    + by apply invalidate_downstream_dirty.
    + apply invalidate_self_dirty. eauto.
    + eapply rtc_subrel; [|done]. intros a b. apply edge_links, invalidate_links.
Qed.

Lemma stored_marks m vs m' n : marks m vs m' -> stored m' n = stored m n.
Proof.
  intros (_ & _ & H). unfold stored. rewrite H.
  destruct (decide (n ∈ vs)); [|done]. by destruct (heap m !! n).
Qed.

Lemma stored_invalidate x m n : stored (_invalidate x m) n = stored m n.
Proof. destruct (invalidate_spec x m) as (Hm & _). by eapply stored_marks. Qed.

Lemma stored_set_params x a k m n :
  stored (_set_params x a k m) n =
  if decide (n = x)
  then (fun y => (a, NodeState.accepted y.2 k, y.2)) <$> stored m n
  else stored m n.
Proof.
  unfold _set_params. rewrite stored_invalidate. unfold stored, store_params. simpl.
  destruct (decide (n = x)) as [->|Hne].
  - rewrite lookup_alter_eq. destruct (heap m !! x); [|done]. simpl.
    unfold NodeState._set_kwargs. simpl. by rewrite (right_id_L ∅ (∪)).
  - by rewrite lookup_alter_ne.
Qed.

Lemma stored_update x g m n :
  stored (update x g m) n =
  if decide (n = x) then with_globals g <$> stored m n else stored m n.
Proof.
  unfold update. rewrite stored_invalidate. unfold stored, merge_kwargs. simpl.
  destruct (decide (n = x)) as [->|Hne].
  - rewrite lookup_alter_eq. by destruct (heap m !! x).
  - by rewrite lookup_alter_ne.
Qed.

(** C2.  [set] and [update] first store the new arguments and then
    invalidate the node.  Afterwards the node holds, after [set], the given
    positional arguments and of the given keywords those that its signature
    takes, and after [update] its old positional arguments and the given
    keywords that its signature takes laid over its old keywords; what any
    other node holds is unchanged.  Invalidation of a node that is already
    dirty does nothing and visits nothing; otherwise the node is visited.
    The visited nodes are exactly the ones whose dirty flag is raised and
    whose cache is discarded, each was clean and is visited once, and
    afterwards every node reachable from the mutated node along downstream
    links is dirty.  The starting state has the downstream peers of dirty
    nodes dirty, as every state of a wired instance does. *)
Theorem set_update_invalidate (self : nat) (args : list value) (kwargs : dict)
    (m : machine) :
  wired m -> downstream_dirty m -> is_Some (heap m !! self) ->
  (forall n, stored (set self args kwargs m) n =
     if decide (n = self)
     then (fun y => (args, NodeState.accepted y.2 kwargs, y.2)) <$> stored m n
     else stored m n) /\
  (forall n, stored (update self kwargs m) n =
     if decide (n = self)
     then (fun y => (y.1.1, NodeState.accepted y.2 kwargs ∪ y.1.2, y.2)) <$> stored m n
     else stored m n) /\
  set self args kwargs m = _invalidate self (store_params self args kwargs m) /\
  update self kwargs m = _invalidate self (merge_kwargs self kwargs m) /\
  forall m0, m0 = store_params self args kwargs m \/ m0 = merge_kwargs self kwargs m ->
    let m' := _invalidate self m0 in
    let vs := visited self m0 in
    (is_dirty m self = true -> m' = m0 /\ vs = []) /\
    (is_dirty m self = false -> self ∈ vs) /\
    marks m0 vs m' /\ NoDup vs /\ (forall n, n ∈ vs -> is_clean m n = true) /\
    (forall n, rtc (edge m) self n -> is_dirty m' n = true).
Proof.
  intros Hw Hdn Hself.
  split; [intros n; apply stored_set_params|].
  split; [intros n; apply stored_update|].
  split; [done|]. split; [done|].
  intros m0 Hm0.
  assert (skel m0 = skel m) as Hsk.
  { destruct Hm0 as [-> | ->]; [apply skel_store_params | apply skel_merge_kwargs]. }
  assert (is_Some (heap m0 !! self)) as Hself0.
  { destruct Hself as [s Hs]. destruct (skel_lookup _ _ _ _ Hsk Hs) as (s' & ? & _). eauto. }
  pose proof (invalidate_promise self m0
                (wired_links _ _ (skel_links _ _ Hsk) Hw)
                (downstream_dirty_skel _ _ Hsk Hdn) Hself0) as H.
  simpl in H. destruct H as (H1 & H2 & H3 & H4 & H5 & H6). simpl.
  rewrite <- (skel_is_dirty _ _ self Hsk). split_and!; try done.
  - intros n Hn. specialize (H5 n Hn). revert H5. unfold is_clean.
    destruct (heap m0 !! n) as [s0|] eqn:Hs0; [|done].
    destruct (skel_lookup _ _ _ _ (eq_sym Hsk) Hs0) as (s & -> & Hk).
    injection Hk as _ _ ->. done.
  - intros n Hr. apply H6. eapply rtc_subrel; [|done].
    intros a b. apply edge_links. by apply skel_links.
Qed.

Lemma edgeb_sound m x y : edgeb m x y = true -> edge m x y.
Proof.
  unfold edgeb, edge. destruct (heap m !! x) as [s|]; [|done].
  intros H%bool_decide_eq_true. eauto.
Qed.

Lemma set_update_invalidate_witness :
  let m := (val 5 1 ab_machine).2 in
  wired m /\ downstream_dirty m /\ is_Some (heap m !! 0) /\
  is_dirty m 1 = false /\
  is_dirty (set 0 [VInt 5] (Fixtures.kw [("y", VInt 10); ("z", VInt 1)]) m) 1 = true /\
  (fun y => y.1) <$> stored (set 0 [VInt 5] (Fixtures.kw [("y", VInt 10); ("z", VInt 1)]) m) 0
    = Some ([VInt 5], Fixtures.kw [("y", VInt 10)]).
Proof.
  intros m.
  assert (wired m) as Hw by (apply wiredb_sound; vm_compute; reflexivity).
  assert (downstream_dirty m) as Hd
    by (apply downstream_dirtyb_sound; vm_compute; reflexivity).
  assert (is_Some (heap m !! 0)) as Hs
    by (apply (bool_decide_unpack _); vm_compute; exact I).
  assert (edge m 0 1) as He by (apply edgeb_sound; vm_compute; reflexivity).
  split; [exact Hw|]. split; [exact Hd|]. split; [exact Hs|].
  split; [vm_compute; reflexivity|].
  destruct (set_update_invalidate 0 [VInt 5]
              (Fixtures.kw [("y", VInt 10); ("z", VInt 1)]) m Hw Hd Hs)
    as (Hst & _ & E & _ & H).
  split.
  - rewrite E. destruct (H _ (or_introl eq_refl)) as (_ & _ & _ & _ & _ & H6).
    apply H6. apply rtc_once. exact He.
  - rewrite (Hst 0). vm_compute. reflexivity.
Defined.

End InvalidationProperties.

Section ReaderInvariant.
Import Node.

Lemma upstream_clean_heap m m' : heap m' = heap m -> upstream_clean m -> upstream_clean m'.
Proof.
  intros E H n s p. rewrite E. intros Hs Hd Hp. specialize (H n s p Hs Hd Hp).
  unfold peer_clean, is_clean in *. by rewrite E.
Qed.

Lemma is_clean_heap m m' n : heap m' = heap m -> is_clean m' n = is_clean m n.
Proof. intros E. unfold is_clean. by rewrite E. Qed.

Lemma peer_clean_mono m m' p :
  (forall n, is_clean m n = true -> is_clean m' n = true) ->
  peer_clean m p = true -> peer_clean m' p = true.
Proof. unfold peer_clean. destruct (peer_target p); [|done]. auto. Qed.

Lemma collect_upstream_clean read :
  read_spec read ->
  forall ups a k m r m',
    upstream_clean m -> collect read ups a k m = (r, m') ->
    upstream_clean m' /\
    (forall n, is_clean m n = true -> is_clean m' n = true) /\
    (is_ok r = true -> forall p, p ∈ ups -> peer_clean m' p = true).
Proof.
  intros Hread. induction ups as [|p ups IH]; intros a k m r m' Hup.
  { simpl. intros [= <- <-]. split_and!; try done. intros _ p Hp. by apply elem_of_nil in Hp. }
  intros Hc. apply collect_step in Hc as [(e & Hp & ->)|(v & m2 & a' & k' & Hp & Hrest)].
  - apply peer_read_cases in Hp as [(_ & _ & ->)|(u & r1 & _ & Hr & _)]; [done|].
    destruct (Hread _ _ _ _ Hup Hr) as (? & ? & _). done.
  - apply peer_read_cases in Hp as [(_ & [=] & _)|(u & r1 & Ht & Hr & Hok)].
    destruct (Hread _ _ _ _ Hup Hr) as (Hup2 & Hmono2 & Hcl).
    destruct (IH _ _ _ _ _ Hup2 Hrest) as (Hup' & Hmono' & Hall).
    split_and!; [done|auto|].
    intros Hrok q [->|Hq]%elem_of_cons; [|by apply Hall].
    unfold peer_clean. rewrite Ht. apply Hmono', Hcl. by rewrite <- Hok.
Qed.

Lemma eval_from_upstream_clean read x args kwargs m r m' s :
  read_spec read -> upstream_clean m -> heap m !! x = Some s ->
  _eval_from read x args kwargs m = (r, m') ->
  upstream_clean m' /\
  (forall n, is_clean m n = true -> is_clean m' n = true) /\
  (is_ok r = true -> forall p, p ∈ NodeState.upstream s -> peer_clean m' p = true).
Proof.
  intros Hread Hup Hs. unfold _eval_from. rewrite Hs.
  destruct (collect read (NodeState.upstream s) [] kwargs m) as [[[ca ck]|e] m1] eqn:Hc;
    destruct (collect_upstream_clean read Hread _ _ _ _ _ _ Hup Hc) as (Hup1 & Hmono & Hall).
  - intros Hinv. pose proof (invoke_heap _ _ _ _ _ _ _ Hinv) as Hh. split_and!.
    + by eapply upstream_clean_heap.
    + intros n Hn. rewrite (is_clean_heap _ _ n Hh). auto.
    + intros _ p Hp. eapply peer_clean_mono; [|by apply Hall].
      intros n. by rewrite (is_clean_heap _ _ n Hh).
  - intros [= <- <-]. split_and!; try done.
Qed.

Lemma is_clean_store_result x v m n :
  is_clean m n = true -> is_clean (store_result x v m) n = true.
Proof.
  unfold is_clean. simpl. destruct (decide (x = n)) as [->|].
  - rewrite lookup_alter_eq. by destruct (heap m !! n).
  - by rewrite lookup_alter_ne.
Qed.

Lemma eval_cached_reader fuel : read_spec (_eval_cached fuel).
Proof.
  induction fuel as [|fuel IH]; intros x m r m' Hup; simpl.
  { by intros [= <- <-]. }
  destruct (heap m !! x) as [s|] eqn:Hx; [|by intros [= <- <-]].
  destruct (NodeState._dirty s) eqn:Hd; cycle 1.
  { intros [= <- <-]. split_and!; try done. intros _. unfold is_clean. by rewrite Hx, Hd. }
  destruct (_eval_from _ x _ _ m) as [r0 m0] eqn:Hev.
  destruct (eval_from_upstream_clean _ _ _ _ _ _ _ s IH Hup Hx Hev) as (Hup0 & Hmono & Hall).
  destruct (fun Hb Hl => eval_from_busy _ ∅ x s _ _ m r0 m0
              (eval_cached_busy fuel) Hx Hd Hb Hl Hev)
    as (m1 & [Hh _] & Hh0 & _); try done.
  assert (heap m0 !! x = Some s) as Hx0.
  { rewrite Hh0, Hh; [done|]. set_solver. }
  destruct r0 as [v|e]; intros [= <- <-]; [|done].
  split_and!.
  - intros n s' p. simpl. destruct (decide (x = n)) as [->|Hne].
    + rewrite lookup_alter_eq, Hx0. intros [= <-] _ Hp. simpl in Hp.
      eapply peer_clean_mono; [apply is_clean_store_result|]. by apply Hall.
    + rewrite lookup_alter_ne by done. intros Hs' Hd' Hp.
      eapply peer_clean_mono; [apply is_clean_store_result|]. by eapply Hup0.
  - intros n Hn. by apply is_clean_store_result, Hmono.
  - intros _. unfold is_clean. simpl. by rewrite lookup_alter_eq, Hx0.
Qed.

Lemma eval_upstream_clean fuel x args kwargs m :
  upstream_clean m -> upstream_clean (_eval fuel x args kwargs m).2.
Proof.
  intros Hup. unfold _eval.
  destruct (_eval_from (_eval_cached fuel) x args kwargs m) as [r m'] eqn:Hev. simpl.
  destruct (heap m !! x) as [s|] eqn:Hx.
  - by destruct (eval_from_upstream_clean _ _ _ _ _ _ _ s (eval_cached_reader fuel) Hup Hx Hev).
  - unfold _eval_from in Hev. rewrite Hx in Hev. by injection Hev as <- <-.
Qed.

Lemma eval_from_links fuel x args kwargs m :
  links (_eval fuel x args kwargs m).2 = links m.
Proof.
  unfold _eval.
  destruct (_eval_from (_eval_cached fuel) x args kwargs m) as [r m'] eqn:Hev. simpl.
  apply shape_links.
  eapply (eval_from_preserves (fun m' => shape m' = shape m)); [| |done|exact Hev].
  - intros n m0 r0 m1 H0 Hr. rewrite <- H0. by eapply eval_cached_shape.
  - done.
Qed.

Lemma upstream_clean_skel m m' :
  skel m' = skel m -> upstream_clean m -> upstream_clean m'.
Proof.
  intros E H n s' p Hs' Hd Hin.
  destruct (skel_lookup _ _ _ _ (eq_sym E) Hs') as (s & Hs & Hk).
  injection Hk as Hu _ Hdi.
  assert (peer_clean m p = true) as Hpc by (apply (H n s p); congruence).
  revert Hpc. unfold peer_clean. destruct (peer_target p) as [t|]; [|done].
  unfold is_clean. destruct (heap m !! t) as [ts|] eqn:Ht; [|done].
  destruct (skel_lookup _ _ _ _ E Ht) as (ts' & -> & Hk'). by injection Hk' as _ _ ->.
Qed.

Lemma invalidate_upstream_clean x m :
  wired m -> upstream_clean m -> upstream_clean (_invalidate x m).
Proof.
  intros [_ W2] Hup n s' p Hs' Hd Hin.
  destruct (invalidate_spec x m) as (Hm & _ & _ & Hcl).
  destruct (Hcl (invalidate_fuel_enough m)) as [_ Hclosed].
  assert (is_clean (_invalidate x m) n = true) as Hcn
    by (unfold is_clean; by rewrite Hs', Hd).
  pose proof Hcn as Hcn'. rewrite (marks_is_clean _ _ _ _ Hm) in Hcn'.
  destruct (decide (n ∈ visited x m)) as [|Hnv]; [done|].
  destruct Hm as (Hw & Hc & Hh). pose proof Hs' as Hs. rewrite Hh, decide_False in Hs by done.
  pose proof (Hup n s' p Hs Hd Hin) as Hpc. unfold peer_clean in *.
  destruct (peer_target p) as [t|] eqn:Ht; [|done].
  rewrite (marks_is_clean m (visited x m)) by done.
  destruct (decide (t ∈ visited x m)) as [Htv|]; [|done].
  destruct (W2 n s' p Hs Hin) as (u & us & Hus & Hmir & Hnd).
  rewrite (peer_mirrors_target p t u Ht Hmir) in Hus.
  rewrite (Hclosed t us n Htv Hus Hnd) in Hcn. done.
Qed.

End ReaderInvariant.

Section GroupSet.
Import Node.

Lemma ritem_ind' (P : ritem -> Prop) :
  (forall n, P (RNode n)) ->
  (forall items, Forall (fun kv => P kv.2) items -> P (RGroup items)) ->
  forall item, P item.
Proof.
  intros Hn Hg. fix IH 1. intros [n|items]; [apply Hn|apply Hg].
  induction items as [|[k it] items IHitems]; constructor; [apply IH | exact IHitems].
Qed.

Lemma value_size_lookup (d : dict) k v :
  d !! k = Some v -> value_size v < value_size (VDict d).
Proof.
  intros Hk. simpl.
  rewrite (map_fold_delete_L _ _ k v d); [lia| |done].
  intros; lia.
Qed.

Lemma alist_get_elem {A} k (l : list (string * A)) v :
  alist_get k l = Some v -> (k, v) ∈ l.
Proof.
  induction l as [|[k' v'] l IH]; [done|]. simpl.
  destruct (decide (k = k')) as [->|]; [intros [= ->]; by left|].
  intros H. right. by apply IH.
Qed.

Lemma leaves_getitem items key item :
  NodeGroup.__getitem__ items key = Some item -> leaves item ⊆ leaves_of items.
Proof.
  unfold NodeGroup.__getitem__. destruct (str_key key) as [s|]; [|done]. simpl.
  intros H%alist_get_elem n Hn. unfold leaves_of.
  apply list_elem_of_join. exists (leaves item). split; [done|].
  apply list_elem_of_fmap. by exists (s, item).
Qed.

(** The loop shared by [_set_params_spec] and the dictionary branch of
    [set_spec_entry], as a fold over the entries. *)
Lemma set_params_spec_foldr items spec_params global_params m :
  NodeGroup._set_params_spec items spec_params global_params m =
  foldr (fun kv rest m =>
           match NodeGroup.set_spec_entry (NodeGroup.__getitem__ items kv.1) kv.2
                   global_params m with
           | (Ok _, m') => rest m'
           | (Raise e, m') => (Raise e, m')
           end)
        (fun m => (Ok tt, m)) (map_to_list spec_params) m.
Proof.
  unfold NodeGroup._set_params_spec. rewrite map_fold_foldr.
  revert m. induction (map_to_list spec_params) as [|[k v] l IH]; intros m; [done|].
  simpl. destruct (NodeGroup.set_spec_entry _ v global_params m) as [[u|e] m1]; [|done].
  apply IH.
Qed.

Lemma set_spec_entry_dict items d global_params m :
  NodeGroup.set_spec_entry (Some (RGroup items)) (VDict d) global_params m =
  NodeGroup._set_params_spec items d global_params m.
Proof. done. Qed.

Lemma spec_loop_preserves (I : machine -> Prop) items g (l : list (pyobj * value)) :
  (forall k v m r m', (k, v) ∈ l -> I m ->
     NodeGroup.set_spec_entry (NodeGroup.__getitem__ items k) v g m = (r, m') -> I m') ->
  forall m r m', I m ->
    foldr (fun kv rest m =>
             match NodeGroup.set_spec_entry (NodeGroup.__getitem__ items kv.1) kv.2 g m with
             | (Ok _, m') => rest m'
             | (Raise e, m') => (Raise e, m')
             end)
          (fun m => (Ok tt, m)) l m = (r, m') -> I m'.
Proof.
  induction l as [|[k v] l IH]; intros Hstep m r m' HI; simpl.
  { by intros [= <- <-]. }
  destruct (NodeGroup.set_spec_entry _ v g m) as [[u|e] m1] eqn:E.
  - apply IH.
    + intros k' v' m2 r2 m2' Hin. apply Hstep. by right.
    + eapply Hstep; [by left|done|done].
  - intros [= <- <-]. eapply Hstep; [by left|done|done].
Qed.

(** Whatever every [_set_params] on a node below the target preserves is
    preserved by a round of [_set_params_spec]. *)
Lemma set_spec_entry_preserves (I : machine -> Prop) g :
  forall v target m r m',
    (forall n a k m, n ∈ leaves_opt target -> I m ->
                     I (_set_params n a (k ∪ g) m)) ->
    I m -> NodeGroup.set_spec_entry target v g m = (r, m') -> I m'.
Proof.
  intros v. remember (value_size v) as sz eqn:Hsz. revert v Hsz.
  induction sz as [sz IH] using lt_wf_ind. intros v -> target m r m' Hset HI.
  destruct v as [| | | |a k|d]; simpl; try (by intros [= <- <-]).
  - destruct target as [[n|items]|]; try (by intros [= <- <-]).
    intros [= <- <-]. apply Hset; [by left|done].
  - destruct target as [[n|items]|]; try (by intros [= <- <-]).
    change (NodeGroup._set_params_spec items d g m = (r, m') -> I m').
    rewrite set_params_spec_foldr. apply spec_loop_preserves; [|done].
    intros k v m1 r1 m1' Hin%elem_of_map_to_list HI1.
    apply (IH (value_size v) (value_size_lookup d k v Hin) v eq_refl); [|done].
    intros n a0 k0 m2 Hn. apply Hset. simpl.
    destruct (NodeGroup.__getitem__ items k) as [it|] eqn:Hit; [|by apply elem_of_nil in Hn].
    by apply (leaves_getitem items k it Hit).
Qed.

Lemma set_params_spec_preserves (I : machine -> Prop) items spec g m r m' :
  (forall n a k m, n ∈ leaves_of items -> I m -> I (_set_params n a (k ∪ g) m)) ->
  I m -> NodeGroup._set_params_spec items spec g m = (r, m') -> I m'.
Proof.
  intros Hset HI. rewrite <- set_spec_entry_dict.
  by apply set_spec_entry_preserves.
Qed.

(** Likewise for the broadcast of global parameters and [update]. *)
Lemma set_global_item_preserves (I : machine -> Prop) g :
  forall item m,
    (forall n m, n ∈ leaves item -> I m -> I (update n g m)) ->
    I m -> I (NodeGroup.set_global_item item g m).
Proof.
  induction item as [n|items IH] using ritem_ind'; intros m Hupd HI; simpl.
  { apply Hupd; [by left|done]. }
  revert m HI. induction items as [|[k it] items IHitems]; intros m HI; [done|].
  simpl. apply Forall_cons in IH as [IHit IHrest]. apply IHitems; [done| |].
  - intros n m0 Hn. apply Hupd. simpl. apply elem_of_app. by right.
  - apply IHit; [|done]. intros n m0 Hn. apply Hupd. simpl. apply elem_of_app. by left.
Qed.

Lemma set_global_params_preserves (I : machine -> Prop) items g m :
  (forall n m, n ∈ leaves_of items -> I m -> I (update n g m)) ->
  I m -> I (NodeGroup._set_global_params items g m).
Proof. apply (set_global_item_preserves I g (RGroup items)). Qed.

Lemma group_set_preserves (I : machine -> Prop) items kwargs m :
  (forall n a k m, n ∈ leaves_of items -> I m ->
     I (_set_params n a (k ∪ NodeGroup.global_params_of items kwargs) m)) ->
  (forall n m, n ∈ leaves_of items -> I m ->
     I (update n (NodeGroup.global_params_of items kwargs) m)) ->
  I m -> I (NodeGroup.set items kwargs m).2.
Proof.
  intros Hset Hupd HI. unfold NodeGroup.set, NodeGroup._set_params. cbv zeta.
  set (g := NodeGroup.global_params_of items kwargs) in *.
  set (m1 := if bool_decide (0 < size g)
             then NodeGroup._set_global_params items g m else m).
  assert (I m1) as HI1.
  { subst m1. destruct (bool_decide (0 < size g)); [|done].
    by apply set_global_params_preserves. }
  clearbody m1.
  destruct (bool_decide (0 < size (NodeGroup.spec_params_of items kwargs))); [|done].
  destruct (NodeGroup._set_params_spec _ _ g _) as [r m'] eqn:E. simpl.
  by eapply set_params_spec_preserves.
Qed.

End GroupSet.

Section InstanceInvariant.
Import Node Examples.

Lemma consistent_set self args kwargs m :
  consistent m -> consistent (_set_params self args kwargs m).
Proof.
  intros [Hw Hup]. unfold _set_params.
  pose proof (skel_store_params self args kwargs m) as Hsk.
  assert (wired (store_params self args kwargs m)) as Hw0
    by (eapply wired_links; [by apply skel_links|done]).
  split.
  - eapply wired_links; [apply invalidate_links|done].
  - apply invalidate_upstream_clean; [done|]. by eapply upstream_clean_skel.
Qed.

Lemma consistent_update self kwargs m :
  consistent m -> consistent (update self kwargs m).
Proof.
  intros [Hw Hup]. unfold update.
  pose proof (skel_merge_kwargs self kwargs m) as Hsk.
  assert (wired (merge_kwargs self kwargs m)) as Hw0
    by (eapply wired_links; [by apply skel_links|done]).
  split.
  - eapply wired_links; [apply invalidate_links|done].
  - apply invalidate_upstream_clean; [done|]. by eapply upstream_clean_skel.
Qed.

Lemma consistent_val fuel self m : consistent m -> consistent (val fuel self m).2.
Proof.
  intros [Hw Hup]. unfold val.
  destruct (_eval_cached fuel self m) as [r m'] eqn:E. simpl. split.
  - eapply wired_links; [|done]. apply shape_links. by eapply eval_cached_shape.
  - by destruct (eval_cached_reader fuel _ _ _ _ Hup E).
Qed.

Lemma consistent_call fuel self args kwargs m :
  consistent m -> consistent (__call__ fuel self args kwargs m).2.
Proof.
  intros [Hw Hup]. unfold __call__. split.
  - eapply wired_links; [apply eval_from_links|done].
  - by apply eval_upstream_clean.
Qed.

Lemma consistent_group_set items kwargs m :
  consistent m -> consistent (NodeGroup.set items kwargs m).2.
Proof.
  intros H. apply group_set_preserves; [| |done].
  - intros n a k m0 _. apply consistent_set.
  - intros n m0 _. apply consistent_update.
Qed.

(** C10.  In a wired instance the property "every upstream peer of a clean
    node is clean" is preserved by [set], [update], cached reads, direct
    calls and group-level [set].  It implies that every downstream peer of
    a dirty node is dirty, which is what the short-circuit of [_invalidate]
    relies on, and the two are equivalent when every upstream entry is
    readable. *)
Theorem clean_nodes_have_clean_upstream (m : machine) :
  consistent m ->
  (forall self args kwargs, consistent (set self args kwargs m)) /\
  (forall self kwargs, consistent (update self kwargs m)) /\
  (forall fuel self, consistent (val fuel self m).2) /\
  (forall fuel self args kwargs, consistent (__call__ fuel self args kwargs m).2) /\
  (forall items kwargs, consistent (NodeGroup.set items kwargs m).2) /\
  downstream_dirty m /\
  (readable m -> (upstream_clean m <-> downstream_dirty m)).
Proof.
  intros H. split_and!.
  - intros. by apply consistent_set.
  - intros. by apply consistent_update.
  - intros. by apply consistent_val.
  - intros. by apply consistent_call.
  - intros. by apply consistent_group_set.
  - destruct H. by apply upstream_clean_downstream_dirty.
  - destruct H as [Hw Hup]. intros Hr. split.
    + by apply upstream_clean_downstream_dirty.
    + by apply downstream_dirty_upstream_clean.
Qed.

Lemma clean_nodes_have_clean_upstream_witness :
  let m := (val 5 1 ab_machine).2 in
  consistent m /\
  is_clean m 0 = true /\
  consistent (val 5 1 (set 0 [VInt 5] (Fixtures.kw [("y", VInt 10)]) m)).2.
Proof.
  intros m.
  assert (consistent m) as Hc.
  { split; [apply wiredb_sound | apply upstream_cleanb_sound]; vm_compute; reflexivity. }
  split; [exact Hc|]. split; [vm_compute; reflexivity|].
  destruct (clean_nodes_have_clean_upstream m Hc) as (Hset & _).
  pose proof (Hset 0 [VInt 5] (Fixtures.kw [("y", VInt 10)])) as Hc1.
  destruct (clean_nodes_have_clean_upstream _ Hc1) as (_ & _ & Hval & _).
  apply Hval.
Defined.

End InstanceInvariant.

Section ArgumentAssembly.
Import Node Examples.

Lemma upstream_kwargs_onto (k : dict) vs :
  foldl (fun acc v => spread_kwargs v ∪ acc) k vs = upstream_kwargs vs ∪ k.
Proof.
  unfold upstream_kwargs. revert k. induction vs as [|v vs IH]; intros k; simpl.
  { by rewrite (left_id_L ∅ (∪)). }
  rewrite IH, (IH (spread_kwargs v ∪ ∅)), (right_id_L ∅ (∪)).
  by rewrite (assoc_L (∪)).
Qed.

Lemma upstream_kwargs_snoc vs v :
  upstream_kwargs (vs ++ [v]) = spread_kwargs v ∪ upstream_kwargs vs.
Proof. unfold upstream_kwargs. by rewrite foldl_app. Qed.

Lemma collect_read_all read ups a (k : dict) m :
  collect read ups a k m =
  match read_all read ups m with
  | (Raise e, m') => (Raise e, m')
  | (Ok vs, m') =>
      (Ok (a ++ upstream_args vs,
           foldl (fun acc v => spread_kwargs v ∪ acc) k vs), m')
  end.
Proof.
  revert a k m. induction ups as [|p ups IH]; intros a k m; simpl.
  { unfold upstream_args. simpl. by rewrite app_nil_r. }
  destruct (peer_eval_cached read p m) as [[v|e] m1]; [|done].
  transitivity (collect read ups (a ++ spread_args v) (spread_kwargs v ∪ k) m1).
  { destruct v; simpl; try done; by rewrite (left_id_L ∅ (∪)). }
  rewrite IH. destruct (read_all read ups m1) as [[vs|e] m2]; [|done].
  unfold upstream_args. simpl. by rewrite app_assoc.
Qed.

(** C5, amended.  A direct call reads the upstream peers in order, appends
    every plain result as one positional argument and spreads every
    parameter bundle, appends the caller's positional arguments after the
    upstream ones, and invokes the callable with the caller's keywords
    overridden by the keyword items of the upstream bundles (a later bundle
    overriding an earlier one). *)
Theorem eval_assembles_arguments (fuel : nat) (self : nat) (args : list value)
    (kwargs : dict) (m : machine) (s : NodeState.t) :
  heap m !! self = Some s ->
  __call__ fuel self args kwargs m =
    match read_all (_eval_cached fuel) (NodeState.upstream s) m with
    | (Raise e, m') => (Raise e, m')
    | (Ok vs, m') =>
        invoke self (NodeState.func s) (upstream_args vs ++ args)
          (upstream_kwargs vs ∪ kwargs) m'
    end /\
  (forall vs key,
     (upstream_kwargs vs ∪ kwargs) !! key =
       match upstream_kwargs vs !! key with
       | Some v => Some v
       | None => kwargs !! key
       end) /\
  (forall vs v, upstream_args (vs ++ [v]) = upstream_args vs ++ spread_args v) /\
  (forall vs v, upstream_kwargs (vs ++ [v]) = spread_kwargs v ∪ upstream_kwargs vs).
Proof.
  intros Hs. split_and!.
  - unfold __call__, _eval, _eval_from. rewrite Hs, collect_read_all.
    destruct (read_all _ _ m) as [[vs|e] m1]; [|done].
    by rewrite upstream_kwargs_onto.
  - intros vs key. rewrite lookup_union. by destruct (_ !! key), (kwargs !! key).
  - intros vs v. unfold upstream_args. rewrite fmap_app, join_app. simpl.
    by rewrite app_nil_r.
  - apply upstream_kwargs_snoc.
Qed.

Lemma eval_assembles_arguments_witness :
  exists s, heap cd_machine !! 1 = Some s /\
    __call__ 5 1 [] (Fixtures.kw [("ping", VStr "direct")]) cd_machine =
      match read_all (_eval_cached 5) (NodeState.upstream s) cd_machine with
      | (Raise e, m') => (Raise e, m')
      | (Ok vs, m') =>
          invoke 1 (NodeState.func s) (upstream_args vs ++ [])
            (upstream_kwargs vs ∪ Fixtures.kw [("ping", VStr "direct")]) m'
      end.
Proof.
  assert (is_Some (heap cd_machine !! 1)) as [s Hs]
    by (apply (bool_decide_unpack _); vm_compute; exact I).
  exists s. split; [exact Hs|].
  apply (eval_assembles_arguments 5 1 [] _ cd_machine s Hs).
Defined.

(** The claim as stated fails: a keyword supplied by the caller does not
    override the same keyword coming from an upstream parameter bundle. *)
Lemma caller_keyword_loses_to_upstream_bundle :
  (__call__ 5 1 [] (Fixtures.kw [("ping", VStr "direct")]) cd_machine).1
  = Ok (VTuple [VInt 9; VStr "pong"]) /\
  (claimed_eval 5 1 [] (Fixtures.kw [("ping", VStr "direct")]) cd_machine).1
  = Ok (VTuple [VInt 9; VStr "direct"]).
Proof. split; vm_compute; reflexivity. Qed.

End ArgumentAssembly.

Section ParameterTargets.
Import Node Examples.

(** C3 (defect).  For an upstream edge with a target parameter,
    [_upstream_wire] does install a wrapper, but builds it with the
    constructor arguments in the wrong order: the node state lands in
    [_param_name] and the parameter name in [_state], so asking the wrapper
    for its cached value raises instead of returning the single-keyword
    bundle, which is what a wrapper built in the declared order returns.  In
    the example, reading [b] fails although [a] evaluates to 25. *)
Theorem param_edge_wrapper_raises (nodes : gmap (list string) nat)
    (source target_node : nat) (target : list string) (param : string)
    (h : gmap nat NodeState.t)
    (read : nat -> machine -> result value * machine) (m : machine) :
  Context._upstream_wire (<[target := target_node]> nodes) source
    (EdgeDef.mk target (Some param)) h
  = Ok (alter (NodeState._add_upstream
                 (Wrapped {| ParamTargetNodeStateWrapper._param_name := ONode target_node;
                             ParamTargetNodeStateWrapper._state := OStr param |}))
              source h) /\
  ParamTargetNodeStateWrapper._eval_cached read
    {| ParamTargetNodeStateWrapper._param_name := ONode target_node;
       ParamTargetNodeStateWrapper._state := OStr param |} m
  = (Raise AttributeError, m) /\
  ParamTargetNodeStateWrapper._eval_cached read
    (ParamTargetNodeStateWrapper.__init__ (OStr param) (ONode target_node)) m
  = match read target_node m with
    | (Ok v, m') => (Ok (VParams [] {[OStr param := v]}), m')
    | (Raise e, m') => (Raise e, m')
    end /\
  (val 5 0 fudge_machine).1 = Ok (VInt 25) /\
  (val 5 1 fudge_machine).1 = Raise AttributeError.
Proof.
  split_and!.
  - unfold Context._upstream_wire. simpl. by rewrite lookup_insert_eq.
  - done.
  - done.
  - vm_compute. reflexivity.
  - vm_compute. reflexivity.
Qed.

End ParameterTargets.

Section BlueprintBasics.
Import Examples.

Lemma alist_get_set_eq {A} k (v : A) l : alist_get k (alist_set k v l) = Some v.
Proof.
  induction l as [|[k' v'] l IH]; simpl.
  - by rewrite decide_True.
  - destruct (decide (k = k')) as [->|Hne]; simpl.
    + by rewrite decide_True.
    + by rewrite decide_False.
Qed.

Lemma alist_get_set_ne {A} k k' (v : A) l :
  k' <> k -> alist_get k' (alist_set k v l) = alist_get k' l.
Proof.
  intros Hne. induction l as [|[k0 v0] l IH]; simpl.
  - by rewrite decide_False.
  - destruct (decide (k = k0)) as [->|Hne0]; simpl.
    + by rewrite !decide_False.
    + destruct (decide (k' = k0)); [done|apply IH].
Qed.

Lemma alist_set_keys {A} k (v : A) l :
  is_Some (alist_get k l) -> (alist_set k v l).*1 = l.*1.
Proof.
  induction l as [|[k' v'] l IH]; simpl.
  - by intros [? [=]].
  - destruct (decide (k = k')) as [->|Hne]; simpl; [done|].
    intros H. f_equal. by apply IH.
Qed.

Lemma alist_set_id {A} k (v : A) l : alist_get k l = Some v -> alist_set k v l = l.
Proof.
  induction l as [|[k' v'] l IH]; simpl; [done|].
  destruct (decide (k = k')) as [->|Hne]; [by intros [= ->]|].
  intros H. by rewrite IH.
Qed.

(** C9, amended.  The [pipe] method of a blueprint raises when given fewer
    than two items.  The module-level [pipe] has no such check: called
    without items it returns an empty graph. *)
Theorem pipe_arity (self : BaseGraph.t) (nodes : list pyitem) (fresh : nat) :
  length nodes < 2 ->
  BaseGraph.pipe self nodes = Raise ValueError /\
  pipe fresh [] = Ok (BaseGraph.__init__ [] ∅ ∅ fresh false).
Proof.
  intros Hlen. split; [|done]. unfold BaseGraph.pipe. by rewrite decide_True.
Qed.

Lemma pipe_arity_witness :
  length [ItCallable Fixtures.a] < 2 /\
  BaseGraph.pipe ab_graph [ItCallable Fixtures.a] = Raise ValueError /\
  pipe 7 [] = Ok (BaseGraph.__init__ [] ∅ ∅ 7 false).
Proof.
  assert (length [ItCallable Fixtures.a] < 2) as H by (simpl; lia).
  split; [exact H|]. exact (pipe_arity ab_graph [ItCallable Fixtures.a] 7 H).
Defined.

(** The claim as stated fails for the module-level [pipe]: without items it
    returns a graph instead of raising. *)
Lemma toplevel_pipe_without_items_returns :
  is_ok (pipe 1 []) = true.
Proof. reflexivity. Qed.

End BlueprintBasics.

Section Override.
Import Examples.

Lemma store_node_def_existing (self : BaseGraph.t) (existing node_def : NodeDef.t) :
  alist_get (NodeDef.name node_def) (BaseGraph._items self) = Some (BNode existing) ->
  BaseGraph._store_node_def self node_def =
    Ok (BaseGraph.with_items
          (alist_set (NodeDef.name node_def)
             (BNode (NodeDef.update existing node_def)) (BaseGraph._items self)) self,
        NodeDef.path node_def).
Proof. intros H. unfold BaseGraph._store_node_def. by rewrite H. Qed.

(** C7.  Assigning a callable, bare or partially applied, to a name that
    holds a node definition succeeds and updates that definition in place:
    owner, name, prefix and path of the definition stay, its callable and
    default arguments are replaced, both edge maps are untouched, every
    other item is untouched, and the graph has the same item names as
    before (no node is added). *)
Theorem override_keeps_identity (self : BaseGraph.t) (key : string)
    (existing : NodeDef.t) (c : callable) (partial : option (list value * option dict)) :
  alist_get key (BaseGraph._items self) = Some (BNode existing) ->
  let item := match partial with
              | None => ItCallable c
              | Some (pargs, keywords) => ItPartial (ItCallable c) pargs keywords
              end in
  let updated :=
    {| NodeDef.owner := NodeDef.owner existing; NodeDef.func := c;
       NodeDef.name := NodeDef.name existing; NodeDef.prefix := NodeDef.prefix existing;
       NodeDef.path := NodeDef.path existing;
       NodeDef.args := match partial with Some (pargs, _) => pargs | None => [] end;
       NodeDef.kwargs := match partial with
                         | Some (_, Some keywords) => keywords
                         | _ => ∅
                         end |} in
  exists g,
    BaseGraph.__setitem__ self key (BaseGraph.SNode item) = Ok g /\
    alist_get key (BaseGraph._items g) = Some (BNode updated) /\
    (forall other, other <> key ->
       alist_get other (BaseGraph._items g) = alist_get other (BaseGraph._items self)) /\
    (BaseGraph._items g).*1 = (BaseGraph._items self).*1 /\
    BaseGraph._downstream g = BaseGraph._downstream self /\
    BaseGraph._upstream g = BaseGraph._upstream self /\
    BaseGraph._prefix g = BaseGraph._prefix self /\
    BaseGraph._root g = BaseGraph._root self.
Proof.
  intros Hex item updated.
  set (nd := NodeDef.__init__ (BaseGraph._root self) c (BaseGraph._prefix self) key
               (match partial with Some (pargs, _) => Some pargs | None => None end)
               (match partial with Some (_, keywords) => keywords | None => None end)).
  assert (BaseGraph._store_node self item (Some key) None None
          = BaseGraph._store_node_def self nd) as E.
  { subst item nd. by destruct partial as [[pargs keywords]|]. }
  exists (BaseGraph.with_items
            (alist_set key (BNode (NodeDef.update existing nd)) (BaseGraph._items self)) self).
  unfold BaseGraph.__setitem__, BaseGraph._store. rewrite E.
  rewrite (store_node_def_existing self existing nd) by done.
  simpl. split_and!; try done.
  - rewrite alist_get_set_eq. do 2 f_equal. subst updated nd.
    unfold NodeDef.update. simpl. by destruct partial as [[pargs [keywords|]]|].
  - intros other Hne. by apply alist_get_set_ne.
  - apply alist_set_keys. by rewrite Hex.
Qed.

(** test_override_node *)
Lemma override_keeps_identity_witness :
  let g0 := graph_of (Graph.__init__ 1 [BaseGraph.SNode (ItCallable Fixtures.a)] []) in
  exists existing g,
    alist_get "a" (BaseGraph._items g0) = Some (BNode existing) /\
    BaseGraph.__setitem__ g0 "a"
      (BaseGraph.SNode (ItPartial (ItCallable Fixtures.b) [VInt 1; VInt 2]
                          (Some (Fixtures.kw [("named_arg", VStr "moof")])))) = Ok g /\
    BaseGraph._downstream g = BaseGraph._downstream g0 /\
    BaseGraph._upstream g = BaseGraph._upstream g0.
Proof.
  intros g0.
  assert (exists existing, alist_get "a" (BaseGraph._items g0) = Some (BNode existing))
    as [existing Hex] by (eexists; reflexivity).
  destruct (override_keeps_identity g0 "a" existing Fixtures.b
              (Some ([VInt 1; VInt 2], Some (Fixtures.kw [("named_arg", VStr "moof")]))) Hex)
    as (g & Hg & _ & _ & _ & Hd & Hu & _).
  exists existing, g. by split_and!.
Defined.

End Override.

Section ParameterRouting.
Import Node Examples.

Lemma with_globals_twice g x : with_globals g (with_globals g x) = with_globals g x.
Proof.
  destruct x as [[a k] spec]. unfold with_globals. simpl.
  by rewrite (assoc_L (∪)), (idemp_L (∪)).
Qed.

Lemma broadcast_nil g m : broadcast g [] m m.
Proof. by intros n. Qed.

Lemma broadcast_app g L1 L2 m1 m2 m3 :
  broadcast g L1 m1 m2 -> broadcast g L2 m2 m3 -> broadcast g (L1 ++ L2) m1 m3.
Proof.
  intros H1 H2 n. rewrite H2, H1.
  destruct (decide (n ∈ L2)), (decide (n ∈ L1)), (decide (n ∈ L1 ++ L2)) as [Hin|Hin];
    try done; try (exfalso; apply Hin; set_solver); try set_solver.
  destruct (stored m1 n) as [x|]; [|done]. simpl. by rewrite with_globals_twice.
Qed.

Lemma set_global_item_broadcast g item :
  forall m, broadcast g (leaves item) m (NodeGroup.set_global_item item g m).
Proof.
  induction item as [x|items IH] using ritem_ind'; intros m.
  { intros n. simpl. change (Node._invalidate x (Node.merge_kwargs x g m)) with (update x g m).
    rewrite stored_update.
    destruct (decide (n = x)) as [->|Hne].
    - rewrite decide_True; [done|by left].
    - rewrite decide_False; [done|]. by intros ->%list_elem_of_singleton. }
  simpl. revert m. induction items as [|[k it] items IHitems]; intros m.
  { apply broadcast_nil. }
  apply Forall_cons in IH as [IHit IHrest]. simpl.
  eapply broadcast_app; [apply IHit|]. by apply IHitems.
Qed.

Lemma accepted_lookup spec (g : dict) key v :
  NodeState.accepted spec g !! key = Some v <-> g !! key = Some v /\ takes spec key.
Proof.
  unfold NodeState.accepted, takes. destruct (NodeArgSpec.keywords spec) as [kw|].
  - split; [intros H; split; [done|by left] | by intros [? _]].
  - rewrite map_lookup_filter_Some. simpl. split; intros [? H]; (split; [done|]).
    + by right.
    + by destruct H.
Qed.



Lemma with_globals_empty x : with_globals ∅ x = x.
Proof.
  destruct x as [[a k] spec]. unfold with_globals, NodeState.accepted. simpl.
  destruct (NodeArgSpec.keywords spec); [|rewrite map_filter_empty];
    by rewrite (left_id_L ∅ (∪)).
Qed.

Lemma broadcast_empty L m : broadcast ∅ L m m.
Proof.
  intros n. destruct (decide (n ∈ L)); [|done].
  destruct (stored m n) as [x|]; [|done]. simpl. by rewrite with_globals_empty.
Qed.



End ParameterRouting.

Section Merge.
Import Examples.

Lemma bitem_ind' (P : bitem -> Prop) :
  (forall d, P (BNode d)) ->
  (forall prefix items, Forall (fun kv => P kv.2) items -> P (BSub prefix items)) ->
  forall item, P item.
Proof.
  intros Hn Hg. fix IH 1. intros [d|prefix items]; [apply Hn|apply Hg].
  induction items as [|[k it] items IHitems]; constructor; [apply IH | exact IHitems].
Qed.

Lemma covers_all_forall root source target :
  covers_all root source target <->
  forall key item, (key, item) ∈ source -> covers root item key target.
Proof.
  unfold covers_all. induction source as [|[k it] source IH]; simpl.
  - split; [|done]. intros _ key item Hin. by apply elem_of_nil in Hin.
  - rewrite IH. split.
    + intros [H1 H2] key item [[= -> ->]|Hin]%elem_of_cons; auto.
    + intros H. split; [apply H; by left|]. intros key item Hin. apply H. by right.
Qed.

Lemma graph_eta (g : BaseGraph.t) :
  {| BaseGraph._items := BaseGraph._items g; BaseGraph._prefix := BaseGraph._prefix g;
     BaseGraph._downstream := BaseGraph._downstream g;
     BaseGraph._upstream := BaseGraph._upstream g; BaseGraph._root := BaseGraph._root g;
     BaseGraph.is_subgraph := BaseGraph.is_subgraph g |} = g.
Proof. by destruct g. Qed.

Lemma fold_raise {A B} (step : B -> A -> result B) (l : list A) e :
  foldl (fun acc x => match acc with Raise e => Raise e | Ok g => step g x end)
        (Raise e) l = Raise e.
Proof. by induction l. Qed.

(** A second copy of an item that is already covered changes nothing. *)
Lemma copy_item_covered : forall item key target prefix,
  covers (BaseGraph._root target) item key (BaseGraph._items target) ->
  BaseGraph.copy_item item key target prefix = Ok target.
Proof.
  induction item as [d|p0 source IH] using bitem_ind'; intros key target prefix Hcov.
  - simpl in *. destruct (decide (NodeDef.owner d = BaseGraph._root target)) as [|Hne]; [done|].
    destruct Hcov as [|(d' & Hd' & Hf & Ha & Hk)]; [done|].
    unfold BaseGraph._store_node_def. simpl. rewrite Hd'.
    assert (NodeDef.update d' (NodeDef.rebase d (BaseGraph._root target)
                                 (BaseGraph._prefix target)) = d') as ->.
    { destruct d'. unfold NodeDef.update. simpl in *. by rewrite Hf, Ha, Hk. }
    rewrite alist_set_id by done. unfold BaseGraph.with_items. by rewrite graph_eta.
  - simpl in *. destruct (alist_get key (BaseGraph._items target)) as [[d'|p its]|] eqn:Hget;
      [by rewrite Hcov| |done].
    assert (forall g, BaseGraph._root g = BaseGraph._root target ->
                      BaseGraph._items g = its ->
              foldl (fun acc kv =>
                       match acc with
                       | Raise e => Raise e
                       | Ok g => BaseGraph.copy_item kv.2 kv.1 g (prefix ++ [key])
                       end) (Ok g) source = Ok g) as Hfold.
    { intros g Hroot Hits. induction source as [|[k it] source IHs]; [done|].
      simpl in *. apply Forall_cons in IH as [IHit IHrest]. destruct Hcov as [Hc1 Hc2].
      rewrite IHit; [by apply IHs|]. by rewrite Hroot, Hits. }
    rewrite Hfold by done. unfold BaseGraph.absorb, BaseGraph.view. simpl.
    rewrite alist_set_id by done. by rewrite graph_eta.
Qed.

Lemma copy_structure_covered source target prefix :
  covers_all (BaseGraph._root target) source (BaseGraph._items target) ->
  BaseGraph._copy_structure source target prefix = Ok target.
Proof.
  unfold BaseGraph._copy_structure, covers_all.
  induction source as [|[k it] source IH]; [done|]. simpl. intros [H1 H2].
  rewrite copy_item_covered by done. by apply IH.
Qed.

Lemma covers_ext root item key T T' :
  wf_item key item = true -> alist_get key T = alist_get key T' ->
  covers root item key T -> covers root item key T'.
Proof.
  destruct item as [d|p source]; simpl.
  - intros ->%bool_decide_eq_true E. by rewrite E.
  - intros _ E. by rewrite E.
Qed.

Lemma store_node_def_effect g nd g' p :
  BaseGraph._store_node_def g nd = Ok (g', p) ->
  same_static g g' /\
  (forall k', k' <> NodeDef.name nd ->
     alist_get k' (BaseGraph._items g') = alist_get k' (BaseGraph._items g)) /\
  exists d', alist_get (NodeDef.name nd) (BaseGraph._items g') = Some (BNode d') /\
             NodeDef.func d' = NodeDef.func nd /\
             NodeDef.args d' = NodeDef.args nd /\
             NodeDef.kwargs d' = NodeDef.kwargs nd.
Proof.
  unfold BaseGraph._store_node_def.
  destruct (alist_get (NodeDef.name nd) (BaseGraph._items g)) as [[d|? ?]|] eqn:Hget;
    [|done|]; intros [= <- <-]; simpl.
  - split_and!; try done.
    + intros k' Hne. by apply alist_get_set_ne.
    + eexists. by rewrite alist_get_set_eq.
  - split_and!; try done.
    + intros k' Hne. by apply alist_get_set_ne.
    + eexists. by rewrite alist_get_set_eq.
Qed.

Lemma same_static_refl g : same_static g g.
Proof. done. Qed.

Lemma same_static_trans g1 g2 g3 :
  same_static g1 g2 -> same_static g2 g3 -> same_static g1 g3.
Proof. intros (? & ? & ?) (? & ? & ?). split_and!; congruence. Qed.

(** The loop of [_copy_structure] over well-formed items, given that each
    item is copied as specified. *)
Lemma copy_fold (l : list (string * bitem)) prefix :
  Forall (fun kv => forall key target prefix target',
            wf_item key kv.2 = true ->
            BaseGraph.copy_item kv.2 key target prefix = Ok target' ->
            copied kv.2 key target target') l ->
  NoDup l.*1 -> forallb (fun kv => wf_item kv.1 kv.2) l = true ->
  forall target target',
    foldl (fun acc kv =>
             match acc with
             | Raise e => Raise e
             | Ok g => BaseGraph.copy_item kv.2 kv.1 g prefix
             end) (Ok target) l = Ok target' ->
    covers_all (BaseGraph._root target) l (BaseGraph._items target') /\
    (forall k', k' ∉ l.*1 ->
       alist_get k' (BaseGraph._items target') = alist_get k' (BaseGraph._items target)) /\
    same_static target target'.
Proof.
  induction l as [|[k it] l IH]; intros HP Hnd Hwf target target'; simpl.
  { intros [= <-]. by split_and!. }
  apply Forall_cons in HP as [HPit HPl]. simpl in *.
  apply NoDup_cons in Hnd as [Hk Hnd]. apply andb_true_iff in Hwf as [Hwfit Hwf].
  destruct (BaseGraph.copy_item it k target prefix) as [t1|e] eqn:E;
    [|by rewrite fold_raise].
  intros Hrest. destruct (HPit k target prefix t1 Hwfit E) as (Hc1 & Hf1 & Hs1).
  destruct (IH HPl Hnd Hwf t1 target' Hrest) as (Hc2 & Hf2 & Hs2).
  pose proof Hs1 as (Hr1 & _). split_and!.
  - eapply covers_ext; [done| |exact Hc1]. symmetry. by apply Hf2.
  - by rewrite <- Hr1.
  - intros k' Hk'. rewrite Hf2, Hf1; [done| |]; set_solver.
  - by eapply same_static_trans.
Qed.

(** A first copy of a well-formed item leaves it covered, and touches no
    other name of the target. *)
Lemma copy_item_copied : forall item key target prefix target',
  wf_item key item = true ->
  BaseGraph.copy_item item key target prefix = Ok target' ->
  copied item key target target'.
Proof.
  induction item as [d|p0 source IH] using bitem_ind';
    intros key target prefix target' Hwf.
  - simpl in Hwf. apply bool_decide_eq_true in Hwf. subst key. simpl.
    destruct (decide (NodeDef.owner d = BaseGraph._root target)) as [Ho|Ho].
    { intros [= <-]. split_and!; try done. simpl. by left. }
    destruct (BaseGraph._store_node_def target _) as [[g p]|e] eqn:E; [|done].
    intros [= <-]. destruct (store_node_def_effect _ _ _ _ E) as (Hs & Hf & d' & Hd').
    split_and!; try done. simpl. by right; exists d'.
  - simpl in Hwf. apply andb_true_iff in Hwf as [Hnd%bool_decide_eq_true Hwf]. simpl.
    assert (forall view0, BaseGraph._root view0 = BaseGraph._root target ->
              forall sub,
              foldl (fun acc kv =>
                       match acc with
                       | Raise e => Raise e
                       | Ok g => BaseGraph.copy_item kv.2 kv.1 g (prefix ++ [key])
                       end) (Ok view0) source = Ok sub ->
              copied (BSub p0 source) key target (BaseGraph.absorb target key sub)) as Hsub.
    { intros view0 Hroot sub Hfold.
      destruct (copy_fold source (prefix ++ [key]) IH Hnd Hwf view0 sub Hfold)
        as (Hc & _ & _).
      split_and!; try done.
      - simpl. rewrite alist_get_set_eq. by rewrite <- Hroot.
      - intros k' Hne. simpl. by apply alist_get_set_ne. }
    destruct (alist_get key (BaseGraph._items target)) as [[d'|p its]|] eqn:Hget.
    + destruct source; [|done]. intros [= <-]. split_and!; try done.
      simpl. by rewrite Hget.
    + destruct (foldl _ (Ok (BaseGraph.view target p its)) source) as [sub|e] eqn:E; [|done].
      intros [= <-]. exact (Hsub (BaseGraph.view target p its) eq_refl sub E).
    + destruct (foldl _ (Ok (BaseGraph.view target (prefix ++ [key]) [])) source)
        as [sub|e] eqn:E; [|done].
      intros [= <-]. exact (Hsub (BaseGraph.view target (prefix ++ [key]) []) eq_refl sub E).
Qed.

Lemma copy_structure_copied source target prefix target' :
  wf_items source = true ->
  BaseGraph._copy_structure source target prefix = Ok target' ->
  covers_all (BaseGraph._root target) source (BaseGraph._items target') /\
  same_static target target'.
Proof.
  unfold wf_items. intros [Hnd%bool_decide_eq_true Hwf]%andb_true_iff Hcopy.
  destruct (copy_fold source prefix) with (target := target) (target' := target')
    as (Hc & _ & Hs); try done.
  apply Forall_forall. intros [k it] _ key t p t'. apply copy_item_copied.
Qed.

Lemma filter_none {A} (P : A -> Prop) `{forall x, Decision (P x)} (l : list A) :
  (forall x, x ∈ l -> ~ P x) -> filter P l = [].
Proof.
  induction l as [|x l IH]; [done|]. intros Hall.
  rewrite filter_cons_False by (apply Hall; by left).
  apply IH. intros y Hy. apply Hall. by right.
Qed.

(** [_copy_edges], key by key: the list at a rebased source key gets the
    rebased edges that were not there yet, every other key is left alone. *)
Lemma copy_edges_fold (P : list string) (l : list (list string * list EdgeDef.t)) :
  NoDup l.*1 ->
  forall tgt e1 : edge_map,
    foldl (fun acc st =>
             match acc with
             | Raise e => Raise e
             | Ok target_edges =>
                 match target_edges !! (P ++ st.1) with
                 | None => Raise KeyError
                 | Some target_edge =>
                     Ok (<[P ++ st.1 :=
                            target_edge ++
                            filter (fun edge => edge ∉ target_edge)
                                   (BaseGraph.rebase_edge P <$> st.2)]> target_edges)
                 end
             end) (Ok tgt) l = Ok e1 ->
    (forall s targets, (s, targets) ∈ l ->
       exists old, tgt !! (P ++ s) = Some old /\
         e1 !! (P ++ s) =
           Some (old ++ filter (fun edge => edge ∉ old)
                               (BaseGraph.rebase_edge P <$> targets))) /\
    (forall key, (forall s, s ∈ l.*1 -> key <> P ++ s) -> e1 !! key = tgt !! key).
Proof.
  induction l as [|[s0 t0] l IH]; intros Hnd tgt e1; simpl.
  { intros [= <-]. split; [|done]. intros s targets Hin. by apply elem_of_nil in Hin. }
  simpl in Hnd. apply NoDup_cons in Hnd as [Hs0 Hnd].
  destruct (tgt !! (P ++ s0)) as [old0|] eqn:Hold; [|by rewrite fold_raise].
  intros Hrest. destruct (IH Hnd _ _ Hrest) as [Hin Hout]. split.
  - intros s targets [[= -> ->]|Hst]%elem_of_cons.
    + exists old0. split; [done|]. rewrite Hout; [by rewrite lookup_insert_eq|].
      intros s Hs E. apply app_inv_head in E. by subst.
    + destruct (Hin s targets Hst) as (old & Ho & He). exists old. split; [|done].
      rewrite lookup_insert_ne in Ho; [done|].
      intros E. apply app_inv_head in E. subst. apply Hs0.
      apply list_elem_of_fmap. by exists (s, targets).
  - intros key Hkey. rewrite Hout.
    + rewrite lookup_insert_ne; [done|]. intros E. apply (Hkey s0); [by left|done].
    + intros s Hs. apply Hkey. by right.
Qed.

Lemma copy_edges_spec (P : list string) (src tgt e1 : edge_map) :
  BaseGraph._copy_edges P src tgt = Ok e1 ->
  (forall s targets, src !! s = Some targets ->
     exists old, tgt !! (P ++ s) = Some old /\
       e1 !! (P ++ s) =
         Some (old ++ filter (fun edge => edge ∉ old)
                             (BaseGraph.rebase_edge P <$> targets))) /\
  (forall key, (forall s, is_Some (src !! s) -> key <> P ++ s) -> e1 !! key = tgt !! key).
Proof.
  intros H. destruct (copy_edges_fold P (map_to_list src) (NoDup_fst_map_to_list src) _ _ H)
    as [Hin Hout].
  split.
  - intros s targets Hs. apply Hin. by apply elem_of_map_to_list.
  - intros key Hkey. apply Hout. intros s [[s' t] [-> Hs]]%list_elem_of_fmap.
    apply Hkey. apply elem_of_map_to_list in Hs. simpl. eauto.
Qed.

(** Copying edges that are all present already changes nothing. *)
Lemma copy_edges_present (P : list string) (src e : edge_map) :
  (forall s targets, src !! s = Some targets ->
     exists cur, e !! (P ++ s) = Some cur /\
                 forall t, t ∈ targets -> BaseGraph.rebase_edge P t ∈ cur) ->
  BaseGraph._copy_edges P src e = Ok e.
Proof.
  intros Hall. unfold BaseGraph._copy_edges.
  assert (forall s targets, (s, targets) ∈ map_to_list src ->
            exists cur, e !! (P ++ s) = Some cur /\
                        forall t, t ∈ targets -> BaseGraph.rebase_edge P t ∈ cur) as Hl.
  { intros s targets Hin. apply Hall. by apply elem_of_map_to_list. }
  clear Hall. induction (map_to_list src) as [|[s0 t0] l IH]; [done|]. simpl.
  destruct (Hl s0 t0) as (cur & Hcur & Hpres); [by left|]. rewrite Hcur.
  rewrite filter_none, app_nil_r, insert_id by
    (try done; intros x [t [-> Ht]]%list_elem_of_fmap Hx; apply Hx; by apply Hpres).
  apply IH. intros s targets Hin. apply Hl. by right.
Qed.

Lemma copy_edges_twice (P : list string) (src tgt e1 : edge_map) :
  BaseGraph._copy_edges P src tgt = Ok e1 -> BaseGraph._copy_edges P src e1 = Ok e1.
Proof.
  intros H. destruct (copy_edges_spec _ _ _ _ H) as [Hin _].
  apply copy_edges_present. intros s targets Hs.
  destruct (Hin s targets Hs) as (old & _ & He). eexists. split; [exact He|].
  intros t Ht. apply elem_of_app.
  destruct (decide (BaseGraph.rebase_edge P t ∈ old)) as [|Hn]; [by left|right].
  apply list_elem_of_filter. split; [done|]. apply list_elem_of_fmap. by exists t.
Qed.

(** Merging the same well-formed source a second time is the identity. *)
Lemma copy_into_twice graph root r1 :
  wf_items (BaseGraph._items graph) = true ->
  BaseGraph.copy_into graph root = Ok r1 ->
  BaseGraph.copy_into graph r1 = Ok r1 /\ same_static root r1.
Proof.
  intros Hwf. unfold BaseGraph.copy_into.
  destruct (BaseGraph._copy_structure _ root _) as [root'|e] eqn:Hst; [|done].
  destruct (BaseGraph._copy_edges _ (BaseGraph._downstream graph) _) as [down|e] eqn:Hd;
    [|done].
  destruct (BaseGraph._copy_edges _ (BaseGraph._upstream graph) _) as [up|e] eqn:Hu;
    [|done].
  intros [= <-]. destruct (copy_structure_copied _ _ _ _ Hwf Hst) as (Hc & Hr & Hp & Hs).
  split; [|done]. simpl. rewrite Hp.
  rewrite copy_structure_covered by (simpl; by rewrite Hr).
  simpl. rewrite (copy_edges_twice _ _ _ _ Hd), (copy_edges_twice _ _ _ _ Hu).
  unfold BaseGraph.with_edges. simpl. done.
Qed.

Lemma store_graph_twice self graph name g1 :
  wf_items (BaseGraph._items graph) = true ->
  BaseGraph._store_graph self graph name = Ok g1 ->
  BaseGraph._store_graph g1 graph name = Ok g1.
Proof.
  intros Hwf. unfold BaseGraph._store_graph.
  destruct (decide (BaseGraph._root graph = BaseGraph._root self)) as [|Hroot];
    [by destruct (BaseGraph.is_subgraph self)|].
  destruct name as [name|].
  - assert (forall view0, BaseGraph._root view0 = BaseGraph._root self ->
              BaseGraph.is_subgraph view0 = true ->
              forall sub, BaseGraph.copy_into graph view0 = Ok sub ->
              let g := BaseGraph.absorb self name sub in
              (if decide (BaseGraph._root graph = BaseGraph._root g)
               then if BaseGraph.is_subgraph g then Raise RuntimeError else Raise ValueError
               else match alist_get name (BaseGraph._items g) with
                    | Some (BNode _) => Raise ValueError
                    | Some (BSub p items) =>
                        match BaseGraph.copy_into graph (BaseGraph.view g p items) with
                        | Raise e => Raise e
                        | Ok sub => Ok (BaseGraph.absorb g name sub)
                        end
                    | None =>
                        match BaseGraph.copy_into graph
                                (BaseGraph.view g (BaseGraph._prefix g ++ [name]) []) with
                        | Raise e => Raise e
                        | Ok sub => Ok (BaseGraph.absorb g name sub)
                        end
                    end) = Ok g) as Hsub.
    { intros view0 Hr0 Hs0 sub Hcopy g.
      destruct (copy_into_twice _ _ _ Hwf Hcopy) as (Hagain & Hr & Hp & Hs).
      rewrite decide_False by done. subst g. simpl. rewrite alist_get_set_eq.
      assert (BaseGraph.view (BaseGraph.absorb self name sub) (BaseGraph._prefix sub)
                (BaseGraph._items sub) = sub) as ->.
      { unfold BaseGraph.view. simpl. rewrite <- Hr0, <- Hr, <- Hs0, <- Hs. apply graph_eta. }
      rewrite Hagain. unfold BaseGraph.absorb. simpl.
      by rewrite alist_set_id by apply alist_get_set_eq. }
    destruct (alist_get name (BaseGraph._items self)) as [[d|p its]|] eqn:Hget; [done| |].
    + destruct (BaseGraph.copy_into graph (BaseGraph.view self p its)) as [sub|e] eqn:E;
        [|done].
      intros [= <-]. exact (Hsub (BaseGraph.view self p its) eq_refl eq_refl sub E).
    + destruct (BaseGraph.copy_into graph _) as [sub|e] eqn:E; [|done].
      intros [= <-].
      exact (Hsub (BaseGraph.view self (BaseGraph._prefix self ++ [name]) [])
               eq_refl eq_refl sub E).
  - intros Hcopy. destruct (copy_into_twice _ _ _ Hwf Hcopy) as (Hagain & Hr & _).
    rewrite decide_False by congruence. done.
Qed.

(** The edge maps of the merged graph: the edge of the source has been
    copied once, with its mirror. *)
Example union_edges :
  let g := graph_of (BaseGraph.union c_graph
                       [BaseGraph.SGraph ab_graph; BaseGraph.SGraph ab_graph] []) in
  (map_to_list (BaseGraph._downstream g), map_to_list (BaseGraph._upstream g))
  = ([(["c"], []); (["b"], []); (["a"], [EdgeDef.mk ["b"] None])],
     [(["c"], []); (["b"], [EdgeDef.mk ["a"] None]); (["a"], [])]).
Proof. vm_compute. reflexivity. Qed.

End Merge.

(** * Further properties of the evaluation engine *)

Section Laziness.
Import Node Examples MoreExamples.

Lemma set_params_quiet self args kwargs m :
  calls (_set_params self args kwargs m) = calls m /\
  world_of (_set_params self args kwargs m) = world_of m /\
  links (_set_params self args kwargs m) = links m.
Proof.
  unfold _set_params.
  destruct (invalidate_spec self (store_params self args kwargs m)) as ((Hw & Hc & _) & _).
  split_and!; [by rewrite Hc|by rewrite Hw|].
  rewrite invalidate_links. apply skel_links, skel_store_params.
Qed.

Lemma update_quiet self kwargs m :
  calls (update self kwargs m) = calls m /\
  world_of (update self kwargs m) = world_of m /\
  links (update self kwargs m) = links m.
Proof.
  unfold update.
  destruct (invalidate_spec self (merge_kwargs self kwargs m)) as ((Hw & Hc & _) & _).
  split_and!; [by rewrite Hc|by rewrite Hw|].
  rewrite invalidate_links. apply skel_links, skel_merge_kwargs.
Qed.

(** Changing parameters is lazy: [set] and [update] on a node and [set] on
    a group, successful or not, invoke no callable, leave the state of the
    callables alone and never change which node is wired to which. *)
Theorem mutations_are_lazy (m : machine) :
  (forall self args kwargs,
     calls (set self args kwargs m) = calls m /\
     world_of (set self args kwargs m) = world_of m /\
     links (set self args kwargs m) = links m) /\
  (forall self kwargs,
     calls (update self kwargs m) = calls m /\
     world_of (update self kwargs m) = world_of m /\
     links (update self kwargs m) = links m) /\
  (forall items kwargs,
     calls (NodeGroup.set items kwargs m).2 = calls m /\
     world_of (NodeGroup.set items kwargs m).2 = world_of m /\
     links (NodeGroup.set items kwargs m).2 = links m).
Proof.
  split_and!.
  - intros. apply set_params_quiet.
  - intros. apply update_quiet.
  - intros items kwargs.
    apply (group_set_preserves
             (fun m' => calls m' = calls m /\ world_of m' = world_of m /\ links m' = links m));
      [| |done].
    + intros n a k m0 _ (Hc & Hw & Hl).
      destruct (set_params_quiet n a (k ∪ NodeGroup.global_params_of items kwargs) m0)
        as (-> & -> & ->). done.
    + intros n m0 _ (Hc & Hw & Hl).
      destruct (update_quiet n (NodeGroup.global_params_of items kwargs) m0)
        as (-> & -> & ->). done.
Qed.

(** [set] replaces what is stored in the node: the positional arguments
    become the given ones and the keywords become the given keywords that
    the signature takes, nothing of the old keywords surviving.  [update]
    keeps the positional arguments and lays the given keywords that the
    signature takes over the stored ones.  Neither changes what is stored in
    any other node, invalidation included. *)
Theorem set_replaces_update_merges (x : nat) (args : list value) (kwargs : dict)
    (m : machine) (n : nat) :
  stored (set x args kwargs m) n =
    (if decide (n = x)
     then (fun y => (args, NodeState.accepted y.2 kwargs, y.2)) <$> stored m n
     else stored m n) /\
  stored (update x kwargs m) n =
    (if decide (n = x)
     then (fun y => (y.1.1, NodeState.accepted y.2 kwargs ∪ y.1.2, y.2)) <$> stored m n
     else stored m n) /\
  (forall spec (old : dict) key,
     (NodeState.accepted spec kwargs ∪ old) !! key =
       match kwargs !! key with
       | Some v => if decide (takes spec key) then Some v else old !! key
       | None => old !! key
       end).
Proof.
  split_and!.
  - apply stored_set_params.
  - apply stored_update.
  - intros spec old key. rewrite lookup_union.
    destruct (NodeState.accepted spec kwargs !! key) as [v|] eqn:E.
    + apply accepted_lookup in E as [-> Ht]. rewrite decide_True by done.
      by destruct (old !! key).
    + destruct (kwargs !! key) as [v|] eqn:Ek.
      * destruct (decide (takes spec key)) as [Ht|]; [|by destruct (old !! key)].
        assert (NodeState.accepted spec kwargs !! key = Some v) as E'
          by by apply accepted_lookup.
        congruence.
      * by destruct (old !! key).
Qed.

End Laziness.


Section ReadOutcomes.
Import Node Examples MoreExamples.

Lemma busy_empty m : busy ∅ m.
Proof. intros s Hs. set_solver. Qed.

Lemma linked_empty T m : linked ∅ T m.
Proof. intros s Hs. set_solver. Qed.

Lemma busyb_sound S m : busyb S m = true -> busy S m.
Proof.
  unfold busyb. rewrite forallb_elem. intros H s Hs. apply H. by apply elem_of_elements.
Qed.

Lemma linkedb_sound S T m : linkedb S T m = true -> linked S T m.
Proof.
  unfold linkedb. rewrite forallb_elem. intros H s Hs.
  specialize (H s (proj2 (elem_of_elements _ _) Hs)).
  apply existsb_elem in H as (t & Ht & Hin).
  apply bool_decide_eq_true in Hin.
  unfold upstream_targets in Ht. destruct (heap m !! s) as [st|] eqn:E.
  - apply list_elem_of_omap in Ht as (p & Hp & Hpt). by exists st, p, t.
  - by apply not_elem_of_nil in Ht.
Qed.

(** A cached read that fails leaves the node it was asked for exactly as it
    was: nothing is stored in its cache and it does not become clean, so the
    next read evaluates it again. *)
Theorem failed_read_leaves_node_dirty (fuel : nat) (x : nat) (m m' : machine) (e : exn) :
  val (S fuel) x m = (Raise e, m') ->
  heap m' !! x = heap m !! x /\ is_clean m' x = false.
Proof.
  unfold val. simpl. destruct (heap m !! x) as [s|] eqn:E.
  - destruct (NodeState._dirty s) eqn:D; [|done].
    destruct (_eval_from _ _ _ _ _) as [[v|e'] m1] eqn:Ev; [done|].
    intros [= -> ->].
    destruct (eval_from_busy _ ∅ x s _ _ _ _ _ (eval_cached_busy fuel) E D
                (busy_empty m) (linked_empty _ m) Ev) as (m1 & [Hf _] & Hh & _).
    assert (heap m' !! x = heap m !! x) as Hx
      by (rewrite Hh; apply Hf; set_solver).
    split; [by rewrite Hx, E|]. unfold is_clean. by rewrite Hx, E, D.
  - intros [= _ <-]. split; [done|]. unfold is_clean. by rewrite E.
Qed.

Lemma failed_read_leaves_node_dirty_witness :
  (val 5 0 failing_machine).1 = Raise (UserError "boom") /\
  heap (val 5 0 failing_machine).2 !! 0 = heap failing_machine !! 0 /\
  is_clean (val 5 0 failing_machine).2 0 = false.
Proof.
  assert ((val 5 0 failing_machine).1 = Raise (UserError "boom")) as E
    by (vm_compute; reflexivity).
  split; [exact E|].
  apply (failed_read_leaves_node_dirty 4 0 failing_machine _ (UserError "boom")).
  rewrite <- E. apply surjective_pairing.
Defined.

(** Reads never discard a cached value: a node that is clean keeps its whole
    state, cache included, through any cached read and any direct call of any
    node, whether the read succeeds or fails. *)
Theorem reads_keep_clean_nodes (fuel : nat) (x : nat) (args : list value)
    (kwargs : dict) (m : machine) (n : nat) (s : NodeState.t) :
  heap m !! n = Some s -> NodeState._dirty s = false ->
  heap (val fuel x m).2 !! n = Some s /\
  heap (__call__ fuel x args kwargs m).2 !! n = Some s.
Proof.
  intros E D. split.
  - unfold val. destruct (_eval_cached fuel x m) as [r m'] eqn:Ev.
    exact (eval_cached_clean fuel _ _ _ _ _ _ Ev E D).
  - unfold __call__, _eval.
    destruct (_eval_from (_eval_cached fuel) x args kwargs m) as [r m'] eqn:Ev.
    refine (eval_from_preserves (fun m0 => heap m0 !! n = Some s) _ _ _
              x args kwargs m r m' E Ev).
    + intros n0 m0 r0 m0' H0 Ev0. exact (eval_cached_clean fuel _ _ _ _ _ _ Ev0 H0 D).
    + by intros.
Qed.

Lemma reads_keep_clean_nodes_witness :
  let m := (val 5 0 ab_machine).2 in
  is_clean m 0 = true /\
  heap (val 5 1 m).2 !! 0 = heap m !! 0 /\
  heap (__call__ 5 1 [VInt 1] ∅ m).2 !! 0 = heap m !! 0.
Proof.
  intros m. assert (is_clean m 0 = true) as C by (vm_compute; reflexivity).
  split; [exact C|]. clearbody m.
  unfold is_clean in C. destruct (heap m !! 0) as [s|] eqn:E; [|done].
  apply negb_true_iff in C.
  exact (reads_keep_clean_nodes 5 1 [VInt 1] ∅ m 0 s E C).
Defined.

(** Blueprints are not checked for cycles, and a cycle cannot be evaluated:
    when every node of a set is dirty and reads from a node of the set, a
    cached read or a direct call of any of them fails at every recursion
    depth, and leaves all of them untouched and uninvoked. *)
Theorem dirty_cycle_never_evaluates (fuel : nat) (C : gset nat) (x : nat)
    (args : list value) (kwargs : dict) (m : machine) :
  busy C m -> linked C C m -> x ∈ C ->
  (is_ok (val fuel x m).1 = false /\ frame C m (val fuel x m).2) /\
  (is_ok (__call__ fuel x args kwargs m).1 = false /\
   frame C m (__call__ fuel x args kwargs m).2).
Proof.
  intros Hb Hl Hx.
  assert (linked C (C ∪ {[x]}) m) as Hl' by (eapply linked_mono; [|done]; set_solver).
  split.
  - unfold val. destruct (_eval_cached fuel x m) as [r m'] eqn:Ev.
    destruct (eval_cached_busy fuel C x m r m' Hb Hl' Ev) as [Hf Hr]. auto.
  - unfold __call__, _eval.
    destruct (_eval_from (_eval_cached fuel) x args kwargs m) as [r m'] eqn:Ev.
    destruct (Hl x Hx) as (st & _ & _ & Est & _).
    assert (NodeState._dirty st = true) as D.
    { specialize (Hb x Hx). unfold is_dirty in Hb. by rewrite Est in Hb. }
    destruct (eval_from_busy _ C x st _ _ _ _ _ (eval_cached_busy fuel) Est D Hb Hl' Ev)
      as (m1 & Hf & _ & _ & _ & Hin).
    destruct (Hin Hx) as [Hr ->]. simpl. split; [done|].
    eapply frame_mono; [|done]. set_solver.
Qed.

Lemma dirty_cycle_never_evaluates_witness :
  busy {[0; 1]} cyclic_machine /\ linked {[0; 1]} {[0; 1]} cyclic_machine /\
  is_ok (val 50 1 cyclic_machine).1 = false /\
  is_ok (__call__ 50 1 [VInt 1] ∅ cyclic_machine).1 = false.
Proof.
  assert (busy {[0; 1]} cyclic_machine) as Hb
    by (apply busyb_sound; vm_compute; reflexivity).
  assert (linked {[0; 1]} {[0; 1]} cyclic_machine) as Hl
    by (apply linkedb_sound; vm_compute; reflexivity).
  split; [exact Hb|]. split; [exact Hl|].
  destruct (dirty_cycle_never_evaluates 50 {[0; 1]} 1 [VInt 1] ∅ cyclic_machine Hb Hl)
    as [[H1 _] [H2 _]]; [set_solver|].
  split; [exact H1 | exact H2].
Defined.

(** After a successful cached read of a node, the node and everything it
    reads from, directly or through other nodes, hold cached values. *)
Theorem successful_read_cleans_upstream (fuel : nat) (x : nat) (m m' : machine)
    (v : value) :
  upstream_clean m -> val fuel x m = (Ok v, m') ->
  forall n, rtc (reads_from m') x n -> is_clean m' n = true.
Proof.
  intros Hu Ev.
  destruct (eval_cached_reader fuel x m (Ok v) m' Hu Ev) as (Hu' & _ & Hx).
  specialize (Hx eq_refl).
  intros n Hn. clear Ev. revert Hx.
  induction Hn as [a|a b c (s & p & Es & Hp & Ht) _ IH]; intros Hx; [done|].
  apply IH. unfold is_clean in Hx. rewrite Es in Hx. apply negb_true_iff in Hx.
  specialize (Hu' a s p Es Hx Hp). unfold peer_clean in Hu'. by rewrite Ht in Hu'.
Qed.

Lemma successful_read_cleans_upstream_witness :
  upstream_clean ab_machine /\
  (val 5 1 ab_machine).1 = Ok (VInt 35) /\
  is_clean (val 5 1 ab_machine).2 0 = true.
Proof.
  assert (upstream_clean ab_machine) as Hu
    by (apply upstream_cleanb_sound; vm_compute; reflexivity).
  assert ((val 5 1 ab_machine).1 = Ok (VInt 35)) as E by (vm_compute; reflexivity).
  assert (is_Some (heap (val 5 1 ab_machine).2 !! 1)) as [s Es]
    by (apply (bool_decide_unpack _); vm_compute; exact I).
  assert (upstream_targets (val 5 1 ab_machine).2 1 = [0]) as Ht
    by (vm_compute; reflexivity).
  split; [exact Hu|]. split; [exact E|].
  apply (successful_read_cleans_upstream 5 1 ab_machine _ (VInt 35) Hu).
  - rewrite <- E. apply surjective_pairing.
  - apply rtc_once. unfold upstream_targets in Ht. rewrite Es in Ht.
    assert (0 ∈ omap peer_target (NodeState.upstream s)) as Hin
      by (rewrite Ht; apply list_elem_of_singleton; reflexivity).
    apply list_elem_of_omap in Hin as (p & Hp & Hpt). exists s, p. auto.
Defined.

End ReadOutcomes.

Section Confinement.
Import Node Examples MoreExamples.

Lemma rtc_edge_links m m' x y : links m' = links m -> rtc (edge m) x y -> rtc (edge m') x y.
Proof.
  intros Hl. apply rtc_subrel. intros a b. by apply edge_links.
Qed.

Lemma visited_loop_reachable fuel (m : machine) (x : nat) :
  (forall y m0 m' vs, _invalidate_within fuel y m0 = (m', vs) ->
     forall n, n ∈ vs -> rtc (edge m0) y n) ->
  forall ds m0 vs0 m' vs',
    links m0 = links m ->
    (forall d, d ∈ ds -> rtc (edge m) x d) ->
    (forall n, n ∈ vs0 -> rtc (edge m) x n) ->
    foldl (fun acc node =>
             let '(m', visited) := _invalidate_within fuel node acc.1 in
             (m', acc.2 ++ visited)) (m0, vs0) ds = (m', vs') ->
    forall n, n ∈ vs' -> rtc (edge m) x n.
Proof.
  intros IH ds. induction ds as [|d ds IHds]; intros m0 vs0 m' vs' Hl Hds Hvs0; simpl.
  - intros [= <- <-]. done.
  - destruct (_invalidate_within fuel d m0) as [m1 vs1] eqn:E1.
    apply IHds.
    + destruct (invalidate_within_spec fuel d m0 m1 vs1 E1) as (Hm & _).
      rewrite (marks_links _ _ _ Hm). done.
    + intros d' Hd'. apply Hds. by right.
    + intros n. rewrite elem_of_app. intros [Hn|Hn]; [by apply Hvs0|].
      etrans; [apply Hds; by left|].
      apply (rtc_edge_links m0 m); [done|]. by eapply IH.
Qed.

Lemma visited_reachable fuel : forall x m m' vs,
  _invalidate_within fuel x m = (m', vs) -> forall n, n ∈ vs -> rtc (edge m) x n.
Proof.
  induction fuel as [|fuel IH]; intros x m m' vs; simpl.
  - intros [= <- <-] n Hn. by apply not_elem_of_nil in Hn.
  - destruct (heap m !! x) as [s|] eqn:E;
      [|intros [= <- <-] n Hn; by apply not_elem_of_nil in Hn].
    destruct (NodeState._dirty s) eqn:D;
      [intros [= <- <-] n Hn; by apply not_elem_of_nil in Hn|].
    intros Hfold. eapply (visited_loop_reachable fuel m x IH); [| | |exact Hfold].
    + apply marks_links with [x], marks_mark_dirty.
    + intros d Hd. apply rtc_once. by exists s.
    + intros n Hn. apply list_elem_of_singleton in Hn as ->. done.
Qed.

Lemma invalidate_confined x m n :
  ~ rtc (edge m) x n -> heap (_invalidate x m) !! n = heap m !! n.
Proof.
  intros Hn. destruct (invalidate_spec x m) as ((_ & _ & Hh) & _).
  rewrite Hh. rewrite decide_False; [done|].
  intros Hin. apply Hn. unfold visited in Hin.
  destruct (_invalidate_within (S (size (heap m))) x m) as [m' vs] eqn:E.
  by eapply visited_reachable.
Qed.

(** Invalidation is confined to what depends on the changed node: after
    [set] or [update] on a node, every node that is not downstream of it,
    directly or through other nodes, has exactly the state it had, cached
    value included. *)
Theorem invalidation_is_confined (x : nat) (args : list value) (kwargs : dict)
    (m : machine) (n : nat) :
  ~ rtc (edge m) x n ->
  heap (set x args kwargs m) !! n = heap m !! n /\
  heap (update x kwargs m) !! n = heap m !! n.
Proof.
  intros Hn. assert (n <> x) as Hne by (intros ->; by apply Hn).
  split.
  - unfold set, _set_params. rewrite invalidate_confined.
    + unfold store_params. simpl. by rewrite lookup_alter_ne.
    + intros Hr. apply Hn. eapply rtc_edge_links; [|exact Hr].
      symmetry. apply skel_links, skel_store_params.
  - unfold update. rewrite invalidate_confined.
    + unfold merge_kwargs. simpl. by rewrite lookup_alter_ne.
    + intros Hr. apply Hn. eapply rtc_edge_links; [|exact Hr].
      symmetry. apply skel_links, skel_merge_kwargs.
Qed.

Lemma edge_downstream_of m x y : edge m x y <-> y ∈ downstream_of m x.
Proof.
  unfold edge, downstream_of. destruct (heap m !! x) as [s|].
  - split; [by intros (s' & [= <-] & H)|intros H; by exists s].
  - split; [by intros (s' & [=] & _)|intros H; by apply not_elem_of_nil in H].
Qed.

Lemma invalidation_is_confined_witness :
  let m := (val 5 1 ab_machine).2 in
  is_clean m 0 = true /\ ~ rtc (edge m) 1 0 /\
  heap (set 1 [] (Fixtures.kw [("fudge", VInt 1)]) m) !! 0 = heap m !! 0 /\
  heap (update 1 (Fixtures.kw [("fudge", VInt 1)]) m) !! 0 = heap m !! 0.
Proof.
  intros m. assert (is_clean m 0 = true) as C by (vm_compute; reflexivity).
  assert (downstream_of m 1 = []) as Hd by (vm_compute; reflexivity).
  clearbody m.
  assert (~ rtc (edge m) 1 0) as Hn.
  { intros Hr. apply rtc_inv in Hr as [[=]|(y & He & _)].
    apply edge_downstream_of in He. rewrite Hd in He. by apply not_elem_of_nil in He. }
  split; [exact C|]. split; [exact Hn|].
  exact (invalidation_is_confined 1 [] (Fixtures.kw [("fudge", VInt 1)]) m 0 Hn).
Defined.

End Confinement.


Section NestedRouting.
Import Node Examples GroupExamples.

Lemma leaves_child items c it : alist_get c items = Some it -> leaves it ⊆ leaves_of items.
Proof.
  intros Hc. apply (leaves_getitem items (OStr c) it). unfold NodeGroup.__getitem__.
  simpl. done.
Qed.

Lemma leaves_child_NoDup items c it :
  NoDup (leaves_of items) -> alist_get c items = Some it -> NoDup (leaves it).
Proof.
  intros Hnd Hc. induction items as [|[k0 it0] items IH]; [done|].
  unfold leaves_of in Hnd. simpl in *. apply NoDup_app in Hnd as (Hnd0 & _ & Hnd1).
  destruct (decide (c = k0)); [by injection Hc as <-|by apply IH].
Qed.

Lemma leaves_disjoint_child items c it n key item :
  NoDup (leaves_of items) ->
  alist_get c items = Some it -> n ∈ leaves it ->
  NodeGroup.__getitem__ items key = Some item -> key <> OStr c ->
  n ∉ leaves item.
Proof.
  unfold NodeGroup.__getitem__. destruct key as [s|x]; [|done]. simpl.
  intros Hnd Hc Hn Hs Hne. assert (s <> c) as Hsc by congruence. clear Hne.
  induction items as [|[k0 it0] items IH]; [done|].
  unfold leaves_of in Hnd. simpl in *. apply NoDup_app in Hnd as (Hnd0 & Hdisj & Hnd1).
  destruct (decide (c = k0)) as [->|Hck].
  - injection Hc as ->. rewrite decide_False in Hs by done.
    intros Hin. apply (Hdisj n); [done|].
    by apply (leaves_child items s item).
  - destruct (decide (s = k0)) as [->|Hsk].
    + injection Hs as ->. intros Hin. apply (Hdisj n Hin).
      by apply (leaves_child items c it).
    + by apply IH.
Qed.

Lemma resolve_leaves : forall path it n, resolve it path = Some (RNode n) -> n ∈ leaves it.
Proof.
  induction path as [|c rest IH]; intros it n; simpl.
  - intros [= ->]. by left.
  - destruct it as [|items]; [done|].
    destruct (alist_get c items) as [it'|] eqn:Hc; [|done]. simpl. intros Hr.
    apply (leaves_child items c it' Hc). by apply IH.
Qed.

(** The loop of [_set_params_spec] around the entry for the child [c]: the
    other entries leave the nodes below [c] alone. *)
Lemma spec_loop_entry items g c it v n (P Q : machine -> Prop) :
  NoDup (leaves_of items) -> alist_get c items = Some it -> n ∈ leaves it ->
  (forall m m', stored m' n = stored m n -> P m -> P m') ->
  (forall m m', stored m' n = stored m n -> Q m -> Q m') ->
  (forall m m', P m ->
     NodeGroup.set_spec_entry (Some it) v g m = (Ok tt, m') -> Q m') ->
  forall l, NoDup l.*1 -> (OStr c, v) ∈ l ->
  forall m m', P m ->
    foldr (fun kv rest m =>
             match NodeGroup.set_spec_entry (NodeGroup.__getitem__ items kv.1) kv.2 g m with
             | (Ok _, m') => rest m'
             | (Raise e, m') => (Raise e, m')
             end)
          (fun m => (Ok tt, m)) l m = (Ok tt, m') ->
    Q m'.
Proof.
  intros Hnd Hc Hn HP HQ Hentry.
  assert (Hother : forall k' v' m2 r2 m2', k' <> OStr c ->
            NodeGroup.set_spec_entry (NodeGroup.__getitem__ items k') v' g m2 = (r2, m2') ->
            stored m2' n = stored m2 n).
  { intros k' v' m2 r2 m2' Hne E.
    eapply (set_spec_entry_preserves (fun m0 => stored m0 n = stored m2 n));
      [|reflexivity|exact E].
    intros n' a' k'' m3 Hn' HI3. rewrite stored_set_params, decide_False; [done|].
    intros ->. destruct (NodeGroup.__getitem__ items k') as [it'|] eqn:Hit;
      [|by apply elem_of_nil in Hn'].
    by apply (leaves_disjoint_child items c it n' k' it' Hnd Hc Hn Hit). }
  induction l as [|[k0 v0] l IH]; intros Hkeys Hin m m' Hm.
  { by apply elem_of_nil in Hin. }
  simpl in Hkeys. apply NoDup_cons in Hkeys as [Hk0 Hkeys]. simpl.
  destruct (NodeGroup.set_spec_entry _ v0 g m) as [[u|e] m1] eqn:E; [|done].
  apply elem_of_cons in Hin as [[= <- <-]|Hin].
  - unfold NodeGroup.__getitem__ in E. simpl in E. rewrite Hc in E. destruct u.
    intros Hrest. specialize (Hentry m m1 Hm E).
    eapply (spec_loop_preserves Q items g l); [|exact Hentry|exact Hrest].
    intros k' v' m2 r2 m2' Hin' HI E'. eapply HQ; [|exact HI].
    eapply Hother; [|exact E'].
    intros ->. apply Hk0. apply list_elem_of_fmap. by exists (OStr c, v').
  - apply IH; try done. eapply HP; [|exact Hm]. eapply Hother; [|exact E].
    intros ->. apply Hk0. apply list_elem_of_fmap. by exists (OStr c, v).
Qed.

(** One round of [_set_params_spec] whose value addresses the node [n]
    through nested dictionaries. *)
Lemma set_spec_entry_at g : forall path it v n a k spec,
  NoDup (leaves it) ->
  resolve it path = Some (RNode n) -> spec_at v path = Some (VParams a k) ->
  forall m m', (exists x, stored m n = Some (x, spec)) ->
    NodeGroup.set_spec_entry (Some it) v g m = (Ok tt, m') ->
    stored m' n = Some (a, NodeState.accepted spec (k ∪ g), spec).
Proof.
  induction path as [|c rest IH]; intros it v n a k spec Hnd Hr Hs m m' Hm;
    simpl in Hr, Hs.
  - injection Hr as ->. injection Hs as ->. destruct Hm as [x Hx]. simpl.
    intros [= <-]. rewrite stored_set_params, decide_True by done. by rewrite Hx.
  - destruct it as [|items]; [done|].
    destruct (alist_get c items) as [it'|] eqn:Hc; [|done]. simpl in Hr.
    destruct v as [| | | | |d]; try done.
    destruct (d !! OStr c) as [v'|] eqn:Hd; [|done]. simpl in Hs.
    rewrite set_spec_entry_dict, set_params_spec_foldr.
    apply (spec_loop_entry items g c it' v' n
             (fun m0 => exists x, stored m0 n = Some (x, spec))
             (fun m0 => stored m0 n = Some (a, NodeState.accepted spec (k ∪ g), spec)));
      try done.
    + by apply resolve_leaves with rest.
    + intros m1 m2 E [x Hx]. exists x. by rewrite E.
    + intros m1 m2 E Hx. by rewrite E.
    + intros m1 m2 Hm1. apply (IH it' v' n a k spec); try done.
      by apply (leaves_child_NoDup items c).
    + apply NoDup_fst_map_to_list.
    + by apply elem_of_map_to_list.
Qed.

Lemma group_set_split items kwargs m :
  let g := NodeGroup.global_params_of items kwargs in
  let sp := NodeGroup.spec_params_of items kwargs in
  exists m1, broadcast g (leaves_of items) m m1 /\
    NodeGroup.set items kwargs m =
      (if bool_decide (0 < size sp)
       then NodeGroup._set_params_spec items sp g m1 else (Ok tt, m1)).
Proof.
  intros g sp.
  exists (if bool_decide (0 < size g)
          then NodeGroup._set_global_params items g m else m).
  split; [|done]. case_bool_decide as Hsz.
  - apply (set_global_item_broadcast g (RGroup items)).
  - assert (g = ∅) as -> by (apply map_size_empty_iff; lia). apply broadcast_empty.
Qed.

Lemma spec_params_lookup items kwargs key v :
  NodeGroup.spec_params_of items kwargs !! key = Some v <->
  kwargs !! key = Some v /\ is_Some (NodeGroup.__getitem__ items key).
Proof.
  unfold NodeGroup.spec_params_of, NodeGroup.names_item.
  rewrite map_lookup_filter_Some. simpl. by rewrite bool_decide_eq_true.
Qed.

(** Group parameters reach nodes at any depth: when a successful [set] on a
    group carries, under the name of a child and then through nested
    dictionaries keyed by the names along a path, a bundle for the node at
    the end of that path, the node ends up storing the bundle's positional
    arguments and, of the bundle's keywords laid over the global entries of
    the outermost call, those that its signature takes. *)
Theorem nested_group_addressing (items : list (string * ritem)) (kwargs : dict)
    (m m' : machine) (c : string) (it : ritem) (v : value) (path : list string)
    (n : nat) (a : list value) (k : dict) (x : list value * dict)
    (spec : NodeArgSpec.t) :
  NoDup (leaves_of items) ->
  NodeGroup.set items kwargs m = (Ok tt, m') ->
  kwargs !! OStr c = Some v -> alist_get c items = Some it ->
  resolve it path = Some (RNode n) -> spec_at v path = Some (VParams a k) ->
  stored m n = Some (x, spec) ->
  stored m' n =
    Some (a, NodeState.accepted spec (k ∪ NodeGroup.global_params_of items kwargs), spec).
Proof.
  intros Hnd Hset Hk Hc Hr Hs Hst.
  destruct (group_set_split items kwargs m) as (m1 & Hb & Hdef).
  set (g := NodeGroup.global_params_of items kwargs) in *.
  set (sp := NodeGroup.spec_params_of items kwargs) in *.
  rewrite Hdef in Hset.
  assert (sp !! OStr c = Some v) as Hspc.
  { apply spec_params_lookup. split; [done|]. unfold NodeGroup.__getitem__. simpl.
    by rewrite Hc. }
  assert (0 < size sp) as Hsz.
  { destruct (decide (size sp = 0)) as [Hz|]; [|lia].
    apply map_size_empty_iff in Hz. rewrite Hz in Hspc. done. }
  rewrite bool_decide_eq_true_2 in Hset by done.
  rewrite set_params_spec_foldr in Hset.
  apply (spec_loop_entry items g c it v n
           (fun m0 => exists x, stored m0 n = Some (x, spec))
           (fun m0 => stored m0 n = Some (a, NodeState.accepted spec (k ∪ g), spec))
           Hnd Hc (resolve_leaves path it n Hr)) with (map_to_list sp) m1; try done.
  - intros m2 m3 E [y Hy]. exists y. by rewrite E.
  - intros m2 m3 E Hy. by rewrite E.
  - intros m2 m3 Hm2. apply (set_spec_entry_at g path it v n a k spec); try done.
    by apply (leaves_child_NoDup items c).
  - apply NoDup_fst_map_to_list.
  - by apply elem_of_map_to_list.
  - rewrite (Hb n). destruct (decide (n ∈ leaves_of items)); rewrite Hst; simpl; eauto.
Qed.

Lemma nested_group_addressing_witness :
  NoDup (leaves_of nested_items) /\
  (NodeGroup.set nested_items nested_kwargs nested_machine).1 = Ok tt /\
  (fst <$> stored (NodeGroup.set nested_items nested_kwargs nested_machine).2 1)
  = Some ([VInt 1], Fixtures.kw [("fudge", VInt 2)]).
Proof.
  assert (NoDup (leaves_of nested_items)) as Hnd.
  { apply (bool_decide_unpack _). vm_compute. exact I. }
  assert ((NodeGroup.set nested_items nested_kwargs nested_machine).1 = Ok tt) as Hok
    by (vm_compute; reflexivity).
  assert (is_Some (stored nested_machine 1)) as [[x spec] Hst].
  { apply (bool_decide_unpack _). vm_compute. exact I. }
  assert (NodeArgSpec.keywords spec = None /\
          NodeArgSpec.__contains__ spec (OStr "fudge") = true) as [Hkw Hfudge].
  { assert ((fun o => match o with
                      | Some y => bool_decide (NodeArgSpec.keywords y.2 = None)
                                  && NodeArgSpec.__contains__ y.2 (OStr "fudge")
                      | None => false
                      end) (stored nested_machine 1) = true) as H
      by (vm_compute; reflexivity).
    rewrite Hst in H. simpl in H. apply andb_true_iff in H as [H1 H2].
    apply bool_decide_eq_true in H1. split; assumption. }
  assert (alist_get "sub" nested_items = Some (RGroup [("b", RNode 1)])) as Hc
    by (vm_compute; reflexivity).
  split; [exact Hnd|]. split; [exact Hok|].
  rewrite (nested_group_addressing nested_items nested_kwargs nested_machine
             (NodeGroup.set nested_items nested_kwargs nested_machine).2
             "sub" (RGroup [("b", RNode 1)])
             (group (Fixtures.kw [("b", params [VInt 1] (Fixtures.kw [("fudge", VInt 2)]))]))
             ["b"] 1 [VInt 1] (Fixtures.kw [("fudge", VInt 2)]) x spec Hnd).
  - simpl. f_equal. f_equal.
    assert (NodeGroup.global_params_of nested_items nested_kwargs
            = Fixtures.kw [("fudge", VInt 30)]) as -> by (vm_compute; reflexivity).
    unfold NodeState.accepted. rewrite Hkw. clear - Hfudge.
    apply map_eq. intros key. apply option_eq. intros w.
    rewrite map_lookup_filter_Some. simpl.
    destruct (decide (key = OStr "fudge")) as [->|Hne].
    + split; [by intros [H _]|]. intros H. split; [|done].
      rewrite lookup_union. rewrite H. done.
    + split.
      * intros [H _]. apply lookup_union_Some_raw in H as [H|[_ H]].
        -- done.
        -- unfold Fixtures.kw in H. simpl in H.
           rewrite lookup_insert_ne in H by done. by rewrite lookup_empty in H.
      * intros H. unfold Fixtures.kw in H. simpl in H.
        rewrite lookup_insert_ne in H by done. by rewrite lookup_empty in H.
  - rewrite <- Hok. apply surjective_pairing.
  - vm_compute. reflexivity.
  - exact Hc.
  - reflexivity.
  - vm_compute. reflexivity.
  - exact Hst.
Defined.

End NestedRouting.


Section GroupSetOutcome.
Import Node Examples GroupExamples.

Lemma well_addressed_dict items d :
  well_addressed (Some (RGroup items)) (VDict d) =
  forallb (fun kv => well_addressed (NodeGroup.__getitem__ items kv.1) kv.2)
          (map_to_list d).
Proof.
  transitivity
    (map_fold (fun item_key item_params acc =>
                 well_addressed (NodeGroup.__getitem__ items item_key) item_params
                 && acc) true d); [reflexivity|].
  rewrite map_fold_foldr. induction (map_to_list d) as [|[k v] l IH]; [done|].
  simpl. by rewrite IH.
Qed.

Lemma spec_loop_ok items g (l : list (pyobj * value)) :
  (forall k v m, (k, v) ∈ l ->
     is_ok (NodeGroup.set_spec_entry (NodeGroup.__getitem__ items k) v g m).1
     = well_addressed (NodeGroup.__getitem__ items k) v) ->
  forall m,
    is_ok (foldr (fun kv rest m =>
                    match NodeGroup.set_spec_entry (NodeGroup.__getitem__ items kv.1)
                            kv.2 g m with
                    | (Ok _, m') => rest m'
                    | (Raise e, m') => (Raise e, m')
                    end)
                 (fun m => (Ok tt, m)) l m).1
    = forallb (fun kv => well_addressed (NodeGroup.__getitem__ items kv.1) kv.2) l.
Proof.
  induction l as [|[k0 v0] l IH]; intros Hstep m; [done|]. simpl.
  specialize (Hstep k0 v0 m (list_elem_of_here _ _)) as H0.
  destruct (NodeGroup.set_spec_entry _ v0 g m) as [[u|e] m1]; simpl in H0; rewrite <- H0.
  - simpl. apply IH. intros k v m2 Hin. apply Hstep. by right.
  - done.
Qed.

(** Whether a round of [_set_params_spec] succeeds depends on the shapes of
    the value and of the item it is addressed to, and on nothing else. *)
Lemma set_spec_entry_ok g : forall v target m,
  is_ok (NodeGroup.set_spec_entry target v g m).1 = well_addressed target v.
Proof.
  intros v. remember (value_size v) as sz eqn:Hsz. revert v Hsz.
  induction sz as [sz IH] using lt_wf_ind. intros v -> target m.
  destruct v as [| | | |a k|d]; try done.
  - by destruct target as [[n|items]|].
  - destruct target as [[n|items]|]; try done.
    rewrite set_spec_entry_dict, set_params_spec_foldr, well_addressed_dict.
    apply spec_loop_ok. intros k v m1 Hin%elem_of_map_to_list.
    by apply (IH (value_size v) (value_size_lookup d k v Hin) v).
Qed.

Lemma forallb_false_elem {A} (f : A -> bool) (l : list A) x :
  x ∈ l -> f x = false -> forallb f l = false.
Proof.
  intros Hin Hx. destruct (forallb f l) eqn:E; [|done].
  rewrite forallb_elem in E. by rewrite (E x Hin) in Hx.
Qed.

Lemma group_set_ok items kwargs m :
  is_ok (NodeGroup.set items kwargs m).1 =
  forallb (fun kv => well_addressed (NodeGroup.__getitem__ items kv.1) kv.2)
          (map_to_list (NodeGroup.spec_params_of items kwargs)).
Proof.
  destruct (group_set_split items kwargs m) as (m1 & _ & ->).
  case_bool_decide as Hsz.
  - rewrite set_params_spec_foldr. apply spec_loop_ok. intros. apply set_spec_entry_ok.
  - assert (NodeGroup.spec_params_of items kwargs = ∅) as ->
      by (apply map_size_empty_iff; lia).
    by rewrite map_to_list_empty.
Qed.

(** When [set] on a group succeeds.  The outcome depends only on the shape
    of the specific entries, never on the state of the instance or on the
    global entries: the call succeeds exactly when every entry that names a
    child is a bundle for a node or a dictionary for a sub-group whose every
    key, at every depth, names a child and carries a value of the fitting
    kind.  In particular a key inside a nested dictionary is never taken for
    a global parameter: if it names no child of the sub-group, the call
    fails. *)
Theorem group_set_succeeds_iff (items : list (string * ritem)) (kwargs : dict)
    (m : machine) :
  is_ok (NodeGroup.set items kwargs m).1 =
    forallb (fun kv => well_addressed (NodeGroup.__getitem__ items kv.1) kv.2)
            (map_to_list (NodeGroup.spec_params_of items kwargs)) /\
  (forall c sub d k v,
     kwargs !! OStr c = Some (VDict d) -> alist_get c items = Some (RGroup sub) ->
     d !! k = Some v -> NodeGroup.__getitem__ sub k = None ->
     is_ok (NodeGroup.set items kwargs m).1 = false) /\
  (forall c n d,
     kwargs !! OStr c = Some (VDict d) -> alist_get c items = Some (RNode n) ->
     is_ok (NodeGroup.set items kwargs m).1 = false) /\
  (forall c sub a k,
     kwargs !! OStr c = Some (VParams a k) -> alist_get c items = Some (RGroup sub) ->
     is_ok (NodeGroup.set items kwargs m).1 = false).
Proof.
  assert (Hmain : is_ok (NodeGroup.set items kwargs m).1 =
            forallb (fun kv => well_addressed (NodeGroup.__getitem__ items kv.1) kv.2)
                    (map_to_list (NodeGroup.spec_params_of items kwargs))).
  { apply group_set_ok. }
  assert (Hbad : forall c v it,
            kwargs !! OStr c = Some v -> alist_get c items = Some it ->
            well_addressed (Some it) v = false ->
            is_ok (NodeGroup.set items kwargs m).1 = false).
  { intros c v it Hk Hc Hw. rewrite Hmain.
    apply (forallb_false_elem _ _ (OStr c, v)).
    - apply elem_of_map_to_list, spec_params_lookup. split; [done|].
      unfold NodeGroup.__getitem__. simpl. by rewrite Hc.
    - unfold NodeGroup.__getitem__. simpl. by rewrite Hc. }
  split; [exact Hmain|]. split_and!.
  - intros c sub d k v Hk Hc Hd Hnone. apply (Hbad c (VDict d) (RGroup sub) Hk Hc).
    rewrite well_addressed_dict. apply (forallb_false_elem _ _ (k, v)).
    + by apply elem_of_map_to_list.
    + simpl. rewrite Hnone. rewrite <- (set_spec_entry_ok ∅ v None m).
      by destruct v.
  - intros c n d Hk Hc. by apply (Hbad c (VDict d) (RNode n) Hk Hc).
  - intros c sub a k Hk Hc. by apply (Hbad c (VParams a k) (RGroup sub) Hk Hc).
Qed.

Lemma group_set_succeeds_iff_witness :
  stray_kwargs !! OStr "sub"
    = Some (VDict (Fixtures.kw [("nope", params [VInt 1] ∅)])) /\
  alist_get "sub" nested_items = Some (RGroup [("b", RNode 1)]) /\
  is_ok (NodeGroup.set nested_items stray_kwargs nested_machine).1 = false.
Proof.
  assert (stray_kwargs !! OStr "sub"
          = Some (VDict (Fixtures.kw [("nope", params [VInt 1] ∅)]))) as Hk
    by (vm_compute; reflexivity).
  assert (alist_get "sub" nested_items = Some (RGroup [("b", RNode 1)])) as Hc
    by (vm_compute; reflexivity).
  split; [exact Hk|]. split; [exact Hc|].
  destruct (group_set_succeeds_iff nested_items stray_kwargs nested_machine)
    as (_ & H & _).
  apply (H "sub" [("b", RNode 1)] (Fixtures.kw [("nope", params [VInt 1] ∅)])
           (OStr "nope") (params [VInt 1] ∅) Hk Hc); reflexivity.
Defined.

End GroupSetOutcome.


(** * The dictionary wrapper *)

Section InOutDict.
Import WrapperExamples.

Lemma in_out_loop_raise func args kw items e w :
  foldl (in_out_step func args kw) (Raise e, w) items = (Raise e, w).
Proof. induction items as [|kv items IH]; [done|]. simpl. apply IH. Qed.

(** A successful run of the loop stores, under every key of the items and
    under no other new key, a value returned by [func] for the value found
    under that key. *)
Lemma in_out_loop_ok func args kw : forall items (acc : dict) w r w',
  foldl (in_out_step func args kw) (Ok acc, w) items = (Ok r, w') ->
  forall k,
    (is_Some (r !! k) <-> is_Some (acc !! k) \/ k ∈ items.*1) /\
    (forall v', r !! k = Some v' ->
       acc !! k = Some v' \/
       exists v w0 w1, (k, v) ∈ items /\ body func (v :: args) kw w0 = (Ok v', w1)).
Proof.
  induction items as [|[k0 v0] items IH]; intros acc w r w'; simpl.
  - intros [= <- <-] k. split.
    + split; [by left|]. intros [H|H]; [done|]. by apply elem_of_nil in H.
    + intros v' H. by left.
  - destruct (body func (v0 :: args) kw w) as [[v1|e] w1] eqn:E.
    + intros Hfold k. destruct (IH _ _ _ _ Hfold k) as [H1 H2]. split.
      * rewrite H1. rewrite elem_of_cons. destruct (decide (k = k0)) as [->|Hne].
        -- rewrite lookup_insert_eq. split; [intros _; right; by left|intros _; left; eauto].
        -- rewrite lookup_insert_ne by done. split; intros [?|?]; auto.
           ++ destruct H as [?|?]; [done|by right].
      * intros v' Hv'. destruct (H2 v' Hv') as [Hacc|(v & wa & wb & Hin & Hb)].
        -- destruct (decide (k = k0)) as [->|Hne].
           ++ rewrite lookup_insert_eq in Hacc. injection Hacc as <-.
              right. exists v0, w, w1. split; [by left|done].
           ++ rewrite lookup_insert_ne in Hacc by done. by left.
        -- right. exists v, wa, wb. split; [by right|done].
    + rewrite in_out_loop_raise. done.
Qed.

(** With a function that neither fails on the values nor touches the state,
    the loop computes the image of the items. *)
Lemma in_out_loop_pure func args kw (g : value -> value) : forall items (acc : dict) w,
  (forall k v w0, (k, v) ∈ items -> body func (v :: args) kw w0 = (Ok (g v), w0)) ->
  foldl (in_out_step func args kw) (Ok acc, w) items
  = (Ok (foldl (fun r kv => <[kv.1 := g kv.2]> r) acc items), w).
Proof.
  induction items as [|[k0 v0] items IH]; intros acc w Hpure; [done|]. simpl.
  rewrite (Hpure k0 v0 w) by by left. apply IH.
  intros k v w0 Hin. apply (Hpure k). by right.
Qed.

Lemma foldl_insert_lookup (g : value -> value) : forall (items : list (pyobj * value))
    (acc : dict) k,
  NoDup items.*1 ->
  foldl (fun r kv => <[kv.1 := g kv.2]> r) acc items !! k =
  match (list_to_map items : dict) !! k with
  | Some v => Some (g v)
  | None => acc !! k
  end.
Proof.
  induction items as [|[k0 v0] items IH]; intros acc k Hnd; [done|].
  simpl in *. apply NoDup_cons in Hnd as [Hk0 Hnd]. rewrite IH by done.
  destruct (decide (k = k0)) as [->|Hne].
  - rewrite lookup_insert_eq.
    rewrite (not_elem_of_list_to_map_1 items k0 Hk0). by rewrite lookup_insert_eq.
  - rewrite !lookup_insert_ne by done. done.
Qed.

Lemma foldl_insert_fmap (g : value -> value) (d : dict) :
  foldl (fun r kv => <[kv.1 := g kv.2]> r) ∅ (map_to_list d) = g <$> d.
Proof.
  apply map_eq. intros k. rewrite foldl_insert_lookup by apply NoDup_fst_map_to_list.
  rewrite list_to_map_to_list, lookup_fmap, lookup_empty. by destruct (d !! k).
Qed.

(** The wrapper made by [in_out_dict].  Given anything but a dictionary it
    is the wrapped function.  Given a dictionary, a result is a dictionary
    with exactly the keys of the input, each holding a value that the
    function returned for the value under that key; when the function
    neither fails on the values nor has side effects, the result is the
    image of the input dictionary. *)
Theorem in_out_dict_maps_values (func : callable) (args : list value)
    (kw : gmap string value) (w : world) :
  kw !! "data" = None ->
  (forall data, (forall d, data <> VDict d) ->
     body (in_out_dict func) (data :: args) kw w = body func (data :: args) kw w) /\
  (forall d r w',
     body (in_out_dict func) (VDict d :: args) kw w = (Ok r, w') ->
     exists rd, r = VDict rd /\ dom rd = dom d /\
       forall k v', rd !! k = Some v' ->
         exists v w0 w1, d !! k = Some v /\ body func (v :: args) kw w0 = (Ok v', w1)) /\
  (forall d (g : value -> value),
     (forall k v w0, d !! k = Some v -> body func (v :: args) kw w0 = (Ok (g v), w0)) ->
     body (in_out_dict func) (VDict d :: args) kw w = (Ok (VDict (g <$> d)), w)).
Proof.
  intros Hdata.
  assert (Hbody : forall data,
            body (in_out_dict func) (data :: args) kw w = _wrapper func data args kw w).
  { intros data. simpl. rewrite decide_False; [done|]. rewrite Hdata. by intros [? ?]. }
  split_and!.
  - intros data Hnd. rewrite Hbody. destruct data; try done. by destruct (Hnd d).
  - intros d r w'. rewrite Hbody. unfold _wrapper, in_out_loop.
    destruct (foldl _ _ _) as [[rd|e] w1] eqn:E; [|done]. intros [= <- <-].
    exists rd. split; [done|]. split.
    + apply set_eq. intros k. rewrite !elem_of_dom.
      destruct (in_out_loop_ok _ _ _ _ _ _ _ _ E k) as [-> _].
      rewrite lookup_empty. split.
      * intros [[? [=]]|Hin]. apply list_elem_of_fmap in Hin as ([k' v] & -> & Hin).
        apply elem_of_map_to_list in Hin. by exists v.
      * intros [v Hv]. right. apply list_elem_of_fmap. exists (k, v).
        split; [done|]. by apply elem_of_map_to_list.
    + intros k v' Hv'. destruct (in_out_loop_ok _ _ _ _ _ _ _ _ E k) as [_ H].
      destruct (H v' Hv') as [Habs|(v & w0 & w1' & Hin & Hb)].
      * by rewrite lookup_empty in Habs.
      * exists v, w0, w1'. split; [by apply elem_of_map_to_list|done].
  - intros d g Hpure. rewrite Hbody. unfold _wrapper, in_out_loop.
    rewrite (in_out_loop_pure func args kw g).
    + by rewrite foldl_insert_fmap.
    + intros k v w0 Hin. apply (Hpure k). by apply elem_of_map_to_list.
Qed.

Lemma in_out_dict_maps_values_witness :
  (body (in_out_dict _transformer) [VInt 10] ∅ ∅).1 = Ok (VInt 100) /\
  body (in_out_dict _transformer)
    [VDict (Fixtures.kw [("a", VInt 10); ("b", VInt 100)])] ∅ ∅
  = (Ok (VDict (Fixtures.kw [("a", VInt 100); ("b", VInt 10000)])), ∅).
Proof.
  split; [vm_compute; reflexivity|].
  destruct (in_out_dict_maps_values _transformer [] ∅ ∅ (lookup_empty _)) as (_ & _ & H).
  rewrite (H (Fixtures.kw [("a", VInt 10); ("b", VInt 100)]) square).
  - vm_compute. reflexivity.
  - intros k v w0 Hk. unfold Fixtures.kw in Hk. simpl in Hk.
    destruct (decide (k = OStr "a")) as [->|Ha].
    + rewrite lookup_insert_eq in Hk. injection Hk as <-. reflexivity.
    + rewrite lookup_insert_ne in Hk by done.
      destruct (decide (k = OStr "b")) as [->|Hb].
      * rewrite lookup_insert_eq in Hk. injection Hk as <-. reflexivity.
      * rewrite lookup_insert_ne in Hk by done. by rewrite lookup_empty in Hk.
Defined.

End InOutDict.


(** * Instances of blueprints *)

Section Walk.
Import Node.

Lemma dense_insert h s : dense h -> dense (<[size h := s]> h).
Proof.
  unfold dense. intros Hd n. assert (h !! size h = None) as Hnone.
  { apply eq_None_not_Some. rewrite Hd. lia. }
  rewrite map_size_insert_None by done. rewrite lookup_insert_is_Some', Hd. lia.
Qed.

Lemma walked_empty : walked (Context.Walk ∅ ∅).
Proof.
  split_and!; simpl.
  - intros n. rewrite lookup_empty, map_size_empty. split; [by intros [? ?]|lia].
  - intros n s. by rewrite lookup_empty.
  - intros p n. by rewrite lookup_empty.
Qed.

Lemma walk_fold (items : list (string * bitem)) :
  Forall (fun kv => walks kv.2) items ->
  forall st grp st' grp',
    foldl (fun acc kv =>
             let '(st1, it) := Context.walk_item kv.2 kv.1 acc.1 in
             (st1, NodeGroup._set_item kv.1 it acc.2))
          (st, grp) items = (st', grp') ->
    walked st ->
    walked st' /\
    forall p, is_Some (Context.w_nodes st' !! p) <->
              is_Some (Context.w_nodes st !! p) \/ p ∈ node_paths items.
Proof.
  induction items as [|[k v] items IH]; intros Hall st grp st' grp'; simpl.
  - intros [= <- <-] Hw. split; [done|]. intros p. unfold node_paths. simpl.
    split; [by left|]. intros [H|H]; [done|]. by apply elem_of_nil in H.
  - apply Forall_cons in Hall as [Hv Hrest].
    destruct (Context.walk_item v k st) as [st1 it] eqn:E1. intros Hfold Hw.
    destruct (Hv k st st1 it E1 Hw) as [Hw1 Hk1].
    destruct (IH Hrest st1 _ st' grp' Hfold Hw1) as [Hw' Hk']. split; [done|].
    intros p. rewrite Hk', Hk1. unfold node_paths. simpl. rewrite elem_of_app.
    fold (node_paths items). tauto.
Qed.

Lemma walk_item_walks : forall value, walks value.
Proof.
  apply (bitem_ind' walks); [intros d|intros prefix items IH]; intros key st st' it; simpl.
  - intros [= <- <-] (Hd & Hu & Hn). split; [split_and!|]; simpl.
    + by apply dense_insert.
    + intros n s. rewrite lookup_insert_Some. intros [[_ <-]|[_ H]]; [done|by eapply Hu].
    + intros p n. rewrite lookup_insert_Some, lookup_insert_is_Some'.
      intros [[_ <-]|[_ H]]; [by left|right; by eapply Hn].
    + intros p. rewrite lookup_insert_is_Some', list_elem_of_singleton.
      split; intros [H|H]; auto.
  - destruct (foldl _ _ _) as [st1 grp] eqn:E. intros [= <- <-] Hw.
    exact (walk_fold items IH st [] st1 grp E Hw).
Qed.

Lemma walk_graph_spec items grp st st' grp' :
  Context._walk_graph items grp st = (st', grp') -> walked st ->
  walked st' /\
  forall p, is_Some (Context.w_nodes st' !! p) <->
            is_Some (Context.w_nodes st !! p) \/ p ∈ node_paths items.
Proof.
  apply walk_fold. apply Forall_forall. intros kv _. apply walk_item_walks.
Qed.

End Walk.


Section WiringOfInstances.
Import Node.

Lemma parse_step_raise nodes add es e :
  foldl (parse_step nodes add) (Raise e) es = Raise e.
Proof. induction es as [|x es IH]; [done|]. simpl. apply IH. Qed.

(** [_parse_edges] visits the edges one by one. *)
Lemma parse_edges_flat nodes edges add h :
  Context._parse_edges nodes edges add h =
  foldl (parse_step nodes add) (Ok h) (flat_edges edges).
Proof.
  unfold Context._parse_edges, flat_edges. generalize (Ok h) as acc.
  induction (map_to_list edges) as [|[s l] rest IH]; intros acc; [done|].
  rewrite bind_cons, foldl_app. simpl. rewrite IH. f_equal.
  clear. revert acc. induction l as [|t l IHl]; intros acc; [done|]. simpl. apply IHl.
Qed.

Lemma elem_of_flat_edges edges s e : (s, e) ∈ flat_edges edges <-> edge_in edges s e.
Proof.
  unfold flat_edges, edge_in. rewrite list_elem_of_bind. split.
  - intros ([s' l] & Hin & Hl). apply list_elem_of_fmap in Hin as (t & [= -> ->] & Hin).
    apply elem_of_map_to_list in Hl. by exists l.
  - intros (l & Hl & Hin). exists (s, l). split.
    + apply list_elem_of_fmap. by exists e.
    + by apply elem_of_map_to_list.
Qed.

(** Wiring succeeds exactly when both ends of every edge are indexed. *)
Lemma downstream_wire_succeeds nodes : forall es h,
  (forall e, e ∈ es -> is_Some (nodes !! e.1) /\ is_Some (nodes !! EdgeDef.node e.2)) ->
  exists h', foldl (parse_step nodes (Context.downstream_wire nodes)) (Ok h) es
             = Ok h'.
Proof.
  induction es as [|e es IH]; intros h Hall; [by exists h|]. simpl.
  destruct (Hall e (list_elem_of_here _ _)) as [[src ->] [tn Ht]].
  unfold Context.downstream_wire. rewrite Ht. apply IH.
  intros e' He'. apply Hall. by right.
Qed.

Lemma upstream_wire_succeeds nodes : forall es h,
  (forall e, e ∈ es -> is_Some (nodes !! e.1) /\ is_Some (nodes !! EdgeDef.node e.2)) ->
  exists h', foldl (parse_step nodes (Context._upstream_wire nodes)) (Ok h) es
             = Ok h'.
Proof.
  induction es as [|e es IH]; intros h Hall; [by exists h|]. simpl.
  destruct (Hall e (list_elem_of_here _ _)) as [[src ->] [tn Ht]].
  unfold Context._upstream_wire. rewrite Ht. apply IH.
  intros e' He'. apply Hall. by right.
Qed.

(** The downstream pass appends to the downstream list of every node the
    nodes of the targets of its edges and changes nothing else. *)
Lemma downstream_wire_spec nodes : forall es h h',
  foldl (parse_step nodes (Context.downstream_wire nodes)) (Ok h) es = Ok h' ->
  forall n,
    match h !! n with
    | None => h' !! n = None
    | Some s =>
        exists s', h' !! n = Some s' /\
          NodeState.downstream s' = NodeState.downstream s ++ added_downstream nodes n es /\
          NodeState.upstream s' = NodeState.upstream s /\
          NodeState._dirty s' = NodeState._dirty s /\
          settings s' = settings s
    end.
Proof.
  induction es as [|[sp t] es IH]; intros h h'; simpl.
  - intros [= <-] n. destruct (h !! n) as [s|] eqn:E; [|done].
    exists s. by rewrite app_nil_r.
  - destruct (nodes !! sp) as [src|] eqn:Hsp; [|by rewrite parse_step_raise].
    destruct (Context.downstream_wire nodes src t h) as [h1|e] eqn:Hw;
      [|by rewrite parse_step_raise].
    revert Hw. unfold Context.downstream_wire.
    destruct (nodes !! EdgeDef.node t) as [tn|] eqn:Ht; [|done]. intros [= <-].
    intros Hfold n. specialize (IH _ _ Hfold n). rewrite lookup_alter in IH.
    unfold added_downstream. simpl. fold (added_downstream nodes n es).
    destruct (decide (src = n)) as [->|Hne].
    + rewrite decide_True by done. try rewrite Ht.
      destruct (h !! n) as [s|] eqn:E; [|done]. simpl in IH.
      destruct IH as (s' & Hs' & Hd & Hu & Hdirty & Hset). exists s'.
      split; [done|]. split; [|done]. rewrite Hd. simpl. by rewrite <- app_assoc.
    + rewrite decide_False by congruence. done.
Qed.

Lemma upstream_wire_spec nodes : forall es h h',
  foldl (parse_step nodes (Context._upstream_wire nodes)) (Ok h) es = Ok h' ->
  forall n,
    match h !! n with
    | None => h' !! n = None
    | Some s =>
        exists s', h' !! n = Some s' /\
          NodeState.upstream s' = NodeState.upstream s ++ added_upstream nodes n es /\
          NodeState.downstream s' = NodeState.downstream s /\
          NodeState._dirty s' = NodeState._dirty s /\
          settings s' = settings s
    end.
Proof.
  induction es as [|[sp t] es IH]; intros h h'; simpl.
  - intros [= <-] n. destruct (h !! n) as [s|] eqn:E; [|done].
    exists s. by rewrite app_nil_r.
  - destruct (nodes !! sp) as [src|] eqn:Hsp; [|by rewrite parse_step_raise].
    destruct (Context._upstream_wire nodes src t h) as [h1|e] eqn:Hw;
      [|by rewrite parse_step_raise].
    revert Hw. unfold Context._upstream_wire.
    destruct (nodes !! EdgeDef.node t) as [tn|] eqn:Ht; [|done]. intros [= <-].
    intros Hfold n. specialize (IH _ _ Hfold n). rewrite lookup_alter in IH.
    unfold added_upstream. simpl. fold (added_upstream nodes n es).
    destruct (decide (src = n)) as [->|Hne].
    + rewrite decide_True by done. try rewrite Ht. simpl.
      destruct (h !! n) as [s|] eqn:E; [|done]. simpl in IH.
      destruct IH as (s' & Hs' & Hu & Hd & Hdirty & Hset). exists s'.
      split; [done|]. split; [|done]. rewrite Hu. simpl. by rewrite <- app_assoc.
    + rewrite decide_False by congruence. done.
Qed.

Lemma elem_of_added_downstream nodes n es d :
  d ∈ added_downstream nodes n es <->
  exists s e, (s, e) ∈ es /\ nodes !! s = Some n /\ nodes !! EdgeDef.node e = Some d.
Proof.
  unfold added_downstream. rewrite list_elem_of_omap. split.
  - intros ([s e] & Hin & H). simpl in H. case_decide; [|done]. by exists s, e.
  - intros (s & e & Hin & Hs & He). exists (s, e). split; [done|]. simpl.
    by rewrite decide_True.
Qed.

Lemma elem_of_added_upstream nodes n es p :
  p ∈ added_upstream nodes n es <->
  exists s e t, (s, e) ∈ es /\ nodes !! s = Some n /\
                nodes !! EdgeDef.node e = Some t /\
                p = upstream_entry t (EdgeDef.param e).
Proof.
  unfold added_upstream. rewrite list_elem_of_omap. split.
  - intros ([s e] & Hin & H). simpl in H. case_decide; [|done].
    destruct (nodes !! EdgeDef.node e) as [t|] eqn:Ht; [|done].
    injection H as <-. by exists s, e, t.
  - intros (s & e & t & Hin & Hs & He & ->). exists (s, e). split; [done|]. simpl.
    rewrite decide_True by done. by rewrite He.
Qed.

Lemma upstream_entry_mirrors n param : peer_mirrors n (upstream_entry n param) = true.
Proof.
  destruct param as [param|]; unfold upstream_entry, peer_mirrors;
    cbn [ParamTargetNodeStateWrapper.__init__ ParamTargetNodeStateWrapper._state
         ParamTargetNodeStateWrapper._param_name].
  - rewrite (bool_decide_eq_true_2 (ONode n = ONode n)) by done.
    rewrite (bool_decide_eq_true_2 (str_key (OStr param) <> None)) by done.
    by rewrite orb_true_r.
  - by apply bool_decide_eq_true.
Qed.

(** The two wiring passes over mirrored edge maps leave a wired heap in
    which every node is still dirty. *)
Lemma wiring_wired (nodes : gmap (list string) nat) (down up : edge_map) h0 h1 h2 w c :
  mirrored down up ->
  (forall n s, h0 !! n = Some s -> unwired s) ->
  (forall p n, nodes !! p = Some n -> is_Some (h0 !! n)) ->
  Context._parse_edges nodes down (Context.downstream_wire nodes) h0 = Ok h1 ->
  Context._parse_edges nodes up (Context._upstream_wire nodes) h1 = Ok h2 ->
  wired {| heap := h2; world_of := w; calls := c |} /\
  all_dirty {| heap := h2; world_of := w; calls := c |}.
Proof.
  intros Hm Hu Hn. rewrite !parse_edges_flat. intros H1 H2.
  assert (Hshape : forall n,
            match h0 !! n with
            | None => h2 !! n = None
            | Some _ =>
                exists s2, h2 !! n = Some s2 /\
                  NodeState.downstream s2 = added_downstream nodes n (flat_edges down) /\
                  NodeState.upstream s2 = added_upstream nodes n (flat_edges up) /\
                  NodeState._dirty s2 = true
            end).
  { intros n. pose proof (downstream_wire_spec nodes _ _ _ H1 n) as Hd.
    pose proof (upstream_wire_spec nodes _ _ _ H2 n) as Hup.
    destruct (h0 !! n) as [s0|] eqn:E0.
    - destruct Hd as (s1 & Hs1 & Hd1 & Hu1 & Hdirty1 & _). rewrite Hs1 in Hup.
      destruct Hup as (s2 & Hs2 & Hu2 & Hd2 & Hdirty2 & _).
      destruct (Hu n s0 E0) as (Hu0 & Hd0 & Hdirty0).
      exists s2. split; [done|]. rewrite Hd2, Hd1, Hd0, Hu2, Hu1, Hu0, Hdirty2, Hdirty1.
      done.
    - rewrite Hd in Hup. done. }
  assert (Hget : forall n s2, h2 !! n = Some s2 ->
            NodeState.downstream s2 = added_downstream nodes n (flat_edges down) /\
            NodeState.upstream s2 = added_upstream nodes n (flat_edges up) /\
            NodeState._dirty s2 = true).
  { intros n s2 Hs2. specialize (Hshape n). destruct (h0 !! n); [|congruence].
    destruct Hshape as (s2' & Hs2' & H). rewrite Hs2 in Hs2'. by injection Hs2' as <-. }
  assert (Halloc : forall p n, nodes !! p = Some n -> exists s2, h2 !! n = Some s2).
  { intros p n Hp. destruct (Hn p n Hp) as [s0 Hs0]. specialize (Hshape n).
    rewrite Hs0 in Hshape. destruct Hshape as (s2 & Hs2 & _). by exists s2. }
  split; [split|]; simpl.
  - intros n s d Hs Hd. destruct (Hget n s Hs) as (Hdown & _ & _).
    rewrite Hdown in Hd. apply elem_of_added_downstream in Hd as (sp & e & Hin & Hsp & He).
    destruct e as [t p]. simpl in He.
    apply elem_of_flat_edges, Hm, elem_of_flat_edges in Hin.
    destruct (Halloc t d He) as [ds Hds]. exists ds, (upstream_entry n p).
    split; [done|]. split; [|apply upstream_entry_mirrors].
    destruct (Hget d ds Hds) as (_ & -> & _). apply elem_of_added_upstream.
    by exists t, (EdgeDef.mk sp p), n.
  - intros n s p Hs Hp. destruct (Hget n s Hs) as (_ & Hup & _).
    rewrite Hup in Hp. apply elem_of_added_upstream in Hp as (tp & e & u & Hin & Htp & He & ->).
    destruct e as [sp param]. simpl in He.
    apply elem_of_flat_edges, Hm, elem_of_flat_edges in Hin.
    destruct (Halloc sp u He) as [us Hus]. exists u, us.
    split; [done|]. split; [apply upstream_entry_mirrors|].
    destruct (Hget u us Hus) as (-> & _ & _). apply elem_of_added_downstream.
    by exists sp, (EdgeDef.mk tp param).
  - intros n s Hs. by destruct (Hget n s Hs) as (_ & _ & ?).
Qed.

End WiringOfInstances.


Section Instantiation.
Import Node Examples.

Lemma all_dirty_skel m m' : skel m' = skel m -> all_dirty m -> all_dirty m'.
Proof.
  intros Hs Hd n s' Hs'.
  destruct (skel_lookup m' m n s' (eq_sym Hs) Hs') as (s & Hm & Hsk).
  unfold skeleton in Hsk. injection Hsk as _ _ Hdirty. rewrite <- Hdirty. by eapply Hd.
Qed.

Lemma all_dirty_invalidate x m : all_dirty m -> all_dirty (_invalidate x m).
Proof.
  intros Hd n s'. destruct (invalidate_spec x m) as ((_ & _ & Hh) & _). rewrite Hh.
  destruct (decide (n ∈ visited x m)).
  - destruct (heap m !! n) as [s|]; [|done]. simpl. by intros [= <-].
  - apply Hd.
Qed.

Lemma all_dirty_group_set items kwargs m :
  all_dirty m -> all_dirty (NodeGroup.set items kwargs m).2.
Proof.
  apply group_set_preserves.
  - intros n a k m0 _ H0. unfold _set_params. apply all_dirty_invalidate.
    eapply all_dirty_skel; [apply skel_store_params|done].
  - intros n m0 _ H0. unfold update. apply all_dirty_invalidate.
    eapply all_dirty_skel; [apply skel_merge_kwargs|done].
Qed.

Lemma all_dirty_upstream_clean m : all_dirty m -> upstream_clean m.
Proof. intros Hd n s p Hs Hclean. rewrite (Hd n s Hs) in Hclean. done. Qed.

Lemma quiet_group_set items kwargs m :
  calls (NodeGroup.set items kwargs m).2 = calls m /\
  world_of (NodeGroup.set items kwargs m).2 = world_of m.
Proof.
  apply (group_set_preserves (fun m' => calls m' = calls m /\ world_of m' = world_of m));
    [| |done].
  - intros n a k m0 _ [Hc Hw].
    destruct (set_params_quiet n a (k ∪ NodeGroup.global_params_of items kwargs) m0)
      as (-> & -> & _). done.
  - intros n m0 _ [Hc Hw].
    destruct (update_quiet n (NodeGroup.global_params_of items kwargs) m0)
      as (-> & -> & _). done.
Qed.

Lemma is_ok_inv {A} (r : result A) : is_ok r = true -> exists x, r = Ok x.
Proof. destruct r as [x|e]; [by exists x|done]. Qed.

Lemma context_init_unfold g kwargs w st items h1 h2 :
  Context._walk_graph (BaseGraph._items g) [] (Context.Walk ∅ ∅) = (st, items) ->
  Context._parse_edges (Context.w_nodes st) (BaseGraph._downstream g)
    (Context.downstream_wire (Context.w_nodes st)) (Context.w_heap st) = Ok h1 ->
  Context._parse_edges (Context.w_nodes st) (BaseGraph._upstream g)
    (Context._upstream_wire (Context.w_nodes st)) h1 = Ok h2 ->
  Context.__init__ g kwargs w =
    match NodeGroup.set items kwargs {| heap := h2; world_of := w; calls := [] |} with
    | (Raise e, _) => Raise e
    | (Ok _, m) => Ok ({| Context._items := items; Context._nodes := Context.w_nodes st |}, m)
    end.
Proof.
  intros Ew H1 H2. unfold Context.__init__. rewrite Ew. by rewrite H1, H2.
Qed.

(** The wiring of a closed blueprint never fails. *)
Lemma closed_wiring g st items :
  closed g ->
  Context._walk_graph (BaseGraph._items g) [] (Context.Walk ∅ ∅) = (st, items) ->
  exists h1 h2,
    Context._parse_edges (Context.w_nodes st) (BaseGraph._downstream g)
      (Context.downstream_wire (Context.w_nodes st)) (Context.w_heap st) = Ok h1 /\
    Context._parse_edges (Context.w_nodes st) (BaseGraph._upstream g)
      (Context._upstream_wire (Context.w_nodes st)) h1 = Ok h2 /\
    forall w c, wired {| heap := h2; world_of := w; calls := c |} /\
                all_dirty {| heap := h2; world_of := w; calls := c |}.
Proof.
  intros (Hm & Hgd & Hgu) Ew.
  destruct (walk_graph_spec _ _ _ _ _ Ew walked_empty) as [(Hdense & Hunw & Halloc) Hkeys].
  assert (Hidx : forall p, p ∈ node_paths (BaseGraph._items g) ->
            is_Some (Context.w_nodes st !! p)).
  { intros p Hp. apply Hkeys. by right. }
  assert (Hends : forall edges, grounded (node_paths (BaseGraph._items g)) edges ->
            forall e, e ∈ flat_edges edges ->
              is_Some (Context.w_nodes st !! e.1) /\
              is_Some (Context.w_nodes st !! EdgeDef.node e.2)).
  { intros edges Hg [s e] (l & Hl & Hin)%elem_of_flat_edges.
    destruct (Hg s l Hl) as [Hs He]. split; apply Hidx; [done|by apply He]. }
  destruct (downstream_wire_succeeds (Context.w_nodes st) _ (Context.w_heap st)
              (Hends _ Hgd)) as [h1 H1].
  destruct (upstream_wire_succeeds (Context.w_nodes st) _ h1 (Hends _ Hgu)) as [h2 H2].
  rewrite <- parse_edges_flat in H1, H2.
  exists h1, h2. split; [done|]. split; [done|]. intros w c.
  by apply (wiring_wired (Context.w_nodes st) (BaseGraph._downstream g)
              (BaseGraph._upstream g) (Context.w_heap st) h1 h2 w c).
Qed.

Lemma mirroredb_sound down up : mirroredb down up = true -> mirrored down up.
Proof.
  unfold mirroredb. rewrite andb_true_iff, !forallb_elem. intros [H1 H2].
  assert (Hin : forall edges s e, e ∈ edges_of edges s -> edge_in edges s e).
  { intros edges s e. unfold edges_of, edge_in. destruct (edges !! s) as [l|]; simpl.
    - intros Hin. by exists l.
    - intros Hin. by apply elem_of_nil in Hin. }
  intros s t p. split.
  - intros He%elem_of_flat_edges. specialize (H1 _ He). simpl in H1.
    apply bool_decide_eq_true in H1. by apply Hin.
  - intros He%elem_of_flat_edges. specialize (H2 _ He). simpl in H2.
    apply bool_decide_eq_true in H2. by apply Hin.
Qed.

Lemma groundedb_sound paths edges : groundedb paths edges = true -> grounded paths edges.
Proof.
  unfold groundedb. rewrite forallb_elem. intros H s l Hl.
  specialize (H (s, l) (proj2 (elem_of_map_to_list _ _ _) Hl)). simpl in H.
  apply andb_true_iff in H as [Hs Hall]. apply bool_decide_eq_true in Hs.
  split; [done|]. intros e He. rewrite forallb_elem in Hall.
  specialize (Hall e He). by apply bool_decide_eq_true in Hall.
Qed.

Lemma closedb_sound g : closedb g = true -> closed g.
Proof.
  unfold closedb. rewrite !andb_true_iff. intros [[H1 H2] H3].
  split_and!; [by apply mirroredb_sound|by apply groundedb_sound..].
Qed.

(** Without parameters, a closed blueprint always instantiates. *)
Lemma instantiate_without_parameters (g : BaseGraph.t) (w : world) :
  closed g ->
  exists c m, Graph.__call__ g ∅ w = Ok (c, m) /\
              consistent m /\ all_dirty m /\ calls m = [] /\ world_of m = w.
Proof.
  intros Hclosed.
  destruct (Context._walk_graph (BaseGraph._items g) [] (Context.Walk ∅ ∅))
    as [st items] eqn:Ew.
  destruct (closed_wiring g st items Hclosed Ew) as (h1 & h2 & H1 & H2 & Hw).
  unfold Graph.__call__. rewrite (context_init_unfold g ∅ w st items h1 h2 Ew H1 H2).
  destruct (Hw w []) as [Hwired Hall].
  exists {| Context._items := items; Context._nodes := Context.w_nodes st |},
         {| heap := h2; world_of := w; calls := [] |}.
  split; [done|]. split_and!; try done.
  split; [done|]. by apply all_dirty_upstream_clean.
Qed.

(** Instantiating a blueprint.  When the edge maps of the blueprint mirror
    each other and mention only paths of its node definitions, wiring the
    instance never fails: instantiation succeeds exactly when the initial
    parameters are well addressed, and always without parameters.  The new
    instance is wired, every one of its nodes is dirty, and no callable has
    been invoked; so it satisfies the invariant that C10 propagates. *)
Theorem instantiation_is_consistent (g : BaseGraph.t) (w : world) :
  closed g ->
  (forall kwargs,
     let items := (Context._walk_graph (BaseGraph._items g) [] (Context.Walk ∅ ∅)).2 in
     is_ok (Context.__init__ g kwargs w) =
       forallb (fun kv => well_addressed (NodeGroup.__getitem__ items kv.1) kv.2)
               (map_to_list (NodeGroup.spec_params_of items kwargs))) /\
  (exists c m, Graph.__call__ g ∅ w = Ok (c, m)) /\
  (forall kwargs c m,
     Graph.__call__ g kwargs w = Ok (c, m) ->
     consistent m /\ all_dirty m /\ calls m = [] /\ world_of m = w).
Proof.
  intros Hclosed.
  destruct (Context._walk_graph (BaseGraph._items g) [] (Context.Walk ∅ ∅))
    as [st items] eqn:Ew.
  destruct (closed_wiring g st items Hclosed Ew) as (h1 & h2 & H1 & H2 & Hw).
  pose proof (fun kwargs => context_init_unfold g kwargs w st items h1 h2 Ew H1 H2) as Hinit.
  set (m0 := {| heap := h2; world_of := w; calls := [] |}) in *.
  assert (Hok : forall kwargs,
            is_ok (Context.__init__ g kwargs w) =
              forallb (fun kv => well_addressed (NodeGroup.__getitem__ items kv.1) kv.2)
                      (map_to_list (NodeGroup.spec_params_of items kwargs))).
  { intros kwargs. rewrite Hinit, <- (group_set_ok items kwargs m0).
    by destruct (NodeGroup.set items kwargs m0) as [[[]|e] m']. }
  split_and!.
  - intros kwargs. simpl. apply Hok.
  - unfold Graph.__call__. destruct (is_ok_inv (Context.__init__ g ∅ w)) as [[c m] E].
    + rewrite Hok. unfold NodeGroup.spec_params_of.
      by rewrite map_filter_empty, map_to_list_empty.
    + by exists c, m.
  - intros kwargs c m. unfold Graph.__call__. rewrite Hinit.
    pose proof (consistent_group_set items kwargs m0) as Hcons.
    pose proof (all_dirty_group_set items kwargs m0) as Hdirty.
    pose proof (quiet_group_set items kwargs m0) as Hquiet.
    destruct (Hw w []) as [Hwired Hall].
    destruct (NodeGroup.set items kwargs m0) as [[u|e] m'] eqn:Es; [|done].
    intros [= _ <-]. simpl in *. split_and!.
    + apply Hcons. split; [done|]. by apply all_dirty_upstream_clean.
    + by apply Hdirty.
    + apply Hquiet.
    + apply Hquiet.
Qed.

Lemma instantiation_is_consistent_witness :
  closed fudge_graph /\ consistent fudge_machine /\ all_dirty fudge_machine.
Proof.
  assert (closed fudge_graph) as Hc by (apply closedb_sound; vm_compute; reflexivity).
  split; [exact Hc|].
  destruct (instantiation_is_consistent fudge_graph ∅ Hc) as (_ & _ & H).
  destruct (is_ok_inv (Graph.__call__ fudge_graph
              (Fixtures.kw [("a", params [VInt 5] ∅); ("b", params [VInt 1] ∅)]) ∅))
    as [[c m] E]; [vm_compute; reflexivity|].
  unfold fudge_machine. rewrite E. cbn [machine_of].
  destruct (H _ c m E) as (H1 & H2 & _). split; [exact H1|exact H2].
Defined.

End Instantiation.


(** * Building blueprints *)

Section Placement.

Lemma placed_item_paths : forall item prefix key p,
  placed_item prefix key item = true -> p ∈ node_paths_item item ->
  exists q, p = prefix ++ key :: q.
Proof.
  apply (bitem_ind' (fun item => forall prefix key p,
           placed_item prefix key item = true -> p ∈ node_paths_item item ->
           exists q, p = prefix ++ key :: q)).
  - intros d prefix key p. simpl. rewrite andb_true_iff, !bool_decide_eq_true.
    intros [_ Hpath] ->%list_elem_of_singleton. by exists [].
  - intros sp items IH prefix key p. simpl.
    rewrite !andb_true_iff, !bool_decide_eq_true. intros [[-> _] Hall] Hin.
    apply list_elem_of_join in Hin as (l & Hp & Hl).
    apply list_elem_of_fmap in Hl as ([k it] & -> & Hkv).
    rewrite Forall_forall in IH. rewrite forallb_elem in Hall.
    destruct (IH _ Hkv (prefix ++ [key]) k p (Hall _ Hkv) Hp) as [q ->].
    exists (k :: q). by rewrite <- app_assoc.
Qed.

Lemma elem_of_node_paths items p :
  p ∈ node_paths items <-> exists k it, (k, it) ∈ items /\ p ∈ node_paths_item it.
Proof.
  unfold node_paths. rewrite list_elem_of_join. split.
  - intros (l & Hp & Hl). apply list_elem_of_fmap in Hl as ([k it] & -> & Hkv).
    by exists k, it.
  - intros (k & it & Hkv & Hp). exists (node_paths_item it). split; [done|].
    apply list_elem_of_fmap. by exists (k, it).
Qed.

Lemma alist_get_None {A} k (l : list (string * A)) : alist_get k l = None <-> k ∉ l.*1.
Proof.
  induction l as [|[k' v] l IH]; simpl.
  - split; [intros _; apply not_elem_of_nil|done].
  - rewrite not_elem_of_cons. destruct (decide (k = k')); [naive_solver|].
    rewrite IH. naive_solver.
Qed.

(** A name that is not in use has no path below it in use. *)
Lemma fresh_path prefix items name q :
  placed prefix items = true -> alist_get name items = None ->
  prefix ++ name :: q ∉ node_paths items.
Proof.
  unfold placed. rewrite andb_true_iff, forallb_elem. intros [_ Hall] Hnone Hin.
  apply elem_of_node_paths in Hin as (k & it & Hkv & Hp).
  destruct (placed_item_paths it prefix k _ (Hall _ Hkv) Hp) as [q' Hq].
  apply app_inv_head in Hq. injection Hq as -> _.
  apply alist_get_None in Hnone. apply Hnone. apply list_elem_of_fmap. by exists (k, it).
Qed.

Lemma alist_set_absent {A} k (v : A) l : alist_get k l = None -> alist_set k v l = l ++ [(k, v)].
Proof.
  induction l as [|[k' v'] l IH]; simpl; [done|].
  destruct (decide (k = k')); [done|]. intros H. by rewrite IH.
Qed.

Lemma alist_get_NoDup {A} k (v : A) l : NoDup l.*1 -> (k, v) ∈ l -> alist_get k l = Some v.
Proof.
  induction l as [|[k' v'] l IH]; simpl; [by intros _ ?%elem_of_nil|].
  rewrite NoDup_cons. intros [Hk' Hnd] [[= -> ->]|Hin]%elem_of_cons.
  - by rewrite decide_True.
  - rewrite decide_False; [by apply IH|]. intros ->. apply Hk'.
    apply list_elem_of_fmap. by exists (k', v).
Qed.

Lemma node_paths_cons k v items :
  node_paths ((k, v) :: items) = node_paths_item v ++ node_paths items.
Proof. done. Qed.

(** Replacing an item by one with the same paths. *)
Lemma node_paths_replace k v old items :
  alist_get k items = Some old -> node_paths_item v = node_paths_item old ->
  node_paths (alist_set k v items) = node_paths items.
Proof.
  intros Hget Hsame. induction items as [|[k' v'] items IH]; [done|]. simpl in *.
  destruct (decide (k = k')) as [->|Hne].
  - injection Hget as ->. by rewrite !node_paths_cons, Hsame.
  - by rewrite !node_paths_cons, IH.
Qed.

Lemma placed_replace prefix k v old items :
  placed prefix items = true -> alist_get k items = Some old ->
  placed_item prefix k v = true ->
  placed prefix (alist_set k v items) = true.
Proof.
  unfold placed. rewrite !andb_true_iff, !bool_decide_eq_true. intros [Hnd Hall] Hget Hv.
  split; [by rewrite alist_set_keys|].
  clear Hnd. induction items as [|[k' v'] items IH]; [done|]. simpl in *.
  apply andb_true_iff in Hall as [H1 H2].
  destruct (decide (k = k')) as [->|Hne]; simpl; apply andb_true_iff; auto.
Qed.

Lemma placed_add prefix k v items :
  placed prefix items = true -> alist_get k items = None ->
  placed_item prefix k v = true ->
  placed prefix (alist_set k v items) = true.
Proof.
  unfold placed. rewrite !andb_true_iff, !bool_decide_eq_true. intros [Hnd Hall] Hget Hv.
  rewrite alist_set_absent by done. split.
  - rewrite fmap_app. apply NoDup_app. split; [done|]. split.
    + intros x Hx ->%list_elem_of_singleton. by apply alist_get_None in Hget.
    + apply NoDup_singleton.
  - rewrite forallb_app, Hall. simpl. by rewrite Hv.
Qed.

Lemma node_paths_add k v items :
  alist_get k items = None ->
  node_paths (alist_set k v items) = node_paths items ++ node_paths_item v.
Proof.
  intros Hget. rewrite alist_set_absent by done. unfold node_paths.
  rewrite fmap_app, join_app. simpl. by rewrite app_nil_r.
Qed.

End Placement.


Section StoringNodes.
Import Examples.

Lemma grown_map_refl e : grown_map e e.
Proof. intros key l H. exists []. by rewrite app_nil_r. Qed.

Lemma grown_map_trans e1 e2 e3 : grown_map e1 e2 -> grown_map e2 e3 -> grown_map e1 e3.
Proof.
  intros H1 H2 key l Hl. destruct (H1 key l Hl) as [l1 Hl1].
  destruct (H2 key _ Hl1) as [l2 Hl2]. exists (l1 ++ l2). by rewrite app_assoc.
Qed.

Lemma grown_refl g : grown g g.
Proof. split; apply grown_map_refl. Qed.

Lemma grown_trans g1 g2 g3 : grown g1 g2 -> grown g2 g3 -> grown g1 g3.
Proof. intros [H1 H2] [H3 H4]. split; by eapply grown_map_trans. Qed.

Lemma same_edges_refl g : same_edges g g.
Proof. by split. Qed.

Lemma same_edges_trans g1 g2 g3 : same_edges g1 g2 -> same_edges g2 g3 -> same_edges g1 g3.
Proof.
  intros [H1 H2] [H3 H4]. split; intros s e; [by rewrite H3, H1|by rewrite H4, H2].
Qed.

Lemma placed_lookup prefix items k it :
  placed prefix items = true -> alist_get k items = Some it ->
  placed_item prefix k it = true.
Proof.
  unfold placed. rewrite andb_true_iff, forallb_elem. intros [_ Hall] Hget.
  exact (Hall (k, it) (alist_get_elem _ _ _ Hget)).
Qed.

(** An edge map with an empty list stored under an unused key has the same
    edges. *)
Lemma edge_in_insert_nil (edges : edge_map) path s e :
  edges !! path = None ->
  edge_in (<[path := []]> edges) s e <-> edge_in edges s e.
Proof.
  intros Hnone. unfold edge_in. split; intros (l & Hl & Hin).
  - apply lookup_insert_Some in Hl as [[_ <-]|[_ Hl]]; [by apply elem_of_nil in Hin|].
    by exists l.
  - exists l. split; [|done]. rewrite lookup_insert_ne; [done|]. congruence.
Qed.

Lemma grounded_absent paths edges p : grounded paths edges -> p ∉ paths -> edges !! p = None.
Proof.
  intros Hg Hp. destruct (edges !! p) as [l|] eqn:E; [|done].
  destruct (Hg p l E) as [? _]. done.
Qed.

Lemma sound_closed g : sound g -> closed g.
Proof. intros (_ & _ & Hm & Hgd & Hgu & _). by split_and!. Qed.

Lemma soundb_sound g : soundb g = true -> sound g.
Proof.
  unfold soundb. rewrite !andb_true_iff. intros [[Hpl Hown] Hc].
  apply closedb_sound in Hc as (Hm & Hgd & Hgu).
  split_and!; try done. intros q Hq. by apply elem_of_nil in Hq.
Qed.

Lemma owned_lookup root items k it :
  owned root items = true -> alist_get k items = Some it -> owned_item root it = true.
Proof.
  unfold owned. rewrite forallb_elem. intros Hall Hget.
  exact (Hall (k, it) (alist_get_elem _ _ _ Hget)).
Qed.

Lemma owned_set root items k it :
  owned root items = true -> owned_item root it = true ->
  owned root (alist_set k it items) = true.
Proof.
  unfold owned. intros Hall Hit. induction items as [|[k' v'] items IH]; simpl in *.
  - by rewrite Hit.
  - apply andb_true_iff in Hall as [H1 H2].
    destruct (decide (k = k')); simpl; apply andb_true_iff; auto.
Qed.

Lemma grounded_ext paths paths' edges :
  (forall q, q ∈ paths -> q ∈ paths') -> grounded paths edges -> grounded paths' edges.
Proof.
  intros Hsub Hg s l Hl. destruct (Hg s l Hl) as [Hs Hrefs]. split; [by apply Hsub|].
  intros e He. by apply Hsub, Hrefs.
Qed.

(** Storing a node definition made for this graph keeps the blueprint
    sound and its edges as they are. *)
Lemma store_node_def_sound outside self d g' p :
  sound_in outside self ->
  NodeDef.path d = BaseGraph._prefix self ++ [NodeDef.name d] ->
  NodeDef.owner d = BaseGraph._root self ->
  BaseGraph._store_node_def self d = Ok (g', p) ->
  sound_in outside g' /\ same_static self g' /\ grown self g' /\ same_edges self g' /\
  NodeDef.path d ∈ node_paths (BaseGraph._items g') /\
  (forall q, q ∈ node_paths (BaseGraph._items self) ->
             q ∈ node_paths (BaseGraph._items g')).
Proof.
  intros (Hpl & Hown & Hm & Hgd & Hgu & Hout) Hpath Howner.
  unfold BaseGraph._store_node_def.
  destruct (alist_get (NodeDef.name d) (BaseGraph._items self)) as [[existing|sp sitems]|] eqn:Hget;
    [| done |]; intros [= <- <-].
  - pose proof (placed_lookup _ _ _ _ Hpl Hget) as Hex. simpl in Hex.
    pose proof (owned_lookup _ _ _ _ Hown Hget) as Hexo. simpl in Hexo.
    assert (node_paths (alist_set (NodeDef.name d) (BNode (NodeDef.update existing d))
                          (BaseGraph._items self)) = node_paths (BaseGraph._items self)) as Hpaths.
    { by apply node_paths_replace with (BNode existing). }
    split; [|split; [|split; [|split; [|split]]]]; simpl.
    + split_and!; simpl; rewrite ?Hpaths; try done.
      * by apply placed_replace with (BNode existing).
      * by apply owned_set.
    + by split_and!.
    + split; apply grown_map_refl.
    + by split.
    + rewrite Hpaths. apply elem_of_node_paths.
      exists (NodeDef.name d), (BNode existing). split; [by eapply alist_get_elem|].
      apply andb_true_iff in Hex as [_ Hp%bool_decide_eq_true]. simpl.
      rewrite Hp, Hpath. by left.
    + by rewrite Hpaths.
  - pose proof (fresh_path _ _ _ [] Hpl Hget) as Hfresh. rewrite <- Hpath in Hfresh.
    assert (NodeDef.path d ∉ outside ++ node_paths (BaseGraph._items self)) as Hfresh'.
    { rewrite elem_of_app. intros [Hq|Hq]; [|done]. apply (Hout _ Hq).
      rewrite Hpath. by apply prefix_app_r. }
    pose proof (grounded_absent _ _ _ Hgd Hfresh') as Hd.
    pose proof (grounded_absent _ _ _ Hgu Hfresh') as Hu.
    assert (Hpaths : forall q, q ∈ node_paths (BaseGraph._items self) ->
              q ∈ node_paths (alist_set (NodeDef.name d) (BNode d) (BaseGraph._items self))).
    { intros q Hq. rewrite node_paths_add by done. apply elem_of_app. by left. }
    assert (Hnew : NodeDef.path d
                   ∈ node_paths (alist_set (NodeDef.name d) (BNode d) (BaseGraph._items self))).
    { rewrite node_paths_add by done. apply elem_of_app. right. by left. }
    assert (Hgrounded : forall edges,
              grounded (outside ++ node_paths (BaseGraph._items self)) edges ->
              grounded (outside ++ node_paths (alist_set (NodeDef.name d) (BNode d)
                                                 (BaseGraph._items self)))
                       (<[NodeDef.path d := []]> edges)).
    { intros edges Hg s l. rewrite lookup_insert_Some. intros [[<- <-]|[_ Hl]].
      - split; [apply elem_of_app; by right|]. intros e He. by apply elem_of_nil in He.
      - revert s l Hl. apply grounded_ext with (outside ++ node_paths (BaseGraph._items self));
          [|done].
        intros q. rewrite !elem_of_app. intros [?|?]; [by left|right; by apply Hpaths]. }
    split; [|split; [|split; [|split; [|split]]]]; simpl.
    + split_and!; simpl; try done.
      * apply placed_add; [done..|]. simpl.
        rewrite Hpath. by rewrite !bool_decide_eq_true_2.
      * apply owned_set; [done|]. simpl. by apply bool_decide_eq_true.
      * intros s t q. by rewrite !edge_in_insert_nil.
      * by apply Hgrounded.
      * by apply Hgrounded.
    + by split_and!.
    + split; intros key l Hl; exists []; simpl; rewrite app_nil_r, lookup_insert_ne;
        congruence.
    + split; intros s e; simpl; by apply edge_in_insert_nil.
    + done.
    + done.
Qed.

(** Whatever the node specification, [_store_node] returns the graph as
    it is or stores a node definition made for this graph. *)
Lemma store_node_cases : forall item self name args kwargs g' p,
  BaseGraph._store_node self item name args kwargs = Ok (g', p) ->
  g' = self \/
  exists d, NodeDef.path d = BaseGraph._prefix self ++ [NodeDef.name d] /\
            NodeDef.owner d = BaseGraph._root self /\
            BaseGraph._store_node_def self d = Ok (g', p).
Proof.
  induction item as [d|inner IH param|func IH pargs keywords|func IH fname|c|items];
    intros self name args kwargs g' p; simpl; try done.
  - case_decide; [intros [= <- _]; by left|]. intros Hst. right.
    by exists (NodeDef.rebase d (BaseGraph._root self) (BaseGraph._prefix self)).
  - destruct args, kwargs; try done. apply IH.
  - apply IH.
  - destruct (match name with Some n => Ok n | None => BaseGraph.deduce_name c end)
      as [n|e]; [|done].
    intros H. right.
    by exists (NodeDef.__init__ (BaseGraph._root self) c (BaseGraph._prefix self) n args kwargs).
  - by case_decide.
Qed.

Lemma store_node_sound outside self item name args kwargs g' p :
  sound_in outside self -> BaseGraph._store_node self item name args kwargs = Ok (g', p) ->
  sound_in outside g' /\ same_static self g' /\ grown self g' /\ same_edges self g'.
Proof.
  intros Hs H. destruct (store_node_cases _ _ _ _ _ _ _ H) as [->|(d & Hpath & Hown & Hd)].
  - split_and!; [done|apply same_static_refl|apply grown_refl|apply same_edges_refl].
  - by destruct (store_node_def_sound outside self d g' p Hs Hpath Hown Hd)
      as (? & ? & ? & ? & _).
Qed.

Lemma vertices_of_cons self item nodes g' vs :
  BaseGraph.vertices_of self (item :: nodes) = Ok (g', vs) ->
  exists g1 p vs',
    BaseGraph._store_node self
      (match item with ItEdgeDef inner _ => inner | _ => item end) None None None
    = Ok (g1, p) /\
    BaseGraph.vertices_of g1 nodes = Ok (g', vs') /\
    vs = EdgeDef.mk p (match item with ItEdgeDef _ param => param | _ => None end) :: vs'.
Proof.
  simpl.
  destruct (BaseGraph._store_node self
              (match item with ItEdgeDef inner _ => inner | _ => item end) None None None)
    as [[g1 p]|e] eqn:E.
  - intros H. exists g1, p.
    destruct item; rewrite E in H;
      (destruct (BaseGraph.vertices_of g1 nodes) as [[g2 vs2]|e2]; [|done]);
      injection H as <- <-; by exists vs2.
  - destruct item; by rewrite E.
Qed.

Lemma vertices_of_sound : forall nodes self g' vs,
  BaseGraph.vertices_of self nodes = Ok (g', vs) -> sound self ->
  sound g' /\ same_static self g' /\ grown self g' /\ same_edges self g' /\
  length vs = length nodes.
Proof.
  induction nodes as [|item nodes IH]; intros self g' vs.
  - simpl. intros [= <- <-] Hs.
    split_and!; [done|apply same_static_refl|apply grown_refl|apply same_edges_refl|done].
  - intros H Hs. apply vertices_of_cons in H as (g1 & p & vs' & H1 & H2 & ->).
    destruct (store_node_sound _ _ _ _ _ _ _ _ Hs H1) as (Hs1 & Hst1 & Hg1 & He1).
    destruct (IH g1 g' vs' H2 Hs1) as (Hs' & Hst' & Hg' & He' & Hlen).
    split_and!; [done|by eapply same_static_trans|by eapply grown_trans
                |by eapply same_edges_trans|].
    simpl. by rewrite Hlen.
Qed.

End StoringNodes.


Section Piping.
Import Examples.

Lemma append_edge_spec (key : list string) (x : EdgeDef.t) (d d' : edge_map) :
  BaseGraph.append_edge key x d = Ok d' ->
  (exists l, d !! key = Some l /\ d' = <[key := l ++ [x]]> d) /\
  grown_map d d' /\
  (forall k, is_Some (d' !! k) <-> is_Some (d !! k)) /\
  (forall s e, edge_in d' s e <-> edge_in d s e \/ (s = key /\ e = x)).
Proof.
  unfold BaseGraph.append_edge. destruct (d !! key) as [l|] eqn:E; [|done].
  intros [= <-]. split_and!.
  - by exists l.
  - intros k l' Hl'. destruct (decide (k = key)) as [->|Hne].
    + exists [x]. rewrite lookup_insert_eq. congruence.
    + exists []. by rewrite app_nil_r, lookup_insert_ne.
  - intros k. rewrite lookup_insert_is_Some'. split; [|by right].
    intros [<-|H]; [by rewrite E|done].
  - intros s e. unfold edge_in. split.
    + intros (l' & Hl' & Hin). apply lookup_insert_Some in Hl' as [[<- <-]|[Hne Hl']].
      * apply elem_of_app in Hin as [Hin|Hin%list_elem_of_singleton]; [|by right].
        left. by exists l.
      * left. by exists l'.
    + intros [(l' & Hl' & Hin)|[-> ->]].
      * destruct (decide (s = key)) as [->|Hne].
        -- exists (l ++ [x]). rewrite lookup_insert_eq. split; [done|].
           apply elem_of_app. left. congruence.
        -- exists l'. by rewrite lookup_insert_ne.
      * exists (l ++ [x]). rewrite lookup_insert_eq. split; [done|].
        apply elem_of_app. right. by left.
Qed.

Lemma piped_downstream_nil v s e : ~ piped_downstream [v] s e.
Proof. intros (u & Hin & _). by apply elem_of_nil in Hin. Qed.

Lemma piped_upstream_nil v t e : ~ piped_upstream [v] t e.
Proof. intros (u & x & Hin & _). by apply elem_of_nil in Hin. Qed.

Lemma piped_downstream_cons v x rest s e :
  piped_downstream (v :: x :: rest) s e <->
  (s = EdgeDef.node v /\ e = x) \/ piped_downstream (x :: rest) s e.
Proof.
  unfold piped_downstream, neighbours. simpl. split.
  - intros (u & [[= -> ->]|Hin]%elem_of_cons & Hu); [by left|]. right. by exists u.
  - intros [[-> ->]|(u & Hin & Hu)].
    + exists v. split; [by left|done].
    + exists u. split; [by right|done].
Qed.

Lemma piped_upstream_cons v x rest t e :
  piped_upstream (v :: x :: rest) t e <->
  (t = EdgeDef.node x /\ e = EdgeDef.mk (EdgeDef.node v) (EdgeDef.param x))
  \/ piped_upstream (x :: rest) t e.
Proof.
  unfold piped_upstream, neighbours. simpl. split.
  - intros (u & y & [[= -> ->]|Hin]%elem_of_cons & Hy & He); [by left|].
    right. by exists u, y.
  - intros [[-> ->]|(u & y & Hin & Hy & He)].
    + exists v, x. split; [by left|done].
    + exists u, y. split; [by right|done].
Qed.

(** The second loop of [_pipe]: the edge lists only grow, at the end, and
    the edges afterwards are the old ones and one per pair of neighbours
    with its mirror. *)
Lemma connect_spec : forall vs self v g',
  BaseGraph.connect self v vs = Ok g' ->
  same_items self g' /\ grown self g' /\
  (forall s e, edge_in (BaseGraph._downstream g') s e <->
     edge_in (BaseGraph._downstream self) s e \/ piped_downstream (v :: vs) s e) /\
  (forall t e, edge_in (BaseGraph._upstream g') t e <->
     edge_in (BaseGraph._upstream self) t e \/ piped_upstream (v :: vs) t e) /\
  (forall k, is_Some (BaseGraph._downstream g' !! k) <->
             is_Some (BaseGraph._downstream self !! k)) /\
  (forall k, is_Some (BaseGraph._upstream g' !! k) <->
             is_Some (BaseGraph._upstream self !! k)).
Proof.
  induction vs as [|x rest IH]; intros self v g'; simpl.
  - intros [= <-]. split; [split; [done|apply same_static_refl]|].
    split; [apply grown_refl|]. split; [|split; [|by split]].
    + intros s e. split; [by left|]. intros [H|H]; [done|].
      by apply piped_downstream_nil in H.
    + intros t e. split; [by left|]. intros [H|H]; [done|].
      by apply piped_upstream_nil in H.
  - destruct (BaseGraph.append_edge (EdgeDef.node v) x (BaseGraph._downstream self))
      as [down|e] eqn:Ed; [|done].
    destruct (BaseGraph.append_edge (EdgeDef.node x) _ (BaseGraph._upstream self))
      as [up|e] eqn:Eu; [|done].
    intros Hc. destruct (IH _ _ _ Hc) as ((Hi & Hst) & [Hg1 Hg2] & Hd & Hu & Hkd & Hku).
    apply append_edge_spec in Ed as (_ & Hgd & Hkd0 & Hd0).
    apply append_edge_spec in Eu as (_ & Hgu & Hku0 & Hu0).
    simpl in *. split; [|split; [|split; [|split; [|split]]]].
    + split; [done|]. destruct Hst as (? & ? & ?). by split_and!.
    + split; by eapply grown_map_trans.
    + intros s e. rewrite Hd, Hd0, piped_downstream_cons. tauto.
    + intros t e. rewrite Hu, Hu0, piped_upstream_cons. tauto.
    + intros k. by rewrite Hkd, Hkd0.
    + intros k. by rewrite Hku, Hku0.
Qed.

Lemma edge_in_key edges s e : edge_in edges s e -> is_Some (edges !! s).
Proof. intros (l & -> & _). eauto. Qed.

Lemma grounded_key paths edges s : grounded paths edges -> is_Some (edges !! s) -> s ∈ paths.
Proof. intros Hg [l Hl]. by destruct (Hg s l Hl). Qed.

Lemma connect_sound outside vs self v g' :
  sound_in outside self -> BaseGraph.connect self v vs = Ok g' -> sound_in outside g'.
Proof.
  intros (Hpl & Hown & Hm & Hgd & Hgu & Hout) Hc.
  destruct (connect_spec _ _ _ _ Hc) as ((Hi & Hr & Hp & _) & _ & Hd & Hu & Hkd & Hku).
  assert (Hdown : forall s e, piped_downstream (v :: vs) s e ->
            piped_upstream (v :: vs) (EdgeDef.node e)
              (EdgeDef.mk s (EdgeDef.param e))).
  { intros s e (u & Hin & <-). by exists u, e. }
  assert (Hup : forall t e, piped_upstream (v :: vs) t e ->
            exists x, EdgeDef.node x = t /\ EdgeDef.param x = EdgeDef.param e /\
                      piped_downstream (v :: vs) (EdgeDef.node e) x).
  { intros t e (u & x & Hin & <- & ->). exists x. split; [done|]. split; [done|].
    by exists u. }
  unfold sound_in. rewrite Hi, Hp, Hr. split; [done|]. split; [done|].
  split; [|split; [|split; [|done]]].
  - intros s t p. rewrite Hd, Hu, (Hm s t p). split.
    + intros [H|H]; [by left|]. right. by apply Hdown in H.
    + intros [H|H]; [by left|]. right.
      apply Hup in H as ([t' p'] & Ht & Hp' & H). simpl in *. by subst.
  - intros s l Hl. split.
    + apply (grounded_key _ _ _ Hgd), Hkd. by rewrite Hl.
    + intros e He. assert (edge_in (BaseGraph._downstream g') s e) as Hin by by exists l.
      apply Hd in Hin as [(l0 & Hl0 & Hin)|Hin].
      * destruct (Hgd s l0 Hl0) as [_ Hrefs]. by apply Hrefs.
      * apply Hdown in Hin.
        assert (edge_in (BaseGraph._upstream g') (EdgeDef.node e)
                  (EdgeDef.mk s (EdgeDef.param e))) as Hin' by (apply Hu; by right).
        apply edge_in_key, Hku in Hin'. by apply (grounded_key _ _ _ Hgu).
  - intros t l Hl. split.
    + apply (grounded_key _ _ _ Hgu), Hku. by rewrite Hl.
    + intros e He. assert (edge_in (BaseGraph._upstream g') t e) as Hin by by exists l.
      apply Hu in Hin as [(l0 & Hl0 & Hin)|Hin].
      * destruct (Hgu t l0 Hl0) as [_ Hrefs]. by apply Hrefs.
      * apply Hup in Hin as (x & _ & _ & Hin).
        assert (edge_in (BaseGraph._downstream g') (EdgeDef.node e) x) as Hin'
          by (apply Hd; by right).
        apply edge_in_key, Hkd in Hin'. by apply (grounded_key _ _ _ Hgd).
Qed.

Lemma pipe_sound self nodes g' :
  sound self -> BaseGraph._pipe self nodes = Ok g' -> sound g' /\ grown self g'.
Proof.
  intros Hs. unfold BaseGraph._pipe.
  destruct (BaseGraph.vertices_of self nodes) as [[g1 vs]|e] eqn:Ev; [|done].
  destruct (vertices_of_sound _ _ _ _ Ev Hs) as (Hs1 & _ & Hg1 & _).
  destruct vs as [|v vs]; [by intros [= <-]|]. intros Hc. split.
  - by eapply connect_sound.
  - eapply grown_trans; [done|]. by destruct (connect_spec _ _ _ _ Hc) as (_ & ? & _).
Qed.

Lemma fold_pipe_sound (step : BaseGraph.t -> pyitem -> list pyitem) :
  forall l self g',
    sound self ->
    foldl (fun acc x =>
             match acc with
             | Raise e => Raise e
             | Ok g => BaseGraph._pipe g (step g x)
             end) (Ok self) l = Ok g' ->
    sound g' /\ grown self g'.
Proof.
  induction l as [|x l IH]; intros self g' Hs; simpl.
  - intros [= <-]. split; [done|apply grown_refl].
  - destruct (BaseGraph._pipe self (step self x)) as [g1|e] eqn:E1.
    + destruct (pipe_sound _ _ _ Hs E1) as [Hs1 Hg1]. intros Hfold.
      destruct (IH g1 g' Hs1 Hfold) as [Hs' Hg']. split; [done|by eapply grown_trans].
    + by rewrite fold_raise.
Qed.

Lemma sound_empty fresh : sound (BaseGraph.__init__ [] ∅ ∅ fresh false).
Proof. apply soundb_sound. reflexivity. Qed.

Lemma store_snode_sound self item name g' :
  sound self -> BaseGraph._store self (BaseGraph.SNode item) name = Ok g' ->
  sound g' /\ grown self g'.
Proof.
  intros Hs. simpl.
  destruct (BaseGraph._store_node self item name None None) as [[g1 p]|e] eqn:E; [|done].
  intros [= <-]. by destruct (store_node_sound _ _ _ _ _ _ _ _ Hs E) as (? & _ & ? & _).
Qed.

(** Blueprints built from nodes are sound.  The empty graph is sound, and
    storing a node, [pipe], [join] and [fan] lead from a sound blueprint to a
    sound one, in which every edge list that was there is still there, with
    any new entries after the old ones.  So a blueprint made with [Graph]
    from nodes or with the module-level [pipe], and piped further, mentions
    in its edge maps only its own nodes, each edge in both maps. *)
Theorem piping_keeps_blueprints_sound (self : BaseGraph.t) :
  sound self ->
  (forall item name g',
     BaseGraph._store self (BaseGraph.SNode item) name = Ok g' ->
     sound g' /\ grown self g') /\
  (forall nodes g', BaseGraph.pipe self nodes = Ok g' -> sound g' /\ grown self g') /\
  (forall from_nodes target g',
     BaseGraph.join self from_nodes target = Ok g' -> sound g' /\ grown self g') /\
  (forall from_node targets g',
     BaseGraph.fan self from_node targets = Ok g' -> sound g' /\ grown self g') /\
  (forall fresh nodes g', pipe fresh nodes = Ok g' -> sound g').
Proof.
  intros Hs. split_and!.
  - intros item name g'. by apply store_snode_sound.
  - intros nodes g'. unfold BaseGraph.pipe. case_decide; [done|]. by apply pipe_sound.
  - intros from_nodes target g'.
    exact (fold_pipe_sound (fun _ from_node => [from_node; target]) from_nodes self g' Hs).
  - intros from_node targets g'.
    exact (fold_pipe_sound (fun _ target => [from_node; target]) targets self g' Hs).
  - intros fresh nodes g'. unfold pipe. case_decide.
    + simpl. destruct nodes as [|x [|y nodes]]; done.
    + simpl. intros Hpipe. by destruct (pipe_sound _ _ _ (sound_empty fresh) Hpipe).
Qed.

Lemma piping_keeps_blueprints_sound_witness :
  sound ab_graph /\
  is_ok (BaseGraph.pipe ab_graph [ItCallable Fixtures.c; ItNodeDef (def_at ab_graph "a")])
  = true /\
  sound (graph_of (BaseGraph.pipe ab_graph
                     [ItCallable Fixtures.c; ItNodeDef (def_at ab_graph "a")])).
Proof.
  assert (sound ab_graph) as Hs.
  { apply soundb_sound. vm_compute. reflexivity. }
  assert (is_ok (BaseGraph.pipe ab_graph
                   [ItCallable Fixtures.c; ItNodeDef (def_at ab_graph "a")]) = true) as Hok
    by (vm_compute; reflexivity).
  split; [exact Hs|]. split; [exact Hok|].
  destruct (is_ok_inv _ Hok) as [g' E]. rewrite E. cbn [graph_of].
  destruct (piping_keeps_blueprints_sound ab_graph Hs) as (_ & H & _).
  exact (proj1 (H _ g' E)).
Defined.

End Piping.


Section PipedEdges.
Import Examples MoreExamples.

Lemma store_node_def_path self d g' p :
  BaseGraph._store_node_def self d = Ok (g', p) -> p = NodeDef.path d.
Proof.
  unfold BaseGraph._store_node_def.
  destruct (alist_get _ _) as [[?|? ?]|]; [|done|]; by intros [= _ <-].
Qed.

Lemma vertices_of_vertices : forall nodes self g' vs,
  BaseGraph.vertices_of self nodes = Ok (g', vs) -> sound self ->
  Forall2 (vertex_for (BaseGraph._root self) (BaseGraph._prefix self)) nodes vs.
Proof.
  induction nodes as [|item nodes IH]; intros self g' vs.
  - simpl. intros [= _ <-] _. constructor.
  - intros Hv Hs. apply vertices_of_cons in Hv as (g1 & p & vs' & H1 & H2 & ->).
    destruct (store_node_sound _ _ _ _ _ _ _ _ Hs H1) as (Hs1 & (Hroot & Hprefix & _) & _).
    constructor.
    + split; [done|]. split; simpl.
      * intros d Hd Hown. unfold addressed_node in Hd. rewrite Hd in H1. simpl in H1.
        rewrite decide_True in H1 by done. by injection H1 as _ <-.
      * intros c n Hc Hn. unfold addressed_node in Hc. rewrite Hc in H1. simpl in H1.
        rewrite Hn in H1.
        by apply store_node_def_path in H1 as ->.
    + rewrite <- Hroot, <- Hprefix. by eapply IH.
Qed.

Lemma kept_or_emptied_refl e : kept_or_emptied e e.
Proof. intros key. by left. Qed.

Lemma kept_or_emptied_trans e1 e2 e3 :
  kept_or_emptied e1 e2 -> kept_or_emptied e2 e3 -> kept_or_emptied e1 e3.
Proof. intros H1 H2 key. destruct (H2 key) as [->| ->]; [apply H1|by right]. Qed.

Lemma emptied_refl g : emptied g g.
Proof. split; apply kept_or_emptied_refl. Qed.

Lemma emptied_trans g1 g2 g3 : emptied g1 g2 -> emptied g2 g3 -> emptied g1 g3.
Proof. intros [H1 H2] [H3 H4]. split; by eapply kept_or_emptied_trans. Qed.

(** Storing a node definition touches no edge list, or makes empty ones. *)
Lemma store_node_def_emptied self d g p :
  BaseGraph._store_node_def self d = Ok (g, p) -> emptied self g.
Proof.
  unfold BaseGraph._store_node_def.
  destruct (alist_get (NodeDef.name d) (BaseGraph._items self)) as [[d0|p0 its]|];
    [|done|]; intros [= <- <-].
  - split; intros key; by left.
  - split; intros key; simpl;
      (destruct (decide (key = NodeDef.path d)) as [->|Hne];
       [right; apply lookup_insert_eq|left; by apply lookup_insert_ne]).
Qed.

Lemma store_node_emptied self item name args kwargs g' p :
  BaseGraph._store_node self item name args kwargs = Ok (g', p) -> emptied self g'.
Proof.
  intros H. destruct (store_node_cases _ _ _ _ _ _ _ H) as [->|(d & _ & _ & Hd)].
  - apply emptied_refl.
  - by eapply store_node_def_emptied.
Qed.

Lemma vertices_of_emptied : forall nodes self g' vs,
  BaseGraph.vertices_of self nodes = Ok (g', vs) -> emptied self g'.
Proof.
  induction nodes as [|item nodes IH]; intros self g' vs.
  - simpl. intros [= <- _]. apply emptied_refl.
  - intros Hv. apply vertices_of_cons in Hv as (g1 & p & vs' & H1 & H2 & _).
    eapply emptied_trans; [by eapply store_node_emptied|by eapply IH].
Qed.

(** Lists that may only grow, in a map whose lists are kept or emptied,
    are kept; and the new ones are empty. *)
Lemma grown_emptied_same (e e' : edge_map) :
  grown_map e e' -> kept_or_emptied e e' ->
  (forall k l, e !! k = Some l -> e' !! k = Some l) /\
  (forall k l', e !! k = None -> e' !! k = Some l' -> l' = []).
Proof.
  intros Hg Hk. split.
  - intros k l Hl. destruct (Hg k l Hl) as [l' Hl'].
    destruct (Hk k) as [Hk1|Hk1]; [congruence|].
    rewrite Hl' in Hk1. injection Hk1 as Hk1. apply app_eq_nil in Hk1 as [-> ->].
    by rewrite Hl'.
  - intros k l' Hn Hl'. destruct (Hk k) as [Hk1|Hk1]; congruence.
Qed.

Lemma lists_appended_intro (appended : list string -> list EdgeDef.t)
    (e e1 e' : edge_map) :
  grown_map e e1 -> kept_or_emptied e e1 ->
  (forall k, e' !! k = (fun l => l ++ appended k) <$> e1 !! k) ->
  lists_appended appended e e'.
Proof.
  intros Hg Hk He. destruct (grown_emptied_same _ _ Hg Hk) as [Hs1 Hs2]. split.
  - intros k l Hl. by rewrite He, (Hs1 _ _ Hl).
  - intros k l' Hn. rewrite He. destruct (e1 !! k) as [l1|] eqn:E1; [|done]. simpl.
    intros [= <-]. by rewrite (Hs2 _ _ Hn E1).
Qed.

Lemma appended_downstream_cons v x rest k :
  appended_downstream (v :: x :: rest) k =
  (if decide (EdgeDef.node v = k) then [x] else []) ++ appended_downstream (x :: rest) k.
Proof.
  unfold appended_downstream, neighbours. simpl. by destruct (decide (EdgeDef.node v = k)).
Qed.

Lemma appended_upstream_cons v x rest k :
  appended_upstream (v :: x :: rest) k =
  (if decide (EdgeDef.node x = k)
   then [EdgeDef.mk (EdgeDef.node v) (EdgeDef.param x)] else [])
  ++ appended_upstream (x :: rest) k.
Proof.
  unfold appended_upstream, neighbours. simpl. by destruct (decide (EdgeDef.node x = k)).
Qed.

(** The second loop of [_pipe], list by list: every list gets the entries
    of its key appended, in the order of the vertices. *)
Lemma connect_lists : forall vs self v g',
  BaseGraph.connect self v vs = Ok g' ->
  (forall k, BaseGraph._downstream g' !! k =
             (fun l => l ++ appended_downstream (v :: vs) k)
               <$> BaseGraph._downstream self !! k) /\
  (forall k, BaseGraph._upstream g' !! k =
             (fun l => l ++ appended_upstream (v :: vs) k)
               <$> BaseGraph._upstream self !! k).
Proof.
  induction vs as [|x rest IH]; intros self v g'; simpl.
  - intros [= <-]. unfold appended_downstream, appended_upstream, neighbours. simpl.
    split; intros k.
    + destruct (BaseGraph._downstream self !! k); simpl; [by rewrite app_nil_r|done].
    + destruct (BaseGraph._upstream self !! k); simpl; [by rewrite app_nil_r|done].
  - destruct (BaseGraph.append_edge (EdgeDef.node v) x (BaseGraph._downstream self))
      as [down|e] eqn:Ed; [|done].
    destruct (BaseGraph.append_edge (EdgeDef.node x) _ (BaseGraph._upstream self))
      as [up|e] eqn:Eu; [|done].
    intros Hc. destruct (IH _ _ _ Hc) as [Hd Hu]. simpl in Hd, Hu.
    apply append_edge_spec in Ed as ((ld & Hld & ->) & _).
    apply append_edge_spec in Eu as ((lu & Hlu & ->) & _).
    split; intros k.
    + rewrite Hd, appended_downstream_cons.
      destruct (decide (EdgeDef.node v = k)) as [<-|Hne].
      * rewrite lookup_insert_eq, Hld. simpl. by rewrite <- app_assoc.
      * by rewrite lookup_insert_ne.
    + rewrite Hu, appended_upstream_cons.
      destruct (decide (EdgeDef.node x = k)) as [<-|Hne].
      * rewrite lookup_insert_eq, Hlu. simpl. by rewrite <- app_assoc.
      * by rewrite lookup_insert_ne.
Qed.

(** What [pipe] does to the edges.  On a sound blueprint, a successful
    [pipe] makes one vertex of each argument, in order.  Every edge list
    that was there has afterwards, appended in the order of the vertices
    and whether or not it held them already, one entry per pair of a vertex
    and its successor: in the downstream map the successor under the path of
    the vertex, in the upstream map the vertex under the path of the
    successor, both with the parameter the successor was addressed with; a
    list under a new key holds such entries only.  So the edges afterwards
    are exactly the edges before and those of the pairs of neighbours. *)
Theorem pipe_adds_neighbour_edges (self : BaseGraph.t) (nodes : list pyitem)
    (g' : BaseGraph.t) :
  sound self -> BaseGraph.pipe self nodes = Ok g' ->
  exists vs,
    Forall2 (vertex_for (BaseGraph._root self) (BaseGraph._prefix self)) nodes vs /\
    lists_appended (appended_downstream vs)
      (BaseGraph._downstream self) (BaseGraph._downstream g') /\
    lists_appended (appended_upstream vs)
      (BaseGraph._upstream self) (BaseGraph._upstream g') /\
    (forall s e, edge_in (BaseGraph._downstream g') s e <->
       edge_in (BaseGraph._downstream self) s e \/ piped_downstream vs s e) /\
    (forall t e, edge_in (BaseGraph._upstream g') t e <->
       edge_in (BaseGraph._upstream self) t e \/ piped_upstream vs t e).
Proof.
  intros Hs. unfold BaseGraph.pipe. case_decide as Hlen; [done|]. unfold BaseGraph._pipe.
  destruct (BaseGraph.vertices_of self nodes) as [[g1 vs]|e] eqn:Ev; [|done].
  destruct (vertices_of_sound _ _ _ _ Ev Hs) as (_ & _ & [Hgd Hgu] & [Hd1 Hu1] & Hl).
  destruct (vertices_of_emptied _ _ _ _ Ev) as [Hkd Hku].
  pose proof (vertices_of_vertices _ _ _ _ Ev Hs) as Hvs.
  destruct vs as [|v vs]; [simpl in Hl; lia|]. intros Hc.
  destruct (connect_spec _ _ _ _ Hc) as (_ & _ & Hd & Hu & _).
  destruct (connect_lists _ _ _ _ Hc) as [Hld Hlu].
  exists (v :: vs). split; [done|].
  split; [by eapply lists_appended_intro|].
  split; [by eapply lists_appended_intro|]. split.
  - intros s e. by rewrite Hd, Hd1.
  - intros t e. by rewrite Hu, Hu1.
Qed.

(** [g.pipe(g.a, g.b.fudge)], where [g.b.fudge] is an edge descriptor and
    [g.b.args] is not. *)
Lemma pipe_adds_neighbour_edges_witness :
  sound plain_graph /\
  node_getattr (def_at plain_graph "b") "fudge"
    = Some (ItEdgeDef (ItNodeDef (def_at plain_graph "b")) (Some "fudge")) /\
  node_getattr (def_at plain_graph "b") "args" = None /\
  BaseGraph._downstream fudge_graph !! ["a"] = Some [EdgeDef.mk ["b"] (Some "fudge")] /\
  BaseGraph._upstream fudge_graph !! ["b"] = Some [EdgeDef.mk ["a"] (Some "fudge")].
Proof.
  assert (sound plain_graph) as Hs.
  { apply soundb_sound. vm_compute. reflexivity. }
  assert (is_ok (BaseGraph.pipe plain_graph
                   [ItNodeDef (def_at plain_graph "a");
                    ItEdgeDef (ItNodeDef (def_at plain_graph "b")) (Some "fudge")]) = true)
    as Hok by (vm_compute; reflexivity).
  assert (NodeDef.owner (def_at plain_graph "a") = BaseGraph._root plain_graph /\
          NodeDef.owner (def_at plain_graph "b") = BaseGraph._root plain_graph /\
          NodeDef.path (def_at plain_graph "a") = ["a"] /\
          NodeDef.path (def_at plain_graph "b") = ["b"]) as (Hoa & Hob & Hpa & Hpb)
    by (vm_compute; auto).
  assert (BaseGraph._downstream plain_graph !! ["a"] = Some [] /\
          BaseGraph._upstream plain_graph !! ["b"] = Some []) as [Hda Hub]
    by (vm_compute; auto).
  split; [exact Hs|]. split; [reflexivity|]. split; [reflexivity|].
  destruct (is_ok_inv _ Hok) as [g' E].
  change fudge_graph
    with (graph_of (BaseGraph.pipe plain_graph
                      [ItNodeDef (def_at plain_graph "a");
                       ItEdgeDef (ItNodeDef (def_at plain_graph "b")) (Some "fudge")])).
  rewrite E. cbn [graph_of].
  destruct (pipe_adds_neighbour_edges plain_graph _ g' Hs E)
    as (vs & Hvs & [Hd _] & [Hu _] & _).
  apply Forall2_cons_inv_l in Hvs as (va & vs1 & (Hpa' & Hna & _) & Hvs & ->).
  apply Forall2_cons_inv_l in Hvs as (vb & vs2 & (Hpb' & Hnb & _) & Hvs & ->).
  apply Forall2_nil_inv_l in Hvs as ->.
  specialize (Hna _ eq_refl Hoa). specialize (Hnb _ eq_refl Hob).
  rewrite Hpa in Hna. rewrite Hpb in Hnb.
  destruct va as [na pa], vb as [nb pb].
  cbn [EdgeDef.node EdgeDef.param addressed_param] in Hpa', Hpb', Hna, Hnb.
  subst na nb pa pb.
  split.
  - rewrite (Hd ["a"] [] Hda). reflexivity.
  - rewrite (Hu ["b"] [] Hub). reflexivity.
Defined.

End PipedEdges.


(** * Merging blueprints, soundly *)

Section Views.

Lemma node_paths_sub p items : node_paths_item (BSub p items) = node_paths items.
Proof. done. Qed.

(** The paths of a tree: those below the item stored under [key], and the
    others. *)
Lemma node_paths_get key items q :
  NoDup items.*1 ->
  q ∈ node_paths items <->
  (exists it, alist_get key items = Some it /\ q ∈ node_paths_item it) \/
  q ∈ node_paths (filter (fun kv => kv.1 <> key) items).
Proof.
  induction items as [|[k v] items IH]; intros Hnd.
  - simpl. split; [intros H; by apply elem_of_nil in H|].
    intros [(it & [=] & _)|H]; by apply elem_of_nil in H.
  - simpl in Hnd. apply NoDup_cons in Hnd as [Hk Hnd]. specialize (IH Hnd).
    rewrite node_paths_cons, elem_of_app, IH. simpl.
    destruct (decide (key = k)) as [->|Hne].
    + rewrite filter_cons_False by naive_solver.
      assert (alist_get k items = None) as Hnone by by apply alist_get_None.
      rewrite Hnone. split.
      * intros [H|[(it & [=] & _)|H]]; [left; by exists v|by right].
      * intros [(it & [= <-] & H)|H]; [by left|right; by right].
    + rewrite filter_cons_True by naive_solver.
      rewrite node_paths_cons, elem_of_app. tauto.
Qed.

Lemma node_paths_alist_set key v items q :
  NoDup items.*1 ->
  q ∈ node_paths (alist_set key v items) <->
  q ∈ node_paths_item v \/ q ∈ node_paths (filter (fun kv => kv.1 <> key) items).
Proof.
  induction items as [|[k v'] items IH]; intros Hnd.
  - simpl. rewrite node_paths_cons, elem_of_app. done.
  - simpl in Hnd. apply NoDup_cons in Hnd as [Hk Hnd]. specialize (IH Hnd). simpl.
    destruct (decide (key = k)) as [->|Hne].
    + rewrite filter_cons_False by naive_solver.
      rewrite node_paths_cons, elem_of_app.
      assert (filter (fun kv : string * bitem => kv.1 <> k) items = items) as ->; [|done].
      clear IH Hnd. induction items as [|[k2 v2] items IH2]; [done|].
      simpl in Hk. apply not_elem_of_cons in Hk as [Hk2 Hk].
      rewrite filter_cons_True by (simpl; intros ->; by apply Hk2).
      by rewrite IH2.
    + rewrite filter_cons_True by naive_solver.
      rewrite !node_paths_cons, !elem_of_app, IH. tauto.
Qed.

(** The other items of a placed tree have no path below [prefix ++ [key]]. *)
Lemma rest_paths_outside prefix items key q :
  placed prefix items = true ->
  q ∈ node_paths (filter (fun kv => kv.1 <> key) items) ->
  ~ (prefix ++ [key]) `prefix_of` q.
Proof.
  unfold placed. rewrite andb_true_iff, forallb_elem. intros [_ Hall] Hq [r Hr].
  apply elem_of_node_paths in Hq as (k & it & Hkv & Hp).
  apply list_elem_of_filter in Hkv as [Hne Hkv]. simpl in Hne.
  destruct (placed_item_paths it prefix k _ (Hall _ Hkv) Hp) as [q' Hq'].
  rewrite Hq' in Hr. rewrite <- app_assoc in Hr. apply app_inv_head in Hr. simpl in Hr. congruence.
Qed.

Lemma placed_sub prefix key p items :
  placed_item prefix key (BSub p items) = true <->
  p = prefix ++ [key] /\ placed p items = true.
Proof.
  simpl. unfold placed. rewrite !andb_true_iff, !bool_decide_eq_true. tauto.
Qed.

Lemma placed_set prefix k v items :
  placed prefix items = true -> placed_item prefix k v = true ->
  placed prefix (alist_set k v items) = true.
Proof.
  intros Hpl Hv. destruct (alist_get k items) as [old|] eqn:E.
  - by apply placed_replace with old.
  - by apply placed_add.
Qed.

Lemma placed_NoDup prefix items : placed prefix items = true -> NoDup items.*1.
Proof. unfold placed. rewrite andb_true_iff, bool_decide_eq_true. tauto. Qed.

(** Seen from the sub-graph stored (or about to be stored) under [key], a
    sound blueprint is sound, the other items now being outside. *)
Lemma sound_in_view outside target key p items0 :
  sound_in outside target ->
  alist_get key (BaseGraph._items target) = Some (BSub p items0) \/
  (alist_get key (BaseGraph._items target) = None /\
   p = BaseGraph._prefix target ++ [key] /\ items0 = []) ->
  p = BaseGraph._prefix target ++ [key] /\
  sound_in (outside ++ node_paths (filter (fun kv => kv.1 <> key) (BaseGraph._items target)))
           (BaseGraph.view target p items0) /\
  (forall q, q ∈ node_paths items0 -> q ∈ node_paths (BaseGraph._items target)).
Proof.
  intros (Hpl & Hown & Hm & Hgd & Hgu & Hout) Hcase.
  pose proof (placed_NoDup _ _ Hpl) as Hnd.
  assert (p = BaseGraph._prefix target ++ [key] /\ placed p items0 = true /\
          owned (BaseGraph._root target) items0 = true /\
          (forall q, q ∈ node_paths items0 -> q ∈ node_paths (BaseGraph._items target)) /\
          (forall q, q ∈ node_paths (BaseGraph._items target) ->
             q ∈ node_paths items0 \/
             q ∈ node_paths (filter (fun kv => kv.1 <> key) (BaseGraph._items target))))
    as (Hp & Hpl0 & Hown0 & Hsub & Hsplit).
  { destruct Hcase as [Hget|(Hget & -> & ->)].
    - pose proof (placed_lookup _ _ _ _ Hpl Hget) as [-> Hpl0]%placed_sub.
      pose proof (owned_lookup _ _ _ _ Hown Hget) as Hown0.
      split_and!; try done.
      + intros q Hq. apply (node_paths_get key _ q Hnd). left. by eexists.
      + intros q Hq. apply (node_paths_get key _ q Hnd) in Hq as [(it & Hit & Hq)|Hq];
          [|by right].
        rewrite Hget in Hit. injection Hit as <-. by left.
    - split_and!; try done.
      + intros q Hq. by apply elem_of_nil in Hq.
      + intros q Hq. apply (node_paths_get key _ q Hnd) in Hq as [(it & Hit & Hq)|Hq];
          [congruence|by right]. }
  split; [done|]. split; [|done].
  assert (Hpaths : forall q,
            q ∈ outside ++ node_paths (BaseGraph._items target) ->
            q ∈ (outside ++ node_paths (filter (fun kv => kv.1 <> key)
                                          (BaseGraph._items target))) ++ node_paths items0).
  { intros q. rewrite !elem_of_app. intros [?|Hq]; [by left; left|].
    destruct (Hsplit q Hq); [by right|left; by right]. }
  split_and!; simpl; try done.
  - by apply grounded_ext with (outside ++ node_paths (BaseGraph._items target)).
  - by apply grounded_ext with (outside ++ node_paths (BaseGraph._items target)).
  - intros q. rewrite elem_of_app. intros [Hq|Hq].
    + intros Hpre. apply (Hout q Hq). rewrite Hp in Hpre.
      destruct Hpre as [r ->]. exists ([key] ++ r). by rewrite <- app_assoc.
    + rewrite Hp. by eapply rest_paths_outside.
Qed.

(** Writing a sound sub-graph back keeps the blueprint sound. *)
Lemma sound_in_absorb outside target key sub :
  sound_in outside target ->
  BaseGraph._prefix sub = BaseGraph._prefix target ++ [key] ->
  BaseGraph._root sub = BaseGraph._root target ->
  sound_in (outside ++ node_paths (filter (fun kv => kv.1 <> key) (BaseGraph._items target)))
           sub ->
  sound_in outside (BaseGraph.absorb target key sub) /\
  (forall q, q ∈ node_paths (BaseGraph._items sub) ->
             q ∈ node_paths (BaseGraph._items (BaseGraph.absorb target key sub))) /\
  (forall q, q ∈ node_paths (filter (fun kv => kv.1 <> key) (BaseGraph._items target)) ->
             q ∈ node_paths (BaseGraph._items (BaseGraph.absorb target key sub))).
Proof.
  intros (Hpl & Hown & _ & _ & _ & Hout) Hp Hr (Hpl' & Hown' & Hm' & Hgd' & Hgu' & _).
  pose proof (placed_NoDup _ _ Hpl) as Hnd.
  assert (Hpaths : forall q,
            q ∈ (outside ++ node_paths (filter (fun kv => kv.1 <> key)
                                          (BaseGraph._items target)))
                ++ node_paths (BaseGraph._items sub) ->
            q ∈ outside ++ node_paths (alist_set key (BSub (BaseGraph._prefix sub)
                                                         (BaseGraph._items sub))
                                         (BaseGraph._items target))).
  { intros q. rewrite !elem_of_app, node_paths_alist_set, node_paths_sub by done. tauto. }
  split; [|split]; simpl.
  - split_and!; simpl; try done.
    + apply placed_set; [done|]. apply placed_sub. split; [exact Hp|exact Hpl'].
    + apply owned_set; [done|]. simpl. by rewrite <- Hr.
    + by eapply grounded_ext.
    + by eapply grounded_ext.
  - intros q Hq. rewrite node_paths_alist_set, node_paths_sub by done. by left.
  - intros q Hq. rewrite node_paths_alist_set by done. by right.
Qed.

End Views.


Section CopyingStructure.

Lemma merged_into_refl outside target : sound_in outside target -> merged_into outside target target.
Proof.
  intros Hs. split_and!; [done|apply same_static_refl|apply same_edges_refl
                         |apply grown_refl|done].
Qed.

Lemma merged_into_trans outside t1 t2 t3 :
  merged_into outside t1 t2 -> merged_into outside t2 t3 -> merged_into outside t1 t3.
Proof.
  intros (_ & Hst1 & He1 & Hg1 & Hm1) (Hs & Hst2 & He2 & Hg2 & Hm2).
  split_and!; [done|by eapply same_static_trans|by eapply same_edges_trans
              |by eapply grown_trans|auto].
Qed.

Lemma copy_fold_merged (sitems : list (string * bitem)) :
  Forall (fun kv => copies kv.2) sitems ->
  forall tgt tgt' outside Ps rs prefix,
    forallb (fun kv => placed_item Ps kv.1 kv.2) sitems = true ->
    forallb (fun kv => owned_item rs kv.2) sitems = true ->
    rs <> BaseGraph._root tgt -> prefix = BaseGraph._prefix tgt ->
    sound_in outside tgt ->
    foldl (fun acc kv =>
             match acc with
             | Raise e => Raise e
             | Ok g => BaseGraph.copy_item kv.2 kv.1 g prefix
             end) (Ok tgt) sitems = Ok tgt' ->
    merged_into outside tgt tgt' /\
    forall q, Ps ++ q ∈ node_paths sitems ->
              BaseGraph._prefix tgt ++ q ∈ node_paths (BaseGraph._items tgt').
Proof.
  induction sitems as [|[k v] sitems IHl]; intros Hall tgt tgt' outside Ps rs prefix;
    simpl.
  - intros _ _ _ _ Hs [= <-]. split; [by apply merged_into_refl|].
    intros q Hq. by apply elem_of_nil in Hq.
  - apply Forall_cons in Hall as [Hv Hrest]. simpl in Hv.
    rewrite !andb_true_iff. intros [Hpv Hpl] [Hov Hown] Hrs Hprefix Hs.
    destruct (BaseGraph.copy_item v k tgt prefix) as [t1|e] eqn:E1;
      [|by rewrite fold_raise].
    destruct (Hv k tgt prefix t1 outside Ps rs Hpv Hov Hrs Hprefix Hs E1)
      as [Hm1 Hnew1].
    pose proof Hm1 as (Hs1 & (Hroot & Hpre & _) & _ & _ & _).
    intros Hfold.
    destruct (IHl Hrest t1 tgt' outside Ps rs prefix Hpl Hown) as [Hm2 Hnew2];
      [congruence|congruence|done|done|].
    split; [by eapply merged_into_trans|].
    intros q. rewrite node_paths_cons, elem_of_app. intros [Hq|Hq].
    + destruct Hm2 as (_ & _ & _ & _ & Hmono). by apply Hmono, Hnew1.
    + rewrite <- Hpre. by apply Hnew2.
Qed.

Lemma copy_item_copies : forall item, copies item.
Proof.
  apply (bitem_ind' copies).
  - intros d key target prefix target' outside Ps rs Hpl Hown Hrs -> Hs. simpl in *.
    apply andb_true_iff in Hpl as [Hname%bool_decide_eq_true Hpath%bool_decide_eq_true].
    apply bool_decide_eq_true in Hown.
    rewrite decide_False by congruence.
    destruct (BaseGraph._store_node_def target _) as [[g p]|e] eqn:E; [|done].
    intros [= <-].
    destruct (store_node_def_sound outside target
                (NodeDef.rebase d (BaseGraph._root target) (BaseGraph._prefix target))
                g p Hs eq_refl eq_refl E)
      as (Hs' & Hst & Hg & He & Hin & Hmono).
    split; [by split_and!|].
    intros q Hq%list_elem_of_singleton. rewrite Hpath in Hq. apply app_inv_head in Hq as ->.
    simpl in Hin. by rewrite Hname in Hin.
  - intros sp sitems IH key target prefix target' outside Ps rs Hpl Hown Hrs -> Hs.
    apply placed_sub in Hpl as [-> Hpl]. unfold placed in Hpl.
    apply andb_true_iff in Hpl as [_ Hpl]. simpl in Hown.
    assert (Hview : forall p items0 sub,
              alist_get key (BaseGraph._items target) = Some (BSub p items0) \/
              (alist_get key (BaseGraph._items target) = None /\
               p = BaseGraph._prefix target ++ [key] /\ items0 = []) ->
              foldl (fun acc kv =>
                       match acc with
                       | Raise e => Raise e
                       | Ok g => BaseGraph.copy_item kv.2 kv.1 g
                                   (BaseGraph._prefix target ++ [key])
                       end) (Ok (BaseGraph.view target p items0)) sitems = Ok sub ->
              merged_into outside target (BaseGraph.absorb target key sub) /\
              forall q, Ps ++ q ∈ node_paths sitems ->
                BaseGraph._prefix target ++ q
                ∈ node_paths (BaseGraph._items (BaseGraph.absorb target key sub))).
    { intros p items0 sub Hcase Hfold.
      destruct (sound_in_view outside target key p items0 Hs Hcase) as (Hp & Hsv & Hsub0).
      destruct (copy_fold_merged sitems IH (BaseGraph.view target p items0) sub _
                  (Ps ++ [key]) rs _ Hpl Hown Hrs (eq_sym Hp) Hsv Hfold)
        as ((Hs' & (Hroot & Hpre & _) & [Hed Heu] & [Hgd Hgu] & Hmono) & Hnew).
      simpl in Hroot, Hpre, Hed, Heu, Hgd, Hgu, Hmono, Hnew.
      destruct (sound_in_absorb outside target key sub Hs) as (Habs & Hin_sub & Hin_rest);
        [congruence|done|done|].
      split.
      - split_and!; simpl; try done.
        intros q Hq.
        apply (node_paths_get key _ q (placed_NoDup _ _ (proj1 Hs)))
          in Hq as [(it & Hit & Hq)|Hq]; [|by apply Hin_rest].
        apply Hin_sub, Hmono. destruct Hcase as [Hget|(Hget & _)]; [|congruence].
        rewrite Hget in Hit. by injection Hit as <-.
      - intros q Hq. pose proof Hq as Hq0.
        apply elem_of_node_paths in Hq as (k & it & Hkv & Hq).
        rewrite forallb_elem in Hpl.
        destruct (placed_item_paths it (Ps ++ [key]) k _ (Hpl _ Hkv) Hq) as [q' Hq'].
        rewrite <- app_assoc in Hq'. apply app_inv_head in Hq'. simpl in Hq'. subst q.
        apply Hin_sub. specialize (Hnew (k :: q')).
        rewrite <- app_assoc in Hnew. simpl in Hnew. rewrite Hp, <- app_assoc in Hnew.
        by apply Hnew. }
    simpl.
    destruct (alist_get key (BaseGraph._items target)) as [[d0|p items0]|] eqn:Hget.
    + destruct sitems; [|done]. intros [= <-]. split; [by apply merged_into_refl|].
      intros q Hq. by apply elem_of_nil in Hq.
    + destruct (foldl _ _ sitems) as [sub|e] eqn:Ef; [|done]. intros [= <-].
      apply (Hview p items0 sub); [by left|done].
    + destruct (foldl _ _ sitems) as [sub|e] eqn:Ef; [|done]. intros [= <-].
      apply (Hview (BaseGraph._prefix target ++ [key]) [] sub); [by right|done].
Qed.

Lemma copy_structure_merged source target target' outside rs :
  placed [] source = true -> owned rs source = true ->
  rs <> BaseGraph._root target -> sound_in outside target ->
  BaseGraph._copy_structure source target (BaseGraph._prefix target) = Ok target' ->
  merged_into outside target target' /\
  forall q, q ∈ node_paths source ->
            BaseGraph._prefix target ++ q ∈ node_paths (BaseGraph._items target').
Proof.
  unfold placed. rewrite andb_true_iff. intros [_ Hpl] Hown Hrs Hs Hcopy.
  apply (copy_fold_merged source (proj2 (Forall_forall _ _)
                                    (fun kv _ => copy_item_copies kv.2))
           target target' outside [] rs (BaseGraph._prefix target) Hpl Hown Hrs eq_refl Hs
           Hcopy).
Qed.

End CopyingStructure.


Section CopyingEdges.
Import Examples.

Lemma key_cases (P : list string) (src : edge_map) (k : list string) :
  (exists s targets, k = P ++ s /\ src !! s = Some targets) \/
  (forall s, is_Some (src !! s) -> k <> P ++ s).
Proof.
  destruct (decide (take (length P) k = P)) as [Ht|Hn].
  - destruct (src !! drop (length P) k) as [targets|] eqn:E.
    + left. exists (drop (length P) k), targets. split; [|done].
      rewrite <- Ht at 1. by rewrite take_drop.
    + right. intros s [x Hs] ->. rewrite drop_app_length in E. congruence.
  - right. intros s _ ->. apply Hn. by rewrite take_app_length.
Qed.

(** The edges after [_copy_edges]: those of the target, and those of the
    source with the prefix in front of both ends. *)
Lemma copy_edges_member (P : list string) (src tgt e1 : edge_map) :
  BaseGraph._copy_edges P src tgt = Ok e1 ->
  (forall k e, edge_in e1 k e <-> edge_in tgt k e \/ rebased_in P src k e) /\
  (forall k, is_Some (e1 !! k) <-> is_Some (tgt !! k)) /\
  grown_map tgt e1.
Proof.
  intros H. destruct (copy_edges_spec P src tgt e1 H) as [Ha Hb].
  split; [|split].
  - intros k e. destruct (key_cases P src k) as [(s & targets & -> & Hs)|Hother].
    + destruct (Ha s targets Hs) as (old & Hold & Hnew). unfold edge_in at 1 2.
      rewrite Hnew, Hold. split.
      * intros (l & [= <-] & [Hin|Hin]%elem_of_app); [left; by exists old|].
        apply list_elem_of_filter in Hin as [_ (t & -> & Ht)%list_elem_of_fmap].
        right. exists s, t. split; [done|]. split; [by exists targets|done].
      * intros [(l & [= <-] & Hin)|(s' & t & Heq & (l & Hl & Ht) & ->)].
        -- exists (old ++ filter (fun edge => edge ∉ old)
                                 (BaseGraph.rebase_edge P <$> targets)).
           split; [done|]. apply elem_of_app. by left.
        -- apply app_inv_head in Heq as <-. rewrite Hs in Hl. injection Hl as <-.
           eexists. split; [done|]. apply elem_of_app.
           destruct (decide (BaseGraph.rebase_edge P t ∈ old)); [by left|right].
           apply list_elem_of_filter. split; [done|].
           apply list_elem_of_fmap. by exists t.
    + unfold edge_in at 1 2. rewrite (Hb k Hother). split; [by left|].
      intros [?|(s & t & -> & (l & Hl & _) & _)]; [done|].
      exfalso. apply (Hother s); [by rewrite Hl|done].
  - intros k. destruct (key_cases P src k) as [(s & targets & -> & Hs)|Hother].
    + destruct (Ha s targets Hs) as (old & Hold & Hnew). rewrite Hnew, Hold.
      split; eauto.
    + by rewrite (Hb k Hother).
  - intros k l Hl. destruct (key_cases P src k) as [(s & targets & -> & Hs)|Hother].
    + destruct (Ha s targets Hs) as (old & Hold & Hnew). rewrite Hl in Hold.
      injection Hold as <-. eauto.
    + exists []. by rewrite app_nil_r, (Hb k Hother).
Qed.

Lemma rebased_in_mirror (P : list string) (down up : edge_map) s t p :
  mirrored down up ->
  rebased_in P down s (EdgeDef.mk t p) <-> rebased_in P up t (EdgeDef.mk s p).
Proof.
  intros Hm. split.
  - intros (s0 & [tn pn] & -> & Hin & [= -> ->]). apply Hm in Hin.
    by exists tn, (EdgeDef.mk s0 pn).
  - intros (t0 & [sn pn] & -> & Hin & [= -> ->]). apply Hm in Hin.
    by exists sn, (EdgeDef.mk t0 pn).
Qed.

(** Copying a sound blueprint into a graph or sub-graph of another one. *)
Lemma copy_into_sound graph root outside r1 :
  sound graph -> BaseGraph._prefix graph = [] ->
  BaseGraph._root graph <> BaseGraph._root root ->
  sound_in outside root ->
  BaseGraph.copy_into graph root = Ok r1 ->
  sound_in outside r1 /\ same_static root r1 /\
  (forall q, q ∈ node_paths (BaseGraph._items root) ->
             q ∈ node_paths (BaseGraph._items r1)) /\
  (forall q, q ∈ node_paths (BaseGraph._items graph) ->
             BaseGraph._prefix root ++ q ∈ node_paths (BaseGraph._items r1)) /\
  (forall k e, edge_in (BaseGraph._downstream r1) k e <->
     edge_in (BaseGraph._downstream root) k e \/
     rebased_in (BaseGraph._prefix root) (BaseGraph._downstream graph) k e) /\
  (forall k e, edge_in (BaseGraph._upstream r1) k e <->
     edge_in (BaseGraph._upstream root) k e \/
     rebased_in (BaseGraph._prefix root) (BaseGraph._upstream graph) k e) /\
  grown root r1.
Proof.
  intros (Hgpl & Hgown & Hgm & Hggd & Hggu & _) Hgp Hrs Hs. rewrite Hgp in Hgpl.
  unfold BaseGraph.copy_into.
  destruct (BaseGraph._copy_structure _ _ _) as [root'|e] eqn:Ecs; [|done].
  destruct (copy_structure_merged _ _ _ outside _ Hgpl Hgown Hrs Hs Ecs)
    as (((Hpl' & Hown' & Hm' & Hgd' & Hgu' & Hout') & (Hroot & Hpre & Hsub)
         & [Hed Heu] & [Hgrd Hgru] & Hmono) & Hnew).
  destruct (BaseGraph._copy_edges _ (BaseGraph._downstream graph) _) as [down|e] eqn:Ed;
    [|done].
  destruct (BaseGraph._copy_edges _ (BaseGraph._upstream graph) _) as [up|e] eqn:Eu;
    [|done].
  intros [= <-].
  apply copy_edges_member in Ed as (Hd & Hkd & Hgrd2).
  apply copy_edges_member in Eu as (Hu & Hku & Hgru2).
  assert (Hgrounded : forall (src tgt e1 : edge_map),
            grounded ([] ++ node_paths (BaseGraph._items graph)) src ->
            grounded (outside ++ node_paths (BaseGraph._items root')) tgt ->
            (forall k e, edge_in e1 k e <->
               edge_in tgt k e \/ rebased_in (BaseGraph._prefix root) src k e) ->
            (forall k, is_Some (e1 !! k) <-> is_Some (tgt !! k)) ->
            grounded (outside ++ node_paths (BaseGraph._items root')) e1).
  { intros src tgt e1 Hgs Hgt Hmem Hkeys s l Hl. split.
    - apply (grounded_key _ _ _ Hgt), Hkeys. by rewrite Hl.
    - intros e He. assert (edge_in e1 s e) as Hin by by exists l.
      apply Hmem in Hin as [(l0 & Hl0 & Hin)|(s0 & t & -> & (l0 & Hl0 & Hin) & ->)].
      + destruct (Hgt s l0 Hl0) as [_ Hrefs]. by apply Hrefs.
      + destruct (Hgs s0 l0 Hl0) as [_ Hrefs]. specialize (Hrefs t Hin). simpl in Hrefs.
        apply elem_of_app. right. simpl. by apply Hnew. }
  split; [|split; [by split_and!|split; [done|split; [done|split; [|split]]]]].
  - split_and!; simpl; try done.
    + intros s t p. rewrite Hd, Hu, (Hm' s t p).
      by rewrite (rebased_in_mirror _ _ _ s t p Hgm).
    + by apply (Hgrounded (BaseGraph._downstream graph) (BaseGraph._downstream root')).
    + by apply (Hgrounded (BaseGraph._upstream graph) (BaseGraph._upstream root')).
  - intros k e. simpl. by rewrite Hd, Hed.
  - intros k e. simpl. by rewrite Hu, Heu.
  - split; simpl; by eapply grown_map_trans.
Qed.

End CopyingEdges.


Section MergingSoundly.
Import Examples.

Lemma store_graph_merged self graph name g' :
  sound self -> sound graph -> BaseGraph._prefix graph = [] ->
  BaseGraph._store_graph self graph name = Ok g' ->
  merged self graph (BaseGraph._prefix self ++ option_list name) g'.
Proof.
  intros Hs Hg Hgp. unfold BaseGraph._store_graph.
  case_decide as Hroot; [by destruct (BaseGraph.is_subgraph self)|].
  destruct name as [n|]; simpl.
  - assert (Hview : forall p items0 sub,
              alist_get n (BaseGraph._items self) = Some (BSub p items0) \/
              (alist_get n (BaseGraph._items self) = None /\
               p = BaseGraph._prefix self ++ [n] /\ items0 = []) ->
              BaseGraph.copy_into graph (BaseGraph.view self p items0) = Ok sub ->
              merged self graph (BaseGraph._prefix self ++ [n])
                     (BaseGraph.absorb self n sub)).
    { intros p items0 sub Hcase Ec.
      destruct (sound_in_view [] self n p items0 Hs Hcase) as (Hp & Hsv & Hsub0).
      destruct (copy_into_sound graph (BaseGraph.view self p items0) _ sub Hg Hgp Hroot
                  Hsv Ec)
        as (Hs' & (Hr & Hpre & _) & Hmono & Hnew & Hd & Hu & [Hgd Hgu]).
      simpl in Hr, Hpre, Hmono, Hnew, Hd, Hu, Hgd, Hgu.
      destruct (sound_in_absorb [] self n sub Hs) as (Habs & Hin_sub & Hin_rest);
        [congruence|done|done|].
      unfold merged. split; [done|]. split; [by split_and!|]. split; [by split|].
      split; [|split; [|split]].
      - intros q Hq.
        apply (node_paths_get n _ q (placed_NoDup _ _ (proj1 Hs)))
          in Hq as [(it & Hit & Hq)|Hq]; [|by apply Hin_rest].
        apply Hin_sub, Hmono. destruct Hcase as [Hget|(Hget & _)]; [|congruence].
        rewrite Hget in Hit. by injection Hit as <-.
      - intros q Hq. apply Hin_sub. rewrite <- Hp. by apply Hnew.
      - intros k e. simpl. rewrite <- Hp. apply Hd.
      - intros k e. simpl. rewrite <- Hp. apply Hu. }
    destruct (alist_get n (BaseGraph._items self)) as [[d|p items0]|] eqn:Hget; [done| |].
    + destruct (BaseGraph.copy_into graph _) as [sub|e] eqn:Ec; [|done]. intros [= <-].
      apply (Hview p items0 sub); [by left|done].
    + destruct (BaseGraph.copy_into graph _) as [sub|e] eqn:Ec; [|done]. intros [= <-].
      apply (Hview (BaseGraph._prefix self ++ [n]) [] sub); [by right|done].
  - intros Ec. rewrite app_nil_r.
    destruct (copy_into_sound graph self [] g' Hg Hgp Hroot Hs Ec)
      as (Hs' & Hst & Hmono & Hnew & Hd & Hu & Hgr).
    by split_and!.
Qed.

(** Merging keeps blueprints sound.  When a sound root blueprint is merged
    into a sound blueprint with [union], into its own namespace or under a
    name, the result is sound; every edge list of the receiving blueprint
    is still there, with new entries after the old ones; all its node
    definitions are still there; every node definition of the merged
    blueprint is found under the path it had there with the prefix of the
    destination in front; and the edges are exactly those that were there
    and those of the merged blueprint, with that prefix in front of both
    ends. *)
Theorem merging_keeps_blueprints_sound (self graph : BaseGraph.t) :
  sound self -> sound graph -> BaseGraph._prefix graph = [] ->
  (forall g', BaseGraph.union self [BaseGraph.SGraph graph] [] = Ok g' ->
              merged self graph (BaseGraph._prefix self) g') /\
  (forall name g',
     BaseGraph.union self [] [(name, BaseGraph.SGraph graph)] = Ok g' ->
     merged self graph (BaseGraph._prefix self ++ [name]) g').
Proof.
  intros Hs Hg Hgp. split.
  - intros g'. unfold BaseGraph.union. simpl.
    destruct (BaseGraph.is_subgraph graph); [done|]. intros Hst.
    rewrite <- (app_nil_r (BaseGraph._prefix self)).
    exact (store_graph_merged self graph None g' Hs Hg Hgp Hst).
  - intros name g'. unfold BaseGraph.union. simpl.
    destruct (BaseGraph.is_subgraph graph); [done|]. intros Hst.
    exact (store_graph_merged self graph (Some name) g' Hs Hg Hgp Hst).
Qed.

Lemma merging_keeps_blueprints_sound_witness :
  sound c_graph /\ sound ab_graph /\
  is_ok (BaseGraph.union c_graph [] [("sub", BaseGraph.SGraph ab_graph)]) = true /\
  sound (graph_of (BaseGraph.union c_graph [] [("sub", BaseGraph.SGraph ab_graph)])) /\
  ["sub"; "a"]
  ∈ node_paths (BaseGraph._items
                  (graph_of (BaseGraph.union c_graph []
                               [("sub", BaseGraph.SGraph ab_graph)]))).
Proof.
  assert (sound c_graph) as Hc by (apply soundb_sound; vm_compute; reflexivity).
  assert (sound ab_graph) as Hab by (apply soundb_sound; vm_compute; reflexivity).
  assert (is_ok (BaseGraph.union c_graph [] [("sub", BaseGraph.SGraph ab_graph)]) = true)
    as Hok by (vm_compute; reflexivity).
  assert (["a"] ∈ node_paths (BaseGraph._items ab_graph)) as Ha
    by (apply (bool_decide_unpack _); vm_compute; exact I).
  split; [exact Hc|]. split; [exact Hab|]. split; [exact Hok|].
  destruct (is_ok_inv _ Hok) as [g' E]. rewrite E. cbn [graph_of].
  destruct (merging_keeps_blueprints_sound c_graph ab_graph Hc Hab eq_refl) as [_ H].
  destruct (H "sub" g' E) as (Hs & _ & _ & _ & Hnew & _).
  split; [exact Hs|]. exact (Hnew ["a"] Ha).
Defined.

End MergingSoundly.


Section MergedEdges.
Import Examples.

Lemma copy_fold_emptied (sitems : list (string * bitem)) :
  Forall (fun kv => forall key target prefix target',
            BaseGraph.copy_item kv.2 key target prefix = Ok target' ->
            emptied target target') sitems ->
  forall tgt tgt' prefix,
    foldl (fun acc kv =>
             match acc with
             | Raise e => Raise e
             | Ok g => BaseGraph.copy_item kv.2 kv.1 g prefix
             end) (Ok tgt) sitems = Ok tgt' ->
    emptied tgt tgt'.
Proof.
  induction sitems as [|[k v] sitems IHl]; intros Hall tgt tgt' prefix; simpl.
  - intros [= <-]. apply emptied_refl.
  - apply Forall_cons in Hall as [Hv Hrest]. simpl in Hv.
    destruct (BaseGraph.copy_item v k tgt prefix) as [t1|e] eqn:E1;
      [|by rewrite fold_raise].
    intros Hfold. eapply emptied_trans; [by eapply Hv|by eapply IHl].
Qed.

Lemma copy_item_emptied : forall item key target prefix target',
  BaseGraph.copy_item item key target prefix = Ok target' -> emptied target target'.
Proof.
  apply (bitem_ind' (fun item => forall key target prefix target',
            BaseGraph.copy_item item key target prefix = Ok target' ->
            emptied target target')).
  - intros d key target prefix target'. simpl. case_decide.
    + intros [= <-]. apply emptied_refl.
    + destruct (BaseGraph._store_node_def target _) as [[g p]|e] eqn:E; [|done].
      intros [= <-]. by eapply store_node_def_emptied.
  - intros sp sitems IH key target prefix target'. simpl.
    destruct (alist_get key (BaseGraph._items target)) as [[d0|p items0]|] eqn:Hget.
    + destruct sitems; [|done]. intros [= <-]. apply emptied_refl.
    + destruct (foldl _ _ sitems) as [sub|e] eqn:Ef; [|done]. intros [= <-].
      exact (copy_fold_emptied sitems IH _ _ _ Ef).
    + destruct (foldl _ _ sitems) as [sub|e] eqn:Ef; [|done]. intros [= <-].
      exact (copy_fold_emptied sitems IH _ _ _ Ef).
Qed.

Lemma copy_structure_emptied source target prefix target' :
  BaseGraph._copy_structure source target prefix = Ok target' -> emptied target target'.
Proof.
  apply copy_fold_emptied. apply Forall_forall. intros kv _. apply copy_item_emptied.
Qed.

(** Copying edges into a map whose lists are those of [before], apart from
    new empty ones. *)
Lemma copy_edges_merged (P : list string) (src before tgt e1 : edge_map) :
  grown_map before tgt -> kept_or_emptied before tgt ->
  BaseGraph._copy_edges P src tgt = Ok e1 -> edges_merged P src before e1.
Proof.
  intros Hg Hk H. destruct (copy_edges_spec P src tgt e1 H) as [Ha Hb].
  assert (Hsame : forall key l, before !! key = Some l -> tgt !! key = Some l).
  { intros key l Hl. destruct (Hg key l Hl) as [l' Hl'].
    destruct (Hk key) as [Hk1|Hk1]; [congruence|].
    rewrite Hl' in Hk1. injection Hk1 as Hk1. apply app_eq_nil in Hk1 as [-> ->].
    by rewrite Hl'. }
  split.
  - intros s targets Hs. cbv zeta. destruct (Ha s targets Hs) as (old & Hold & Hnew).
    assert (default [] (before !! (P ++ s)) = old) as ->; [|done].
    destruct (before !! (P ++ s)) as [l|] eqn:El; simpl.
    + apply Hsame in El. congruence.
    + destruct (Hk (P ++ s)) as [Hk1|Hk1]; congruence.
  - intros key l Hl Hother. rewrite (Hb key Hother). by apply Hsame.
Qed.

(** Every edge of the source is among the merged edges, under its key and
    with its target parameter. *)
Lemma edges_merged_member P source before after s targets t :
  edges_merged P source before after -> source !! s = Some targets -> t ∈ targets ->
  edge_in after (P ++ s) (EdgeDef.mk (P ++ EdgeDef.node t) (EdgeDef.param t)).
Proof.
  intros [Hm _] Hs Ht. specialize (Hm s targets Hs). cbv zeta in Hm.
  eexists. split; [exact Hm|].
  change (BaseGraph.rebase_edge P t ∈
          default [] (before !! (P ++ s)) ++
          filter (fun edge => edge ∉ default [] (before !! (P ++ s)))
                 (BaseGraph.rebase_edge P <$> targets)).
  apply elem_of_app.
  destruct (decide (BaseGraph.rebase_edge P t ∈ default [] (before !! (P ++ s))))
    as [|Hn]; [by left|right].
  apply list_elem_of_filter. split; [done|]. apply list_elem_of_fmap. by exists t.
Qed.

Lemma copy_into_edges graph root outside r1 :
  sound graph -> BaseGraph._prefix graph = [] ->
  BaseGraph._root graph <> BaseGraph._root root ->
  sound_in outside root ->
  BaseGraph.copy_into graph root = Ok r1 ->
  merged_edges (BaseGraph._prefix root) root graph r1.
Proof.
  intros (Hgpl & Hgown & _) Hgp Hrs Hs. rewrite Hgp in Hgpl.
  unfold BaseGraph.copy_into.
  destruct (BaseGraph._copy_structure _ _ _) as [root'|e] eqn:Ecs; [|done].
  destruct (copy_structure_merged _ _ _ outside _ Hgpl Hgown Hrs Hs Ecs)
    as ((_ & _ & _ & [Hgrd Hgru] & _) & _).
  destruct (copy_structure_emptied _ _ _ _ Ecs) as [Hkd Hku].
  destruct (BaseGraph._copy_edges _ (BaseGraph._downstream graph) _) as [down|e] eqn:Ed;
    [|done].
  destruct (BaseGraph._copy_edges _ (BaseGraph._upstream graph) _) as [up|e] eqn:Eu;
    [|done].
  intros [= <-].
  pose proof (copy_edges_merged _ _ _ _ _ Hgrd Hkd Ed) as Hd.
  pose proof (copy_edges_merged _ _ _ _ _ Hgru Hku Eu) as Hu.
  split; [exact Hd|]. split; [exact Hu|]. split.
  - intros s targets t. exact (edges_merged_member _ _ _ _ s targets t Hd).
  - intros s targets t. exact (edges_merged_member _ _ _ _ s targets t Hu).
Qed.

(** The edge maps after [_store_graph] of a sound blueprint into a sound
    one. *)
Lemma store_graph_edges self graph name g' :
  sound self -> sound graph -> BaseGraph._prefix graph = [] ->
  BaseGraph._store_graph self graph name = Ok g' ->
  merged_edges (BaseGraph._prefix self ++ option_list name) self graph g'.
Proof.
  intros Hs Hg Hgp. unfold BaseGraph._store_graph.
  case_decide as Hroot; [by destruct (BaseGraph.is_subgraph self)|].
  destruct name as [n|]; simpl.
  - assert (Hview : forall p items0 sub,
              alist_get n (BaseGraph._items self) = Some (BSub p items0) \/
              (alist_get n (BaseGraph._items self) = None /\
               p = BaseGraph._prefix self ++ [n] /\ items0 = []) ->
              BaseGraph.copy_into graph (BaseGraph.view self p items0) = Ok sub ->
              merged_edges (BaseGraph._prefix self ++ [n]) self graph
                           (BaseGraph.absorb self n sub)).
    { intros p items0 sub Hcase Ec.
      destruct (sound_in_view [] self n p items0 Hs Hcase) as (Hp & Hsv & _).
      pose proof (copy_into_edges graph (BaseGraph.view self p items0) _ sub Hg Hgp Hroot
                    Hsv Ec) as H.
      unfold merged_edges in *. simpl in H. by rewrite Hp in H. }
    destruct (alist_get n (BaseGraph._items self)) as [[d|p items0]|] eqn:Hget; [done| |].
    + destruct (BaseGraph.copy_into graph _) as [sub|e] eqn:Ec; [|done]. intros [= <-].
      apply (Hview p items0 sub); [by left|done].
    + destruct (BaseGraph.copy_into graph _) as [sub|e] eqn:Ec; [|done]. intros [= <-].
      apply (Hview (BaseGraph._prefix self ++ [n]) [] sub); [by right|done].
  - intros Ec. rewrite app_nil_r.
    exact (copy_into_edges graph self [] g' Hg Hgp Hroot Hs Ec).
Qed.

(** C6.  Merging a well-formed source blueprint twice, flat or under a
    name, gives the same result as merging it once.  The edge copy puts at
    every source key, rebased by the prefix of the destination root, the
    list found there followed by the rebased source edges that were not in
    that list, and leaves all other keys alone; so every source edge is
    present after the merge under its rebased key and with its own target
    parameter, and edges that differ only in the target parameter are kept
    apart.  Of sound blueprints this is said of what [union] returns, flat
    and under a name: its edge maps are those of the destination with,
    under every source key with the destination prefix in front, the
    rebased source edges that the destination did not have there appended
    to the list it had, and every source edge is in it, rebased, with its
    own target parameter. *)
Theorem union_rebases_and_is_idempotent (self graph : BaseGraph.t) :
  wf_items (BaseGraph._items graph) = true ->
  BaseGraph.union self [BaseGraph.SGraph graph; BaseGraph.SGraph graph] []
  = BaseGraph.union self [BaseGraph.SGraph graph] [] /\
  (forall name,
     BaseGraph.union self [] [(name, BaseGraph.SGraph graph); (name, BaseGraph.SGraph graph)]
     = BaseGraph.union self [] [(name, BaseGraph.SGraph graph)]) /\
  (forall root r1, BaseGraph.copy_into graph root = Ok r1 ->
     exists root',
       BaseGraph._copy_structure (BaseGraph._items graph) root (BaseGraph._prefix root)
       = Ok root' /\
       BaseGraph._copy_edges (BaseGraph._prefix root) (BaseGraph._downstream graph)
         (BaseGraph._downstream root') = Ok (BaseGraph._downstream r1) /\
       BaseGraph._copy_edges (BaseGraph._prefix root) (BaseGraph._upstream graph)
         (BaseGraph._upstream root') = Ok (BaseGraph._upstream r1)) /\
  (forall (P : list string) (src tgt e1 : edge_map),
     BaseGraph._copy_edges P src tgt = Ok e1 ->
     (forall s targets, src !! s = Some targets ->
        exists old, tgt !! (P ++ s) = Some old /\
          e1 !! (P ++ s) =
            Some (old ++ filter (fun edge => edge ∉ old)
                                (BaseGraph.rebase_edge P <$> targets))) /\
     (forall key, (forall s, is_Some (src !! s) -> key <> P ++ s) ->
        e1 !! key = tgt !! key) /\
     (forall s targets t, src !! s = Some targets -> t ∈ targets ->
        exists l, e1 !! (P ++ s) = Some l /\
                  EdgeDef.mk (P ++ EdgeDef.node t) (EdgeDef.param t) ∈ l)) /\
  (sound self -> sound graph -> BaseGraph._prefix graph = [] ->
   (forall g', BaseGraph.union self [BaseGraph.SGraph graph] [] = Ok g' ->
               merged_edges (BaseGraph._prefix self) self graph g') /\
   (forall name g',
      BaseGraph.union self [] [(name, BaseGraph.SGraph graph)] = Ok g' ->
      merged_edges (BaseGraph._prefix self ++ [name]) self graph g')).
Proof.
  intros Hwf. split_and!.
  - unfold BaseGraph.union. simpl. destruct (BaseGraph.is_subgraph graph); [done|].
    destruct (BaseGraph._store_graph self graph None) as [g1|e] eqn:E; [|done].
    by apply (store_graph_twice self).
  - intros name. unfold BaseGraph.union. simpl.
    destruct (BaseGraph.is_subgraph graph); [done|].
    destruct (BaseGraph._store_graph self graph (Some name)) as [g1|e] eqn:E; [|done].
    by apply (store_graph_twice self).
  - intros root r1. unfold BaseGraph.copy_into.
    destruct (BaseGraph._copy_structure _ root _) as [root'|e] eqn:E1; [|done].
    destruct (BaseGraph._copy_edges _ (BaseGraph._downstream graph) _) as [down|e] eqn:E2;
      [|done].
    destruct (BaseGraph._copy_edges _ (BaseGraph._upstream graph) _) as [up|e] eqn:E3;
      [|done].
    intros [= <-]. exists root'. simpl. by rewrite E2, E3.
  - intros P src tgt e1 H. destruct (copy_edges_spec _ _ _ _ H) as [Hin Hout].
    split_and!; try done.
    intros s targets t Hs Ht. destruct (Hin s targets Hs) as (old & _ & He).
    eexists. split; [exact He|].
    change (BaseGraph.rebase_edge P t ∈
            old ++ filter (fun edge => edge ∉ old) (BaseGraph.rebase_edge P <$> targets)).
    apply elem_of_app.
    destruct (decide (BaseGraph.rebase_edge P t ∈ old)) as [|Hn]; [by left|right].
    apply list_elem_of_filter. split; [done|]. apply list_elem_of_fmap. by exists t.
  - intros Hs Hg Hgp. split.
    + intros g'. unfold BaseGraph.union. simpl.
      destruct (BaseGraph.is_subgraph graph); [done|]. intros Hst.
      rewrite <- (app_nil_r (BaseGraph._prefix self)).
      exact (store_graph_edges self graph None g' Hs Hg Hgp Hst).
    + intros name g'. unfold BaseGraph.union. simpl.
      destruct (BaseGraph.is_subgraph graph); [done|]. intros Hst.
      exact (store_graph_edges self graph (Some name) g' Hs Hg Hgp Hst).
Qed.

(** test_graph_union, merged a second time, and merged under a name. *)
Lemma union_rebases_and_is_idempotent_witness :
  wf_items (BaseGraph._items ab_graph) = true /\
  is_ok (BaseGraph.union c_graph [BaseGraph.SGraph ab_graph] []) = true /\
  BaseGraph.union c_graph [BaseGraph.SGraph ab_graph; BaseGraph.SGraph ab_graph] []
  = BaseGraph.union c_graph [BaseGraph.SGraph ab_graph] [] /\
  sound c_graph /\ sound ab_graph /\
  is_ok (BaseGraph.union c_graph [] [("sub", BaseGraph.SGraph ab_graph)]) = true /\
  edge_in (BaseGraph._downstream
             (graph_of (BaseGraph.union c_graph [] [("sub", BaseGraph.SGraph ab_graph)])))
          ["sub"; "a"] (EdgeDef.mk ["sub"; "b"] None).
Proof.
  assert (wf_items (BaseGraph._items ab_graph) = true) as Hwf by (vm_compute; reflexivity).
  assert (sound c_graph) as Hc by (apply soundb_sound; vm_compute; reflexivity).
  assert (sound ab_graph) as Hab by (apply soundb_sound; vm_compute; reflexivity).
  assert (is_ok (BaseGraph.union c_graph [] [("sub", BaseGraph.SGraph ab_graph)]) = true)
    as Hok by (vm_compute; reflexivity).
  assert (BaseGraph._downstream ab_graph !! ["a"] = Some [EdgeDef.mk ["b"] None]) as Ha
    by (vm_compute; reflexivity).
  destruct (union_rebases_and_is_idempotent c_graph ab_graph Hwf) as (H1 & _ & _ & _ & H5).
  split; [exact Hwf|]. split; [vm_compute; reflexivity|]. split; [exact H1|].
  split; [exact Hc|]. split; [exact Hab|]. split; [exact Hok|].
  destruct (is_ok_inv _ Hok) as [g' E]. rewrite E. cbn [graph_of].
  destruct (H5 Hc Hab eq_refl) as [_ Hn].
  destruct (Hn "sub" g' E) as (_ & _ & Hin & _).
  exact (Hin ["a"] [EdgeDef.mk ["b"] None] (EdgeDef.mk ["b"] None) Ha
           (list_elem_of_here _ _)).
Defined.

End MergedEdges.


Section Construction.
Import Examples GroupExamples.

Lemma store_sound self item name g' :
  sound self -> storable_ok item -> BaseGraph._store self item name = Ok g' ->
  sound g' /\ grown self g'.
Proof.
  intros Hs Hok. destruct item as [h|it].
  - destruct Hok as [Hh Hp]. simpl. destruct (BaseGraph.is_subgraph h); [done|].
    intros Hst. by destruct (store_graph_merged self h name g' Hs Hh Hp Hst) as (? & _ & ? & _).
  - by apply store_snode_sound.
Qed.

Lemma fold_store_sound : forall items self g',
  sound self -> Forall storable_ok items ->
  foldl (fun acc item =>
           match acc with
           | Raise e => Raise e
           | Ok g => BaseGraph._store g item None
           end) (Ok self) items = Ok g' ->
  sound g' /\ grown self g'.
Proof.
  induction items as [|item items IH]; intros self g' Hs Hall; simpl.
  - intros [= <-]. split; [done|apply grown_refl].
  - apply Forall_cons in Hall as [Hitem Hrest].
    destruct (BaseGraph._store self item None) as [g1|e] eqn:E1.
    + destruct (store_sound _ _ _ _ Hs Hitem E1) as [Hs1 Hg1]. intros Hfold.
      destruct (IH g1 g' Hs1 Hrest Hfold) as [Hs' Hg']. split; [done|by eapply grown_trans].
    + by rewrite fold_raise.
Qed.

Lemma fold_store_named_sound : forall (named : list (string * BaseGraph.storable)) self g',
  sound self -> Forall (fun kv => storable_ok kv.2) named ->
  foldl (fun acc kv =>
           match acc with
           | Raise e => Raise e
           | Ok g => BaseGraph._store g kv.2 (Some kv.1)
           end) (Ok self) named = Ok g' ->
  sound g' /\ grown self g'.
Proof.
  induction named as [|[k item] named IH]; intros self g' Hs Hall; simpl.
  - intros [= <-]. split; [done|apply grown_refl].
  - apply Forall_cons in Hall as [Hitem Hrest]. simpl in Hitem.
    destruct (BaseGraph._store self item (Some k)) as [g1|e] eqn:E1.
    + destruct (store_sound _ _ _ _ Hs Hitem E1) as [Hs1 Hg1]. intros Hfold.
      destruct (IH g1 g' Hs1 Hrest Hfold) as [Hs' Hg']. split; [done|by eapply grown_trans].
    + by rewrite fold_raise.
Qed.

Lemma stores_sound self items named g' :
  sound self -> Forall storable_ok items -> Forall (fun kv => storable_ok kv.2) named ->
  foldl (fun acc kv =>
           match acc with
           | Raise e => Raise e
           | Ok g => BaseGraph._store g kv.2 (Some kv.1)
           end)
        (foldl (fun acc item =>
                  match acc with
                  | Raise e => Raise e
                  | Ok g => BaseGraph._store g item None
                  end) (Ok self) items) named = Ok g' ->
  sound g' /\ grown self g'.
Proof.
  intros Hs Hitems Hnamed.
  destruct (foldl _ (Ok self) items) as [g1|e] eqn:E1; [|by rewrite fold_raise].
  destruct (fold_store_sound _ _ _ Hs Hitems E1) as [Hs1 Hg1]. intros E2.
  destruct (fold_store_named_sound _ _ _ Hs1 Hnamed E2) as [Hs2 Hg2].
  split; [done|by eapply grown_trans].
Qed.

(** Blueprints made through the interface can be instantiated.  A
    blueprint made by [Graph] from node specifications and sound root
    blueprints is sound, [union] of such things into a sound blueprint gives a
    sound blueprint, and a sound blueprint, called without parameters, always
    yields an instance: one that is wired consistently, in which every node
    is dirty and no callable has run. *)
Theorem built_blueprints_instantiate (items : list BaseGraph.storable)
    (named : list (string * BaseGraph.storable)) :
  Forall storable_ok items -> Forall (fun kv => storable_ok kv.2) named ->
  (forall fresh g, Graph.__init__ fresh items named = Ok g -> sound g) /\
  (forall self g', sound self -> BaseGraph.union self items named = Ok g' ->
     sound g' /\ grown self g') /\
  (forall g w, sound g ->
     exists c m, Graph.__call__ g ∅ w = Ok (c, m) /\
                 consistent m /\ all_dirty m /\ calls m = [] /\ world_of m = w).
Proof.
  intros Hitems Hnamed. split_and!.
  - intros fresh g Hg.
    by destruct (stores_sound _ items named g (sound_empty fresh) Hitems Hnamed Hg).
  - intros self g' Hs Hu. exact (stores_sound self items named g' Hs Hitems Hnamed Hu).
  - intros g w Hs. apply instantiate_without_parameters. by apply sound_closed.
Qed.

Lemma built_blueprints_instantiate_witness :
  sound nested_graph /\ consistent nested_machine /\ all_dirty nested_machine.
Proof.
  assert (Forall storable_ok [BaseGraph.SNode (ItCallable Fixtures.a)]) as Hitems.
  { by repeat constructor. }
  assert (Forall (fun kv : string * BaseGraph.storable => storable_ok kv.2)
            [("sub", BaseGraph.SGraph
                       (graph_of (Graph.__init__ 2
                                    [BaseGraph.SNode (ItCallable Fixtures.b)] [])))])
    as Hnamed.
  { constructor; [|constructor]. split; [|reflexivity].
    apply soundb_sound. vm_compute. reflexivity. }
  destruct (built_blueprints_instantiate _ _ Hitems Hnamed) as (Hinit & _ & Hcall).
  destruct (is_ok_inv (Graph.__init__ 1 [BaseGraph.SNode (ItCallable Fixtures.a)]
              [("sub", BaseGraph.SGraph
                         (graph_of (Graph.__init__ 2
                                      [BaseGraph.SNode (ItCallable Fixtures.b)] [])))]))
    as [g E]; [vm_compute; reflexivity|].
  pose proof (Hinit 1 g E) as Hs.
  destruct (Hcall g ∅ Hs) as (c & m & Ecall & Hcons & Hdirty & _).
  unfold nested_machine.
  change nested_graph
    with (graph_of (Graph.__init__ 1 [BaseGraph.SNode (ItCallable Fixtures.a)]
            [("sub", BaseGraph.SGraph
                       (graph_of (Graph.__init__ 2
                                    [BaseGraph.SNode (ItCallable Fixtures.b)] [])))])).
  rewrite E. cbn [graph_of]. rewrite Ecall. cbn [machine_of].
  split; [exact Hs|]. split; [exact Hcons|exact Hdirty].
Defined.

End Construction.


(** * Evaluation effort *)

Section EvaluatedOnce.
Import Node Examples.

Lemma evaluated_once_refl m ok : evaluated_once m ok m.
Proof.
  exists []. rewrite app_nil_r. split_and!; [done|constructor|..];
    intros; by match goal with H : _ ∈ [] |- _ => apply elem_of_nil in H end.
Qed.

Lemma is_clean_not_dirty m n : is_clean m n = true -> is_dirty m n = false.
Proof.
  unfold is_clean, is_dirty. destruct (heap m !! n) as [s|]; [|done].
  by intros ->%negb_true_iff.
Qed.

(** A node that is dirty after a cached read was dirty before it. *)
Lemma eval_cached_dirty_before fuel x m r m' n :
  _eval_cached fuel x m = (r, m') -> is_dirty m' n = true -> is_dirty m n = true.
Proof.
  intros Ev Hd. unfold is_dirty in Hd. destruct (heap m' !! n) as [s'|] eqn:E'; [|done].
  destruct (shape_lookup m m' n s' (eval_cached_shape fuel _ _ _ _ Ev) E') as (s & Hs & _).
  unfold is_dirty. rewrite Hs. destruct (NodeState._dirty s) eqn:D; [done|].
  rewrite (eval_cached_clean fuel _ _ _ _ _ _ Ev Hs D) in E'. congruence.
Qed.

Lemma eval_cached_keeps_clean fuel x m r m' n :
  _eval_cached fuel x m = (r, m') -> is_clean m n = true -> is_clean m' n = true.
Proof.
  intros Ev. unfold is_clean. destruct (heap m !! n) as [s|] eqn:Hs; [|done].
  intros Hc%negb_true_iff. by rewrite (eval_cached_clean fuel _ _ _ _ _ _ Ev Hs Hc), Hc.
Qed.

Lemma evaluated_once_seq m m1 m2 ok :
  evaluated_once m true m1 -> evaluated_once m1 ok m2 ->
  (forall n, is_dirty m1 n = true -> is_dirty m n = true) ->
  (forall n, is_clean m1 n = true -> is_clean m2 n = true) ->
  evaluated_once m ok m2.
Proof.
  intros (l1 & E1 & N1 & D1 & C1) (l2 & E2 & N2 & D2 & C2) Hdirty Hclean.
  exists (l1 ++ l2). split_and!.
  - by rewrite E2, E1, app_assoc.
  - apply NoDup_app. split; [done|]. split; [|done].
    intros n H1 H2. specialize (C1 eq_refl n H1). apply is_clean_not_dirty in C1.
    rewrite (D2 n H2) in C1. done.
  - intros n [H|H]%elem_of_app; [by apply D1|by apply Hdirty, D2].
  - intros Hok n [H|H]%elem_of_app; [by apply Hclean, C1|by apply C2].
Qed.

Lemma evaluated_once_weaken m m' : evaluated_once m true m' -> evaluated_once m false m'.
Proof. intros (l & E & N & D & _). exists l. by split_and!. Qed.

Lemma collect_once fuel :
  (forall x m r m', _eval_cached fuel x m = (r, m') -> evaluated_once m (is_ok r) m') ->
  forall ups a k m r m',
    collect (_eval_cached fuel) ups a k m = (r, m') ->
    evaluated_once m (is_ok r) m' /\
    (forall n, is_dirty m' n = true -> is_dirty m n = true) /\
    (forall n, is_clean m n = true -> is_clean m' n = true).
Proof.
  intros IH ups. induction ups as [|p rest IHups]; intros a k m r m' Hc.
  - simpl in Hc. injection Hc as <- <-. split; [apply evaluated_once_refl|done].
  - assert (forall r0 m1, peer_eval_cached (_eval_cached fuel) p m = (r0, m1) ->
              evaluated_once m (is_ok r0) m1 /\
              (forall n, is_dirty m1 n = true -> is_dirty m n = true) /\
              (forall n, is_clean m n = true -> is_clean m1 n = true)) as Hpeer.
    { intros r0 m1 Hp. destruct (peer_read_cases _ _ _ _ _ Hp)
        as [(_ & -> & ->)|(u & r1 & _ & Hu & Hok)].
      - split; [apply evaluated_once_refl|done].
      - rewrite Hok. split; [by apply (IH u)|]. split.
        + intros n. by apply (eval_cached_dirty_before fuel u m r1 m1).
        + intros n. by apply (eval_cached_keeps_clean fuel u m r1 m1). }
    destruct (collect_step _ _ _ _ _ _ _ _ Hc)
      as [(e & Hp & ->)|(v & m1 & a' & k' & Hp & Hrest)].
    + by apply (Hpeer (Raise e) m').
    + destruct (Hpeer (Ok v) m1 Hp) as (H1 & Hd1 & Hc1).
      destruct (IHups _ _ _ _ _ Hrest) as (H2 & Hd2 & Hc2).
      split; [by apply evaluated_once_seq with m1|]. split; auto.
Qed.

Lemma eval_cached_once fuel : forall x m r m',
  _eval_cached fuel x m = (r, m') -> evaluated_once m (is_ok r) m'.
Proof.
  induction fuel as [|fuel IH]; intros x m r m'; simpl.
  { intros [= <- <-]. apply evaluated_once_refl. }
  destruct (heap m !! x) as [s|] eqn:Hs; [|intros [= <- <-]; apply evaluated_once_refl].
  destruct (NodeState._dirty s) eqn:D; [|intros [= <- <-]; apply evaluated_once_refl].
  unfold _eval_from. rewrite Hs.
  destruct (collect _ _ _ _ m) as [[[ca ck]|e] mc] eqn:Hc.
  - destruct (collect_once fuel IH _ _ _ _ _ _ Hc) as ((l & El & Nl & Dl & Cl) & _ & _).
    assert (busy (∅ ∪ {[x]}) m) as Hb.
    { intros n Hn. assert (n = x) as -> by set_solver. unfold is_dirty. by rewrite Hs. }
    destruct (collect_busy _ ∅ x s (eval_cached_busy fuel) _ _ _ _ _ _
                (fun p Hp => Hp) Hs Hb (linked_empty _ m) Hc)
      as [[Hheap (l' & El' & Nl')] _].
    rewrite El in El'. apply app_inv_head in El' as <-.
    assert (x ∉ l) as Hx by (apply Nl'; set_solver).
    assert (heap mc !! x = Some s) as Hsc by (rewrite Hheap; [done|set_solver]).
    destruct (invoke x _ _ _ mc) as [r2 m2] eqn:Hi.
    pose proof (invoke_heap _ _ _ _ _ _ _ Hi) as Hh2.
    destruct (invoke_calls _ _ _ _ _ _ _ Hi) as [Hok2 Hany2].
    destruct r2 as [v|e]; intros [= <- <-].
    + exists (l ++ [x]). split_and!.
      * simpl. by rewrite (Hok2 eq_refl), El, app_assoc.
      * apply NoDup_app. split; [done|]. split; [|apply NoDup_singleton].
        intros n Hn ->%list_elem_of_singleton. done.
      * intros n [Hn|Hnx%list_elem_of_singleton]%elem_of_app; [by apply Dl|subst n].
        unfold is_dirty. by rewrite Hs.
      * intros _ n [Hn|Hnx%list_elem_of_singleton]%elem_of_app; [|subst n].
        -- apply is_clean_store_result. rewrite (is_clean_heap _ _ _ Hh2). by apply Cl.
        -- unfold is_clean, store_result. simpl. rewrite lookup_alter_eq, Hh2, Hsc. done.
    + destruct Hany2 as [Hsame|Hadd].
      * exists l. split_and!; [by rewrite Hsame|done|done|done].
      * exists (l ++ [x]). split_and!; [by rewrite Hadd, El, app_assoc| | |done].
        -- apply NoDup_app. split; [done|]. split; [|apply NoDup_singleton].
           intros n Hn ->%list_elem_of_singleton. done.
        -- intros n [Hn|Hnx%list_elem_of_singleton]%elem_of_app; [by apply Dl|subst n].
           unfold is_dirty. by rewrite Hs.
  - intros [= <- <-].
    by destruct (collect_once fuel IH _ _ _ _ _ _ Hc) as (H & _ & _).
Qed.

(** A cached read evaluates no node twice and no clean node at all: the
    callables it invokes belong to nodes that were dirty before the read,
    each is invoked exactly once, and after a successful read all of them are
    clean.  So a node with several consumers is computed once, however many
    paths lead to it. *)
Theorem cached_read_evaluates_once (fuel : nat) (x : nat) (m : machine) :
  exists l,
    calls (val fuel x m).2 = calls m ++ l /\ NoDup l /\
    (forall n, n ∈ l -> is_dirty m n = true) /\
    (is_ok (val fuel x m).1 = true ->
     forall n, n ∈ l -> is_clean (val fuel x m).2 n = true) /\
    (forall n, invocations n (val fuel x m).2 <= S (invocations n m)) /\
    (forall n, is_dirty m n = false -> invocations n (val fuel x m).2 = invocations n m).
Proof.
  unfold val. destruct (_eval_cached fuel x m) as [r m'] eqn:Ev.
  destruct (eval_cached_once fuel x m r m' Ev) as (l & El & Nl & Dl & Cl). simpl.
  exists l. split_and!; try done.
  - intros n. unfold invocations. rewrite El, filter_app, length_app.
    assert (length (filter (fun n0 => n0 = n) l) <= 1); [|lia].
    clear -Nl. induction Nl as [|y l Hy Hl IH]; [simpl; lia|].
    destruct (decide (y = n)) as [->|Hne].
    + rewrite filter_cons_True by done.
      rewrite (filter_absent n l Hy). simpl. lia.
    + rewrite filter_cons_False by done. done.
  - intros n Hn. unfold invocations. rewrite El, filter_app, length_app.
    rewrite (filter_absent n l); [simpl; lia|].
    intros Hin. rewrite (Dl n Hin) in Hn. done.
Qed.

Lemma cached_read_evaluates_once_witness :
  let m := (val 5 0 ab_machine).2 in
  is_dirty m 0 = false /\
  (val 5 1 m).1 = Ok (VInt 35) /\
  invocations 0 (val 5 1 m).2 = invocations 0 m.
Proof.
  intros m.
  assert (is_dirty m 0 = false) as Hd by (vm_compute; reflexivity).
  assert ((val 5 1 m).1 = Ok (VInt 35)) as Hv by (vm_compute; reflexivity).
  split; [exact Hd|]. split; [exact Hv|]. clearbody m.
  destruct (cached_read_evaluates_once 5 1 m) as (l & _ & _ & _ & _ & _ & Hsame).
  exact (Hsame 0 Hd).
Defined.

End EvaluatedOnce.



(** * The shape of instances *)

Section Mirroring.
Import Node Examples GroupExamples.

Lemma foldr_and_Forall {A} (Q : A -> Prop) (l : list A) :
  foldr (fun x acc => Q x /\ acc) True l <-> Forall Q l.
Proof.
  induction l as [|x l IH]; simpl.
  - split; [constructor|done].
  - by rewrite Forall_cons, IH.
Qed.

Lemma mirrors_all_Forall P h bits rits :
  mirrors_all P h bits rits <->
  rits.*1 = bits.*1 /\
  Forall (fun kv => exists r, alist_get kv.1 rits = Some r /\ mirrors P h kv.1 kv.2 r) bits.
Proof.
  unfold mirrors_all.
  rewrite (foldr_and_Forall
             (fun kv => match alist_get kv.1 rits with
                        | Some r' => mirrors P h kv.1 kv.2 r'
                        | None => False
                        end)).
  apply and_iff_compat_l, Forall_iff. intros kv.
  destruct (alist_get kv.1 rits) as [r|]; [|naive_solver].
  split; [intros H; by exists r|]. by intros (r' & [= <-] & H).
Qed.

Lemma mirrors_sub P h key p bits rits :
  mirrors P h key (BSub p bits) (RGroup rits) <-> mirrors_all P h bits rits.
Proof. reflexivity. Qed.

(** Mirroring survives a change of the heap that keeps what it says of
    the node states. *)
Lemma mirrors_impl (P Q : string -> NodeDef.t -> NodeState.t -> Prop)
    (h h' : gmap nat NodeState.t) :
  (forall key d n s, h !! n = Some s -> P key d s ->
     exists s', h' !! n = Some s' /\ Q key d s') ->
  forall b key r, mirrors P h key b r -> mirrors Q h' key b r.
Proof.
  intros HPQ.
  apply (bitem_ind' (fun b => forall key r, mirrors P h key b r -> mirrors Q h' key b r)).
  - intros d key [n|rits]; simpl; [|done]. intros (s & Hs & HP). by eapply HPQ.
  - intros p bits IH key [n|rits]; [done|]. rewrite !mirrors_sub, !mirrors_all_Forall.
    intros [Hk Hall]. split; [done|]. rewrite Forall_forall in *. intros kv Hin.
    destruct (Hall kv Hin) as (r & Hr & Hm). exists r. split; [done|]. by apply IH.
Qed.

Lemma mirrors_all_impl (P Q : string -> NodeDef.t -> NodeState.t -> Prop)
    (h h' : gmap nat NodeState.t) bits rits :
  (forall key d n s, h !! n = Some s -> P key d s ->
     exists s', h' !! n = Some s' /\ Q key d s') ->
  mirrors_all P h bits rits -> mirrors_all Q h' bits rits.
Proof.
  intros HPQ. rewrite <- !(mirrors_sub _ _ "" []). by apply mirrors_impl.
Qed.

Lemma mirrors_all_intro P h bits rits :
  NoDup bits.*1 -> rits.*1 = bits.*1 ->
  Forall2 (fun kv rkv => mirrors P h kv.1 kv.2 rkv.2) bits rits ->
  mirrors_all P h bits rits.
Proof.
  intros Hnd Hk Hall. apply mirrors_all_Forall. split; [done|].
  apply Forall_forall. intros kv [i Hi]%list_elem_of_lookup.
  destruct (Forall2_lookup_l _ _ _ _ _ Hall Hi) as (rkv & Hri & Hm).
  exists rkv.2. split; [|done]. apply alist_get_NoDup; [by rewrite Hk|].
  assert (rkv.1 = kv.1) as <-.
  { assert (rits.*1 !! i = bits.*1 !! i) as E by by rewrite Hk.
    rewrite !list_lookup_fmap, Hi, Hri in E. by injection E. }
  destruct rkv as [k r]. simpl. by eapply list_elem_of_lookup_2.
Qed.

Lemma walk_fold_makes (items : list (string * bitem)) :
  Forall (fun kv => walk_makes kv.2) items ->
  forall st grp st' grp',
    foldl (fun acc kv =>
             let '(st1, it) := Context.walk_item kv.2 kv.1 acc.1 in
             (st1, NodeGroup._set_item kv.1 it acc.2))
          (st, grp) items = (st', grp') ->
    dense (Context.w_heap st) ->
    NoDup (grp.*1 ++ items.*1) ->
    forallb (fun kv => wf_item kv.1 kv.2) items = true ->
    dense (Context.w_heap st') /\
    (forall n s, Context.w_heap st !! n = Some s -> Context.w_heap st' !! n = Some s) /\
    size (Context.w_heap st) <= size (Context.w_heap st') /\
    exists new,
      grp' = grp ++ new /\ new.*1 = items.*1 /\
      leaves_of new = seq (size (Context.w_heap st))
                          (size (Context.w_heap st') - size (Context.w_heap st)) /\
      Forall2 (fun kv rkv => mirrors made_from (Context.w_heap st') kv.1 kv.2 rkv.2)
              items new.
Proof.
  induction items as [|[k v] items IH]; intros Hall st grp st' grp'; simpl.
  - intros [= <- <-] Hd _ _. split; [done|]. split; [done|]. split; [lia|].
    exists []. rewrite app_nil_r, Nat.sub_diag. split_and!; [done..|constructor].
  - apply Forall_cons in Hall as [Hv Hrest].
    destruct (Context.walk_item v k st) as [st1 it] eqn:E1. intros Hfold Hd Hnd Hwf.
    apply andb_true_iff in Hwf as [Hwfv Hwfr].
    destruct (Hv k st st1 it E1 Hd Hwfv) as (Hd1 & Hm1 & Hs1 & Hl1 & Hmir1).
    assert (alist_get k grp = None) as Hfresh.
    { apply alist_get_None. intros Hin. apply NoDup_app in Hnd as (_ & Hdisj & _).
      apply (Hdisj k Hin). by left. }
    unfold NodeGroup._set_item in Hfold. rewrite (alist_set_absent _ _ _ Hfresh) in Hfold.
    destruct (IH Hrest st1 _ st' grp' Hfold Hd1)
      as (Hd' & Hm' & Hs' & new & -> & Hk & Hl & Hmir).
    { rewrite fmap_app. simpl. by rewrite <- app_assoc. }
    { exact Hwfr. }
    split; [done|]. split; [by auto|]. split; [lia|].
    exists ((k, it) :: new). split; [by rewrite <- app_assoc|].
    split; [rewrite fmap_cons; simpl; f_equal; exact Hk|]. split.
    + change (leaves_of ((k, it) :: new)) with (leaves it ++ leaves_of new).
      rewrite Hl1, Hl.
      replace (size (Context.w_heap st') - size (Context.w_heap st))
        with ((size (Context.w_heap st1) - size (Context.w_heap st))
              + (size (Context.w_heap st') - size (Context.w_heap st1))) by lia.
      rewrite seq_app. do 2 f_equal. lia.
    + constructor; [|done]. simpl. eapply mirrors_impl; [|exact Hmir1].
      intros key d n s Hs HP. exists s. auto.
Qed.

Lemma walk_item_makes : forall value, walk_makes value.
Proof.
  apply (bitem_ind' walk_makes); [intros d|intros prefix items IH]; intros key st st' it.
  - simpl. intros [= <- <-] Hd _. simpl.
    assert (Context.w_heap st !! size (Context.w_heap st) = None) as Hnone.
    { apply eq_None_not_Some. rewrite (Hd _). lia. }
    split; [by apply dense_insert|]. split.
    { intros n s Hs. rewrite lookup_insert_ne; [done|]. intros <-. congruence. }
    rewrite map_size_insert_None by done. split; [lia|]. split.
    { by replace (S (size (Context.w_heap st)) - size (Context.w_heap st)) with 1 by lia. }
    eexists. split; [apply lookup_insert_eq|]. reflexivity.
  - cbn [Context.walk_item wf_item].
    destruct (foldl _ _ _) as [st1 grp] eqn:E. intros [= <- <-] Hd Hwf.
    apply andb_true_iff in Hwf as [Hnd%bool_decide_eq_true Hall].
    destruct (walk_fold_makes items IH st [] st1 grp E Hd)
      as (Hd' & Hm & Hs & new & -> & Hk & Hl & Hmir); [done|done|].
    split; [done|]. split; [done|]. split; [done|]. split; [exact Hl|].
    apply mirrors_sub. by apply mirrors_all_intro.
Qed.

(** What [_walk_graph] makes of the items of a blueprint. *)
Lemma walk_graph_makes items st rits :
  wf_items items = true ->
  Context._walk_graph items [] (Context.Walk ∅ ∅) = (st, rits) ->
  dense (Context.w_heap st) /\
  leaves_of rits = seq 0 (size (Context.w_heap st)) /\
  mirrors_all made_from (Context.w_heap st) items rits.
Proof.
  unfold wf_items. intros [Hnd%bool_decide_eq_true Hall]%andb_true_iff Ew.
  destruct walked_empty as (Hd0 & _).
  assert (Forall (fun kv => walk_makes kv.2) items) as Hmk.
  { apply Forall_forall. intros kv _. apply walk_item_makes. }
  destruct (walk_fold_makes items Hmk _ _ _ _ Ew Hd0)
    as (Hd' & _ & _ & new & -> & Hk & Hl & Hmir); [done|done|].
  simpl in Hl. rewrite map_size_empty, Nat.sub_0_r in Hl.
  split; [done|]. split; [done|]. by apply mirrors_all_intro.
Qed.

(** Wiring changes the peers of node states only. *)
Lemma wiring_settings nodes down up h h1 h2 :
  foldl (parse_step nodes (Context.downstream_wire nodes)) (Ok h) down = Ok h1 ->
  foldl (parse_step nodes (Context._upstream_wire nodes)) (Ok h1) up = Ok h2 ->
  forall n,
    match h !! n with
    | None => h2 !! n = None
    | Some s => exists s', h2 !! n = Some s' /\ settings s' = settings s
    end.
Proof.
  intros H1 H2 n.
  pose proof (downstream_wire_spec nodes _ _ _ H1 n) as Hd.
  pose proof (upstream_wire_spec nodes _ _ _ H2 n) as Hu.
  destruct (h !! n) as [s|].
  - destruct Hd as (s1 & Hs1 & _ & _ & _ & E1). rewrite Hs1 in Hu.
    destruct Hu as (s2 & Hs2 & _ & _ & _ & E2). exists s2. split; [done|]. congruence.
  - by rewrite Hd in Hu.
Qed.

Lemma identities_lookup m m' n s :
  identities m' = identities m -> heap m !! n = Some s ->
  exists s', heap m' !! n = Some s' /\ identity_of s' = identity_of s.
Proof.
  intros E Hs. assert (identities m' !! n = identities m !! n) as En by by rewrite E.
  unfold identities in En. rewrite !lookup_fmap, Hs in En. simpl in En.
  destruct (heap m' !! n) as [s'|]; [|done]. exists s'. split; [done|].
  by apply (inj Some).
Qed.

Lemma identities_dom m m' n :
  identities m' = identities m -> is_Some (heap m' !! n) <-> is_Some (heap m !! n).
Proof.
  intros E. assert (identities m' !! n = identities m !! n) as En by by rewrite E.
  unfold identities in En. rewrite !lookup_fmap in En.
  destruct (heap m' !! n), (heap m !! n); simpl in En; done.
Qed.

Lemma identities_store_params self args kwargs m :
  identities (store_params self args kwargs m) = identities m.
Proof.
  apply map_eq. intros n. unfold identities. simpl. rewrite !lookup_fmap.
  destruct (decide (self = n)) as [->|]; [|by rewrite lookup_alter_ne].
  rewrite lookup_alter_eq. by destruct (heap m !! n).
Qed.

Lemma identities_merge_kwargs self kwargs m :
  identities (merge_kwargs self kwargs m) = identities m.
Proof.
  apply map_eq. intros n. unfold identities. simpl. rewrite !lookup_fmap.
  destruct (decide (self = n)) as [->|]; [|by rewrite lookup_alter_ne].
  rewrite lookup_alter_eq. by destruct (heap m !! n).
Qed.

Lemma identities_invalidate x m : identities (_invalidate x m) = identities m.
Proof.
  destruct (invalidate_spec x m) as ((_ & _ & H) & _). apply map_eq. intros n.
  unfold identities. rewrite !lookup_fmap, H. destruct (decide (n ∈ visited x m)); [|done].
  by destruct (heap m !! n).
Qed.

(** Setting the parameters of a group never changes which callable a node
    state stands for, nor its name or signature. *)
Lemma identities_group_set items kwargs m :
  identities (NodeGroup.set items kwargs m).2 = identities m.
Proof.
  apply (group_set_preserves (fun m' => identities m' = identities m)); [| |done].
  - intros n a k m0 _ H0. unfold _set_params.
    by rewrite identities_invalidate, identities_store_params.
  - intros n m0 _ H0. unfold update.
    by rewrite identities_invalidate, identities_merge_kwargs.
Qed.

(** The instance has the shape of its blueprint.  [Context.__init__] walks
    the items of the blueprint and makes a node state for every node
    definition and a group for every sub-graph, under the same names; the
    node state bears the name under which the definition is stored and
    stands for its callable.  Distinct node definitions get
    distinct node states, and the instance holds no other node state.  When
    no parameters are given, every node state also holds the default
    arguments of its definition. *)
Theorem instance_mirrors_blueprint (g : BaseGraph.t) (kwargs : dict) (w : world)
    (c : Context.t) (m : machine) :
  wf_items (BaseGraph._items g) = true ->
  Graph.__call__ g kwargs w = Ok (c, m) ->
  mirrors_all made_for (heap m) (BaseGraph._items g) (Context._items c) /\
  (kwargs = ∅ ->
     mirrors_all made_from (heap m) (BaseGraph._items g) (Context._items c)) /\
  NoDup (leaves_of (Context._items c)) /\
  (forall n, n ∈ leaves_of (Context._items c) <-> is_Some (heap m !! n)).
Proof.
  intros Hwf. unfold Graph.__call__, Context.__init__.
  destruct (Context._walk_graph (BaseGraph._items g) [] (Context.Walk ∅ ∅))
    as [st items] eqn:Ew.
  destruct (walk_graph_makes _ _ _ Hwf Ew) as (Hdense & Hleaves & Hmir).
  destruct (Context._parse_edges _ (BaseGraph._downstream g) _ _) as [h1|e] eqn:H1; [|done].
  destruct (Context._parse_edges _ (BaseGraph._upstream g) _ _) as [h2|e] eqn:H2; [|done].
  rewrite parse_edges_flat in H1, H2.
  pose proof (wiring_settings _ _ _ _ _ _ H1 H2) as Hwire.
  set (m2 := {| heap := h2; world_of := w; calls := [] |}).
  pose proof (identities_group_set items kwargs m2) as Hid.
  assert (Hmir2 : mirrors_all made_from h2 (BaseGraph._items g) items).
  { eapply mirrors_all_impl; [|exact Hmir]. intros key d n s Hs HP.
    specialize (Hwire n). rewrite Hs in Hwire. destruct Hwire as (s' & Hs' & E).
    exists s'. split; [done|]. unfold made_from in *. congruence. }
  assert (Hdom2 : forall n, is_Some (h2 !! n) <-> is_Some (Context.w_heap st !! n)).
  { intros n. specialize (Hwire n). destruct (Context.w_heap st !! n) as [s|].
    - destruct Hwire as (s' & -> & _). split; intros _; by eexists.
    - rewrite Hwire. done. }
  unfold NodeGroup.set in Hid.
  destruct (NodeGroup._set_params items kwargs m2) as [[[]|e] m'] eqn:Es; [|done].
  intros [= <- <-]. simpl in *. split_and!.
  - eapply mirrors_all_impl; [|exact Hmir2]. intros key d n s Hs HP.
    destruct (identities_lookup m2 m' n s Hid Hs) as (s' & Hs' & E).
    exists s'. split; [done|]. unfold made_for, made_from in *.
    rewrite E. unfold settings, identity_of in *. congruence.
  - intros ->. revert Es. unfold NodeGroup._set_params. intros Es.
    vm_compute in Es. injection Es as <-. exact Hmir2.
  - rewrite Hleaves. apply NoDup_seq.
  - intros n. rewrite Hleaves, elem_of_seq, (identities_dom m2 m' n Hid).
    simpl. rewrite Hdom2, (Hdense n). lia.
Qed.

Lemma instance_mirrors_blueprint_witness :
  wf_items (BaseGraph._items nested_graph) = true /\
  NoDup (leaves_of nested_items) /\
  mirrors_all made_from (heap nested_machine) (BaseGraph._items nested_graph) nested_items.
Proof.
  assert (wf_items (BaseGraph._items nested_graph) = true) as Hwf
    by (vm_compute; reflexivity).
  split; [exact Hwf|].
  destruct (is_ok_inv (Graph.__call__ nested_graph ∅ ∅)) as [[c m] E];
    [vm_compute; reflexivity|].
  unfold nested_items, nested_machine. rewrite E. cbn [items_of machine_of].
  destruct (instance_mirrors_blueprint nested_graph ∅ ∅ c m Hwf E) as (_ & H1 & H2 & _).
  split; [exact H2|exact (H1 eq_refl)].
Defined.

End Mirroring.
